(** * TupleMeasure / ICQA attribution engine: shallow embedding and proofs

    The development follows the Python sources under
    [TupleMeasure_ICQA/code]: the constant-weight measures
    ([measures/cbm.py], [measures/cim.py]), the hitting-set based RIM
    measure ([measures/rim.py]) and the three answer-level aggregators
    ([compute_icqa_prov.py], [compute_icqa_resp.py], [compute_icqa_shap.py]).

    Conventions of the embedding
    - Python [int] is unbounded: bit masks are [N], other integers [Z] or
      [nat] (indices produced by [enumerate]).
    - Python [float] is idealised as an exact rational [Q]: the functions
      compute without rounding.  Results of numpy divisions that can be
      [nan]/[inf] use the type [pyfloat].  Where the rounding of the
      doubles decides a property, the float expression is given on binary64
      numbers as well (last part of the definitions).
    - A Python [set] of indices is a list (its iteration order); a [dict]
      whose iteration order matters is an association list in insertion
      order, other dictionaries are [gmap]s.
    - Exceptions are the [Err] case of [result].
    - What lies outside the repository is a parameter: the CP-SAT and
      Glucose solvers, the numpy random generator, Python's [int] on
      strings and [hash] on tuples are Section variables, and what the
      proofs need of them is stated as a hypothesis. *)

From stdpp Require Import gmap strings sorting.
From Equations Require Import Equations.
From Stdlib Require Import Ascii String ZArith NArith QArith Lia Permutation Bool List.
From Stdlib Require DecimalString DecimalZ.
From Stdlib Require Import Lqa Qabs.
From Stdlib Require Import Floats.
Import ListNotations.

Set Warnings "-register-all,-notation-for-abbreviation".

Local Open Scope nat_scope.

(** ** Python-level helpers *)

Inductive pyerror : Type :=
| ValueError (msg : string)
| TypeError
| AttributeError
| IndexError
| KeyError
| ZeroDivisionError
| JSONDecodeError.

Inductive result (A : Type) : Type :=
| Ok (a : A)
| Err (e : pyerror).
Arguments Ok {A} a.
Arguments Err {A} e.

Definition bind {A B : Type} (r : result A) (k : A -> result B) : result B :=
  match r with
  | Ok a => k a
  | Err e => Err e
  end.

Notation "'let*' x ':=' r 'in' k" := (bind r (fun x => k))
  (at level 10, x name, r at level 100, k at level 200).

(** [for x in l: acc = body(acc, x)] where the body may raise. *)
Fixpoint for_each {A S : Type} (body : S -> A -> result S) (l : list A) (acc : S)
  : result S :=
  match l with
  | [] => Ok acc
  | x :: rest => let* acc' := body acc x in for_each body rest acc'
  end.

Definition Qsum (l : list Q) : Q := fold_right Qplus 0%Q l.
Definition Zsum (l : list Z) : Z := fold_right Z.add 0%Z l.

(** [x in S] for a set of indices. *)
Definition mem (x : nat) (S : list nat) : bool := existsb (Nat.eqb x) S.

(** Truthiness of a collection: [if e:] *)
Definition nonempty {A : Type} (l : list A) : bool :=
  match l with [] => false | _ :: _ => true end.

(** Values of a Python/numpy [float] that the code can produce: a finite
    number (idealised as a rational), an infinity or [nan]. *)
Inductive pyfloat : Type :=
| Fin (q : Q)
| Inf (negative : bool)
| NaN.

Definition Qis_zero (q : Q) : bool := Qeq_bool q 0.
Definition Qis_neg (q : Q) : bool := negb (Qle_bool 0 q).

Definition pf_add (a b : pyfloat) : pyfloat :=
  match a, b with
  | Fin x, Fin y => Fin (x + y)
  | NaN, _ | _, NaN => NaN
  | Inf s, Inf s' => if Bool.eqb s s' then Inf s else NaN
  | Inf s, Fin _ | Fin _, Inf s => Inf s
  end.

Definition pf_mul (a b : pyfloat) : pyfloat :=
  match a, b with
  | Fin x, Fin y => Fin (x * y)
  | NaN, _ | _, NaN => NaN
  | Inf s, Inf s' => Inf (xorb s s')
  | Inf s, Fin y | Fin y, Inf s =>
      if Qis_zero y then NaN else Inf (xorb s (Qis_neg y))
  end.

(** Elementwise numpy division of a float by a Python [int]: no exception,
    [0/0] is [nan] and [c/0] an infinity. *)
Definition np_div (c : Q) (d : Z) : pyfloat :=
  if (d =? 0)%Z then
    if Qis_zero c then NaN else Inf (Qis_neg c)
  else Fin (c / inject_Z d).

(** ** measures/common.py *)

Notation TupleKey := (string * list Z)%type.

(** A parsed JSON document, as [json.loads] returns it.  Numbers with a
    fractional part do not occur in MIS files and are left out; a
    dictionary is the list of its items in insertion order (keys unique). *)
Inductive json : Type :=
| JNull
| JBool (b : bool)
| JInt (z : Z)
| JStr (s : string)
| JList (items : list json)
| JDict (items : list (string * json)).

Fixpoint dict_get (key : string) (items : list (string * json)) : option json :=
  match items with
  | [] => None
  | (k, v) :: rest => if String.eqb k key then Some v else dict_get key rest
  end.

Fixpoint string_chars (s : string) : list string :=
  match s with
  | EmptyString => []
  | String c rest => String c EmptyString :: string_chars rest
  end.

(** [for x in obj] on a decoded JSON value. *)
Definition py_iter (obj : json) : result (list json) :=
  match obj with
  | JList items => Ok items
  | JDict items => Ok (map (fun kv => JStr (fst kv)) items)
  | JStr s => Ok (map JStr (string_chars s))
  | JNull | JBool _ | JInt _ => Err TypeError
  end.

(** [len(obj)] on a decoded JSON value. *)
Definition py_len (obj : json) : result nat :=
  match obj with
  | JList items => Ok (length items)
  | JDict items => Ok (length items)
  | JStr s => Ok (String.length s)
  | JNull | JBool _ | JInt _ => Err TypeError
  end.

Fixpoint map_result {A B : Type} (f : A -> result B) (l : list A) : result (list B) :=
  match l with
  | [] => Ok []
  | x :: rest =>
      let* y := f x in
      let* ys := map_result f rest in
      Ok (y :: ys)
  end.

Section Common.

(** Python's [int(s)] on a string; [None] stands for its [ValueError]. *)
Variable int_of_str : string -> option Z.

(** [int(x)] *)
Definition py_int (x : json) : result Z :=
  match x with
  | JInt z => Ok z
  | JBool b => Ok (Z.b2z b)
  | JStr s =>
      match int_of_str s with
      | Some z => Ok z
      | None => Err (ValueError "invalid literal for int()")
      end
  | JNull | JList _ | JDict _ => Err TypeError
  end.

Definition normalize_pk (pk : json) : result (list Z) :=
  match pk with
  | JNull => Err (ValueError "pk is None")
  | JInt z => Ok [z]
  | JBool b => Ok [Z.b2z b]
  | JList items =>
      match items with
      | [] => Err (ValueError "empty pk list")
      | _ :: _ => map_result py_int items
      end
  | JStr _ | JDict _ => let* z := py_int pk in Ok [z]
  end.

(** The keys one relation entry of a MIS yields. *)
Definition iter_rel_tuples (rel : string) (pks : json) : result (list TupleKey) :=
  match pks with
  | JNull => Ok []
  | JList items => map_result (fun item => let* k := normalize_pk item in Ok (rel, k)) items
  | _ => let* k := normalize_pk pks in Ok [(rel, k)]
  end.

(** [iter_mis_tuples] is a generator; every caller consumes it completely
    and lets an exception escape, so it is modelled by the list of all
    yielded keys, or the exception. *)
Definition iter_mis_tuples (mis : json) : result (list TupleKey) :=
  match mis with
  | JDict fields =>
      match default (JDict []) (dict_get "tuples" fields) with
      | JDict rels =>
          let* chunks := map_result (fun kv => iter_rel_tuples (fst kv) (snd kv)) rels in
          Ok (concat chunks)
      | _ => Ok []
      end
  | _ => Err AttributeError
  end.

(** The text of a file is either not JSON at all or decodes to a value. *)
Definition file : Type := option json.

(** [load_mis_file]: the result is whatever the document holds; the
    callers iterate it with [py_iter]. *)
Definition load_mis_file (f : file) : result json :=
  match f with
  | None => Err JSONDecodeError
  | Some (JList items) => Ok (JList items)
  | Some (JDict fields) =>
      match dict_get "mis" fields with
      | Some v => Ok v
      | None => Err (ValueError "Unexpected MIS JSON structure")
      end
  | Some _ => Err (ValueError "Unexpected MIS JSON structure")
  end.

(** [mis_dir / f"{dc}.json"] *)
Definition dc_path (dc : string) : string := (dc ++ ".json")%string.

(** A [defaultdict(float)] read: a missing key reads as [0.0]. *)
Definition score_get (score : gmap (string * list Z) Q) (tk : TupleKey) : Q :=
  default 0%Q (score !! tk).

(** [score[tk] += w] *)
Definition score_add (tk : TupleKey) (w : Q) (score : gmap (string * list Z) Q)
  : gmap (string * list Z) Q :=
  <[tk := (score_get score tk + w)%Q]> score.

(** ** measures/cbm.py *)

Definition cbm_tuples_for_dc (mis_list : list json) : result (gset (string * list Z)) :=
  for_each (fun (tuples_for_dc : gset (string * list Z)) mis =>
              let* tks := iter_mis_tuples mis in
              Ok (fold_left (fun acc tk => {[tk]} ∪ acc) tks tuples_for_dc))
           mis_list ∅.

Definition compute_cbm (mis_dir : gmap string file) (dcs : list string)
  : result (gmap (string * list Z) Q) :=
  for_each (fun score dc =>
              match mis_dir !! dc_path dc with
              | None => Ok score
              | Some f =>
                  let* data := load_mis_file f in
                  let* mis_list := py_iter data in
                  let* tuples_for_dc := cbm_tuples_for_dc mis_list in
                  Ok (set_fold (fun tk sc => score_add tk 1%Q sc) score tuples_for_dc)
              end)
           dcs ∅.

(** ** measures/cim.py *)

Definition CIM_WEIGHTS : list (string * list (string * Q)) :=
  [ ("DC1", [("lineitem", 1%Q)]);
    ("DC2", [("orders", 2%Q); ("lineitem", 2%Q)]);
    ("DC3", [("orders", 2%Q); ("lineitem", 2%Q)]);
    ("DC4", [("lineitem", 2%Q); ("partsupp", 3%Q); ("part", 1%Q)]) ]%string.

Fixpoint assoc_get {V : Type} (key : string) (items : list (string * V)) : option V :=
  match items with
  | [] => None
  | (k, v) :: rest => if String.eqb k key then Some v else assoc_get key rest
  end.

Definition cim_add_mis (rel_w : list (string * Q)) (score : gmap (string * list Z) Q)
  (tks : list TupleKey) : gmap (string * list Z) Q :=
  fold_left (fun sc (tk : TupleKey) =>
               let w := default 0%Q (assoc_get (fst tk) rel_w) in
               if Qis_zero w then sc else score_add tk w sc)
            tks score.

Definition compute_cim (mis_dir : gmap string file) (dcs : list string)
  : result (gmap (string * list Z) Q) :=
  for_each (fun score dc =>
              let rel_w := default [] (assoc_get dc CIM_WEIGHTS) in
              if negb (nonempty rel_w) then Ok score else
              match mis_dir !! dc_path dc with
              | None => Ok score
              | Some f =>
                  let* data := load_mis_file f in
                  let* mis_list := py_iter data in
                  for_each (fun sc mis =>
                              let* tks := iter_mis_tuples mis in
                              Ok (cim_add_mis rel_w sc tks))
                           mis_list score
              end)
           dcs ∅.

End Common.

(** ** measures/rim.py : greedy upper bound *)

(** [freq[u] += 1] on a [defaultdict(int)]; the association list keeps
    the insertion order that [freq.items()] later iterates in. *)
Fixpoint freq_incr (u : nat) (freq : list (nat * Z)) : list (nat * Z) :=
  match freq with
  | [] => [(u, 1%Z)]
  | (k, c) :: rest =>
      if Nat.eqb k u then (k, (c + 1)%Z) :: rest else (k, c) :: freq_incr u rest
  end.

(** [for e in uncovered: for u in e: freq[u] += 1] *)
Definition count_freq (uncovered : list (list nat)) : list (nat * Z) :=
  fold_left (fun freq e => fold_left (fun fr u => freq_incr u fr) e freq)
            uncovered [].

(** [best_u, best_f = None, -1; for u, f in freq.items(): if f > best_f: ...] *)
Definition pick_best (freq : list (nat * Z)) : option nat * Z :=
  fold_left (fun (best : option nat * Z) (uf : nat * Z) =>
               if (snd best <? snd uf)%Z then (Some (fst uf), snd uf) else best)
            freq (None, (-1)%Z).

(** [uncovered = [e for e in uncovered if best_u not in e]] *)
Definition remove_hit (best_u : nat) (uncovered : list (list nat)) : list (list nat) :=
  List.filter (fun e => negb (mem best_u e)) uncovered.

Definition inspect {A : Type} (a : A) : {b : A | a = b} := exist _ a eq_refl.

(** *** Termination of the [while uncovered:] loop

    The element picked from [freq] occurs in an uncovered edge, so every
    iteration removes at least one edge. *)

Lemma freq_incr_keys u freq k :
  In k (map fst (freq_incr u freq)) <-> k = u \/ In k (map fst freq).
Proof.
  induction freq as [|[k' c] rest IH]; simpl.
  - intuition congruence.
  - destruct (Nat.eqb_spec k' u) as [->|Hne]; simpl.
    + intuition.
    + rewrite IH. intuition.
Qed.

Lemma count_edge_keys e freq k :
  In k (map fst (fold_left (fun fr u => freq_incr u fr) e freq))
  <-> In k e \/ In k (map fst freq).
Proof.
  revert freq. induction e as [|u e IH]; intros freq; simpl.
  - intuition.
  - rewrite IH, freq_incr_keys. intuition congruence.
Qed.

Lemma count_freq_keys_from uncovered freq k :
  In k (map fst (fold_left
                   (fun fq e => fold_left (fun fr u => freq_incr u fr) e fq)
                   uncovered freq))
  <-> (exists e, In e uncovered /\ In k e) \/ In k (map fst freq).
Proof.
  revert freq. induction uncovered as [|e rest IH]; intros freq; simpl.
  - split; [auto | intros [(e & [] & _)|H]; exact H].
  - rewrite IH, count_edge_keys. split.
    + intros [(e' & He' & Hk)|[Hk|Hk]]; eauto 6.
    + intros [(e' & [<-|He'] & Hk)|Hk]; eauto 6.
Qed.

Lemma count_freq_keys uncovered k :
  In k (map fst (count_freq uncovered)) <-> exists e, In e uncovered /\ In k e.
Proof.
  unfold count_freq. rewrite count_freq_keys_from. simpl.
  split; [intros [H|[]]; exact H | auto].
Qed.

Lemma pick_best_from_key freq best u :
  fst (fold_left (fun (b : option nat * Z) (uf : nat * Z) =>
                    if (snd b <? snd uf)%Z then (Some (fst uf), snd uf) else b)
                 freq best) = Some u ->
  fst best = Some u \/ In u (map fst freq).
Proof.
  revert best. induction freq as [|[k c] rest IH]; intros best H; simpl in *.
  - auto.
  - apply IH in H. destruct H as [H|H]; [|auto].
    destruct (snd best <? c)%Z; simpl in H; [|auto].
    injection H as ->. auto.
Qed.

Lemma mem_In x S : mem x S = true <-> In x S.
Proof.
  unfold mem. rewrite existsb_exists. split.
  - intros (y & Hy & Heq). apply Nat.eqb_eq in Heq. congruence.
  - intros H. exists x. split; [exact H | apply Nat.eqb_refl].
Qed.

Lemma pick_best_in_edge uncovered u :
  fst (pick_best (count_freq uncovered)) = Some u ->
  exists e, In e uncovered /\ mem u e = true.
Proof.
  intros H. apply pick_best_from_key in H. destruct H as [H|H]; [discriminate|].
  apply count_freq_keys in H. destruct H as (e & He & Hu).
  exists e. split; [exact He | now apply mem_In].
Qed.

Lemma remove_hit_shorter u uncovered :
  (exists e, In e uncovered /\ mem u e = true) ->
  length (remove_hit u uncovered) < length uncovered.
Proof.
  intros (e & He & Hu). unfold remove_hit.
  induction uncovered as [|e' rest IH]; simpl in *; [contradiction|].
  destruct He as [->|He].
  - rewrite Hu. simpl.
    pose proof (List.filter_length_le (fun e0 => negb (mem u e0)) rest). lia.
  - specialize (IH He). destruct (negb (mem u e')); simpl; lia.
Qed.

(** The loop itself; [size] is the running counter. *)
Equations? greedy_loop (uncovered : list (list nat)) (size : nat) : nat
  by wf (length uncovered) lt :=
  greedy_loop [] size := size;
  greedy_loop (e :: rest) size
    with inspect (fst (pick_best (count_freq (e :: rest)))) := {
    | exist _ None _ := size;
    | exist _ (Some best_u) Hpick :=
        greedy_loop (remove_hit best_u (e :: rest)) (S size) }.
Proof.
  apply (remove_hit_shorter best_u (e :: rest)).
  now apply pick_best_in_edge.
Qed.

Definition greedy_hitting_set_size (edges : list (list nat)) : nat :=
  let uncovered := List.filter nonempty edges in
  if nonempty uncovered then greedy_loop uncovered 0 else 0.



(** ** measures/rim.py : exact solver, hypergraph and RIM *)

Inductive rim_status : Type := OPTIMAL | FEASIBLE | TIMEOUT | TRIVIAL.

(** Status codes of the CP-SAT solver. *)
Inductive cp_status : Type :=
| CP_UNKNOWN | CP_MODEL_INVALID | CP_FEASIBLE | CP_INFEASIBLE | CP_OPTIMAL.

(** The model handed to CP-SAT: one Boolean variable per node, one
    constraint [sum(x[i] for i in e) >= 1] per listed edge, the objective
    [sum(x)] to minimise and the optional cut [obj <= upper_bound]. *)
Record CpModel : Type := {
  cp_vars : list nat;
  cp_hit : list (list nat);
  cp_bound : option Z
}.

(** [runtime_ms] (wall-clock time) is not modelled. *)
Record GammaResult : Type := {
  gamma : Z;
  status : rim_status;
  n_edges : nat;
  n_nodes : nat
}.

(** [sorted(...)] on integers. *)
Definition sorted_nat (l : list nat) : list nat := merge_sort le l.
Definition sorted_Z (l : list Z) : list Z := merge_sort Z.le l.

(** Python's order on [(relation, pk_tuple)] keys: strings first, then the
    integer tuples, both lexicographic. *)
Fixpoint list_Z_leb (a b : list Z) : bool :=
  match a, b with
  | [], _ => true
  | _ :: _, [] => false
  | x :: a', y :: b' =>
      if (x <? y)%Z then true else if (y <? x)%Z then false else list_Z_leb a' b'
  end.

Definition tuplekey_leb (a b : TupleKey) : bool :=
  match String.compare (fst a) (fst b) with
  | Lt => true
  | Gt => false
  | Eq => list_Z_leb (snd a) (snd b)
  end.

Definition sorted_keys (l : list TupleKey) : list TupleKey :=
  merge_sort (fun a b => Is_true (tuplekey_leb a b)) l.

(** [{tk: i for i, tk in enumerate(all_nodes)}[tk]]: the position of [tk]
    in the duplicate-free list [all_nodes]. *)
Fixpoint node_id (all_nodes : list TupleKey) (tk : TupleKey) : nat :=
  match all_nodes with
  | [] => 0
  | x :: rest => if decide (x = tk) then 0 else S (node_id rest tk)
  end.

(** Insertion-ordered dictionaries keyed by [TupleKey]. *)
Fixpoint alist_get {V : Type} (tk : TupleKey) (d : list (TupleKey * V)) : option V :=
  match d with
  | [] => None
  | (k, v) :: rest => if decide (k = tk) then Some v else alist_get tk rest
  end.

Fixpoint alist_set {V : Type} (tk : TupleKey) (v : V) (d : list (TupleKey * V))
  : list (TupleKey * V) :=
  match d with
  | [] => [(tk, v)]
  | (k, v') :: rest =>
      if decide (k = tk) then (k, v) :: rest else (k, v') :: alist_set tk v rest
  end.

(** [d[tk]] *)
Definition alist_item {V : Type} (d : list (TupleKey * V)) (tk : TupleKey) : result V :=
  match alist_get tk d with
  | Some v => Ok v
  | None => Err KeyError
  end.

(** [1.0 / (1.0 + g)] *)
Definition rho_of_gamma (g : Z) : result Q :=
  if (1 + g =? 0)%Z then Err ZeroDivisionError
  else Ok (1 / (1 + inject_Z g))%Q.

(** [[e for e in edges_ids if t_id not in e]] *)
Definition edges_without (t_id : nat) (edges_ids : list (list nat)) : list (list nat) :=
  List.filter (fun e => negb (mem t_id e)) edges_ids.

Section Rim.

Variable int_of_str : string -> option Z.

(** [hash(...)] of a tuple of integers. *)
Variable py_hash : list nat -> Z.

(** The CP-SAT solver: given its state (search, clock), the time limit
    and the model, it answers with a status and [ObjectiveValue()]. *)
Variable solver_state : Type.
Variable CpSolver_Solve : solver_state -> Q -> CpModel -> cp_status * Z * solver_state.

Definition cp_model_of (edges : list (list nat)) (upper_bound : option Z) : CpModel :=
  {| cp_vars := sorted_nat (nodup Nat.eq_dec (concat edges));
     cp_hit := List.filter nonempty edges;
     cp_bound := upper_bound |}.

Definition solve_min_hitting_set_size_cpsat (st : solver_state)
  (edges : list (list nat)) (time_limit_s : Q) (upper_bound : option Z)
  : Z * rim_status * solver_state :=
  if negb (nonempty edges) then (0%Z, TRIVIAL, st) else
  let '(status, objective_value, st') :=
    CpSolver_Solve st time_limit_s (cp_model_of edges upper_bound) in
  match status with
  | CP_OPTIMAL => (objective_value, OPTIMAL, st')
  | CP_FEASIBLE => (objective_value, FEASIBLE, st')
  | _ => (match upper_bound with Some ub => ub | None => (-1)%Z end, TIMEOUT, st')
  end.

Definition build_hypergraph_from_mis (mis_list : list json)
  : result (list (gset (string * list Z)) * gset (string * list Z)) :=
  for_each (fun (acc : list (gset (string * list Z)) * gset (string * list Z)) mis =>
              let* tks := iter_mis_tuples int_of_str mis in
              let e : gset (string * list Z) := list_to_set tks in
              if decide (e = ∅) then Ok acc
              else Ok (fst acc ++ [e], snd acc ∪ e))
           mis_list ([], ∅).

(** The state threaded through [for t in universe:]. *)
Record rim_loop_state : Type := {
  rl_cache : gmap (list Z) (Z * rim_status);
  rl_gamma_details : list (TupleKey * GammaResult);
  rl_rho : list (TupleKey * Q);
  rl_solver : solver_state
}.

(** [tuple(sorted(hash(tuple(sorted(e))) for e in filtered))] *)
Definition edge_signature (filtered : list (list nat)) : list Z :=
  sorted_Z (map (fun e => py_hash (sorted_nat e)) filtered).

(** One iteration of [for t in universe:]. *)
Definition rim_step (all_nodes : list TupleKey) (edges_ids : list (list nat))
  (time_limit_s : Q) (enable_cache : bool)
  (s : rim_loop_state) (t : TupleKey) : result rim_loop_state :=
  let t_id := node_id all_nodes t in
  let filtered := edges_without t_id edges_ids in
  let sig := edge_signature filtered in
  match (if enable_cache then rl_cache s !! sig else None) with
  | Some (g, st) =>
      let* r := rho_of_gamma g in
      Ok {| rl_cache := rl_cache s;
            rl_gamma_details :=
              alist_set t {| gamma := g; status := st;
                             n_edges := length filtered;
                             n_nodes := length all_nodes |} (rl_gamma_details s);
            rl_rho := alist_set t r (rl_rho s);
            rl_solver := rl_solver s |}
  | None =>
      let ub := Z.of_nat (greedy_hitting_set_size filtered) in
      let '(g0, st0, solver') :=
        solve_min_hitting_set_size_cpsat (rl_solver s) filtered time_limit_s (Some ub) in
      let '(g, st) := if (g0 <? 0)%Z then (ub, TIMEOUT) else (g0, st0) in
      let* r := rho_of_gamma g in
      Ok {| rl_cache := if enable_cache then <[sig := (g, st)]> (rl_cache s)
                        else rl_cache s;
            rl_gamma_details :=
              alist_set t {| gamma := g; status := st;
                             n_edges := length filtered;
                             n_nodes := length all_nodes |} (rl_gamma_details s);
            rl_rho := alist_set t r (rl_rho s);
            rl_solver := solver' |}
  end.

(** The part of [compute_rim_for_dc] up to the normalisation: the
    hypergraph, the node numbering and the loop over the universe. *)
Definition rim_rho_for_dc (st : solver_state) (mis_list : list json)
  (time_limit_s : Q) (enable_cache : bool)
  : result (gset (string * list Z) * rim_loop_state) :=
  let* hg := build_hypergraph_from_mis mis_list in
  let edges_tk := fst hg in
  let universe := snd hg in
  let all_nodes := sorted_keys (elements universe) in
  let edges_ids := map (fun e : gset (string * list Z) =>
                          map (node_id all_nodes) (elements e)) edges_tk in
  let* s := for_each (rim_step all_nodes edges_ids time_limit_s enable_cache)
                     (elements universe)
                     {| rl_cache := ∅; rl_gamma_details := [];
                        rl_rho := []; rl_solver := st |} in
  Ok (universe, s).

Definition compute_rim_for_dc (st : solver_state) (mis_list : list json)
  (time_limit_s : Q) (enable_cache : bool)
  : result (list (TupleKey * Q) * list (TupleKey * GammaResult) * solver_state) :=
  let m := length mis_list in
  if Nat.eqb m 0 then Ok ([], [], st) else
  let* us := rim_rho_for_dc st mis_list time_limit_s enable_cache in
  let universe := fst us in
  let rho := rl_rho (snd us) in
  let gamma_details := rl_gamma_details (snd us) in
  let denom := Qsum (map snd rho) in
  if Qle_bool denom 0 then Ok ([], gamma_details, rl_solver (snd us)) else
  let* rim_contrib :=
    map_result (fun t => let* r := alist_item rho t in
                         Ok (t, (r / denom) * inject_Z (Z.of_nat m))%Q)
               (elements universe) in
  Ok (rim_contrib, gamma_details, rl_solver (snd us)).

End Rim.

Arguments rl_cache {solver_state} _.
Arguments rl_gamma_details {solver_state} _.
Arguments rl_rho {solver_state} _.
Arguments rl_solver {solver_state} _.

(** ** Tables (pandas data frames) shared by the three ICQA scripts *)

(** A row of the support-set table, after
    [df["relation"] = df["rel"].astype(str)] and [df["pk"].astype(str)].
    A missing [support_id] (NaN) is [None]. *)
Record support_row : Type := {
  s_answer_id : Z;
  s_answervalue : string;
  s_support_id : option Z;
  s_rel : string;
  s_pk : string
}.

(** A row of the tuple-measure table. *)
Record measure_row : Type := {
  m_relation : string;
  m_pk : string;
  m_measure : string;
  m_value : Q
}.

(** An output row: the answer and the score columns that were stored in
    it.  The pass-through columns [scale], [subset], [ratio], [seed] and
    [qname] are copied verbatim by the code and are left out. *)
Record icqa_row : Type := {
  r_answer_id : Z;
  r_answervalue : string;
  r_scores : list (string * pyfloat)
}.

Definition MEASURES : list string := ["CBM"; "CIM"; "PIM"; "RIM"]%string.

(** [str.upper] / [str.lower], on the ASCII letters. *)
Definition ascii_upper (c : ascii) : ascii :=
  let n := nat_of_ascii c in
  if (97 <=? n) && (n <=? 122) then ascii_of_nat (n - 32) else c.

Definition ascii_lower (c : ascii) : ascii :=
  let n := nat_of_ascii c in
  if (65 <=? n) && (n <=? 90) then ascii_of_nat (n + 32) else c.

Fixpoint string_map (f : ascii -> ascii) (s : string) : string :=
  match s with
  | EmptyString => EmptyString
  | String c rest => String (f c) (string_map f rest)
  end.

Definition upper : string -> string := string_map ascii_upper.
Definition lower : string -> string := string_map ascii_lower.

(** [drop_duplicates()]: keeps the first occurrence of every value. *)
Fixpoint drop_duplicates_from {A : Type} `{EqDecision A} (seen : list A) (l : list A)
  : list A :=
  match l with
  | [] => []
  | x :: rest =>
      if bool_decide (x ∈ seen) then drop_duplicates_from seen rest
      else x :: drop_duplicates_from (x :: seen) rest
  end.

Definition drop_duplicates {A : Type} `{EqDecision A} (l : list A) : list A :=
  drop_duplicates_from [] l.

(** [tuple_id = relation + "#" + pk] *)
Definition tuple_id (r : support_row) : string :=
  (s_rel r ++ "#" ++ s_pk r)%string.

(** Position of a tuple id in [uniq_tuples]: the [tid2idx] dictionary. *)
Fixpoint tid2idx (uniq_tuples : list string) (tid : string) : option nat :=
  match uniq_tuples with
  | [] => None
  | x :: rest =>
      if String.eqb x tid then Some 0 else option_map S (tid2idx rest tid)
  end.

(** [for _, g in sup_ans.groupby("support_id")]: the groups in increasing
    key order; rows without a key are dropped. *)
Definition groupby_support_id (sup_ans : list support_row) : list (list support_row) :=
  let keys := sorted_Z (drop_duplicates (omap s_support_id sup_ans)) in
  map (fun k => List.filter (fun r => bool_decide (s_support_id r = Some k)) sup_ans) keys.

(** The support sets of one answer as sets of indices:
    [S = {tid2idx[tid] for tid in g["tuple_id"]}; if S: support_sets.append(S)]. *)
Definition support_sets_of (uniq_tuples : list string) (sup_ans : list support_row)
  : list (list nat) :=
  List.filter nonempty
    (map (fun g => drop_duplicates (omap (fun r => tid2idx uniq_tuples (tuple_id r)) g))
         (groupby_support_id sup_ans)).

(** [tm_db.merge(tuple_meta, on=["relation", "pk"], how="inner")] where
    [tuple_meta = sup_ans[["relation", "pk", "tuple_id"]].drop_duplicates()];
    the rows are returned as (tuple_id, measure, value). *)
Definition merge_tuple_meta (tm_db : list measure_row) (sup_ans : list support_row)
  : list (string * string * Q) :=
  let tuple_meta := drop_duplicates (map (fun r => (s_rel r, s_pk r, tuple_id r)) sup_ans) in
  flat_map (fun tm =>
              map (fun meta : string * string * string => (snd meta, m_measure tm, m_value tm))
                  (List.filter (fun meta : string * string * string =>
                                  String.eqb (fst (fst meta)) (m_relation tm)
                                  && String.eqb (snd (fst meta)) (m_pk tm))
                               tuple_meta))
           tm_db.

(** [{m: 0.0 for m in MEASURES}] *)
Definition icqa_zero : list (string * pyfloat) := map (fun m => (m, Fin 0)) MEASURES.

(** [icqa[m] += x] on a dictionary that holds the key [m]. *)
Fixpoint icqa_add (m : string) (x : pyfloat) (icqa : list (string * pyfloat))
  : list (string * pyfloat) :=
  match icqa with
  | [] => []
  | (k, v) :: rest =>
      if String.eqb k m then (k, pf_add v x) :: rest else (k, v) :: icqa_add m x rest
  end.

(** The weighted accumulation shared by the responsibility and Shapley
    aggregators:
    [for _, r in tm_ans.iterrows(): ... icqa[m] += w * v]. *)
Definition icqa_weighted (weight : string -> pyfloat) (tm_ans : list (string * string * Q))
  : list (string * pyfloat) :=
  fold_left (fun icqa (r : string * string * Q) =>
               let tid := fst (fst r) in
               let m := upper (snd (fst r)) in
               if bool_decide (m ∈ map fst icqa) then
                 icqa_add m (pf_mul (weight tid) (Fin (snd r))) icqa
               else icqa)
            tm_ans icqa_zero.

(** [row[f"icqa_<agg>_{m.lower()}"] = icqa[m]] for the four measures. *)
Definition score_columns (agg : string) (icqa : list (string * pyfloat))
  : list (string * pyfloat) :=
  omap (fun m => option_map (fun v => (("icqa_" ++ agg ++ "_" ++ lower m)%string, v))
                            (assoc_get m icqa))
       MEASURES.

(** Reading a score column of an output row. *)
Definition row_score (column : string) (row : icqa_row) : option pyfloat :=
  assoc_get column (r_scores row).

(** ** compute_icqa_shap.py *)

Definition N_EXACT : nat := 14.
Definition N_SAMPLES : Z := 10000.
Definition RNG_SEED : Z := 0.

(** [1 << idx] *)
Definition bit (idx : nat) : N := N.shiftl 1 (N.of_nat idx).

(** [range(size)] as masks. *)
Definition range_N (size : nat) : list N := map N.of_nat (seq 0 size).

Definition _support_sets_to_masks (support_sets : list (list nat)) (n : nat) : list N :=
  map (fun S => fold_left (fun m i => N.lor m (bit i)) S 0%N) support_sets.

(** [all(mask & sm for sm in support_masks)] *)
Definition hits_all (support_masks : list N) (mask : N) : bool :=
  forallb (fun sm => negb (N.eqb (N.land mask sm) 0)) support_masks.

Definition _compute_v_masks (support_sets : list (list nat)) (n : nat)
  : list Z * list N :=
  let support_masks := _support_sets_to_masks support_sets n in
  let size := 2 ^ n in
  (map (fun mask => if hits_all support_masks mask then 1%Z else 0%Z) (range_N size),
   support_masks).

(** [int.bit_count] *)
Fixpoint pos_popcount (p : positive) : nat :=
  match p with
  | xH => 1
  | xO q => pos_popcount q
  | xI q => S (pos_popcount q)
  end.

Definition popcount (mask : N) : nat :=
  match mask with
  | N0 => 0
  | Npos p => pos_popcount p
  end.

(** [fact = [1] * (n + 1); for i in range(1, n + 1): fact[i] = fact[i - 1] * i] *)
Definition fact_table (n : nat) : list Z :=
  fold_left (fun (fact : list Z) i => <[i := (nth (i - 1) fact 0 * Z.of_nat i)%Z]> fact)
            (seq 1 n) (repeat 1%Z (n + 1)).

(** The body of [for mask in range(size):] for element [t]. *)
Definition exact_step (n : nat) (v_mask fact : list Z) (denom : Z) (bit_t : N)
  (s : Q) (mask : N) : Q :=
  if negb (N.eqb (N.land mask bit_t) 0) then s else
  let k := popcount mask in
  let vC := nth (N.to_nat mask) v_mask 0%Z in
  let vCt := nth (N.to_nat (N.lor mask bit_t)) v_mask 0%Z in
  if (vCt =? vC)%Z then s else
  let fact_k := nth k fact 0%Z in
  let fact_rest := nth (n - k - 1) fact 0%Z in
  let weight := (inject_Z (fact_k * fact_rest) / inject_Z denom)%Q in
  (s + weight * inject_Z (vCt - vC))%Q.

Definition exact_shapley (support_sets : list (list nat)) (n : nat) : list Q :=
  if Nat.eqb n 0 then [] else
  let v_mask := fst (_compute_v_masks support_sets n) in
  let size := 2 ^ n in
  let fact := fact_table n in
  let denom := nth n fact 0%Z in
  map (fun t => fold_left (exact_step n v_mask fact denom (bit t)) (range_N size) 0%Q)
      (seq 0 n).

(** [counts[idx] += 1.0] *)
Definition counts_incr (idx : nat) (counts : list Q) : list Q :=
  <[idx := (nth idx counts 0 + 1)%Q]> counts.

(** The walk along one sampled permutation: [for idx in perm:]. *)
Fixpoint shap_walk (support_masks : list N) (perm : list nat)
  (coalition_mask : N) (vC : bool) (counts : list Q) : list Q :=
  match perm with
  | [] => counts
  | idx :: rest =>
      if vC then counts else
      let coalition_mask := N.lor coalition_mask (bit idx) in
      let new_vC := hits_all support_masks coalition_mask in
      if negb vC && new_vC then counts_incr idx counts
      else shap_walk support_masks rest coalition_mask new_vC counts
  end.

Section Shapley.

(** The numpy random generator: its state, [np.random.default_rng(seed)]
    and [rng.permutation(n)], which also advances the generator. *)
Variable rng_state : Type.
Variable default_rng : Z -> rng_state.
Variable rng_permutation : rng_state -> nat -> list nat * rng_state.

(** [for _ in range(num_samples):] *)
Fixpoint approx_samples (num_samples : nat) (support_masks : list N) (n : nat)
  (rng : rng_state) (counts : list Q) : list Q * rng_state :=
  match num_samples with
  | O => (counts, rng)
  | S k =>
      let '(perm, rng') := rng_permutation rng n in
      approx_samples k support_masks n rng' (shap_walk support_masks perm 0%N false counts)
  end.

(** Returns the estimates and the generator as the call leaves it. *)
Definition approx_shapley (support_sets : list (list nat)) (n : nat)
  (num_samples : Z) (rng : option rng_state) : list pyfloat * rng_state :=
  let rng := match rng with Some g => g | None => default_rng RNG_SEED end in
  if Nat.eqb n 0 then ([], rng) else
  let support_masks := _support_sets_to_masks support_sets n in
  let '(counts, rng') :=
    approx_samples (Z.to_nat num_samples) support_masks n rng (repeat 0%Q n) in
  (map (fun c => np_div c num_samples) counts, rng').

Definition compute_icqa_shap_for_answer (answer_id : Z)
  (support_ans : list support_row) (tm_db : list measure_row) (rng : rng_state)
  : result (icqa_row * rng_state) :=
  let* answervalue :=
    match support_ans with
    | [] => Err IndexError
    | r :: _ => Ok (s_answervalue r)
    end in
  let uniq_tuples := drop_duplicates (map tuple_id support_ans) in
  let n := length uniq_tuples in
  let support_sets := support_sets_of uniq_tuples support_ans in
  let '(icqa, rng') :=
    if Nat.eqb n 0 || negb (nonempty support_sets) then (icqa_zero, rng) else
    let '(phi_list, rng') :=
      if n <=? N_EXACT then (map Fin (exact_shapley support_sets n), rng)
      else approx_shapley support_sets n N_SAMPLES (Some rng) in
    let phi_by_tid := fun tid =>
      match tid2idx uniq_tuples tid with
      | Some idx => nth idx phi_list (Fin 0)
      | None => Fin 0
      end in
    let tm_ans := merge_tuple_meta tm_db support_ans in
    if negb (nonempty tm_ans) then (icqa_zero, rng')
    else (icqa_weighted phi_by_tid tm_ans, rng') in
  Ok ({| r_answer_id := answer_id;
         r_answervalue := answervalue;
         r_scores := score_columns "shap" icqa |}, rng').

End Shapley.

(** ** compute_icqa_resp.py *)

(** PySAT numbers its variables from 1. *)
Definition var (i : nat) : nat := i + 1.

Section Resp.

(** The SAT call of one round: the answer of [solver.solve()] on a fresh
    Glucose4 instance holding the given positive clauses together with the
    clauses of [CardEnc.atmost(lits, bound)]. *)
Variable sat_atmost : list (list nat) -> list nat -> nat -> bool.

(** [for k in range(0, n + 1):];  [None] when the loop runs to its end. *)
Fixpoint resp_search (sets_minus_t : list (list nat)) (n : nat) (ks : list nat)
  : option nat :=
  match ks with
  | [] => None
  | k :: rest =>
      if existsb (fun S => negb (nonempty S)) sets_minus_t then Some 0
      else if sat_atmost (map (map var) sets_minus_t) (map var (seq 0 n)) k then Some k
      else resp_search sets_minus_t n rest
  end.

Definition min_hitting_set_size_for_t (support_sets : list (list nat))
  (universe_size : nat) (t_idx : nat) : nat :=
  let sets_minus_t := List.filter (fun S => negb (mem t_idx S)) support_sets in
  if negb (nonempty sets_minus_t) then 0 else
  let n := universe_size in
  match resp_search sets_minus_t n (seq 0 (n + 1)) with
  | Some k => k
  | None => n
  end.

(** [rho[tid] = 1.0 / (1 + h_star)] *)
Definition resp_rho (support_sets : list (list nat)) (n : nat) (idx_t : nat) : Q :=
  (1 / inject_Z (1 + Z.of_nat (min_hitting_set_size_for_t support_sets n idx_t)))%Q.

(** The body of [for idx_ans, row_ans in answers.iterrows():]. *)
Definition resp_row_for_answer (df : list support_row) (tm_db : list measure_row)
  (answer : Z * string) : icqa_row :=
  let sup_ans := List.filter (fun r => (s_answer_id r =? fst answer)%Z) df in
  let uniq_tuples := drop_duplicates (map tuple_id sup_ans) in
  let n := length uniq_tuples in
  let support_sets := support_sets_of uniq_tuples sup_ans in
  let icqa :=
    if Nat.eqb n 0 || negb (nonempty support_sets) then icqa_zero else
    let tm_ans := merge_tuple_meta tm_db sup_ans in
    if negb (nonempty tm_ans) then icqa_zero else
    let rho := fun tid =>
      match tid2idx uniq_tuples tid with
      | Some idx_t => Fin (resp_rho support_sets n idx_t)
      | None => Fin 0
      end in
    icqa_weighted rho tm_ans in
  {| r_answer_id := fst answer;
     r_answervalue := snd answer;
     r_scores := score_columns "resp" icqa |}.

Definition compute_resp_for_query (support_q : list support_row)
  (tm_db : list measure_row) : list icqa_row :=
  let answers := drop_duplicates (map (fun r => (s_answer_id r, s_answervalue r)) support_q) in
  map (resp_row_for_answer support_q tm_db) answers.

End Resp.

(** ** compute_icqa_prov.py *)

(** [support_df.merge(tm_db, on=["relation", "pk"], how="left")]: a support
    row without a partner is kept, its measure columns NaN ([None]). *)
Definition merge_left (support_df : list support_row) (tm_db : list measure_row)
  : list (support_row * option measure_row) :=
  flat_map (fun s =>
              match List.filter (fun tm => String.eqb (m_relation tm) (s_rel s)
                                           && String.eqb (m_pk tm) (s_pk s)) tm_db with
              | [] => [(s, None)]
              | ms => map (fun tm => (s, Some tm)) ms
              end)
           support_df.

(** [merged[merged["measure"].notna()]] *)
Definition measured_rows (merged : list (support_row * option measure_row))
  : list (support_row * measure_row) :=
  omap (fun sm : support_row * option measure_row =>
          option_map (fun tm => (fst sm, tm)) (snd sm)) merged.

Definition agg_key (sm : support_row * measure_row) : Z * string * string :=
  (s_answer_id (fst sm), s_answervalue (fst sm), m_measure (snd sm)).

(** [measured.groupby(["answer_id", "answervalue", "measure"])["value"].sum()] *)
Definition groupby_sum (measured : list (support_row * measure_row))
  : list (Z * string * string * Q) :=
  map (fun key =>
         (key, Qsum (map (fun sm => m_value (snd sm))
                         (List.filter (fun sm => bool_decide (agg_key sm = key)) measured))))
      (drop_duplicates (map agg_key measured)).

(** A cell of [agg.pivot_table(index=[...], columns="measure", aggfunc="sum")]:
    NaN where the answer has no group for the measure. *)
Definition pivot_cell (agg : list (Z * string * string * Q)) (answer : Z * string)
  (m : string) : pyfloat :=
  match List.filter (fun row : Z * string * string * Q =>
                       bool_decide (fst row = (answer, m))) agg with
  | [] => NaN
  | rows => Fin (Qsum (map snd rows))
  end.

(** The body of [for qname in QUERIES:] once a non-empty [support_df] has
    been read; [tm] holds the measure rows of the data base.  The order of
    the produced rows follows first occurrence (pandas orders them by key). *)
Definition icqa_prov_for_query (support_df : list support_row) (tm : list measure_row)
  : list icqa_row :=
  let tm_db := map (fun r => {| m_relation := m_relation r; m_pk := m_pk r;
                                m_measure := upper (m_measure r);
                                m_value := m_value r |}) tm in
  let merged := merge_left support_df tm_db in
  let measured := measured_rows merged in
  if negb (nonempty measured) then
    let answers :=
      drop_duplicates (map (fun r => (s_answer_id r, s_answervalue r)) support_df) in
    map (fun a : Z * string =>
           (* [for m in MEASURES: icqa_val = 0.0] stores nothing in the row *)
           {| r_answer_id := fst a; r_answervalue := snd a; r_scores := [] |})
        answers
  else
    let agg := groupby_sum measured in
    let columns := drop_duplicates (map (fun row : Z * string * string * Q => snd (fst row)) agg) in
    let index := drop_duplicates (map (fun row : Z * string * string * Q => fst (fst row)) agg) in
    map (fun a : Z * string =>
           {| r_answer_id := fst a; r_answervalue := snd a;
              r_scores :=
                map (fun m =>
                       (("icqa_prov_" ++ lower m)%string,
                        if bool_decide (m ∈ columns) then pivot_cell agg a m
                        else Fin 0))
                    MEASURES |})
        index.

(** ** The float expressions in binary64

    The expressions whose rounding matters for a property are also given
    on the doubles themselves (the kernel's binary64 numbers, with the
    IEEE 754 operations of the processor), so that the value the program
    computes can be set beside the rational the embedding works with. *)

(** [float(z)], the double nearest to the integer [z]. *)
Definition f64_of_Z (z : Z) : float := SF2Prim (binary_normalize 53 1024 z 0 false).

(** The rational a finite double stands for. *)
Definition f64_value (x : float) : option Q :=
  match Prim2SF x with
  | S754_zero _ => Some 0%Q
  | S754_finite s m e =>
      Some (Qred ((if s then -1 else 1) * inject_Z (Z.pos m) * Qpower 2 e))
  | _ => None
  end.

(** The sum of doubles taken in order, each addition rounded. *)
Definition f64_sum (l : list float) : float := fold_left PrimFloat.add l 0%float.

(** The sum of the values of finite doubles, without any rounding. *)
Definition f64_exact_sum (l : list float) : option Q :=
  fold_right (fun x acc =>
                match f64_value x, acc with
                | Some q, Some a => Some (Qred (q + a))
                | _, _ => None
                end)
             (Some 0%Q) l.

(** compute_icqa_shap.py, [phi = (counts / num_samples).tolist()] on the
    [float64] array [counts], which holds integers. *)
Definition np_div_f64 (counts : list Z) (num_samples : Z) : list float :=
  map (fun c => PrimFloat.div (f64_of_Z c) (f64_of_Z num_samples)) counts.



(** * Further parts of the code *)

(** ** measures/pim.py *)

(** [1.0 / 3.0] is the rational one third. *)
Definition PIM_WEIGHTS : list (string * Q) :=
  [ ("DC1"%string, 1%Q); ("DC2"%string, (1 # 2)%Q);
    ("DC3"%string, (1 # 2)%Q); ("DC4"%string, (1 / 3)%Q) ].

Section Pim.

Variable int_of_str : string -> option Z.

Definition compute_pim (mis_dir : gmap string file) (dcs : list string)
  : result (gmap (string * list Z) Q) :=
  for_each (fun score dc =>
              let w := default 0%Q (assoc_get dc PIM_WEIGHTS) in
              if Qis_zero w then Ok score else
              match mis_dir !! dc_path dc with
              | None => Ok score
              | Some f =>
                  let* data := load_mis_file f in
                  let* mis_list := py_iter data in
                  for_each (fun sc mis =>
                              let* tks := iter_mis_tuples int_of_str mis in
                              Ok (fold_left (fun s tk => score_add tk w s) tks sc))
                           mis_list score
              end)
           dcs ∅.

End Pim.

(** ** measures/rim.py : the measure across constraints *)

Section ComputeRim.

Variable int_of_str : string -> option Z.
Variable py_hash : list nat -> Z.
Variable solver_state : Type.
Variable CpSolver_Solve : solver_state -> Q -> CpModel -> cp_status * Z * solver_state.

(** [compute_rim]: [gamma_log] is keyed by the constraint name; the solver
    state is threaded through the constraints.  [compute_rim_for_dc]
    receives whatever [load_mis_file] returned and takes its [len] and
    iterates it, which is [py_iter] here. *)
Definition compute_rim (st : solver_state) (mis_dir : gmap string file)
  (dcs : list string) (time_limit_s : Q) (enable_cache : bool)
  : result (gmap (string * list Z) Q
            * gmap string (list (TupleKey * GammaResult))
            * solver_state) :=
  for_each (fun (acc : gmap (string * list Z) Q
                       * gmap string (list (TupleKey * GammaResult))
                       * solver_state) dc =>
              let '(total, gamma_log, st) := acc in
              match mis_dir !! dc_path dc with
              | None => Ok (total, gamma_log, st)
              | Some f =>
                  let* data := load_mis_file f in
                  let* mis_list := py_iter data in
                  let* r := compute_rim_for_dc int_of_str py_hash solver_state
                              CpSolver_Solve st mis_list time_limit_s enable_cache in
                  let '(rim_dc, gamma_details, st') := r in
                  Ok (fold_left (fun tot (tv : TupleKey * Q) =>
                                   score_add (fst tv) (snd tv) tot) rim_dc total,
                      <[dc := gamma_details]> gamma_log,
                      st')
              end)
           dcs (∅, ∅, st).

End ComputeRim.

(** ** extract_mis.py *)

(** [r[i]] on a fetched row. *)
Definition row_item (r : list Z) (i : nat) : result Z :=
  match nth_error r i with
  | Some z => Ok z
  | None => Err IndexError
  end.

(** The [builder] entries of [DC_QUERIES]; the value is the document
    [json.dump] writes for it, where a tuple [(a, b)] becomes the list
    [[a, b]].  The SQL text of an entry is not modelled: the rows it
    selects are an input. *)
Definition DC_QUERIES : list (string * (list Z -> result json)) :=
  [ ("DC1"%string,
     fun r => let* r0 := row_item r 0 in
              let* r1 := row_item r 1 in
              Ok (JDict [("lineitem"%string, JList [JList [JInt r0; JInt r1]])]));
    ("DC2"%string,
     fun r => let* r0 := row_item r 0 in
              let* r1 := row_item r 1 in
              let* r2 := row_item r 2 in
              Ok (JDict [("orders"%string, JList [JInt r0]);
                         ("lineitem"%string, JList [JList [JInt r1; JInt r2]])]));
    ("DC3"%string,
     fun r => let* r0 := row_item r 0 in
              let* r1 := row_item r 1 in
              let* r2 := row_item r 2 in
              Ok (JDict [("orders"%string, JList [JInt r0]);
                         ("lineitem"%string, JList [JList [JInt r1; JInt r2]])]));
    ("DC4"%string,
     fun r => let* r0 := row_item r 0 in
              let* r1 := row_item r 1 in
              let* r2 := row_item r 2 in
              let* r3 := row_item r 3 in
              let* r4 := row_item r 4 in
              Ok (JDict [("lineitem"%string, JList [JList [JInt r0; JInt r1]]);
                         ("partsupp"%string, JList [JList [JInt r2; JInt r3]]);
                         ("part"%string, JList [JInt r4])])) ].

(** [extract_mis]: the content of the file [<dc_name>.json] it writes,
    given the rows the query returned. *)
Definition extract_mis (rows : list (list Z)) (dc_name : string)
  (builder : list Z -> result json) : result file :=
  let* mis_list :=
    map_result (fun r => let* tuples := builder r in
                         Ok (JDict [("dc"%string, JStr dc_name);
                                    ("tuples"%string, tuples)]))
               rows in
  Ok (Some (JList mis_list)).

(** [main]: one file per entry of [DC_QUERIES] in the output directory;
    [db dc] are the rows of the query of [dc]. *)
Definition extract_mis_main (db : string -> list (list Z)) : result (gmap string file) :=
  for_each (fun (out_dir : gmap string file) (entry : string * (list Z -> result json)) =>
              let* f := extract_mis (db (fst entry)) (fst entry) (snd entry) in
              Ok (<[dc_path (fst entry) := f]> out_dir))
           DC_QUERIES ∅.

(** ** run_measures.py *)

Definition DEFAULT_DCS : list string := ["DC1"; "DC2"; "DC3"; "DC4"]%string.

(** [str(x)] on an [int]: the decimal digits, with a sign if negative. *)
Definition py_str_int (z : Z) : string :=
  DecimalString.NilZero.string_of_int (Z.to_int z).

(** [sep.join(parts)] *)
Fixpoint str_join (sep : string) (parts : list string) : string :=
  match parts with
  | [] => EmptyString
  | x :: rest =>
      match rest with
      | [] => x
      | _ :: _ => (x ++ sep ++ str_join sep rest)%string
      end
  end.

Definition tuplekey_to_cols (tk : TupleKey) : string * string :=
  (fst tk, str_join "," (map py_str_int (snd tk))).

(** [scores_to_df]: one row per item of the score dictionary; the columns
    copied from the data base description are left out. *)
Definition scores_to_df (measure_name : string) (scores : gmap (string * list Z) Q)
  : list measure_row :=
  map (fun kv : TupleKey * Q =>
         {| m_relation := fst (tuplekey_to_cols (fst kv));
            m_pk := snd (tuplekey_to_cols (fst kv));
            m_measure := measure_name;
            m_value := snd kv |})
      (map_to_list scores).
(** * Specification notions, reference oracles and example inputs *)

(** A set of universe elements that intersects every edge. *)
Definition hits_every_edge (H : list nat) (edges : list (list nat)) : Prop :=
  forall e, In e edges -> exists u, In u H /\ In u e.

(** The universe of an edge list: the distinct elements of its edges. *)
Definition universe_of (edges : list (list nat)) : list nat :=
  nodup Nat.eq_dec (concat edges).

(** The support sets the claims speak about: a non-empty family of
    non-empty sets of indices below [n]. *)
Definition valid_family (support_sets : list (list nat)) (n : nat) : Prop :=
  support_sets <> [] /\
  forall S, In S support_sets -> S <> [] /\ forall i, In i S -> i < n.

(** Sum of [h] over the masks [0 .. size-1]. *)
Definition sum_masks (h : N -> Z) (size : nat) : Z := Zsum (map h (range_N size)).

(** [v(C)] for a coalition mask. *)
Definition v_of (masks : list N) (m : N) : Z := if hits_all masks m then 1%Z else 0%Z.

(** [fact[k] * fact[n - k - 1]] *)
Definition weight_num (n k : nat) : Z := Z.of_nat (fact k * fact (n - k - 1)).

(** The numerator of the marginal term of element [t] at coalition [m]. *)
Definition marginal (n : nat) (masks : list N) (t : nat) (m : N) : Z :=
  if N.testbit m (N.of_nat t) then 0%Z
  else (weight_num n (popcount m) * (v_of masks (N.lor m (bit t)) - v_of masks m))%Z.

(** A generator whose permutations are the reversed ranges. *)
Definition rev_rng (g : unit) (n : nat) : list nat * unit := (rev (seq 0 n), g).

(** The family {0,1}, {0,2} over the universe {0,1,2}. *)
Definition family_ex : list (list nat) := [[0; 1]; [0; 2]].

(** A reference SAT oracle: exhaustive search over the sets of true
    variables drawn from [lits]. *)
Fixpoint sublists {A : Type} (l : list A) : list (list A) :=
  match l with
  | [] => [[]]
  | x :: rest => sublists rest ++ map (cons x) (sublists rest)
  end.

Definition sat_atmost_search (clauses : list (list nat)) (lits : list nat) (k : nat) : bool :=
  existsb (fun T =>
             forallb (fun c => existsb (fun v => mem v T) c) clauses
             && (length (List.filter (fun l => mem l T) lits) <=? k))
          (sublists lits).

(** What a positive answer of the SAT call means: some set [T] of true
    variables satisfies every clause and makes at most [k] of the
    literals [lits] true. *)
Definition sat_atmost_sound (sat_atmost : list (list nat) -> list nat -> nat -> bool) : Prop :=
  forall clauses lits k,
    sat_atmost clauses lits k = true ->
    exists T : list nat,
      (forall c, In c clauses -> exists v, In v c /\ In v T) /\
      length (List.filter (fun l => mem l T) lits) <= k.

(** [t] is the only element of some witness set. *)
Definition sole_element (t : nat) (support_sets : list (list nat)) : Prop :=
  exists S, In S support_sets /\ forall i, In i S <-> i = t.

(** What a solution reported by CP-SAT means: its objective value is the
    size of a set of nodes that satisfies every constraint of the model. *)
Definition cp_solver_sound {solver_state : Type}
  (CpSolver_Solve : solver_state -> Q -> CpModel -> cp_status * Z * solver_state) : Prop :=
  forall st time_limit model status objective st',
    CpSolver_Solve st time_limit model = (status, objective, st') ->
    status = CP_OPTIMAL \/ status = CP_FEASIBLE ->
    exists T : list nat,
      hits_every_edge T (cp_hit model) /\ objective = Z.of_nat (length T).

(** The hitting-set size found for a filtered edge list: non-negative, and
    zero only for the empty list. *)
Definition gamma_ok (filtered : list (list nat)) (g : Z) : Prop :=
  (0 <= g)%Z /\ (g = 0%Z <-> filtered = []).

Definition cache_ok (cache : gmap (list Z) (Z * rim_status)) : Prop :=
  forall sig g st, cache !! sig = Some (g, st) ->
                   (0 <= g)%Z /\ (g = 0%Z <-> sig = []).

(** Every edge is a non-empty subset of the universe, and the universe is
    the union of the edges. *)
Definition hypergraph_ok (hg : list (gset (string * list Z)) * gset (string * list Z)) : Prop :=
  (forall e, In e (fst hg) -> e <> ∅ /\ e ⊆ snd hg) /\
  (forall t, t ∈ snd hg -> exists e, In e (fst hg) /\ t ∈ e).

(** A reference CP-SAT oracle: exhaustive search for a smallest set of
    nodes that satisfies every constraint and respects the cut. *)
Definition cp_feasible (model : CpModel) (T : list nat) : bool :=
  forallb (fun e => existsb (fun u => mem u T) e) (cp_hit model)
  && match cp_bound model with
     | Some ub => (Z.of_nat (length T) <=? ub)%Z
     | None => true
     end.

Definition shorter (best : option (list nat)) (T : list nat) : option (list nat) :=
  match best with
  | Some B => if length T <? length B then Some T else Some B
  | None => Some T
  end.

Definition shortest (candidates : list (list nat)) : option (list nat) :=
  fold_left shorter candidates None.

Definition cp_search (st : unit) (time_limit_s : Q) (model : CpModel)
  : cp_status * Z * unit :=
  match shortest (List.filter (cp_feasible model) (sublists (cp_vars model))) with
  | Some T => (CP_OPTIMAL, Z.of_nat (length T), st)
  | None => (CP_INFEASIBLE, 0%Z, st)
  end.

(** The scenario of two witness sets {A,B}, {A,C} over the relation
    [part], as a MIS list. *)
Definition mis_of_part (pks : list Z) : json :=
  JDict [("tuples", JDict [("part", JList (map JInt pks))])]%string.

Definition mis_list_ex : list json := [mis_of_part [1; 2]; mis_of_part [1; 3]]%Z.

Definition part_key (pk : Z) : TupleKey := ("part"%string, [pk]).

Definition edges_ex : list (gset (string * list Z)) :=
  [list_to_set [part_key 1; part_key 2]; list_to_set [part_key 1; part_key 3]].

Definition universe_ex : gset (string * list Z) :=
  (∅ ∪ list_to_set [part_key 1; part_key 2]) ∪ list_to_set [part_key 1; part_key 3].

(** One witness set {0,1}; and the two witness sets {0}, {1}. *)
Definition one_pair_ex : list (list nat) := [[0; 1]].

Definition singletons_ex : list (list nat) := [[0]; [1]].

(** The MIS family of a constraint as the measures read it: one list of
    tuple keys per MIS of the file [<dc>.json]; no file, no MIS. *)
Definition mis_family (int_of_str : string -> option Z) (mis_dir : gmap string file)
  (dc : string) : result (list (list TupleKey)) :=
  match mis_dir !! dc_path dc with
  | None => Ok []
  | Some f =>
      let* data := load_mis_file f in
      let* mis_list := py_iter data in
      map_result (iter_mis_tuples int_of_str) mis_list
  end.

(** The tuple occurs in at least one witness set of the family. *)
Definition occurs_in (tk : TupleKey) (family : list (list TupleKey)) : bool :=
  existsb (fun w => bool_decide (tk ∈ w)) family.

(** Number of occurrences of the tuple across the witness sets. *)
Definition occurrences (tk : TupleKey) (family : list (list TupleKey)) : nat :=
  length (List.filter (fun x => bool_decide (x = tk)) (concat family)).

(** [w(constraint, relation)], 0 for an unknown constraint or relation. *)
Definition cim_weight (dc rel : string) : Q :=
  default 0%Q (assoc_get rel (default [] (assoc_get dc CIM_WEIGHTS))).

(** The sum, over the listed constraints, of [k * w(constraint, relation)]. *)
Definition cim_total (family : string -> list (list TupleKey)) (dcs : list string)
  (tk : TupleKey) : Q :=
  Qsum (map (fun dc => (inject_Z (Z.of_nat (occurrences tk (family dc)))
                        * cim_weight dc (fst tk))%Q) dcs).

(** A constraint whose entry of the weight table is present and not empty:
    only for these does [compute_cim] open the MIS file. *)
Definition cim_known (dc : string) : bool :=
  nonempty (default [] (assoc_get dc CIM_WEIGHTS)).

(** A MIS over one relation, and a directory with one MIS file for DC1. *)
Definition mis_of_rel (rel : string) (pks : list Z) : json :=
  JDict [("tuples"%string, JDict [(rel, JList (map JInt pks))])].

Definition lineitem_key (pk : Z) : TupleKey := ("lineitem"%string, [pk]).

Definition dir_ex : gmap string file :=
  {[ "DC1.json"%string :=
       Some (JList [mis_of_rel "lineitem" [1; 2]%Z; mis_of_rel "lineitem" [1; 3]%Z]) ]}.

Definition dcs_ex : list string := ["DC1"; "DC7"]%string.

Definition family_of_ex (dc : string) : list (list TupleKey) :=
  if String.eqb dc "DC1"
  then [[lineitem_key 1; lineitem_key 2]; [lineitem_key 1; lineitem_key 3]]
  else [].

(** A MIS file of DC1 whose only primary key is [null]. *)
Definition null_pk_dir : gmap string file :=
  {[ "DC1.json"%string :=
       Some (JList [JDict [("tuples"%string, JDict [("lineitem"%string, JList [JNull])])]]) ]}.

(** One answer with one witness set holding the tuple part#7, and a
    measure table that only knows the tuple part#8. *)
Definition support_no_match : list support_row :=
  [ {| s_answer_id := 1; s_answervalue := "x"; s_support_id := Some 1%Z;
       s_rel := "part"; s_pk := "7" |} ]%string.

Definition measures_other_tuple : list measure_row :=
  [ {| m_relation := "part"; m_pk := "8"; m_measure := "cbm"; m_value := 2 |} ]%string.

(** Two answers; only the tuple of the first one has a measure. *)
Definition support_two_answers : list support_row :=
  [ {| s_answer_id := 1; s_answervalue := "x"; s_support_id := Some 1%Z;
       s_rel := "part"; s_pk := "8" |};
    {| s_answer_id := 2; s_answervalue := "y"; s_support_id := Some 2%Z;
       s_rel := "part"; s_pk := "9" |} ]%string.

(** The answer a support row belongs to. *)
Definition same_answer (a : Z * string) (s : support_row) : bool :=
  bool_decide ((s_answer_id s, s_answervalue s) = a).

(** The measure row gives the value of kind [m] for the tuple of [s]. *)
Definition tm_matches (s : support_row) (m : string) (r : measure_row) : bool :=
  String.eqb (m_relation r) (s_rel s) && String.eqb (m_pk r) (s_pk s)
  && bool_decide (upper (m_measure r) = m).

(** The provenance sum in the words of the specification: for every
    occurrence of a tuple in the rows of the answer, the sum of the tuple's
    values of kind [m]. *)
Definition provenance_sum (rows : list support_row) (tm : list measure_row)
  (a : Z * string) (m : string) : Q :=
  Qsum (flat_map (fun s => if same_answer a s
                           then map m_value (List.filter (tm_matches s m) tm)
                           else []) rows).

(** The score the output holds for an answer in a column, if any. *)
Definition reported_score (rows : list icqa_row) (a : Z * string) (column : string)
  : option pyfloat :=
  match find (fun r => bool_decide ((r_answer_id r, r_answervalue r) = a)) rows with
  | Some r => row_score column r
  | None => None
  end.

(** The same tuple of the same answer, possibly in another witness set. *)
Definition same_tuple (s s' : support_row) : Prop :=
  s_answer_id s = s_answer_id s' /\ s_answervalue s = s_answervalue s' /\
  s_rel s = s_rel s' /\ s_pk s = s_pk s'.

(** [str.upper] applied to the measure column. *)
Definition upper_measure (r : measure_row) : measure_row :=
  {| m_relation := m_relation r; m_pk := m_pk r;
     m_measure := upper (m_measure r); m_value := m_value r |}.

Definition joins (s : support_row) (r : measure_row) : bool :=
  String.eqb (m_relation r) (s_rel s) && String.eqb (m_pk r) (s_pk s).

(** A tuple of the answer has a value of kind [m]. *)
Definition has_measure (rows : list support_row) (tm : list measure_row)
  (a : Z * string) (m : string) : Prop :=
  exists s r, In s rows /\ In r tm /\ same_answer a s = true /\ tm_matches s m r = true.

(** Three identical witness sets {A} of one answer, with measure(A) = 2. *)
Definition witness_A (sid : Z) : support_row :=
  {| s_answer_id := 1; s_answervalue := "x"; s_support_id := Some sid;
     s_rel := "part"; s_pk := "7" |}%string.

Definition measures_A : list measure_row :=
  [ {| m_relation := "part"; m_pk := "7"; m_measure := "cbm"; m_value := 2 |} ]%string.

Definition answer_x : Z * string := (1%Z, "x"%string).

(** A generator whose permutations are the rotations of the range, one
    step further at every call. *)
Definition rot_rng (g : nat) (n : nat) : list nat * nat :=
  (drop (g mod n) (seq 0 n) ++ take (g mod n) (seq 0 n), S g).

(** One support set holding the ten elements of the universe {0..9}. *)
Definition family_ten : list (list nat) := [seq 0 10].


(** The double nearest to one tenth. *)
Definition tenth_f64 : Q := 3602879701896397 # 36028797018963968.


(** * Further specification notions and example inputs *)

(** An element that changes no coalition's value. *)
Definition null_for (masks : list N) (t : nat) : Prop :=
  forall m, hits_all masks (N.lor m (bit t)) = hits_all masks m.

(** The coalition encoded by [mask] intersects the set [S]. *)
Definition coalition_hits (mask : N) (S : list nat) : Prop :=
  exists i, In i S /\ N.testbit mask (N.of_nat i) = true.

(** What a negative answer of the SAT call means: when the clauses only
    use variables among [lits], no set of true variables satisfies every
    clause with at most [k] of the literals true.  Stated positively. *)
Definition sat_atmost_complete (sat_atmost : list (list nat) -> list nat -> nat -> bool) : Prop :=
  forall clauses lits k (T : list nat),
    (forall c, In c clauses -> incl c lits) ->
    (forall c, In c clauses -> exists v, In v c /\ In v T) ->
    length (List.filter (fun l => mem l T) lits) <= k ->
    sat_atmost clauses lits k = true.

(** No two sorted edges share a hash. *)
Definition hash_collision_free (py_hash : list nat -> Z) : Prop :=
  forall e1 e2, py_hash e1 = py_hash e2 -> e1 = e2.

(** What a reported [(gamma, status)] pair means for the edges that do
    not contain the tuple: [gamma] is the size of a set of nodes that
    intersects all of them, and the status is TRIVIAL exactly when there
    is no such edge. *)
Definition gamma_sound (filtered : list (list nat)) (g : Z) (st : rim_status) : Prop :=
  (exists H : list nat, g = Z.of_nat (length H) /\ hits_every_edge H filtered) /\
  (st = TRIVIAL <-> filtered = []).

Definition cache_sound (py_hash : list nat -> Z)
  (cache : gmap (list Z) (Z * rim_status)) : Prop :=
  forall sig g st, cache !! sig = Some (g, st) ->
    exists filtered, sig = edge_signature py_hash filtered /\ gamma_sound filtered g st.

(** An injective hash, from stdpp's encoding of lists of numbers. *)
Definition encode_hash (e : list nat) : Z := Z.pos (encode e).

(** Node numbers of a hitting set, read back as tuples. *)
Definition decode_nodes (all_nodes : list TupleKey) (H : list nat) : list TupleKey :=
  flat_map (fun id => match nth_error all_nodes id with
                      | Some x => [x]
                      | None => []
                      end) H.

(** [w(constraint)] of PIM, 0 for an unknown constraint. *)
Definition pim_weight (dc : string) : Q := default 0%Q (assoc_get dc PIM_WEIGHTS).

(** The sum, over the listed constraints, of [k * w(constraint)]. *)
Definition pim_total (family : string -> list (list TupleKey)) (dcs : list string)
  (tk : TupleKey) : Q :=
  Qsum (map (fun dc => (inject_Z (Z.of_nat (occurrences tk (family dc)))
                        * pim_weight dc)%Q) dcs).

(** A score dictionary without zero or negative entries. *)
Definition positive_entries (score : gmap (string * list Z) Q) : Prop :=
  forall tk v, score !! tk = Some v -> (0 < v)%Q.

(** The number of columns the query of a constraint selects. *)
Definition dc_arity (dc : string) : nat :=
  if String.eqb dc "DC1" then 2
  else if String.eqb dc "DC2" || String.eqb dc "DC3" then 3
  else if String.eqb dc "DC4" then 5
  else 0.

(** The tuples that a row of the query of a constraint identifies: a line
    item by (order key, line number), an order by its key, a part-supplier
    pair by (part key, supplier key), a part by its key. *)
Definition row_tuples (dc : string) (r : list Z) : list TupleKey :=
  let col := fun i => nth i r 0%Z in
  if String.eqb dc "DC1" then [("lineitem"%string, [col 0; col 1])]
  else if String.eqb dc "DC2" || String.eqb dc "DC3" then
    [("orders"%string, [col 0]); ("lineitem"%string, [col 1; col 2])]
  else if String.eqb dc "DC4" then
    [("lineitem"%string, [col 0; col 1]); ("partsupp"%string, [col 2; col 3]);
     ("part"%string, [col 4])]
  else [].

(** Query results of a small data base: one violation of DC1, one of DC2. *)
Definition db_ex (dc : string) : list (list Z) :=
  if String.eqb dc "DC1" then [[7; 1]%Z]
  else if String.eqb dc "DC2" then [[3; 3; 2]%Z]
  else [].

(** The character occurs in the string. *)
Fixpoint string_has (c : ascii) (s : string) : bool :=
  match s with
  | EmptyString => false
  | String a rest => Ascii.eqb a c || string_has c rest
  end.

(** The key columns of a row of the tuple-measure table. *)
Definition row_key (r : measure_row) : string * string := (m_relation r, m_pk r).

(** Some tuple of the answer has a measure row, of whatever kind. *)
Definition has_any_measure (rows : list support_row) (tm : list measure_row)
  (a : Z * string) : Prop :=
  exists m, has_measure rows tm a m.

(** Some tuple of some answer of the query has a value of kind [m]. *)
Definition kind_present (rows : list support_row) (tm : list measure_row)
  (m : string) : Prop :=
  exists a, has_measure rows tm a m.

(** The second answer of [support_two_answers]. *)
Definition answer_y : Z * string := (2%Z, "y"%string).

(** A measure table with a CBM value for part#8 and a CIM value for part#9. *)
Definition measures_two_kinds : list measure_row :=
  [ {| m_relation := "part"; m_pk := "8"; m_measure := "cbm"; m_value := 2 |};
    {| m_relation := "part"; m_pk := "9"; m_measure := "cim"; m_value := 3 |} ]%string.

(** The answer an output row is about. *)
Definition row_answer (r : icqa_row) : Z * string := (r_answer_id r, r_answervalue r).

(** An output row of the aggregator [agg] holds the four score columns,
    in the order of [MEASURES], each a finite number satisfying [P]. *)
Definition four_scores (agg : string) (P : Q -> Prop) (row : icqa_row) : Prop :=
  exists cbm cim pim rim : Q,
    r_scores row = [ (("icqa_" ++ agg ++ "_cbm")%string, Fin cbm);
                     (("icqa_" ++ agg ++ "_cim")%string, Fin cim);
                     (("icqa_" ++ agg ++ "_pim")%string, Fin pim);
                     (("icqa_" ++ agg ++ "_rim")%string, Fin rim) ] /\
    P cbm /\ P cim /\ P pim /\ P rim.

(** No tuple measure is negative. *)
Definition nonneg_measures (tm_db : list measure_row) : Prop :=
  forall r, In r tm_db -> (0 <= m_value r)%Q.

(** The count [freq[u]] holds, 0 for an absent key. *)
Definition freq_get (u : nat) (freq : list (nat * Z)) : Z :=
  match find (fun kc : nat * Z => Nat.eqb (fst kc) u) freq with
  | Some kc => snd kc
  | None => 0%Z
  end.

(** Number of occurrences of [u] across the edges. *)
Definition occurrences_in_edges (u : nat) (edges : list (list nat)) : Z :=
  Zsum (map (fun e => Z.of_nat (count_occ Nat.eq_dec e u)) edges).

(** The measure row is about a tuple of the support rows. *)
Definition touches (sup_ans : list support_row) (tm : measure_row) : bool :=
  existsb (fun s => joins s tm) sup_ans.

(** [relation + "#" + pk] of a measure row. *)
Definition measure_tuple_id (tm : measure_row) : string :=
  (m_relation tm ++ "#" ++ m_pk tm)%string.

(** The weighted sum of the specification: over the measure rows of kind
    [m] about a tuple of the answer, each counted once, the weight of the
    tuple times the value. *)
Definition weighted_sum (w : string -> Q) (sup_ans : list support_row)
  (tm_db : list measure_row) (m : string) : Q :=
  Qsum (map (fun tm => (w (measure_tuple_id tm) * m_value tm)%Q)
            (List.filter (fun tm => touches sup_ans tm
                                    && bool_decide (upper (m_measure tm) = m)) tm_db)).

(** The responsibility weight of a tuple id among the support rows of an
    answer: [1 / (1 + h)] for the minimum hitting-set size [h], and 0 when the answer has no support set or
    the tuple is not one of its tuples. *)
Definition resp_weight (sat_atmost : list (list nat) -> list nat -> nat -> bool)
  (sup_ans : list support_row) (tid : string) : Q :=
  let uniq_tuples := drop_duplicates (map tuple_id sup_ans) in
  let support_sets := support_sets_of uniq_tuples sup_ans in
  if nonempty support_sets then
    match tid2idx uniq_tuples tid with
    | Some idx => resp_rho sat_atmost support_sets (length uniq_tuples) idx
    | None => 0%Q
    end
  else 0%Q.

(** The exact Shapley weight of a tuple id among the support rows of an
    answer, 0 when the answer has no support set or the tuple is not one
    of its tuples. *)
Definition shap_weight (sup_ans : list support_row) (tid : string) : Q :=
  let uniq_tuples := drop_duplicates (map tuple_id sup_ans) in
  let support_sets := support_sets_of uniq_tuples sup_ans in
  if nonempty support_sets then
    match tid2idx uniq_tuples tid with
    | Some idx => nth idx (exact_shapley support_sets (length uniq_tuples)) 0%Q
    | None => 0%Q
    end
  else 0%Q.

(** A tuple A in two support sets {A,B}, {A,C} of the answer x, and
    measures of A and B. *)
Definition support_abc : list support_row :=
  [ {| s_answer_id := 1; s_answervalue := "x"; s_support_id := Some 1%Z;
       s_rel := "part"; s_pk := "1" |};
    {| s_answer_id := 1; s_answervalue := "x"; s_support_id := Some 1%Z;
       s_rel := "part"; s_pk := "2" |};
    {| s_answer_id := 1; s_answervalue := "x"; s_support_id := Some 2%Z;
       s_rel := "part"; s_pk := "1" |};
    {| s_answer_id := 1; s_answervalue := "x"; s_support_id := Some 2%Z;
       s_rel := "part"; s_pk := "3" |} ]%string.

Definition measures_ab : list measure_row :=
  [ {| m_relation := "part"; m_pk := "1"; m_measure := "cbm"; m_value := 2 |};
    {| m_relation := "part"; m_pk := "2"; m_measure := "cbm"; m_value := 4 |} ]%string.
(** * Properties *)

(** ** The greedy bound *)

Lemma freq_incr_pos u freq :
  Forall (fun kc => (0 < snd kc)%Z) freq ->
  Forall (fun kc => (0 < snd kc)%Z) (freq_incr u freq).
Proof.
  induction 1 as [|[k c] rest Hc Hrest IH]; simpl.
  - repeat constructor.
  - destruct (Nat.eqb k u); constructor; simpl in *; auto; lia.
Qed.

Lemma count_freq_pos uncovered :
  Forall (fun kc => (0 < snd kc)%Z) (count_freq uncovered).
Proof.
  unfold count_freq.
  assert (H : Forall (fun kc : nat * Z => (0 < snd kc)%Z) []) by constructor.
  revert H. generalize (@nil (nat * Z)).
  induction uncovered as [|e rest IH]; intros freq H; simpl; [exact H|].
  apply IH. clear IH. revert freq H.
  induction e as [|u e IHe]; intros freq H; simpl; [exact H|].
  apply IHe. now apply freq_incr_pos.
Qed.

Lemma pick_best_keeps_some freq best :
  fst best <> None ->
  fst (fold_left (fun (b : option nat * Z) (uf : nat * Z) =>
                    if (snd b <? snd uf)%Z then (Some (fst uf), snd uf) else b)
                 freq best) <> None.
Proof.
  revert best. induction freq as [|[k c] rest IH]; intros best H; simpl; [exact H|].
  apply IH. destruct (snd best <? c)%Z; simpl; [discriminate | exact H].
Qed.

Lemma pick_best_some freq :
  freq <> [] -> Forall (fun kc => (0 < snd kc)%Z) freq ->
  fst (pick_best freq) <> None.
Proof.
  intros Hne Hpos. destruct freq as [|[k c] rest]; [congruence|].
  unfold pick_best. simpl. apply pick_best_keeps_some.
  inversion Hpos; subst; simpl in *.
  destruct (-1 <? c)%Z eqn:E; simpl; [discriminate|].
  apply Z.ltb_ge in E. lia.
Qed.

Lemma pick_best_nonempty_edge e rest :
  e <> [] -> fst (pick_best (count_freq (e :: rest))) <> None.
Proof.
  intros He. apply pick_best_some; [|apply count_freq_pos].
  destruct e as [|u e']; [congruence|].
  intros Hnil.
  assert (Hin : In u (map fst (count_freq ((u :: e') :: rest)))).
  { apply count_freq_keys. exists (u :: e'). simpl. auto. }
  rewrite Hnil in Hin. exact Hin.
Qed.

Lemma remove_hit_In u uncovered e :
  In e (remove_hit u uncovered) <-> In e uncovered /\ ~ In u e.
Proof.
  unfold remove_hit. rewrite filter_In, negb_true_iff.
  rewrite <- mem_In. destruct (mem u e); intuition congruence.
Qed.

(** The loop picks pairwise distinct elements of the uncovered edges, one
    per iteration, and together they hit every uncovered edge. *)
Lemma greedy_loop_picks uncovered size :
  (forall e, In e uncovered -> e <> []) ->
  exists H : list nat,
    greedy_loop uncovered size = size + length H /\
    NoDup H /\
    (forall u, In u H -> exists e, In e uncovered /\ In u e) /\
    (forall e, In e uncovered -> exists u, In u H /\ In u e).
Proof.
  funelim (greedy_loop uncovered size); intros Hne.
  - exists []. simpl. repeat split; try constructor; try lia; intros ? [].
  - clear Heqcall.
    destruct H as (picks & Hsize & Hnd & Hin & Hhit).
    { intros e0 He0. apply remove_hit_In in He0. apply Hne. tauto. }
    exists (best_u :: picks). repeat split.
    + rewrite Hsize. simpl. lia.
    + constructor; [|exact Hnd].
      intros Hb. apply Hin in Hb. destruct Hb as (e0 & He0 & Hb).
      apply remove_hit_In in He0. tauto.
    + intros u [<-|Hu].
      * destruct (pick_best_in_edge _ _ Hpick) as (e0 & He0 & Hm).
        exists e0. split; [exact He0 | now apply mem_In].
      * apply Hin in Hu. destruct Hu as (e0 & He0 & Hu).
        apply remove_hit_In in He0. exists e0. tauto.
    + intros e0 He0.
      destruct (in_dec Nat.eq_dec best_u e0) as [Hb|Hb].
      * exists best_u. split; [left; reflexivity | exact Hb].
      * destruct (Hhit e0) as (u & Hu & Hue); [apply remove_hit_In; auto|].
        exists u. split; [right; exact Hu | exact Hue].
  - exfalso. clear Heqcall.
    apply (pick_best_nonempty_edge e rest); [apply Hne; simpl; auto | assumption].
Qed.

(** C9: on non-empty edges [greedy_hitting_set_size] (a total function: the
    loop terminates) returns the size [k] of a set of distinct universe
    elements that hits every edge, hence [k] is at most the universe size
    and at least the minimum hitting-set size; on the empty edge list it
    returns 0. *)
Theorem greedy_hitting_set_size_bound (edges : list (list nat)) :
  (forall e, In e edges -> e <> []) ->
  exists H : list nat,
    length H = greedy_hitting_set_size edges /\
    NoDup H /\ incl H (universe_of edges) /\
    hits_every_edge H edges /\
    greedy_hitting_set_size edges <= length (universe_of edges) /\
    (forall H', hits_every_edge H' edges ->
                (forall H'', hits_every_edge H'' edges -> length H' <= length H'') ->
                length H' <= greedy_hitting_set_size edges) /\
    (edges = [] -> greedy_hitting_set_size edges = 0).
Proof.
  intros Hne.
  assert (Hf : List.filter nonempty edges = edges).
  { apply forallb_filter_id. apply forallb_forall. intros e He.
    specialize (Hne e He). destruct e; [congruence | reflexivity]. }
  destruct (greedy_loop_picks edges 0 Hne) as (H & Hsize & Hnd & Hin & Hhit).
  assert (Hk : greedy_hitting_set_size edges = length H).
  { unfold greedy_hitting_set_size. rewrite Hf.
    destruct edges as [|e rest]; simpl nonempty; cbv iota.
    - rewrite greedy_loop_equation_1 in Hsize. simpl in Hsize. lia.
    - rewrite Hsize. reflexivity. }
  assert (Hincl : incl H (universe_of edges)).
  { intros u Hu. apply nodup_In. apply in_concat.
    destruct (Hin u Hu) as (e & He & Hue). eauto. }
  exists H. repeat split; auto.
  - rewrite Hk. apply NoDup_incl_length; assumption.
  - intros H' Hhit' Hmin. rewrite Hk. apply Hmin. exact Hhit.
  - intros ->. reflexivity.
Qed.

(** Witness of C9 on the edges {0,1}, {0,2}, {3}. *)
Lemma greedy_hitting_set_size_bound_witness :
  exists H : list nat,
    length H = greedy_hitting_set_size [[0;1]; [0;2]; [3]] /\
    NoDup H /\ incl H (universe_of [[0;1]; [0;2]; [3]]) /\
    hits_every_edge H [[0;1]; [0;2]; [3]] /\
    greedy_hitting_set_size [[0;1]; [0;2]; [3]] <= length (universe_of [[0;1]; [0;2]; [3]]) /\
    (forall H', hits_every_edge H' [[0;1]; [0;2]; [3]] ->
                (forall H'', hits_every_edge H'' [[0;1]; [0;2]; [3]] -> length H' <= length H'') ->
                length H' <= greedy_hitting_set_size [[0;1]; [0;2]; [3]]) /\
    ([[0;1]; [0;2]; [3]] = [] -> greedy_hitting_set_size [[0;1]; [0;2]; [3]] = 0).
Proof.
  apply (greedy_hitting_set_size_bound [[0;1]; [0;2]; [3]]).
  intros e He. simpl in He.
  destruct He as [<-|[<-|[<-|[]]]]; discriminate.
Defined.

(** ** Bit masks *)

Lemma bit_testbit i j : N.testbit (bit i) (N.of_nat j) = Nat.eqb i j.
Proof.
  unfold bit. rewrite N.shiftl_1_l, N.pow2_bits_eqb.
  destruct (Nat.eqb_spec i j) as [->|Hne].
  - apply N.eqb_refl.
  - apply N.eqb_neq. lia.
Qed.

Lemma mask_fold_testbit S m j :
  N.testbit (fold_left (fun acc i => N.lor acc (bit i)) S m) (N.of_nat j)
  = N.testbit m (N.of_nat j) || mem j S.
Proof.
  revert m. induction S as [|i S IH]; intros m; simpl.
  - now rewrite orb_false_r.
  - rewrite IH, N.lor_spec, bit_testbit. unfold mem. simpl.
    rewrite (Nat.eqb_sym j i). now rewrite orb_assoc.
Qed.

Lemma land_common_bit a b i :
  N.testbit a i = true -> N.testbit b i = true -> N.land a b <> 0%N.
Proof.
  intros Ha Hb Hz.
  assert (H : N.testbit (N.land a b) i = true) by (rewrite N.land_spec, Ha, Hb; reflexivity).
  rewrite Hz, N.bits_0 in H. discriminate.
Qed.

Lemma hits_all_true masks mask :
  hits_all masks mask = true <-> forall sm, In sm masks -> N.land mask sm <> 0%N.
Proof.
  unfold hits_all. rewrite forallb_forall. split; intros H sm Hsm.
  - specialize (H sm Hsm). apply negb_true_iff, N.eqb_neq in H. exact H.
  - apply negb_true_iff, N.eqb_neq. auto.
Qed.

Lemma hits_all_empty_coalition masks : masks <> [] -> hits_all masks 0%N = false.
Proof. destruct masks; [congruence | reflexivity]. Qed.

Lemma support_masks_nonempty support_sets n :
  support_sets <> [] -> _support_sets_to_masks support_sets n <> [].
Proof. destruct support_sets; [congruence | discriminate]. Qed.

Lemma support_mask_has_bit support_sets n sm :
  valid_family support_sets n ->
  In sm (_support_sets_to_masks support_sets n) ->
  exists i, i < n /\ N.testbit sm (N.of_nat i) = true.
Proof.
  intros [_ Hv] Hsm. unfold _support_sets_to_masks in Hsm.
  apply in_map_iff in Hsm. destruct Hsm as (S & <- & HS).
  destruct (Hv S HS) as [Hne Hlt]. destruct S as [|i S]; [congruence|].
  exists i. split; [apply Hlt; simpl; auto|].
  rewrite mask_fold_testbit. unfold mem. cbn [existsb]. rewrite Nat.eqb_refl.
  destruct (N.testbit 0 (N.of_nat i)); reflexivity.
Qed.

(** The coalition of a whole permutation of the universe hits every
    support set. *)
Lemma full_walk_hits support_sets n perm :
  valid_family support_sets n -> Permutation perm (seq 0 n) ->
  hits_all (_support_sets_to_masks support_sets n)
           (fold_left (fun acc i => N.lor acc (bit i)) perm 0%N) = true.
Proof.
  intros Hv Hperm. apply hits_all_true. intros sm Hsm.
  destruct (support_mask_has_bit _ _ _ Hv Hsm) as (i & Hi & Hbit).
  apply (land_common_bit _ _ (N.of_nat i)); [|exact Hbit].
  rewrite mask_fold_testbit. apply orb_true_iff. right. apply mem_In.
  apply (Permutation_in _ (Permutation_sym Hperm)). apply in_seq. lia.
Qed.

(** ** The sampled walk credits exactly one element *)

Lemma shap_walk_credits masks perm c counts :
  hits_all masks c = false ->
  hits_all masks (fold_left (fun acc i => N.lor acc (bit i)) perm c) = true ->
  exists idx, In idx perm /\ shap_walk masks perm c false counts = counts_incr idx counts.
Proof.
  revert c. induction perm as [|idx rest IH]; intros c Hc Hfull; simpl in *.
  - congruence.
  - destruct (hits_all masks (N.lor c (bit idx))) eqn:Hhit.
    + exists idx. auto.
    + destruct (IH _ Hhit Hfull) as (j & Hj & Hw). exists j. auto.
Qed.

Lemma shap_walk_one_credit support_sets n perm counts :
  valid_family support_sets n -> Permutation perm (seq 0 n) ->
  exists idx, idx < n /\
    shap_walk (_support_sets_to_masks support_sets n) perm 0%N false counts
    = counts_incr idx counts.
Proof.
  intros Hv Hperm.
  destruct (shap_walk_credits (_support_sets_to_masks support_sets n) perm 0%N counts)
    as (idx & Hidx & Hw).
  - apply hits_all_empty_coalition, support_masks_nonempty, Hv.
  - now apply full_walk_hits.
  - exists idx. split; [|exact Hw].
    apply (Permutation_in _ Hperm) in Hidx. apply in_seq in Hidx. lia.
Qed.

Lemma Qsum_app l1 l2 : (Qsum (l1 ++ l2) == Qsum l1 + Qsum l2)%Q.
Proof.
  induction l1 as [|x l1 IH]; simpl.
  - ring.
  - rewrite IH. ring.
Qed.

Lemma counts_incr_length idx counts : length (counts_incr idx counts) = length counts.
Proof. unfold counts_incr. apply length_insert. Qed.

Lemma counts_incr_sum idx counts :
  idx < length counts -> (Qsum (counts_incr idx counts) == Qsum counts + 1)%Q.
Proof.
  unfold counts_incr. revert idx.
  induction counts as [|c counts IH]; intros idx Hlt; simpl in *; [lia|].
  destruct idx as [|idx]; simpl.
  - ring.
  - rewrite IH by lia. ring.
Qed.

Lemma counts_incr_nonneg idx counts :
  Forall (fun c : Q => (0 <= c)%Q) counts -> Forall (fun c : Q => (0 <= c)%Q) (counts_incr idx counts).
Proof.
  unfold counts_incr. intros H. revert idx.
  induction H as [|c counts Hc Hcs IH]; intros idx; simpl; [constructor|].
  destruct idx as [|idx]; simpl; constructor; auto.
  apply (Qle_trans _ (c + 0)); [rewrite Qplus_0_r; exact Hc|].
  apply Qplus_le_r. discriminate.
Qed.

Section ApproxFacts.

Variable rng_state : Type.
Variable default_rng : Z -> rng_state.
Variable rng_permutation : rng_state -> nat -> list nat * rng_state.

(** [rng.permutation(n)] is a permutation of [range(n)], whatever the
    state of the generator. *)
Hypothesis rng_permutation_spec :
  forall g n, Permutation (fst (rng_permutation g n)) (seq 0 n).

Lemma approx_samples_counts support_sets n k g counts :
  valid_family support_sets n -> length counts = n ->
  Forall (fun c : Q => (0 <= c)%Q) counts ->
  let counts' := fst (approx_samples rng_state rng_permutation k
                        (_support_sets_to_masks support_sets n) n g counts) in
  length counts' = n /\ Forall (fun c : Q => (0 <= c)%Q) counts' /\
  (Qsum counts' == Qsum counts + inject_Z (Z.of_nat k))%Q.
Proof.
  intros Hv. revert g counts.
  induction k as [|k IH]; intros g counts Hlen Hpos; cbn [approx_samples].
  - simpl. repeat split; auto. ring.
  - pose proof (rng_permutation_spec g n) as Hperm.
    destruct (rng_permutation g n) as [perm g']. simpl in Hperm.
    destruct (shap_walk_one_credit support_sets n perm counts Hv Hperm)
      as (idx & Hidx & ->).
    destruct (IH g' (counts_incr idx counts)) as (Hl & Hp & Hs).
    + now rewrite counts_incr_length.
    + now apply counts_incr_nonneg.
    + cbv zeta. repeat split; auto.
      rewrite Hs, counts_incr_sum by lia.
      rewrite Nat2Z.inj_succ. unfold Z.succ. rewrite inject_Z_plus. ring.
Qed.

End ApproxFacts.

Lemma Qsum_map_div (l : list Q) (d : Q) :
  (Qsum (map (fun c => c / d) l) == Qsum l / d)%Q.
Proof.
  induction l as [|c l IH]; simpl.
  - unfold Qdiv. ring.
  - rewrite IH. unfold Qdiv. ring.
Qed.

Lemma Qsum_repeat_zero n : (Qsum (repeat 0%Q n) == 0)%Q.
Proof. induction n as [|n IH]; simpl; [reflexivity | rewrite IH; ring]. Qed.

Lemma np_div_finite c d : d <> 0%Z -> np_div c d = Fin (c / inject_Z d).
Proof. intros Hd. unfold np_div. destruct (Z.eqb_spec d 0); [contradiction | reflexivity]. Qed.

Lemma valid_family_pos support_sets n : valid_family support_sets n -> 0 < n.
Proof.
  intros [Hne Hv]. destruct support_sets as [|S rest]; [congruence|].
  destruct (Hv S (or_introl eq_refl)) as [HS Hlt].
  destruct S as [|i S']; [congruence|].
  specialize (Hlt i (or_introl eq_refl)). lia.
Qed.

Section ApproxEstimates.

Variable rng_state : Type.
Variable default_rng : Z -> rng_state.
Variable rng_permutation : rng_state -> nat -> list nat * rng_state.
Hypothesis rng_permutation_spec :
  forall g n, Permutation (fst (rng_permutation g n)) (seq 0 n).

(** With at least one sample the estimates are finite, non-negative and
    add up to one. *)
Lemma approx_shapley_estimates support_sets n num_samples rng :
  valid_family support_sets n -> (1 <= num_samples)%Z ->
  exists phi : list Q,
    fst (approx_shapley rng_state default_rng rng_permutation
           support_sets n num_samples rng) = map Fin phi /\
    length phi = n /\
    Forall (fun q : Q => (0 <= q)%Q) phi /\
    (Qsum phi == 1)%Q.
Proof.
  intros Hv Hs. pose proof (valid_family_pos _ _ Hv) as Hn.
  unfold approx_shapley.
  destruct (Nat.eqb_spec n 0) as [->|_]; [lia|].
  set (g := match rng with Some g0 => g0 | None => default_rng RNG_SEED end).
  pose proof (approx_samples_counts rng_state rng_permutation rng_permutation_spec
                support_sets n (Z.to_nat num_samples) g (repeat 0%Q n) Hv
                (repeat_length _ _)) as Hc.
  destruct (approx_samples rng_state rng_permutation (Z.to_nat num_samples)
              (_support_sets_to_masks support_sets n) n g (repeat 0%Q n))
    as [counts g'].
  destruct Hc as (Hlen & Hpos & Hsum).
  { clear. induction n; simpl; constructor; auto. discriminate. }
  simpl in Hlen, Hpos, Hsum. simpl fst.
  exists (map (fun c => (c / inject_Z num_samples)%Q) counts).
  assert (Hd : (0 < inject_Z num_samples)%Q).
  { rewrite <- (Zlt_Qlt 0). lia. }
  repeat split.
  - rewrite map_map. apply map_ext. intros c. apply np_div_finite. lia.
  - now rewrite length_map.
  - clear -Hpos Hd. induction Hpos as [|c l Hc _ IH]; simpl; constructor; auto.
    apply Qle_shift_div_l; [exact Hd|]. rewrite Qmult_0_l. exact Hc.
  - rewrite Qsum_map_div, Hsum, Qsum_repeat_zero, Z2Nat.id by lia.
    field. intros Hz. rewrite Hz in Hd. discriminate.
Qed.

End ApproxEstimates.

(** ** Finite sums over masks *)

Lemma Zsum_app l1 l2 : Zsum (l1 ++ l2) = (Zsum l1 + Zsum l2)%Z.
Proof. induction l1 as [|x l1 IH]; simpl; lia. Qed.

Lemma Zsum_map_ext_in {A : Type} (f g : A -> Z) l :
  (forall x, In x l -> f x = g x) -> Zsum (map f l) = Zsum (map g l).
Proof.
  intros H. induction l as [|x l IH]; simpl; [reflexivity|].
  rewrite H by (simpl; auto). rewrite IH; [reflexivity|].
  intros y Hy. apply H. simpl. auto.
Qed.

Lemma Zsum_map_add {A : Type} (f g : A -> Z) l :
  Zsum (map (fun x => f x + g x)%Z l) = (Zsum (map f l) + Zsum (map g l))%Z.
Proof. induction l as [|x l IH]; simpl; lia. Qed.

Lemma Zsum_map_sub {A : Type} (f g : A -> Z) l :
  Zsum (map (fun x => f x - g x)%Z l) = (Zsum (map f l) - Zsum (map g l))%Z.
Proof. induction l as [|x l IH]; simpl; lia. Qed.

Lemma Zsum_map_mul_l {A : Type} (c : Z) (f : A -> Z) l :
  Zsum (map (fun x => c * f x)%Z l) = (c * Zsum (map f l))%Z.
Proof. induction l as [|x l IH]; simpl; lia. Qed.

Lemma Zsum_map_zero {A : Type} (l : list A) : Zsum (map (fun _ => 0%Z) l) = 0%Z.
Proof. induction l as [|x l IH]; simpl; lia. Qed.

Lemma Zsum_swap {A B : Type} (F : A -> B -> Z) (ts : list A) (ms : list B) :
  Zsum (map (fun t => Zsum (map (F t) ms)) ts)
  = Zsum (map (fun m => Zsum (map (fun t => F t m) ts)) ms).
Proof.
  induction ts as [|t ts IH]; simpl.
  - now rewrite Zsum_map_zero.
  - rewrite IH, <- Zsum_map_add. reflexivity.
Qed.

Lemma range_N_S size : range_N (S size) = range_N size ++ [N.of_nat size].
Proof. unfold range_N. rewrite seq_S, map_app. reflexivity. Qed.

Lemma In_range_N m size : In m (range_N size) <-> (m < N.of_nat size)%N.
Proof.
  unfold range_N. rewrite in_map_iff. split.
  - intros (i & <- & Hi). apply in_seq in Hi. lia.
  - intros H. exists (N.to_nat m). split; [apply N2Nat.id|]. apply in_seq. lia.
Qed.

(** Splitting the masks below [2k] by their lowest bit. *)
Lemma sum_masks_double h k :
  sum_masks h (2 * k)
  = sum_masks (fun m => h (N.double m) + h (N.succ_double m))%Z k.
Proof.
  unfold sum_masks. induction k as [|k IH]; [reflexivity|].
  replace (2 * S k) with (S (S (2 * k))) by lia.
  rewrite !range_N_S, !map_app, !Zsum_app, IH. unfold Zsum. cbn [map fold_right].
  replace (N.of_nat (2 * k)) with (N.double (N.of_nat k))
    by (rewrite N.double_spec; lia).
  replace (N.of_nat (S (2 * k))) with (N.succ_double (N.of_nat k))
    by (rewrite N.succ_double_spec; lia).
  lia.
Qed.

Lemma sum_masks_ext n h h' :
  (forall m, (m < N.of_nat n)%N -> h m = h' m) -> sum_masks h n = sum_masks h' n.
Proof.
  intros H. unfold sum_masks. apply Zsum_map_ext_in.
  intros m Hm. apply H. now apply In_range_N.
Qed.

(** ** Bits of doubled masks *)

Lemma popcount_double m : popcount (N.double m) = popcount m.
Proof. destruct m; reflexivity. Qed.

Lemma popcount_succ_double m : popcount (N.succ_double m) = S (popcount m).
Proof. destruct m; reflexivity. Qed.

Lemma bit_S t : bit (S t) = N.double (bit t).
Proof.
  unfold bit. rewrite N.double_spec, !N.shiftl_1_l, Nat2N.inj_succ.
  apply N.pow_succ_r'.
Qed.

Lemma bit_0 : bit 0 = 1%N.
Proof. reflexivity. Qed.

Lemma testbit_double_S m t :
  N.testbit (N.double m) (N.of_nat (S t)) = N.testbit m (N.of_nat t).
Proof. rewrite Nat2N.inj_succ, N.double_spec. apply N.testbit_even_succ. lia. Qed.

Lemma testbit_succ_double_S m t :
  N.testbit (N.succ_double m) (N.of_nat (S t)) = N.testbit m (N.of_nat t).
Proof. rewrite Nat2N.inj_succ, N.succ_double_spec. apply N.testbit_odd_succ. lia. Qed.

Lemma testbit_double_0 m : N.testbit (N.double m) 0 = false.
Proof. destruct m; reflexivity. Qed.

Lemma testbit_succ_double_0 m : N.testbit (N.succ_double m) 0 = true.
Proof. destruct m; reflexivity. Qed.

Lemma lor_double_double a b : N.lor (N.double a) (N.double b) = N.double (N.lor a b).
Proof. destruct a, b; reflexivity. Qed.

Lemma lor_succ_double_double a b :
  N.lor (N.succ_double a) (N.double b) = N.succ_double (N.lor a b).
Proof. destruct a, b; reflexivity. Qed.

Lemma lor_double_1 a : N.lor (N.double a) 1 = N.succ_double a.
Proof. destruct a; reflexivity. Qed.

Lemma N_double_cases m : exists m', m = N.double m' \/ m = N.succ_double m'.
Proof.
  destruct m as [|[q|q|]].
  - exists 0%N. auto.
  - exists (Npos q). auto.
  - exists (Npos q). auto.
  - exists 0%N. auto.
Qed.

Lemma double_lt_pow m n :
  (N.double m < N.of_nat (2 ^ S n))%N -> (m < N.of_nat (2 ^ n))%N.
Proof. rewrite N.double_spec, Nat.pow_succ_r'. lia. Qed.

Lemma succ_double_lt_pow m n :
  (N.succ_double m < N.of_nat (2 ^ S n))%N -> (m < N.of_nat (2 ^ n))%N.
Proof. rewrite N.succ_double_spec, Nat.pow_succ_r'. lia. Qed.

Lemma popcount_zero m : popcount m = 0 -> m = 0%N.
Proof.
  destruct m as [|p]; [reflexivity|]. simpl. intros H. exfalso.
  induction p; simpl in H; auto; lia.
Qed.

Lemma popcount_bound n m : (m < N.of_nat (2 ^ n))%N -> popcount m <= n.
Proof.
  revert m. induction n as [|n IH]; intros m Hm.
  - simpl in Hm. assert (m = 0%N) as -> by lia. reflexivity.
  - destruct (N_double_cases m) as (m' & [->| ->]).
    + rewrite popcount_double. apply double_lt_pow in Hm. apply IH in Hm. lia.
    + rewrite popcount_succ_double. apply succ_double_lt_pow in Hm. apply IH in Hm. lia.
Qed.

Lemma lor_succ_double_1 a : N.lor (N.succ_double a) 1 = N.succ_double a.
Proof. destruct a as [|p]; [reflexivity|]. destruct p; reflexivity. Qed.

Lemma popcount_lor_bit t m :
  N.testbit m (N.of_nat t) = false -> popcount (N.lor m (bit t)) = S (popcount m).
Proof.
  revert m. induction t as [|t IH]; intros m Hm;
    destruct (N_double_cases m) as (m' & [->| ->]).
  - rewrite bit_0, lor_double_1, popcount_succ_double, popcount_double. reflexivity.
  - simpl N.of_nat in Hm. rewrite testbit_succ_double_0 in Hm. discriminate.
  - rewrite testbit_double_S in Hm.
    rewrite bit_S, lor_double_double, !popcount_double. now apply IH.
  - rewrite testbit_succ_double_S in Hm.
    rewrite bit_S, lor_succ_double_double, !popcount_succ_double. f_equal. now apply IH.
Qed.

Lemma lor_bit_lt_pow n t m :
  t < n -> (m < N.of_nat (2 ^ n))%N -> (N.lor m (bit t) < N.of_nat (2 ^ n))%N.
Proof.
  revert t m. induction n as [|n IH]; intros t m Ht Hm; [lia|].
  destruct (N_double_cases m) as (m' & [->| ->]); destruct t as [|t].
  - rewrite bit_0, lor_double_1.
    rewrite N.double_spec in Hm. rewrite N.succ_double_spec.
    rewrite Nat.pow_succ_r' in *. lia.
  - apply double_lt_pow in Hm. rewrite bit_S, lor_double_double.
    specialize (IH t m' ltac:(lia) Hm).
    rewrite N.double_spec, Nat.pow_succ_r'. lia.
  - rewrite bit_0, lor_succ_double_1. exact Hm.
  - apply succ_double_lt_pow in Hm. rewrite bit_S, lor_succ_double_double.
    specialize (IH t m' ltac:(lia) Hm).
    rewrite N.succ_double_spec, Nat.pow_succ_r'. lia.
Qed.

Lemma land_bit_zero m t :
  N.eqb (N.land m (bit t)) 0 = negb (N.testbit m (N.of_nat t)).
Proof.
  destruct (N.testbit m (N.of_nat t)) eqn:Hb; simpl.
  - apply N.eqb_neq. apply (land_common_bit _ _ (N.of_nat t)); [exact Hb|].
    rewrite bit_testbit. apply Nat.eqb_refl.
  - apply N.eqb_eq. apply N.bits_inj. intros j.
    rewrite N.land_spec, N.bits_0.
    destruct (N.eq_dec j (N.of_nat t)) as [->|Hne].
    + rewrite Hb. reflexivity.
    + unfold bit. rewrite N.shiftl_1_l, N.pow2_bits_false by congruence.
      apply andb_false_r.
Qed.

(** Moving the sum over the masks without bit [t] to the masks with it. *)
Lemma sum_masks_reindex n t (g : N -> Z) :
  t < n ->
  sum_masks (fun m => if N.testbit m (N.of_nat t) then 0%Z else g (N.lor m (bit t))) (2 ^ n)
  = sum_masks (fun m => if N.testbit m (N.of_nat t) then g m else 0%Z) (2 ^ n).
Proof.
  revert t g. induction n as [|n IH]; intros t g Ht; [lia|].
  rewrite Nat.pow_succ_r', !sum_masks_double. destruct t as [|t].
  - apply sum_masks_ext. intros m _. simpl N.of_nat.
    rewrite testbit_double_0, testbit_succ_double_0, bit_0, lor_double_1. lia.
  - pose (g2 := fun x => (g (N.double x) + g (N.succ_double x))%Z).
    transitivity
      (sum_masks (fun m => if N.testbit m (N.of_nat t) then g2 m else 0%Z) (2 ^ n)).
    + rewrite <- (IH t g2) by lia. apply sum_masks_ext. intros m _. unfold g2.
      rewrite testbit_double_S, testbit_succ_double_S, bit_S,
        lor_double_double, lor_succ_double_double.
      destruct (N.testbit m (N.of_nat t)); lia.
    + apply sum_masks_ext. intros m _. unfold g2.
      rewrite testbit_double_S, testbit_succ_double_S.
      destruct (N.testbit m (N.of_nat t)); lia.
Qed.

(** The bits of a mask below [2^n] that are set are counted by [popcount]. *)
Lemma popcount_bits n m :
  (m < N.of_nat (2 ^ n))%N ->
  Zsum (map (fun t => Z.b2z (N.testbit m (N.of_nat t))) (seq 0 n))
  = Z.of_nat (popcount m).
Proof.
  revert m. induction n as [|n IH]; intros m Hm.
  - simpl in Hm. assert (m = 0%N) as -> by lia. reflexivity.
  - rewrite <- cons_seq, <- seq_shift. cbn [map]. rewrite map_map.
    unfold Zsum. cbn [fold_right]. fold (Zsum (map (fun t => Z.b2z (N.testbit m (N.of_nat (S t)))) (seq 0 n))).
    destruct (N_double_cases m) as (m' & [->| ->]).
    + apply double_lt_pow in Hm. simpl N.of_nat at 1.
      rewrite testbit_double_0, popcount_double, <- (IH m' Hm).
      simpl Z.b2z. rewrite Z.add_0_l. unfold Zsum. f_equal.
      apply map_ext. intros t. now rewrite testbit_double_S.
    + apply succ_double_lt_pow in Hm. simpl N.of_nat at 1.
      rewrite testbit_succ_double_0, popcount_succ_double, Nat2Z.inj_succ, <- (IH m' Hm).
      simpl Z.b2z. unfold Z.succ. rewrite Z.add_comm. unfold Zsum. f_equal. f_equal.
      apply map_ext. intros t. now rewrite testbit_succ_double_S.
Qed.

Lemma ones_S n : N.ones (N.of_nat (S n)) = N.succ_double (N.ones (N.of_nat n)).
Proof.
  rewrite !N.ones_equiv, Nat2N.inj_succ, N.pow_succ_r', N.succ_double_spec.
  assert (0 < 2 ^ N.of_nat n)%N by (apply N.neq_0_lt_0, N.pow_nonzero; lia).
  lia.
Qed.

(** Only the full coalition has [n] elements. *)
Lemma sum_masks_top_layer n (h : N -> Z) :
  sum_masks (fun m => if Nat.eqb (popcount m) n then h m else 0%Z) (2 ^ n)
  = h (N.ones (N.of_nat n)).
Proof.
  revert h. induction n as [|n IH]; intros h.
  - change (h 0%N + 0 = h 0%N)%Z. lia.
  - rewrite Nat.pow_succ_r', sum_masks_double, ones_S, <- (IH (fun m => h (N.succ_double m))).
    apply sum_masks_ext. intros m Hm.
    rewrite popcount_double, popcount_succ_double.
    apply popcount_bound in Hm.
    destruct (Nat.eqb_spec (popcount m) (S n)) as [Heq|_]; [lia|].
    simpl Nat.eqb. lia.
Qed.

Lemma Zsum_map_const {A : Type} (c : Z) (l : list A) :
  Zsum (map (fun _ => c) l) = (c * Z.of_nat (length l))%Z.
Proof. induction l as [|x l IH]; simpl Zsum; simpl length; [lia | rewrite IH; lia]. Qed.

(** ** Efficiency of the exact Shapley value, over the integers *)

Lemma coeff_up n k :
  1 <= k <= n -> k * (fact (k - 1) * fact (n - (k - 1) - 1)) = fact k * fact (n - k).
Proof.
  intros Hk. destruct k as [|k]; [lia|].
  replace (S k - 1) with k by lia. replace (n - k - 1) with (n - S k) by lia.
  simpl fact. lia.
Qed.

Lemma coeff_down n k :
  k < n -> (n - k) * (fact k * fact (n - k - 1)) = fact k * fact (n - k).
Proof.
  intros Hk. destruct (n - k) as [|d] eqn:Hd; [lia|].
  replace (S d - 1) with d by lia. simpl fact. lia.
Qed.

Lemma marginal_total n masks :
  0 < n -> v_of masks 0%N = 0%Z ->
  Zsum (map (fun t => sum_masks (marginal n masks t) (2 ^ n)) (seq 0 n))
  = (Z.of_nat (fact n) * v_of masks (N.ones (N.of_nat n)))%Z.
Proof.
  intros Hn Hv0.
  set (up := fun m => (weight_num n (popcount m - 1) * v_of masks m)%Z).
  set (down := fun m => (weight_num n (popcount m) * v_of masks m)%Z).
  (* split every marginal term and move the first half to the larger mask *)
  assert (Hsplit : forall t, In t (seq 0 n) ->
     sum_masks (marginal n masks t) (2 ^ n)
     = (sum_masks (fun m => if N.testbit m (N.of_nat t) then up m else 0) (2 ^ n)
        - sum_masks (fun m => if N.testbit m (N.of_nat t) then 0 else down m) (2 ^ n))%Z).
  { intros t Ht. apply in_seq in Ht.
    rewrite <- (sum_masks_reindex n t up) by lia.
    unfold sum_masks. rewrite <- Zsum_map_sub. apply Zsum_map_ext_in.
    intros m _. unfold marginal, up, down.
    destruct (N.testbit m (N.of_nat t)) eqn:Hb; [reflexivity|].
    rewrite (popcount_lor_bit t m Hb).
    replace (S (popcount m) - 1) with (popcount m) by lia. lia. }
  rewrite (Zsum_map_ext_in _ _ _ Hsplit).
  rewrite Zsum_map_sub.
  unfold sum_masks at 1 2.
  rewrite (Zsum_swap (fun t m => if N.testbit m (N.of_nat t) then up m else 0%Z)).
  rewrite (Zsum_swap (fun t m => if N.testbit m (N.of_nat t) then 0%Z else down m)).
  rewrite <- Zsum_map_sub.
  rewrite <- (sum_masks_top_layer n (fun m => (Z.of_nat (fact n) * v_of masks m)%Z)).
  unfold sum_masks. apply Zsum_map_ext_in. intros m Hm.
  apply In_range_N in Hm.
  pose proof (popcount_bits n m Hm) as Hbits.
  pose proof (popcount_bound n m Hm) as Hle.
  assert (Hup : Zsum (map (fun t => if N.testbit m (N.of_nat t) then up m else 0%Z) (seq 0 n))
                = (up m * Z.of_nat (popcount m))%Z).
  { rewrite <- Hbits, <- Zsum_map_mul_l. apply Zsum_map_ext_in. intros t _.
    destruct (N.testbit m (N.of_nat t)); simpl; lia. }
  assert (Hdown : Zsum (map (fun t => if N.testbit m (N.of_nat t) then 0%Z else down m) (seq 0 n))
                  = (down m * (Z.of_nat n - Z.of_nat (popcount m)))%Z).
  { rewrite <- Hbits.
    rewrite (Zsum_map_ext_in _ (fun t => down m - down m * Z.b2z (N.testbit m (N.of_nat t)))%Z).
    - rewrite Zsum_map_sub, Zsum_map_const, Zsum_map_mul_l, length_seq. lia.
    - intros t _. destruct (N.testbit m (N.of_nat t)); simpl; lia. }
  rewrite Hup, Hdown. unfold up, down, weight_num.
  assert (Hvz : popcount m = 0 -> v_of masks m = 0%Z).
  { intros Hz. apply popcount_zero in Hz. now subst m. }
  clear Hup Hdown Hbits Hsplit up down Hm.
  revert Hle Hvz. generalize (popcount m) (v_of masks m). intros k v Hle Hvz.
  destruct (Nat.eqb_spec k n) as [Heq|Hne].
  - subst k. pose proof (coeff_up n n ltac:(lia)) as Hu.
    rewrite Nat.sub_diag in Hu.
    replace (n - (n - 1) - 1) with 0 in Hu by lia.
    apply (f_equal Z.of_nat) in Hu. rewrite !Nat2Z.inj_mul in Hu.
    rewrite !Nat2Z.inj_mul. change (Z.of_nat (fact 0)) with 1%Z in Hu.
    rewrite Z.sub_diag, Z.mul_0_r, Z.sub_0_r.
    replace (n - (n - 1) - 1) with 0 by lia. change (Z.of_nat (fact 0)) with 1%Z.
    rewrite !Z.mul_1_r in Hu. rewrite <- Hu. ring.
  - destruct (Nat.eq_dec k 0) as [Hz|Hnz].
    + rewrite (Hvz Hz). ring.
    + pose proof (coeff_up n k ltac:(lia)) as Hu.
      pose proof (coeff_down n k ltac:(lia)) as Hd.
      replace (n - (k - 1) - 1) with (n - k) in Hu by lia.
      apply (f_equal Z.of_nat) in Hu. apply (f_equal Z.of_nat) in Hd.
      rewrite !Nat2Z.inj_mul in Hu, Hd. rewrite Nat2Z.inj_sub in Hd by lia.
      replace (n - (k - 1) - 1) with (n - k) by lia.
      rewrite !Nat2Z.inj_mul.
      transitivity (v * (Z.of_nat k * (Z.of_nat (fact (k - 1)) * Z.of_nat (fact (n - k)))
                         - (Z.of_nat n - Z.of_nat k)
                           * (Z.of_nat (fact k) * Z.of_nat (fact (n - k - 1)))))%Z;
        [ring|].
      rewrite Hu, Hd. ring.
Qed.

(** ** From the table look-ups of [exact_shapley] to the sums *)

Lemma nth_map_seq {A : Type} (f : nat -> A) size i d :
  i < size -> nth i (map f (seq 0 size)) d = f i.
Proof.
  intros Hi. rewrite (nth_indep _ d (f 0)) by (rewrite length_map, length_seq; exact Hi).
  rewrite (map_nth f (seq 0 size) 0 i), seq_nth by exact Hi. reflexivity.
Qed.

(** [v_mask[mask]] is read inside the table and holds [v(mask)]. *)
Lemma v_mask_nth support_sets n m :
  (m < N.of_nat (2 ^ n))%N ->
  nth (N.to_nat m) (fst (_compute_v_masks support_sets n)) 0%Z
  = v_of (_support_sets_to_masks support_sets n) m.
Proof.
  intros Hm. unfold _compute_v_masks, range_N, v_of. cbn [fst].
  rewrite map_map, nth_map_seq by lia. now rewrite N2Nat.id.
Qed.

Lemma fact_table_prefix n j :
  j <= n ->
  let tbl := fold_left
               (fun (fact : list Z) i => <[i := (nth (i - 1) fact 0 * Z.of_nat i)%Z]> fact)
               (seq 1 j) (repeat 1%Z (n + 1)) in
  length tbl = n + 1 /\ forall k, k <= j -> nth k tbl 0%Z = Z.of_nat (fact k).
Proof.
  induction j as [|j IH]; intros Hj; cbv zeta.
  - simpl. split; [apply repeat_length|].
    intros k Hk. assert (k = 0) as -> by lia.
    replace (n + 1) with (S n) by lia. reflexivity.
  - destruct (IH ltac:(lia)) as [Hlen Hnth].
    rewrite seq_S, fold_left_app. cbn [fold_left]. split.
    + rewrite length_insert. exact Hlen.
    + intros k Hk. replace (1 + j - 1) with j by lia.
      rewrite nth_lookup. destruct (Nat.eq_dec k (S j)) as [->|Hne].
      * rewrite list_lookup_insert_eq by (simpl; lia). cbn [default].
        rewrite Hnth by lia. rewrite <- Nat2Z.inj_mul. f_equal. simpl. lia.
      * rewrite list_lookup_insert_ne by (simpl; lia).
        rewrite <- nth_lookup. apply Hnth. lia.
Qed.

(** [fact[k]] is read inside the table and holds [k!]. *)
Lemma fact_table_nth n k : k <= n -> nth k (fact_table n) 0%Z = Z.of_nat (fact k).
Proof.
  intros Hk. unfold fact_table.
  destruct (fact_table_prefix n n (le_n n)) as [_ H]. now apply H.
Qed.

Lemma fact_pos_Z n : (0 < Z.of_nat (fact n))%Z.
Proof. pose proof (lt_O_fact n). lia. Qed.

Lemma exact_step_marginal support_sets n t s m :
  t < n -> (m < N.of_nat (2 ^ n))%N ->
  (exact_step n (fst (_compute_v_masks support_sets n)) (fact_table n)
              (nth n (fact_table n) 0%Z) (bit t) s m
   == s + inject_Z (marginal n (_support_sets_to_masks support_sets n) t m)
          / inject_Z (Z.of_nat (fact n)))%Q.
Proof.
  intros Ht Hm. unfold exact_step, marginal.
  rewrite land_bit_zero, negb_involutive.
  destruct (N.testbit m (N.of_nat t)) eqn:Hb.
  - unfold Qdiv. change (inject_Z 0) with 0%Q. ring.
  - pose proof (popcount_bound n m Hm) as Hk.
    rewrite !v_mask_nth by (auto using lor_bit_lt_pow).
    rewrite !fact_table_nth by lia.
    set (masks := _support_sets_to_masks support_sets n).
    destruct (Z.eqb_spec (v_of masks (N.lor m (bit t))) (v_of masks m)) as [Heq|Hne].
    + rewrite Heq, Z.sub_diag, Z.mul_0_r. unfold Qdiv. change (inject_Z 0) with 0%Q. ring.
    + unfold weight_num. rewrite Nat2Z.inj_mul, !inject_Z_mult.
      field. intros Hz. pose proof (fact_pos_Z n) as Hp.
      rewrite (Zlt_Qlt 0) in Hp. rewrite Hz in Hp. discriminate.
Qed.

Lemma exact_fold_marginal support_sets n t l s :
  t < n -> (forall m, In m l -> (m < N.of_nat (2 ^ n))%N) ->
  (fold_left (exact_step n (fst (_compute_v_masks support_sets n)) (fact_table n)
                         (nth n (fact_table n) 0%Z) (bit t)) l s
   == s + inject_Z (Zsum (map (marginal n (_support_sets_to_masks support_sets n) t) l))
          / inject_Z (Z.of_nat (fact n)))%Q.
Proof.
  intros Ht. revert s. induction l as [|m l IH]; intros s Hl.
  - simpl. unfold Qdiv. change (inject_Z 0) with 0%Q. ring.
  - cbn [fold_left map]. rewrite IH by (intros; apply Hl; simpl; auto).
    unfold Zsum. cbn [fold_right].
    fold (Zsum (map (marginal n (_support_sets_to_masks support_sets n) t) l)).
    assert (Hstep := exact_step_marginal support_sets n t s m Ht (Hl m (or_introl eq_refl))).
    rewrite Hstep, inject_Z_plus. unfold Qdiv. ring.
Qed.

Lemma Qsum_map_ext_in {A : Type} (f g : A -> Q) l :
  (forall x, In x l -> (f x == g x)%Q) -> (Qsum (map f l) == Qsum (map g l))%Q.
Proof.
  intros H. induction l as [|x l IH]; simpl; [reflexivity|].
  rewrite H by (simpl; auto). rewrite IH; [reflexivity|].
  intros y Hy. apply H. simpl. auto.
Qed.

Lemma Qsum_map_inject {A : Type} (f : A -> Z) (d : Q) l :
  (Qsum (map (fun x => 0 + inject_Z (f x) / d) l) == inject_Z (Zsum (map f l)) / d)%Q.
Proof.
  induction l as [|x l IH]; simpl.
  - unfold Qdiv. change (inject_Z 0) with 0%Q. ring.
  - rewrite IH, inject_Z_plus. unfold Qdiv. ring.
Qed.

Lemma v_of_full support_sets n :
  valid_family support_sets n ->
  v_of (_support_sets_to_masks support_sets n) (N.ones (N.of_nat n)) = 1%Z.
Proof.
  intros Hv. unfold v_of.
  replace (hits_all _ _) with true; [reflexivity|].
  symmetry. apply hits_all_true. intros sm Hsm.
  destruct (support_mask_has_bit _ _ _ Hv Hsm) as (i & Hi & Hbit).
  apply (land_common_bit _ _ (N.of_nat i)); [|exact Hbit].
  apply N.ones_spec_low. lia.
Qed.

Lemma v_of_empty support_sets n :
  valid_family support_sets n ->
  v_of (_support_sets_to_masks support_sets n) 0%N = 0%Z.
Proof.
  intros [Hne _]. unfold v_of.
  rewrite hits_all_empty_coalition; [reflexivity|].
  now apply support_masks_nonempty.
Qed.

(** The exact Shapley values of a valid family add up to one. *)
Lemma exact_shapley_sum support_sets n :
  valid_family support_sets n -> (Qsum (exact_shapley support_sets n) == 1)%Q.
Proof.
  intros Hv. pose proof (valid_family_pos _ _ Hv) as Hn.
  unfold exact_shapley. destruct (Nat.eqb_spec n 0) as [->|_]; [lia|].
  rewrite (Qsum_map_ext_in _
             (fun t => 0 + inject_Z (sum_masks (marginal n (_support_sets_to_masks support_sets n) t) (2 ^ n))
                          / inject_Z (Z.of_nat (fact n)))%Q).
  - rewrite Qsum_map_inject, marginal_total by (auto using v_of_empty).
    rewrite v_of_full by exact Hv. rewrite Z.mul_1_r.
    field. intros Hz. pose proof (fact_pos_Z n) as Hp.
    rewrite (Zlt_Qlt 0) in Hp. rewrite Hz in Hp. discriminate.
  - intros t Ht. apply in_seq in Ht. apply exact_fold_marginal; [lia|].
    intros m Hm. now apply In_range_N.
Qed.

Lemma ones_lt_pow n : (N.ones (N.of_nat n) < N.of_nat (2 ^ n))%N.
Proof.
  rewrite N.ones_equiv, Nat2N.inj_pow. change (N.of_nat 2) with 2%N.
  assert (0 < 2 ^ N.of_nat n)%N by (apply N.neq_0_lt_0, N.pow_nonzero; lia).
  lia.
Qed.

Lemma ones_to_nat n : N.to_nat (N.ones (N.of_nat n)) = 2 ^ n - 1.
Proof.
  rewrite N.ones_equiv, N2Nat.inj_pred, N2Nat.inj_pow, Nat2N.id.
  change (N.to_nat 2) with 2. lia.
Qed.

(** [v_mask[size - 1]], the value of the full universe, is 1. *)
Lemma v_mask_full support_sets n :
  valid_family support_sets n ->
  nth (2 ^ n - 1) (fst (_compute_v_masks support_sets n)) 0%Z = 1%Z.
Proof.
  intros Hv. rewrite <- ones_to_nat, v_mask_nth by apply ones_lt_pow.
  now apply v_of_full.
Qed.

Lemma exact_shapley_length support_sets n : length (exact_shapley support_sets n) = n.
Proof.
  unfold exact_shapley. destruct (Nat.eqb_spec n 0) as [->|_]; [reflexivity|].
  now rewrite length_map, length_seq.
Qed.

(** ** Claims on the Shapley engine *)

Lemma counts_incr_inject idx (zs : list Z) :
  counts_incr idx (map inject_Z zs)
  = map inject_Z (<[idx := (nth idx zs 0 + 1)%Z]> zs).
Proof.
  unfold counts_incr. revert idx.
  induction zs as [|z zs IH]; intros idx; [reflexivity|].
  destruct idx as [|idx]; cbn [map nth].
  - cbn. f_equal. unfold Qplus, inject_Z. cbn [Qnum Qden].
    f_equal. lia.
  - cbn. f_equal. apply IH.
Qed.

Lemma Zsum_insert_incr idx (zs : list Z) :
  idx < length zs ->
  Zsum (<[idx := (nth idx zs 0 + 1)%Z]> zs) = (Zsum zs + 1)%Z.
Proof.
  revert idx. induction zs as [|z zs IH]; intros idx Hlt; simpl in *; [lia|].
  destruct idx as [|idx]; simpl.
  - unfold Zsum in *. simpl. lia.
  - unfold Zsum in *. simpl. rewrite IH by lia. lia.
Qed.

Lemma insert_incr_nonneg idx (zs : list Z) :
  Forall (fun c => (0 <= c)%Z) zs ->
  Forall (fun c => (0 <= c)%Z) (<[idx := (nth idx zs 0 + 1)%Z]> zs).
Proof.
  intros H. revert idx.
  induction H as [|z zs Hz Hzs IH]; intros idx; simpl; [constructor|].
  destruct idx as [|idx]; simpl; constructor; auto. lia.
Qed.

Section ApproxCredits.

Variable rng_state : Type.
Variable default_rng : Z -> rng_state.
Variable rng_permutation : rng_state -> nat -> list nat * rng_state.
Hypothesis rng_permutation_spec :
  forall g n, Permutation (fst (rng_permutation g n)) (seq 0 n).

(** The array [counts] holds integers: every sample adds one to one entry. *)
Lemma approx_samples_credits support_sets n k g (zs : list Z) :
  valid_family support_sets n -> length zs = n ->
  Forall (fun c => (0 <= c)%Z) zs ->
  exists zs' : list Z,
    fst (approx_samples rng_state rng_permutation k
           (_support_sets_to_masks support_sets n) n g (map inject_Z zs))
    = map inject_Z zs' /\
    length zs' = n /\ Forall (fun c => (0 <= c)%Z) zs' /\
    Zsum zs' = (Zsum zs + Z.of_nat k)%Z.
Proof.
  intros Hv. revert g zs.
  induction k as [|k IH]; intros g zs Hlen Hpos; cbn [approx_samples].
  - exists zs. simpl. repeat split; auto. lia.
  - pose proof (rng_permutation_spec g n) as Hperm.
    destruct (rng_permutation g n) as [perm g']. simpl in Hperm.
    destruct (shap_walk_one_credit support_sets n perm (map inject_Z zs) Hv Hperm)
      as (idx & Hidx & ->).
    rewrite counts_incr_inject.
    destruct (IH g' (<[idx := (nth idx zs 0 + 1)%Z]> zs)) as (zs' & He & Hl & Hp & Hs).
    + now rewrite length_insert.
    + now apply insert_incr_nonneg.
    + exists zs'. repeat split; auto.
      rewrite Hs, Zsum_insert_incr by lia. lia.
Qed.

End ApproxCredits.

(** Rounding every term of a sum of non-negative numbers with a relative
    error of at most [u] moves the sum by at most [u] times the sum. *)
Lemma Qsum_rounded (rnd : Q -> Q) (u : Q) (l : list Q) :
  (forall x, (Qabs (rnd x - x) <= u * Qabs x)%Q) ->
  Forall (fun q : Q => (0 <= q)%Q) l ->
  (Qabs (Qsum (map rnd l) - Qsum l) <= u * Qsum l)%Q.
Proof.
  intros Hr H. induction H as [|q l Hq Hl IH].
  - simpl. rewrite Qmult_0_r. discriminate.
  - change (Qsum (map rnd (q :: l))) with (rnd q + Qsum (map rnd l))%Q.
    change (Qsum (q :: l)) with (q + Qsum l)%Q.
    assert (E1 : (rnd q + Qsum (map rnd l) - (q + Qsum l)
                  == (rnd q - q) + (Qsum (map rnd l) - Qsum l))%Q) by ring.
    rewrite E1.
    eapply Qle_trans; [apply Qabs_triangle|].
    assert (E2 : (u * (q + Qsum l) == u * q + u * Qsum l)%Q) by ring.
    rewrite E2.
    apply Qplus_le_compat; [|exact IH].
    specialize (Hr q). rewrite (Qabs_pos q Hq) in Hr. exact Hr.
Qed.

Lemma Zsum_repeat_zero n : Zsum (repeat 0%Z n) = 0%Z.
Proof. induction n as [|n IH]; [reflexivity|]. simpl. unfold Zsum in *. simpl. exact IH. Qed.

Lemma Qsum_map_inject_div (zs : list Z) (d : Z) :
  (Qsum (map (fun c => inject_Z c / inject_Z d)%Q zs) == inject_Z (Zsum zs) / inject_Z d)%Q.
Proof.
  induction zs as [|z zs IH].
  - simpl. unfold Qdiv. ring.
  - change (Qsum (map (fun c => inject_Z c / inject_Z d)%Q (z :: zs)))
      with (inject_Z z / inject_Z d + Qsum (map (fun c => inject_Z c / inject_Z d) zs))%Q.
    rewrite IH. change (Zsum (z :: zs)) with (z + Zsum zs)%Z.
    rewrite inject_Z_plus. unfold Qdiv. ring.
Qed.

Section ShapleyClaims.

Variable rng_state : Type.
Variable default_rng : Z -> rng_state.
Variable rng_permutation : rng_state -> nat -> list nat * rng_state.
Hypothesis rng_permutation_spec :
  forall g n, Permutation (fst (rng_permutation g n)) (seq 0 n).

(** C1: for a non-empty family of non-empty subsets of the universe
    [{0..n-1}], the value of the full universe is 1, [exact_shapley]
    returns one value per element and the values add up to 1, and so do
    the estimates of [approx_shapley] for every generator and every
    positive number of samples (over exact rationals). *)
Theorem shapley_efficiency (support_sets : list (list nat)) (n : nat) :
  valid_family support_sets n ->
  nth (2 ^ n - 1) (fst (_compute_v_masks support_sets n)) 0%Z = 1%Z /\
  length (exact_shapley support_sets n) = n /\
  (Qsum (exact_shapley support_sets n) == 1)%Q /\
  forall (num_samples : Z) (rng : option rng_state),
    (1 <= num_samples)%Z ->
    exists phi : list Q,
      fst (approx_shapley rng_state default_rng rng_permutation
             support_sets n num_samples rng) = map Fin phi /\
      (Qsum phi == 1)%Q.
Proof.
  intros Hv. split; [now apply v_mask_full|].
  split; [apply exact_shapley_length|]. split.
  - now apply exact_shapley_sum.
  - intros num_samples rng Hs.
    destruct (approx_shapley_estimates rng_state default_rng rng_permutation
                rng_permutation_spec support_sets n num_samples rng Hv Hs)
      as (phi & Hphi & _ & _ & Hsum).
    exists phi. auto.
Qed.

(** C10 (amended): every sampled permutation credits exactly one element;
    for every generator state and every sample count of at least one the
    credit counts are non-negative integers that add up to the sample
    count, and every estimate is the quotient of its count by the sample
    count, hence non-negative.  The quotients add up to one.  The doubles
    the program returns are these quotients rounded, so that their sum is
    one up to rounding only: when every division has a relative error of
    at most [u], the sum of the rounded quotients differs from one by at
    most [u]. *)
Theorem approx_shapley_one_credit_per_sample (support_sets : list (list nat)) (n : nat)
  (num_samples : Z) (rng : option rng_state) :
  valid_family support_sets n -> (1 <= num_samples)%Z ->
  (forall (g : rng_state) (counts : list Q),
      exists idx, idx < n /\
        shap_walk (_support_sets_to_masks support_sets n)
                  (fst (rng_permutation g n)) 0%N false counts
        = counts_incr idx counts) /\
  exists counts : list Z,
    length counts = n /\
    Forall (fun c => (0 <= c)%Z) counts /\
    Zsum counts = num_samples /\
    fst (approx_shapley rng_state default_rng rng_permutation
           support_sets n num_samples rng)
    = map (fun c => Fin (inject_Z c / inject_Z num_samples)%Q) counts /\
    (Qsum (map (fun c => inject_Z c / inject_Z num_samples)%Q counts) == 1)%Q /\
    forall (rnd : Q -> Q) (u : Q),
      (forall x, (Qabs (rnd x - x) <= u * Qabs x)%Q) ->
      (Qabs (Qsum (map (fun c => rnd (inject_Z c / inject_Z num_samples)) counts) - 1)
       <= u)%Q.
Proof.
  intros Hv Hs. split.
  { intros g counts. apply shap_walk_one_credit; [exact Hv | apply rng_permutation_spec]. }
  pose proof (valid_family_pos _ _ Hv) as Hn.
  unfold approx_shapley.
  destruct (Nat.eqb_spec n 0) as [->|_]; [lia|].
  set (g := match rng with Some g0 => g0 | None => default_rng RNG_SEED end).
  assert (Hz : repeat 0%Q n = map inject_Z (repeat 0%Z n)).
  { clear. induction n as [|n IH]; [reflexivity|]. simpl. now rewrite IH. }
  rewrite Hz.
  destruct (approx_samples_credits rng_state rng_permutation rng_permutation_spec
              support_sets n (Z.to_nat num_samples) g (repeat 0%Z n) Hv
              (repeat_length _ _))
    as (zs & He & Hlen & Hpos & Hsum).
  { clear. induction n; simpl; constructor; auto. lia. }
  destruct (approx_samples rng_state rng_permutation (Z.to_nat num_samples)
              (_support_sets_to_masks support_sets n) n g (map inject_Z (repeat 0%Z n)))
    as [counts g'].
  simpl in He. subst counts. cbn [fst].
  rewrite Zsum_repeat_zero, Z2Nat.id in Hsum by lia. simpl in Hsum.
  assert (Hd : (0 < inject_Z num_samples)%Q) by (rewrite <- (Zlt_Qlt 0); lia).
  assert (Hone : (Qsum (map (fun c => inject_Z c / inject_Z num_samples)%Q zs) == 1)%Q).
  { rewrite Qsum_map_inject_div, Hsum. unfold Qdiv. apply Qmult_inv_r.
    intros E. rewrite E in Hd. discriminate. }
  exists zs. split; [exact Hlen|]. split; [exact Hpos|]. split; [exact Hsum|].
  split.
  { rewrite map_map. apply map_ext. intros c. apply np_div_finite. lia. }
  split; [exact Hone|].
  intros rnd u Hr.
  pose proof (Qsum_rounded rnd u (map (fun c => inject_Z c / inject_Z num_samples)%Q zs) Hr)
    as Hb.
  rewrite map_map in Hb.
  assert (Hnn : Forall (fun q : Q => (0 <= q)%Q)
                  (map (fun c => inject_Z c / inject_Z num_samples)%Q zs)).
  { apply Forall_forall. intros q Hq. apply in_map_iff in Hq.
    destruct Hq as (c & <- & Hc). rewrite Forall_forall in Hpos.
    apply Qle_shift_div_l; [exact Hd|]. rewrite Qmult_0_l.
    rewrite <- (Zle_Qle 0). now apply Hpos. }
  specialize (Hb Hnn).
  assert (E : (Qsum (map (fun c => rnd (inject_Z c / inject_Z num_samples)) zs) - 1
               == Qsum (map (fun c => rnd (inject_Z c / inject_Z num_samples)) zs)
                  - Qsum (map (fun c => inject_Z c / inject_Z num_samples)%Q zs))%Q).
  { rewrite Hone. reflexivity. }
  rewrite E. eapply Qle_trans; [exact Hb|]. rewrite Hone, Qmult_1_r. apply Qle_refl.
Qed.

End ShapleyClaims.

Lemma rev_rng_spec g n : Permutation (fst (rev_rng g n)) (seq 0 n).
Proof. simpl. apply Permutation_sym, Permutation_rev. Defined.

Lemma valid_family_example : valid_family family_ex 3.
Proof.
  unfold family_ex.
  split; [discriminate|].
  intros S [<-|[<-|[]]]; (split; [discriminate|]); simpl; intros i Hi; lia.
Defined.

(** Witness of C1 on [family_ex]. *)
Lemma shapley_efficiency_witness :
  valid_family family_ex 3 /\
  (nth (2 ^ 3 - 1) (fst (_compute_v_masks family_ex 3)) 0%Z = 1%Z /\
   length (exact_shapley family_ex 3) = 3 /\
   (Qsum (exact_shapley family_ex 3) == 1)%Q /\
   forall (num_samples : Z) (rng : option unit),
     (1 <= num_samples)%Z ->
     exists phi : list Q,
       fst (approx_shapley unit (fun _ => tt) rev_rng
              family_ex 3 num_samples rng) = map Fin phi /\
       (Qsum phi == 1)%Q).
Proof.
  split; [exact valid_family_example|].
  exact (shapley_efficiency unit (fun _ => tt) rev_rng rev_rng_spec
           family_ex 3 valid_family_example).
Defined.

(** Witness of C10 (amended) with four samples. *)
Lemma approx_shapley_one_credit_per_sample_witness :
  (valid_family family_ex 3 /\ (1 <= 4)%Z) /\
  ((forall (g : unit) (counts : list Q),
       exists idx, idx < 3 /\
         shap_walk (_support_sets_to_masks family_ex 3)
                   (fst (rev_rng g 3)) 0%N false counts
         = counts_incr idx counts) /\
   exists counts : list Z,
     length counts = 3 /\
     Forall (fun c => (0 <= c)%Z) counts /\
     Zsum counts = 4%Z /\
     fst (approx_shapley unit (fun _ => tt) rev_rng family_ex 3 4 None)
     = map (fun c => Fin (inject_Z c / inject_Z 4)%Q) counts /\
     (Qsum (map (fun c => inject_Z c / inject_Z 4)%Q counts) == 1)%Q /\
     forall (rnd : Q -> Q) (u : Q),
       (forall x, (Qabs (rnd x - x) <= u * Qabs x)%Q) ->
       (Qabs (Qsum (map (fun c => rnd (inject_Z c / inject_Z 4)) counts) - 1) <= u)%Q).
Proof.
  split; [split; [exact valid_family_example | lia]|].
  apply (approx_shapley_one_credit_per_sample unit (fun _ => tt) rev_rng rev_rng_spec
           family_ex 3 4 None valid_family_example).
  lia.
Defined.

Lemma rot_rng_spec g n : Permutation (fst (rot_rng g n)) (seq 0 n).
Proof.
  unfold rot_rng. cbn [fst].
  rewrite Permutation_app_comm. now rewrite take_drop.
Qed.

Lemma valid_family_ten : valid_family family_ten 10.
Proof.
  split; [discriminate|].
  intros S [<-|[]]. split; [discriminate|].
  intros i Hi. apply in_seq in Hi. lia.
Qed.

(** Counterexample to C10 as stated.  With a sample count of zero the
    division [counts / num_samples] yields [nan] for every element.  With
    ten samples whose permutations are the ten rotations of the range,
    over one support set of ten elements, every element is credited once:
    every estimate is the double nearest to 1/10, which is larger than
    1/10, so that the ten estimates add up to more than one, and, added in
    order as doubles, to less than one. *)
Lemma approx_shapley_sum_not_exact :
  (fst (approx_shapley unit (fun _ => tt) rev_rng family_ex 3 0 None)
   = [NaN; NaN; NaN] /\
   ~ (exists phi : list Q,
         fst (approx_shapley unit (fun _ => tt) rev_rng family_ex 3 0 None)
         = map Fin phi /\ (Qsum phi == 1)%Q)) /\
  valid_family family_ten 10 /\
  (forall g n, Permutation (fst (rot_rng g n)) (seq 0 n)) /\
  fst (approx_shapley nat (fun _ => 0) rot_rng family_ten 10 10 None)
  = map (fun c => Fin (inject_Z c / inject_Z 10)%Q) (repeat 1%Z 10) /\
  map f64_value (np_div_f64 (repeat 1%Z 10) 10) = repeat (Some tenth_f64) 10 /\
  (1 # 10 < tenth_f64)%Q /\
  f64_exact_sum (np_div_f64 (repeat 1%Z 10) 10)
  = Some (18014398509481985 # 18014398509481984) /\
  (1 < 18014398509481985 # 18014398509481984)%Q /\
  PrimFloat.ltb (f64_sum (np_div_f64 (repeat 1%Z 10) 10)) 1%float = true.
Proof.
  split.
  { split; [reflexivity|].
    intros (phi & Hphi & _). destruct phi as [|q phi]; discriminate Hphi. }
  split; [exact valid_family_ten|].
  split; [exact rot_rng_spec|].
  split; [vm_compute; reflexivity|].
  split; [vm_compute; reflexivity|].
  split; [reflexivity|].
  split; [vm_compute; reflexivity|].
  split; [reflexivity|].
  vm_compute; reflexivity.
Qed.

(** ** Responsibility *)

Lemma sat_atmost_search_sound : sat_atmost_sound sat_atmost_search.
Proof.
  intros clauses lits k H. unfold sat_atmost_search in H.
  apply existsb_exists in H. destruct H as (T & _ & H).
  apply andb_true_iff in H. destruct H as [Hc Hk].
  exists T. split.
  - intros c Hin. rewrite forallb_forall in Hc. specialize (Hc c Hin).
    apply existsb_exists in Hc. destruct Hc as (v & Hv & Hm).
    exists v. split; [exact Hv | now apply mem_In].
  - now apply Nat.leb_le.
Defined.

Lemma Q_unit_fraction (h : nat) :
  (0 < 1 / inject_Z (1 + Z.of_nat h))%Q /\ (1 / inject_Z (1 + Z.of_nat h) <= 1)%Q /\
  ((1 / inject_Z (1 + Z.of_nat h) == 1)%Q <-> h = 0).
Proof.
  assert (Hd : (0 < inject_Z (1 + Z.of_nat h))%Q) by (rewrite <- (Zlt_Qlt 0); lia).
  repeat split.
  - apply Qlt_shift_div_l; [exact Hd|]. rewrite Qmult_0_l. reflexivity.
  - apply Qle_shift_div_r; [exact Hd|]. rewrite Qmult_1_l.
    change 1%Q with (inject_Z 1). rewrite <- Zle_Qle. lia.
  - intros H.
    assert (Hnz : ~ (inject_Z (1 + Z.of_nat h) == 0)%Q).
    { intros Hz. rewrite Hz in Hd. discriminate. }
    pose proof (Qmult_div_r 1 _ Hnz) as E. rewrite H, Qmult_1_r in E.
    unfold Qeq in E. simpl in E. lia.
  - intros ->. reflexivity.
Qed.

Section RespFacts.

Variable sat_atmost : list (list nat) -> list nat -> nat -> bool.
Hypothesis sat_sound : sat_atmost_sound sat_atmost.

Lemma resp_search_some sets n ks k :
  resp_search sat_atmost sets n ks = Some k ->
  (k = 0 /\ existsb (fun S => negb (nonempty S)) sets = true) \/
  sat_atmost (map (map var) sets) (map var (seq 0 n)) k = true.
Proof.
  induction ks as [|k0 ks IH]; simpl; [discriminate|].
  destruct (existsb (fun S => negb (nonempty S)) sets) eqn:He.
  - intros [= <-]. auto.
  - destruct (sat_atmost (map (map var) sets) (map var (seq 0 n)) k0) eqn:Hs.
    + intros [= <-]. auto.
    + exact IH.
Qed.

(** No set of zero true variables satisfies a non-empty clause over the
    universe. *)
Lemma no_hitting_set_of_size_zero sets n :
  sets <> [] -> (forall S, In S sets -> S <> [] /\ forall i, In i S -> i < n) ->
  sat_atmost (map (map var) sets) (map var (seq 0 n)) 0 = false.
Proof.
  intros Hne Hv.
  destruct (sat_atmost _ _ 0) eqn:Hs; [|reflexivity]. exfalso.
  destruct sets as [|S rest]; [congruence|].
  destruct (sat_sound _ _ _ Hs) as (T & Hhit & Hk).
  destruct (Hhit (map var S)) as (v & Hv' & HvT); [simpl; auto|].
  assert (Hin : In v (List.filter (fun l => mem l T) (map var (seq 0 n)))).
  { apply filter_In. split; [|now apply mem_In].
    apply in_map_iff in Hv'. destruct Hv' as (j & <- & Hj).
    apply in_map. apply in_seq.
    destruct (Hv S (or_introl eq_refl)) as [_ Hlt]. specialize (Hlt j Hj). lia. }
  destruct (List.filter (fun l => mem l T) (map var (seq 0 n))); simpl in *; [contradiction | lia].
Qed.

Lemma filter_nil_iff {A : Type} (f : A -> bool) l :
  List.filter f l = [] <-> forall x, In x l -> f x = false.
Proof.
  induction l as [|x l IH]; simpl.
  - split; [intros _ ? [] | reflexivity].
  - destruct (f x) eqn:Hx.
    + split; [discriminate|]. intros H. specialize (H x (or_introl eq_refl)). congruence.
    + rewrite IH. split.
      * intros H y [<-|Hy]; auto.
      * intros H y Hy. apply H. auto.
Qed.

(** [h*(t) = 0] exactly when no witness set excludes [t]. *)
Lemma min_hitting_set_size_zero support_sets n t :
  (forall S, In S support_sets -> S <> [] /\ forall i, In i S -> i < n) ->
  min_hitting_set_size_for_t sat_atmost support_sets n t = 0
  <-> forall S, In S support_sets -> In t S.
Proof.
  intros Hv. unfold min_hitting_set_size_for_t.
  set (sets_minus_t := List.filter (fun S => negb (mem t S)) support_sets).
  assert (Hsub : forall S, In S sets_minus_t -> S <> [] /\ forall i, In i S -> i < n).
  { intros S HS. apply filter_In in HS. apply Hv. tauto. }
  assert (Hnil : sets_minus_t = [] <-> forall S, In S support_sets -> In t S).
  { unfold sets_minus_t. rewrite filter_nil_iff. split; intros H S HS.
    - apply mem_In. specialize (H S HS). now apply negb_false_iff in H.
    - apply negb_false_iff, mem_In. auto. }
  destruct sets_minus_t as [|S0 rest] eqn:Hsets; cbn [nonempty negb].
  - split; [intros _; now apply Hnil | reflexivity].
  - split.
    + intros Hz. exfalso.
      assert (Hn : 0 < n).
      { destruct (Hsub S0 (or_introl eq_refl)) as [Hne Hlt].
        destruct S0 as [|i S0']; [congruence|].
        specialize (Hlt i (or_introl eq_refl)). lia. }
      assert (Hs0 : sat_atmost (map (map var) (S0 :: rest)) (map var (seq 0 n)) 0 = false).
      { apply no_hitting_set_of_size_zero; [discriminate | exact Hsub]. }
      assert (He : existsb (fun S => negb (nonempty S)) (S0 :: rest) = false).
      { apply not_true_iff_false. intros He. apply existsb_exists in He.
        destruct He as (S & HS & HSe). destruct (Hsub S HS) as [Hne _].
        destruct S; [congruence | discriminate]. }
      destruct (resp_search sat_atmost (S0 :: rest) n (seq 0 (n + 1))) as [k|] eqn:Hr.
      * subst k. apply resp_search_some in Hr. destruct Hr as [[_ Hr]|Hr]; congruence.
      * lia.
    + intros H. apply Hnil in H. discriminate.
Qed.

Lemma resp_rho_range support_sets n t :
  (forall S, In S support_sets -> S <> [] /\ forall i, In i S -> i < n) ->
  (0 < resp_rho sat_atmost support_sets n t)%Q /\
  (resp_rho sat_atmost support_sets n t <= 1)%Q /\
  ((resp_rho sat_atmost support_sets n t == 1)%Q
   <-> forall S, In S support_sets -> In t S).
Proof.
  intros Hv. unfold resp_rho.
  destruct (Q_unit_fraction (min_hitting_set_size_for_t sat_atmost support_sets n t))
    as (H0 & H1 & Hiff).
  repeat split; auto.
  - intros H. apply Hiff in H. exact (proj1 (min_hitting_set_size_zero _ _ _ Hv) H).
  - intros H. apply Hiff. exact (proj2 (min_hitting_set_size_zero _ _ _ Hv) H).
Qed.

End RespFacts.

(** ** RIM: the loop over the universe *)

Lemma for_each_inv {A S : Type} (P : S -> Prop) (body : S -> A -> result S) l acc r :
  P acc ->
  (forall s x s', In x l -> P s -> body s x = Ok s' -> P s') ->
  for_each body l acc = Ok r -> P r.
Proof.
  revert acc. induction l as [|x l IH]; intros acc Hacc Hstep H; simpl in H.
  - now injection H as <-.
  - destruct (body acc x) as [acc'|e] eqn:Hb; simpl in H; [|discriminate].
    apply (IH acc'); auto.
    + apply (Hstep acc x); simpl; auto.
    + intros s y s' Hy. apply Hstep. simpl. auto.
Qed.

(** The size returned by the greedy heuristic is that of a hitting set. *)
Lemma greedy_size_hits edges :
  (forall e, In e edges -> e <> []) ->
  exists H : list nat,
    greedy_hitting_set_size edges = length H /\ hits_every_edge H edges.
Proof.
  intros Hne.
  assert (Hf : List.filter nonempty edges = edges).
  { apply forallb_filter_id. apply forallb_forall. intros e He.
    specialize (Hne e He). destruct e; [congruence | reflexivity]. }
  destruct (greedy_loop_picks edges 0 Hne) as (H & Hsize & _ & _ & Hhit).
  exists H. split; [|exact Hhit].
  unfold greedy_hitting_set_size. rewrite Hf.
  destruct edges as [|e rest]; simpl nonempty; cbv iota.
  - rewrite greedy_loop_equation_1 in Hsize. simpl in Hsize. lia.
  - rewrite Hsize. reflexivity.
Qed.

Lemma hitting_set_nonempty (H : list nat) edges :
  edges <> [] -> hits_every_edge H edges -> 1 <= length H.
Proof.
  intros Hne Hhit. destruct edges as [|e rest]; [congruence|].
  destruct (Hhit e (or_introl eq_refl)) as (u & Hu & _).
  destruct H; [contradiction | simpl; lia].
Qed.

Lemma filter_nonempty_id (edges : list (list nat)) :
  (forall e, In e edges -> e <> []) -> List.filter nonempty edges = edges.
Proof.
  intros Hne. apply forallb_filter_id. apply forallb_forall. intros e He.
  specialize (Hne e He). destruct e; [congruence | reflexivity].
Qed.

Lemma alist_set_fresh {V : Type} (tk : TupleKey) (v : V) d :
  ~ In tk (map fst d) -> alist_set tk v d = d ++ [(tk, v)].
Proof.
  induction d as [|[k v'] d IH]; simpl; intros Hn; [reflexivity|].
  destruct (decide (k = tk)) as [->|Hne]; [tauto|].
  rewrite IH by tauto. reflexivity.
Qed.

Lemma alist_get_nodup {V : Type} (d : list (TupleKey * V)) k v :
  List.NoDup (map fst d) -> In (k, v) d -> alist_get k d = Some v.
Proof.
  induction d as [|[k' v'] d IH]; simpl; intros Hnd Hin; [contradiction|].
  apply List.NoDup_cons_iff in Hnd. destruct Hnd as [Hk Hnd'].
  destruct Hin as [[= -> ->]|Hin].
  - destruct (decide (k = k)); [reflexivity | congruence].
  - destruct (decide (k' = k)) as [->|Hne]; [|auto].
    exfalso. apply Hk. apply in_map_iff. exists (k, v). auto.
Qed.

Lemma node_id_inj (all_nodes : list TupleKey) a b :
  In a all_nodes -> node_id all_nodes a = node_id all_nodes b -> a = b.
Proof.
  induction all_nodes as [|x rest IH]; simpl; intros Ha Heq; [contradiction|].
  destruct (decide (x = a)) as [Hxa|Hxa]; destruct (decide (x = b)) as [Hxb|Hxb];
    try congruence; try discriminate.
  destruct Ha as [Ha|Ha]; [congruence|].
  injection Heq as Heq. auto.
Qed.

Lemma sorted_Z_nil l : sorted_Z l = [] <-> l = [].
Proof.
  unfold sorted_Z. pose proof (merge_sort_Permutation Z.le l) as Hp. split.
  - intros H. rewrite H in Hp. apply Permutation_nil in Hp. exact Hp.
  - intros ->. reflexivity.
Qed.

Lemma edges_without_nil t_id edges_ids :
  edges_without t_id edges_ids = [] <-> forall e, In e edges_ids -> In t_id e.
Proof.
  unfold edges_without. rewrite filter_nil_iff. split; intros H e He.
  - apply mem_In. specialize (H e He). now apply negb_false_iff in H.
  - apply negb_false_iff, mem_In. auto.
Qed.

Lemma rho_of_gamma_ok g :
  (0 <= g)%Z -> rho_of_gamma g = Ok (1 / (1 + inject_Z g))%Q.
Proof.
  intros Hg. unfold rho_of_gamma. destruct (Z.eqb_spec (1 + g) 0); [lia | reflexivity].
Qed.

Lemma rho_value_range g :
  (0 <= g)%Z ->
  (0 < 1 / (1 + inject_Z g))%Q /\ (1 / (1 + inject_Z g) <= 1)%Q /\
  ((1 / (1 + inject_Z g) == 1)%Q <-> g = 0%Z).
Proof.
  intros Hg. destruct (Q_unit_fraction (Z.to_nat g)) as (H0 & H1 & Hiff).
  rewrite Z2Nat.id in H0, H1, Hiff by exact Hg.
  assert (E : (1 / (1 + inject_Z g) == 1 / inject_Z (1 + g))%Q).
  { rewrite inject_Z_plus. reflexivity. }
  rewrite E. repeat split; auto.
  - intros H. apply Hiff in H. lia.
  - intros ->. apply Hiff. reflexivity.
Qed.

Section RimFacts.

Variable int_of_str : string -> option Z.
Variable py_hash : list nat -> Z.
Variable solver_state : Type.
Variable CpSolver_Solve : solver_state -> Q -> CpModel -> cp_status * Z * solver_state.
Hypothesis solver_sound : cp_solver_sound CpSolver_Solve.

Lemma edge_signature_nil filtered :
  edge_signature py_hash filtered = [] <-> filtered = [].
Proof.
  unfold edge_signature. rewrite sorted_Z_nil. split.
  - apply map_eq_nil.
  - intros ->. reflexivity.
Qed.

Lemma solve_gamma_ok st filtered time_limit_s g0 st0 solver' :
  (forall e, In e filtered -> e <> []) ->
  solve_min_hitting_set_size_cpsat solver_state CpSolver_Solve st filtered time_limit_s
    (Some (Z.of_nat (greedy_hitting_set_size filtered))) = (g0, st0, solver') ->
  gamma_ok filtered
    (fst (if (g0 <? 0)%Z then (Z.of_nat (greedy_hitting_set_size filtered), TIMEOUT)
          else (g0, st0))).
Proof.
  intros Hne Hsolve. unfold solve_min_hitting_set_size_cpsat in Hsolve.
  destruct filtered as [|e rest]; cbn [nonempty negb] in Hsolve.
  - injection Hsolve as <- <- <-. simpl. split; [lia | tauto].
  - destruct (greedy_size_hits (e :: rest) Hne) as (H & Hk & Hhit).
    assert (Hub : (1 <= Z.of_nat (greedy_hitting_set_size (e :: rest)))%Z).
    { rewrite Hk. pose proof (hitting_set_nonempty H (e :: rest) ltac:(discriminate) Hhit). lia. }
    assert (Hgoal : forall g, (1 <= g)%Z ->
              gamma_ok (e :: rest)
                (fst (if (g <? 0)%Z
                      then (Z.of_nat (greedy_hitting_set_size (e :: rest)), TIMEOUT)
                      else (g, st0)))).
    { intros g Hg. destruct (Z.ltb_spec g 0); [lia|]. simpl.
      split; [lia|]. split; [lia | discriminate]. }
    destruct (CpSolver_Solve st time_limit_s _) as [[status objective] st'] eqn:Hcp.
    assert (Hobj : status = CP_OPTIMAL \/ status = CP_FEASIBLE -> (1 <= objective)%Z).
    { intros Hst. destruct (solver_sound _ _ _ _ _ _ Hcp Hst) as (T & HT & ->).
      cbn [cp_model_of cp_hit] in HT. rewrite (filter_nonempty_id _ Hne) in HT.
      pose proof (hitting_set_nonempty T (e :: rest) ltac:(discriminate) HT). lia. }
    destruct status; injection Hsolve as <- <- <-; apply Hgoal; auto.
Qed.

Lemma rim_step_spec all_nodes edges_ids time_limit_s enable_cache s t :
  (forall e, In e edges_ids -> e <> []) ->
  cache_ok (rl_cache s) ->
  exists s' g,
    rim_step py_hash solver_state CpSolver_Solve all_nodes edges_ids
             time_limit_s enable_cache s t = Ok s' /\
    cache_ok (rl_cache s') /\
    rl_rho s' = alist_set t (1 / (1 + inject_Z g))%Q (rl_rho s) /\
    gamma_ok (edges_without (node_id all_nodes t) edges_ids) g.
Proof.
  intros Hne Hcache. unfold rim_step.
  set (filtered := edges_without (node_id all_nodes t) edges_ids).
  assert (Hf : forall e, In e filtered -> e <> []).
  { intros e He. apply filter_In in He. apply Hne. tauto. }
  destruct (if enable_cache then rl_cache s !! edge_signature py_hash filtered else None)
    as [[g st]|] eqn:Hlook.
  - destruct enable_cache; [|discriminate].
    destruct (Hcache _ _ _ Hlook) as [Hg Hz].
    rewrite (rho_of_gamma_ok g Hg). cbn [bind].
    eexists; exists g. cbn [rl_cache rl_rho].
    split; [reflexivity|]. split; [exact Hcache|]. split; [reflexivity|].
    split; [exact Hg|]. rewrite Hz. apply edge_signature_nil.
  - destruct (solve_min_hitting_set_size_cpsat solver_state CpSolver_Solve (rl_solver s)
                filtered time_limit_s (Some (Z.of_nat (greedy_hitting_set_size filtered))))
      as [[g0 st0] solver'] eqn:Hsolve.
    pose proof (solve_gamma_ok _ _ _ _ _ _ Hf Hsolve) as Hok.
    destruct (if (g0 <? 0)%Z then (Z.of_nat (greedy_hitting_set_size filtered), TIMEOUT)
              else (g0, st0)) as [g st] eqn:Hg.
    cbn [fst] in Hok. destruct Hok as [Hpos Hz].
    rewrite (rho_of_gamma_ok g Hpos). cbn [bind].
    eexists; exists g. cbn [rl_cache rl_rho].
    split; [reflexivity|]. split; [|split; [reflexivity | split; assumption]].
    destruct enable_cache; [|exact Hcache].
    intros sig g' st' Hl. cbn [rl_cache] in Hl. rewrite lookup_insert in Hl.
    destruct (decide (edge_signature py_hash filtered = sig)) as [<-|Hsig].
    + injection Hl as <- <-.
      split; [exact Hpos|]. rewrite Hz. symmetry. apply edge_signature_nil.
    + eauto.
Qed.

(** The loop adds one entry per element, in order. *)
Lemma rim_loop_spec all_nodes edges_ids time_limit_s enable_cache ts :
  (forall e, In e edges_ids -> e <> []) ->
  List.NoDup ts ->
  forall s,
    cache_ok (rl_cache s) ->
    (forall t, In t ts -> ~ In t (map fst (rl_rho s))) ->
    exists s' new,
      for_each (rim_step py_hash solver_state CpSolver_Solve all_nodes edges_ids
                         time_limit_s enable_cache) ts s = Ok s' /\
      rl_rho s' = rl_rho s ++ new /\
      map fst new = ts /\
      forall t r, In (t, r) new ->
        exists g, r = (1 / (1 + inject_Z g))%Q /\
                  gamma_ok (edges_without (node_id all_nodes t) edges_ids) g.
Proof.
  intros Hne Hnd. induction Hnd as [|t ts Ht Hnd IH]; intros s Hcache Hfresh.
  - exists s, []. simpl. rewrite app_nil_r. repeat split; auto. intros ? ? [].
  - destruct (rim_step_spec all_nodes edges_ids time_limit_s enable_cache s t Hne Hcache)
      as (s1 & g & Hstep & Hc1 & Hrho & Hg).
    rewrite alist_set_fresh in Hrho by (apply Hfresh; simpl; auto).
    destruct (IH s1 Hc1) as (s' & new & Hloop & Hrho' & Hkeys & Hvals).
    { intros t' Ht'. rewrite Hrho, map_app, in_app_iff. simpl.
      intros [Hin|[<-|[]]]; [|contradiction].
      apply (Hfresh t'); simpl; auto. }
    exists s', ((t, (1 / (1 + inject_Z g))%Q) :: new).
    cbn [for_each]. rewrite Hstep. cbn [bind]. repeat split.
    + exact Hloop.
    + rewrite Hrho', Hrho, <- app_assoc. reflexivity.
    + simpl. now rewrite Hkeys.
    + intros t' r [[= <- <-]|Hin]; eauto.
Qed.

End RimFacts.

(** ** RIM: hypergraph, responsibilities and contributions *)

Lemma build_hypergraph_ok int_of_str mis_list hg :
  build_hypergraph_from_mis int_of_str mis_list = Ok hg -> hypergraph_ok hg.
Proof.
  unfold build_hypergraph_from_mis. apply for_each_inv.
  - split; cbn [fst snd]; [intros ? [] | intros t Ht].
    apply not_elem_of_empty in Ht. contradiction.
  - intros [edges universe] mis hg' _ [Hedges Huni] Hbody.
    cbn [fst snd] in Hedges, Huni, Hbody.
    destruct (iter_mis_tuples int_of_str mis) as [tks|err]; cbn [bind] in Hbody; [|discriminate].
    destruct (decide (list_to_set tks = (∅ : gset (string * list Z)))) as [He|He].
    + injection Hbody as <-. split; assumption.
    + injection Hbody as <-. split; cbn [fst snd].
      * intros e Hin. apply in_app_iff in Hin. destruct Hin as [Hin|[<-|[]]].
        -- destruct (Hedges e Hin) as [H1 H2]. split; [exact H1|].
           intros x Hx. apply elem_of_union. left. now apply H2.
        -- split; [exact He|]. intros x Hx. apply elem_of_union. now right.
      * intros t Ht. apply elem_of_union in Ht. destruct Ht as [Ht|Ht].
        -- destruct (Huni t Ht) as (e & Hin & Hte). exists e.
           split; [apply in_app_iff; auto | exact Hte].
        -- exists (list_to_set tks). split; [apply in_app_iff; simpl; auto | exact Ht].
Qed.

Lemma In_elements (X : gset (string * list Z)) t : In t (elements X) <-> t ∈ X.
Proof. rewrite <- list_elem_of_In. apply elem_of_elements. Qed.

Lemma NoDup_elements_list (X : gset (string * list Z)) : List.NoDup (elements X).
Proof. apply NoDup_ListNoDup, NoDup_elements. Qed.

Lemma In_sorted_keys l t : In t (sorted_keys l) <-> In t l.
Proof.
  unfold sorted_keys.
  pose proof (merge_sort_Permutation (fun a b => Is_true (tuplekey_leb a b)) l) as Hp.
  split; intros H.
  - exact (Permutation_in _ Hp H).
  - exact (Permutation_in _ (Permutation_sym Hp) H).
Qed.

Lemma Qsum_pos (l : list Q) :
  l <> [] -> (forall x, In x l -> (0 < x)%Q) -> (0 < Qsum l)%Q.
Proof.
  intros Hne Hpos. destruct l as [|x l]; [congruence|]. clear Hne.
  revert x Hpos. induction l as [|y l IH]; intros x Hpos; simpl.
  - rewrite Qplus_0_r. apply Hpos. simpl. auto.
  - apply (Qlt_trans _ (x + 0)).
    + rewrite Qplus_0_r. apply Hpos. simpl. auto.
    + apply Qplus_lt_r. apply (IH y). intros z Hz. apply Hpos. simpl in *. tauto.
Qed.


Lemma alist_items_all {V W : Type} (F : V -> W) (d d' : list (TupleKey * V)) :
  (forall k v, In (k, v) d' -> alist_get k d = Some v) ->
  map_result (fun t => let* r := alist_item d t in Ok (t, F r)) (map fst d')
  = Ok (map (fun kv => (fst kv, F (snd kv))) d').
Proof.
  induction d' as [|[k v] d' IH]; intros H; simpl; [reflexivity|].
  unfold alist_item at 1. rewrite (H k v) by (simpl; auto). cbn [bind].
  rewrite IH by (intros; apply H; simpl; auto). reflexivity.
Qed.

Section RimClaims.

Variable int_of_str : string -> option Z.
Variable py_hash : list nat -> Z.
Variable solver_state : Type.
Variable CpSolver_Solve : solver_state -> Q -> CpModel -> cp_status * Z * solver_state.
Hypothesis solver_sound : cp_solver_sound CpSolver_Solve.

(** The loop gives every tuple of the universe a responsibility in
    (0, 1], equal to 1 exactly for the tuples that lie in every edge. *)
Lemma rim_rho_for_dc_spec st mis_list time_limit_s enable_cache edges_tk universe :
  build_hypergraph_from_mis int_of_str mis_list = Ok (edges_tk, universe) ->
  exists s,
    rim_rho_for_dc int_of_str py_hash solver_state CpSolver_Solve
                   st mis_list time_limit_s enable_cache = Ok (universe, s) /\
    map fst (rl_rho s) = elements universe /\
    forall t r, In (t, r) (rl_rho s) ->
      (0 < r)%Q /\ (r <= 1)%Q /\ ((r == 1)%Q <-> forall e, In e edges_tk -> t ∈ e).
Proof.
  intros Hbuild. pose proof (build_hypergraph_ok _ _ _ Hbuild) as [Hedges Huni].
  simpl in Hedges, Huni.
  unfold rim_rho_for_dc. rewrite Hbuild. cbn [bind fst snd].
  set (all_nodes := sorted_keys (elements universe)).
  set (edges_ids := map (fun e : gset (string * list Z) =>
                           map (node_id all_nodes) (elements e)) edges_tk).
  assert (Hne : forall e, In e edges_ids -> e <> []).
  { intros e_ids He. apply in_map_iff in He. destruct He as (e & <- & He).
    destruct (Hedges e He) as [Hnonempty _].
    apply set_choose_L in Hnonempty. destruct Hnonempty as (x & Hx).
    apply In_elements in Hx. intros Hnil. apply map_eq_nil in Hnil.
    rewrite Hnil in Hx. exact Hx. }
  destruct (rim_loop_spec py_hash solver_state CpSolver_Solve solver_sound
              all_nodes edges_ids time_limit_s enable_cache (elements universe)
              Hne (NoDup_elements_list universe)
              {| rl_cache := ∅; rl_gamma_details := []; rl_rho := []; rl_solver := st |})
    as (s & new & Hloop & Hrho & Hkeys & Hvals).
  { intros sig g st0 Hl. cbn [rl_cache] in Hl. rewrite lookup_empty in Hl. discriminate. }
  { intros t _ []. }
  rewrite Hloop. cbn [bind]. exists s. cbn [rl_rho] in Hrho. simpl in Hrho. subst new.
  split; [reflexivity|]. split; [exact Hkeys|].
  intros t r Hin. destruct (Hvals t r Hin) as (g & -> & [Hg Hz]).
  destruct (rho_value_range g Hg) as (H0 & H1 & Hiff).
  split; [exact H0|]. split; [exact H1|].
  rewrite Hiff, Hz, edges_without_nil.
  assert (Ht : t ∈ universe).
  { apply In_elements. rewrite <- Hkeys. apply in_map_iff. exists (t, (1 / (1 + inject_Z g))%Q). auto. }
  split.
  - intros H e He.
    specialize (H (map (node_id all_nodes) (elements e))).
    assert (Hin' : In (node_id all_nodes t) (map (node_id all_nodes) (elements e))).
    { apply H. unfold edges_ids. apply in_map_iff. exists e. auto. }
    apply in_map_iff in Hin'. destruct Hin' as (x & Hxid & Hx).
    apply node_id_inj in Hxid.
    + subst x. now apply In_elements.
    + apply In_sorted_keys, In_elements. apply In_elements in Hx.
      destruct (Hedges e He) as [_ Hsub]. now apply Hsub.
  - intros H e_ids He. apply in_map_iff in He. destruct He as (e & <- & He).
    apply in_map. apply In_elements. auto.
Qed.


End RimClaims.

(** ** Claim on the responsibility *)

Lemma shortest_In candidates best T :
  fold_left shorter candidates best = Some T ->
  best = Some T \/ In T candidates.
Proof.
  revert best. induction candidates as [|C cs IH]; intros best H; simpl in *; [auto|].
  apply IH in H. destruct H as [H|H]; [|auto].
  destruct best as [B|]; simpl in H.
  - destruct (length C <? length B); injection H as <-; auto.
  - injection H as <-. auto.
Defined.

Lemma cp_search_sound : cp_solver_sound cp_search.
Proof.
  intros st tl model status objective st' H Hst. unfold cp_search in H.
  destruct (shortest _) as [T|] eqn:Hs.
  - injection H as <- <- <-. exists T. split; [|reflexivity].
    apply shortest_In in Hs. destruct Hs as [Hs|Hs]; [discriminate|].
    apply filter_In in Hs. destruct Hs as [_ Hs]. unfold cp_feasible in Hs.
    apply andb_true_iff in Hs. destruct Hs as [Hs _].
    intros e He. rewrite forallb_forall in Hs. specialize (Hs e He).
    apply existsb_exists in Hs. destruct Hs as (u & Hu & Hm).
    exists u. split; [now apply mem_In | exact Hu].
  - injection H as <- <- <-. destruct Hst; discriminate.
Defined.

Section ResponsibilityClaim.

Variable sat_atmost : list (list nat) -> list nat -> nat -> bool.
Hypothesis sat_sound : sat_atmost_sound sat_atmost.

Variable int_of_str : string -> option Z.
Variable py_hash : list nat -> Z.
Variable solver_state : Type.
Variable CpSolver_Solve : solver_state -> Q -> CpModel -> cp_status * Z * solver_state.
Hypothesis solver_sound : cp_solver_sound CpSolver_Solve.

(** C3 (amended): for non-empty witness sets the responsibility of every
    element lies in (0, 1], and it equals 1 exactly when the element
    belongs to every witness set of the unit.  This holds for the
    per-answer engine ([min_hitting_set_size_for_t]) and for the
    responsibilities computed inside [compute_rim_for_dc]. *)
Theorem responsibility_range
  (support_sets : list (list nat)) (n t : nat)
  (st : solver_state) (mis_list : list json) (time_limit_s : Q) (enable_cache : bool)
  (edges_tk : list (gset (string * list Z))) (universe : gset (string * list Z)) :
  (forall S, In S support_sets -> S <> [] /\ forall i, In i S -> i < n) ->
  build_hypergraph_from_mis int_of_str mis_list = Ok (edges_tk, universe) ->
  ((0 < resp_rho sat_atmost support_sets n t)%Q /\
   (resp_rho sat_atmost support_sets n t <= 1)%Q /\
   ((resp_rho sat_atmost support_sets n t == 1)%Q
    <-> forall S, In S support_sets -> In t S)) /\
  exists s,
    rim_rho_for_dc int_of_str py_hash solver_state CpSolver_Solve
                   st mis_list time_limit_s enable_cache = Ok (universe, s) /\
    forall tk, tk ∈ universe ->
      exists r, alist_get tk (rl_rho s) = Some r /\
                (0 < r)%Q /\ (r <= 1)%Q /\
                ((r == 1)%Q <-> forall e, In e edges_tk -> tk ∈ e).
Proof.
  intros Hv Hbuild. split.
  - now apply resp_rho_range.
  - destruct (rim_rho_for_dc_spec int_of_str py_hash solver_state CpSolver_Solve
                solver_sound st mis_list time_limit_s enable_cache _ _ Hbuild)
      as (s & Hrun & Hkeys & Hvals).
    exists s. split; [exact Hrun|].
    intros tk Htk. apply In_elements in Htk. rewrite <- Hkeys in Htk.
    apply in_map_iff in Htk. destruct Htk as ([k r] & Hk & Hin). simpl in Hk. subst k.
    exists r. split; [|now apply Hvals].
    apply alist_get_nodup; [|exact Hin].
    rewrite Hkeys. apply NoDup_elements_list.
Qed.

End ResponsibilityClaim.

Lemma list_to_set_cons_nonempty (tk : TupleKey) tks :
  list_to_set (tk :: tks) <> (∅ : gset (string * list Z)).
Proof.
  intros H. assert (Hin : tk ∈ (list_to_set (tk :: tks) : gset (string * list Z))).
  { apply elem_of_list_to_set. left. }
  rewrite H in Hin. now apply not_elem_of_empty in Hin.
Qed.

Lemma build_hypergraph_example :
  build_hypergraph_from_mis (fun _ => None) mis_list_ex = Ok (edges_ex, universe_ex).
Proof.
  unfold build_hypergraph_from_mis, mis_list_ex, edges_ex, universe_ex.
  cbn [for_each].
  change (iter_mis_tuples (fun _ => None) (mis_of_part [1; 2]%Z))
    with (Ok (A:=list TupleKey) [part_key 1; part_key 2]).
  cbn [bind fst snd].
  destruct (decide _) as [He|_]; [now apply list_to_set_cons_nonempty in He|].
  cbn [bind fst snd].
  change (iter_mis_tuples (fun _ => None) (mis_of_part [1; 3]%Z))
    with (Ok (A:=list TupleKey) [part_key 1; part_key 3]).
  cbn [bind fst snd].
  destruct (decide _) as [He|_]; [now apply list_to_set_cons_nonempty in He|].
  reflexivity.
Qed.

Lemma family_ex_sets :
  forall S, In S family_ex -> S <> [] /\ forall i, In i S -> i < 3.
Proof. exact (proj2 valid_family_example). Qed.

(** Witness of C3 (amended). *)
Lemma responsibility_range_witness :
  ((forall S, In S family_ex -> S <> [] /\ forall i, In i S -> i < 3) /\
   build_hypergraph_from_mis (fun _ => None) mis_list_ex = Ok (edges_ex, universe_ex)) /\
  (((0 < resp_rho sat_atmost_search family_ex 3 0)%Q /\
    (resp_rho sat_atmost_search family_ex 3 0 <= 1)%Q /\
    ((resp_rho sat_atmost_search family_ex 3 0 == 1)%Q
     <-> forall S, In S family_ex -> In 0 S)) /\
   exists s,
     rim_rho_for_dc (fun _ => None) (fun e => Z.of_nat (length e)) unit cp_search
                    tt mis_list_ex 1%Q true = Ok (universe_ex, s) /\
     forall tk, tk ∈ universe_ex ->
       exists r, alist_get tk (rl_rho s) = Some r /\
                 (0 < r)%Q /\ (r <= 1)%Q /\
                 ((r == 1)%Q <-> forall e, In e edges_ex -> tk ∈ e)).
Proof.
  split; [split; [exact family_ex_sets | exact build_hypergraph_example]|].
  exact (responsibility_range sat_atmost_search sat_atmost_search_sound
           (fun _ => None) (fun e => Z.of_nat (length e)) unit cp_search cp_search_sound
           family_ex 3 0 tt mis_list_ex 1%Q true edges_ex universe_ex
           family_ex_sets build_hypergraph_example).
Defined.

(** Counterexample to C3 as stated: in the single witness set {0,1} the
    element 0 has responsibility 1 without being the sole element of a
    witness set, and in the family {0}, {1} it is the sole element of a
    witness set but has responsibility 1/2. *)
Lemma responsibility_sole_element_counterexample :
  ((resp_rho sat_atmost_search one_pair_ex 2 0 == 1)%Q /\ ~ sole_element 0 one_pair_ex) /\
  (sole_element 0 singletons_ex /\
   (resp_rho sat_atmost_search singletons_ex 2 0 == 1 # 2)%Q).
Proof.
  split; split.
  - reflexivity.
  - intros (S & [<-|[]] & HS). specialize (proj1 (HS 1) ltac:(simpl; auto)). discriminate.
  - exists [0]. split; [simpl; auto|]. intros i. simpl. intuition.
  - reflexivity.
Qed.






(** ** Constant-weight measures: CBM and CIM *)

Lemma score_get_add score tk w tk' :
  score_get (score_add tk w score) tk'
  = if decide (tk = tk') then (score_get score tk + w)%Q else score_get score tk'.
Proof.
  unfold score_add, score_get at 1. rewrite lookup_insert.
  destruct (decide (tk = tk')); reflexivity.
Qed.

Lemma fold_add_tuples (tks : list TupleKey) (acc : gset (string * list Z)) tk :
  tk ∈ fold_left (fun a x => {[x]} ∪ a) tks acc <-> tk ∈ acc \/ In tk tks.
Proof.
  revert acc. induction tks as [|x tks IH]; intros acc; simpl.
  - tauto.
  - rewrite IH, elem_of_union, elem_of_singleton. intuition congruence.
Qed.

Section ConstantWeights.

Variable int_of_str : string -> option Z.

Lemma cbm_tuples_from mis_list ws acc :
  map_result (iter_mis_tuples int_of_str) mis_list = Ok ws ->
  exists X : gset (string * list Z),
    for_each (fun (tuples_for_dc : gset (string * list Z)) mis =>
                let* tks := iter_mis_tuples int_of_str mis in
                Ok (fold_left (fun a tk => {[tk]} ∪ a) tks tuples_for_dc))
             mis_list acc = Ok X /\
    forall tk, tk ∈ X <-> tk ∈ acc \/ exists w, In w ws /\ In tk w.
Proof.
  revert ws acc. induction mis_list as [|mis rest IH]; intros ws acc H; simpl in *.
  - injection H as <-. exists acc. split; [reflexivity|].
    intros tk. split; [auto | intros [H|(w & [] & _)]; exact H].
  - destruct (iter_mis_tuples int_of_str mis) as [tks|e]; simpl in *; [|discriminate].
    destruct (map_result (iter_mis_tuples int_of_str) rest) as [ws'|e] eqn:Hrest;
      simpl in H; [|discriminate].
    injection H as <-.
    destruct (IH ws' (fold_left (fun a tk => {[tk]} ∪ a) tks acc) eq_refl) as (X & HX & Hmem).
    exists X. split; [exact HX|]. intros tk. rewrite Hmem, fold_add_tuples. split.
    + intros [[H|H]|(w & Hw & Hin)].
      * left. exact H.
      * right. exists tks. split; [left; reflexivity | exact H].
      * right. exists w. split; [right; exact Hw | exact Hin].
    + intros [H|(w & [<-|Hw] & Hin)].
      * left. left. exact H.
      * left. right. exact Hin.
      * right. exists w. split; assumption.
Qed.

Lemma set_fold_score (X : gset (string * list Z)) score tk :
  (score_get (set_fold (fun t sc => score_add t 1%Q sc) score X) tk
   == score_get score tk + (if bool_decide (tk ∈ X) then 1 else 0))%Q.
Proof.
  revert tk.
  refine (set_fold_ind_L
           (fun acc (Y : gset (string * list Z)) =>
              forall tk, (score_get acc tk
                          == score_get score tk + (if bool_decide (tk ∈ Y) then 1 else 0))%Q)
           (fun t sc => score_add t 1%Q sc) score _ _ X).
  - intros tk. rewrite bool_decide_eq_false_2 by apply not_elem_of_empty. ring.
  - intros x Y acc Hx IH tk. rewrite score_get_add.
    destruct (decide (x = tk)) as [->|Hne].
    + rewrite IH. rewrite (bool_decide_eq_false_2 _ Hx).
      rewrite bool_decide_eq_true_2 by (apply elem_of_union; left; now apply elem_of_singleton).
      ring.
    + rewrite IH.
      destruct (decide (tk ∈ Y)) as [Hin|Hin].
      * rewrite !bool_decide_eq_true_2; [reflexivity | | exact Hin].
        apply elem_of_union. now right.
      * rewrite !bool_decide_eq_false_2; [reflexivity | | exact Hin].
        intros H. apply elem_of_union in H. destruct H as [H|H]; [|contradiction].
        apply elem_of_singleton in H. congruence.
Qed.

Lemma occurs_in_spec tk family :
  occurs_in tk family = true <-> exists w, In w family /\ In tk w.
Proof.
  unfold occurs_in. rewrite existsb_exists. split; intros (w & Hw & H); exists w; split; auto.
  - apply bool_decide_eq_true in H. now apply list_elem_of_In.
  - apply bool_decide_eq_true. now apply list_elem_of_In.
Qed.

(** C5: when the MIS files of the listed constraints are well formed,
    [compute_cbm] returns, and the score of a tuple is the number of
    listed constraints in whose MIS family the tuple occurs at least once
    (one per constraint, however many witness sets contain it). *)
Theorem cbm_counts_constraints (mis_dir : gmap string file) (dcs : list string)
  (family : string -> list (list TupleKey)) :
  (forall dc, In dc dcs -> mis_family int_of_str mis_dir dc = Ok (family dc)) ->
  exists score,
    compute_cbm int_of_str mis_dir dcs = Ok score /\
    forall tk,
      (score_get score tk
       == inject_Z (Z.of_nat (length (List.filter (fun dc => occurs_in tk (family dc)) dcs))))%Q.
Proof.
  intros Hfam. unfold compute_cbm.
  assert (Hgen : forall score0,
    exists score,
      for_each (fun score dc =>
                  match mis_dir !! dc_path dc with
                  | None => Ok score
                  | Some f =>
                      let* data := load_mis_file f in
                      let* mis_list := py_iter data in
                      let* tuples_for_dc := cbm_tuples_for_dc int_of_str mis_list in
                      Ok (set_fold (fun tk sc => score_add tk 1%Q sc) score tuples_for_dc)
                  end) dcs score0 = Ok score /\
      forall tk,
        (score_get score tk
         == score_get score0 tk
            + inject_Z (Z.of_nat (length (List.filter (fun dc => occurs_in tk (family dc)) dcs))))%Q).
  { induction dcs as [|dc dcs IH]; intros score0.
    - exists score0. split; [reflexivity|]. intros tk. simpl. ring.
    - specialize (IH (fun d Hd => Hfam d (or_intror Hd))).
      pose proof (Hfam dc (or_introl eq_refl)) as Hdc. unfold mis_family in Hdc.
      cbn [for_each].
      assert (Hstep : exists score1,
        match mis_dir !! dc_path dc with
        | None => Ok score0
        | Some f =>
            let* data := load_mis_file f in
            let* mis_list := py_iter data in
            let* tuples_for_dc := cbm_tuples_for_dc int_of_str mis_list in
            Ok (set_fold (fun tk sc => score_add tk 1%Q sc) score0 tuples_for_dc)
        end = Ok score1 /\
        forall tk, (score_get score1 tk
                    == score_get score0 tk
                       + (if occurs_in tk (family dc) then 1 else 0))%Q).
      { destruct (mis_dir !! dc_path dc) as [f|].
        - destruct (load_mis_file f) as [data|e]; cbn [bind] in *; [|discriminate].
          destruct (py_iter data) as [mis_list|e]; cbn [bind] in *; [|discriminate].
          destruct (cbm_tuples_from mis_list (family dc) ∅ Hdc) as (X & HX & Hmem).
          unfold cbm_tuples_for_dc. rewrite HX. cbn [bind].
          eexists. split; [reflexivity|]. intros tk. rewrite set_fold_score.
          destruct (occurs_in tk (family dc)) eqn:Ho.
          + rewrite bool_decide_eq_true_2; [reflexivity|].
            apply Hmem. right. now apply occurs_in_spec.
          + rewrite bool_decide_eq_false_2; [reflexivity|].
            intros H. apply Hmem in H. destruct H as [H|H].
            * now apply not_elem_of_empty in H.
            * apply occurs_in_spec in H. congruence.
        - injection Hdc as Hdc. exists score0. split; [reflexivity|].
          intros tk. rewrite <- Hdc. simpl. ring. }
      destruct Hstep as (score1 & Hs1 & Hv1). rewrite Hs1. cbn [bind].
      destruct (IH score1) as (score & Hs & Hv). exists score. split; [exact Hs|].
      intros tk. rewrite Hv, Hv1. cbn [List.filter].
      destruct (occurs_in tk (family dc)); cbn [length].
      + rewrite Nat2Z.inj_succ. unfold Z.succ. rewrite inject_Z_plus. ring.
      + ring. }
  destruct (Hgen ∅) as (score & Hs & Hv). exists score. split; [exact Hs|].
  intros tk. rewrite Hv. unfold score_get. rewrite lookup_empty. simpl. ring.
Qed.

Lemma cim_add_mis_score rel_w tks score tk :
  (score_get (cim_add_mis rel_w score tks) tk
   == score_get score tk
      + inject_Z (Z.of_nat (length (List.filter (fun x => bool_decide (x = tk)) tks)))
        * default 0 (assoc_get (fst tk) rel_w))%Q.
Proof.
  unfold cim_add_mis. revert score.
  induction tks as [|x tks IH]; intros score; cbn [fold_left List.filter].
  - simpl. ring.
  - rewrite IH. clear IH.
    destruct (Qis_zero (default 0%Q (assoc_get (fst x) rel_w))) eqn:Hz.
    + apply Qeq_bool_iff in Hz.
      destruct (bool_decide (x = tk)) eqn:Hx; [|reflexivity].
      apply bool_decide_eq_true in Hx. subst x. rewrite Hz. ring.
    + rewrite score_get_add.
      destruct (decide (x = tk)) as [->|Hne].
      * rewrite bool_decide_eq_true_2 by reflexivity. cbn [length].
        rewrite Nat2Z.inj_succ. unfold Z.succ. rewrite inject_Z_plus. ring.
      * rewrite bool_decide_eq_false_2 by exact Hne. reflexivity.
Qed.

Lemma filter_app_length {A : Type} (f : A -> bool) l1 l2 :
  length (List.filter f (l1 ++ l2)) = length (List.filter f l1) + length (List.filter f l2).
Proof. now rewrite filter_app, length_app. Qed.

Lemma cim_add_family rel_w mis_list ws score0 :
  map_result (iter_mis_tuples int_of_str) mis_list = Ok ws ->
  exists score,
    for_each (fun sc mis =>
                let* tks := iter_mis_tuples int_of_str mis in
                Ok (cim_add_mis rel_w sc tks)) mis_list score0 = Ok score /\
    forall tk,
      (score_get score tk
       == score_get score0 tk
          + inject_Z (Z.of_nat (occurrences tk ws)) * default 0 (assoc_get (fst tk) rel_w))%Q.
Proof.
  revert ws score0. induction mis_list as [|mis rest IH]; intros ws score0 H; simpl in H.
  - injection H as <-. exists score0. split; [reflexivity|].
    intros tk. unfold occurrences. simpl. ring.
  - destruct (iter_mis_tuples int_of_str mis) as [tks|e] eqn:Hmis; cbn [bind] in H; [|discriminate].
    destruct (map_result (iter_mis_tuples int_of_str) rest) as [ws'|e] eqn:Hrest;
      cbn [bind] in H; [|discriminate].
    injection H as <-.
    destruct (IH ws' (cim_add_mis rel_w score0 tks) eq_refl) as (score & Hs & Hv).
    exists score. cbn [for_each]. rewrite Hmis. cbn [bind]. split; [exact Hs|].
    intros tk. rewrite Hv, cim_add_mis_score. unfold occurrences. cbn [concat].
    rewrite filter_app_length, Nat2Z.inj_add, inject_Z_plus. ring.
Qed.

(** C6 (amended): when the MIS files of the listed constraints that have
    weights are well formed, [compute_cim] returns and the score of a tuple
    is the sum over the listed constraints of [k * w(constraint, relation)],
    [k] counting every occurrence of the tuple in the constraint's witness
    sets; unknown constraints and relations without a weight have weight 0
    and contribute nothing. *)
Theorem cim_weighted_occurrences (mis_dir : gmap string file) (dcs : list string)
  (family : string -> list (list TupleKey)) :
  (forall dc, In dc dcs -> cim_known dc = true ->
              mis_family int_of_str mis_dir dc = Ok (family dc)) ->
  exists score,
    compute_cim int_of_str mis_dir dcs = Ok score /\
    (forall tk, (score_get score tk == cim_total family dcs tk)%Q) /\
    (forall dc rel, assoc_get dc CIM_WEIGHTS = None -> cim_weight dc rel = 0%Q) /\
    (forall dc rel_w rel, assoc_get dc CIM_WEIGHTS = Some rel_w ->
                          assoc_get rel rel_w = None -> cim_weight dc rel = 0%Q).
Proof.
  intros Hfam. unfold compute_cim.
  assert (Hgen : forall score0,
    exists score,
      for_each (fun score dc =>
                  let rel_w := default [] (assoc_get dc CIM_WEIGHTS) in
                  if negb (nonempty rel_w) then Ok score else
                  match mis_dir !! dc_path dc with
                  | None => Ok score
                  | Some f =>
                      let* data := load_mis_file f in
                      let* mis_list := py_iter data in
                      for_each (fun sc mis =>
                                  let* tks := iter_mis_tuples int_of_str mis in
                                  Ok (cim_add_mis rel_w sc tks))
                               mis_list score
                  end) dcs score0 = Ok score /\
      forall tk, (score_get score tk == score_get score0 tk + cim_total family dcs tk)%Q).
  { induction dcs as [|dc dcs IH]; intros score0.
    - exists score0. split; [reflexivity|]. intros tk. unfold cim_total. simpl. ring.
    - specialize (IH (fun d Hd => Hfam d (or_intror Hd))).
      pose proof (Hfam dc (or_introl eq_refl)) as Hdc. unfold mis_family, cim_known in Hdc.
      cbn [for_each].
      assert (Hstep : exists score1,
        (let rel_w := default [] (assoc_get dc CIM_WEIGHTS) in
         if negb (nonempty rel_w) then Ok score0 else
         match mis_dir !! dc_path dc with
         | None => Ok score0
         | Some f =>
             let* data := load_mis_file f in
             let* mis_list := py_iter data in
             for_each (fun sc mis =>
                         let* tks := iter_mis_tuples int_of_str mis in
                         Ok (cim_add_mis rel_w sc tks))
                      mis_list score0
         end) = Ok score1 /\
        forall tk, (score_get score1 tk
                    == score_get score0 tk
                       + inject_Z (Z.of_nat (occurrences tk (family dc)))
                         * cim_weight dc (fst tk))%Q).
      { cbv zeta. unfold cim_weight.
        destruct (nonempty (default [] (assoc_get dc CIM_WEIGHTS))) eqn:Hk; cbn [negb].
        - specialize (Hdc eq_refl).
          destruct (mis_dir !! dc_path dc) as [f|].
          + destruct (load_mis_file f) as [data|e]; cbn [bind] in *; [|discriminate].
            destruct (py_iter data) as [mis_list|e]; cbn [bind] in *; [|discriminate].
            apply (cim_add_family _ _ _ score0 Hdc).
          + injection Hdc as Hdc. exists score0. split; [reflexivity|].
            intros tk. rewrite <- Hdc. unfold occurrences. simpl. ring.
        - exists score0. split; [reflexivity|]. intros tk.
          destruct (default [] (assoc_get dc CIM_WEIGHTS)); [|discriminate].
          assert (E : default 0%Q (assoc_get (fst tk) (@nil (string * Q))) = 0%Q) by reflexivity.
          rewrite E. ring. }
      destruct Hstep as (score1 & Hs1 & Hv1). cbv zeta in Hs1. rewrite Hs1. cbn [bind].
      destruct (IH score1) as (score & Hs & Hv). exists score. split; [exact Hs|].
      intros tk. rewrite Hv, Hv1. unfold cim_total, Qsum. cbn [map fold_right]. ring. }
  destruct (Hgen ∅) as (score & Hs & Hv). exists score. split; [exact Hs|]. split; [|split].
  - intros tk. rewrite Hv. unfold score_get. rewrite lookup_empty. simpl. ring.
  - intros dc rel H. unfold cim_weight. rewrite H. reflexivity.
  - intros dc rel_w rel H1 H2. unfold cim_weight. rewrite H1. simpl. rewrite H2. reflexivity.
Qed.

End ConstantWeights.

Lemma mis_family_ex dc :
  In dc dcs_ex -> mis_family (fun _ => None) dir_ex dc = Ok (family_of_ex dc).
Proof.
  intros [<-|[<-|[]]]; unfold mis_family, dir_ex.
  - change (dc_path "DC1") with "DC1.json"%string.
    rewrite lookup_singleton_eq. reflexivity.
  - change (dc_path "DC7") with "DC7.json"%string.
    rewrite lookup_singleton_ne by discriminate. reflexivity.
Qed.

(** Witness of C5. *)
Lemma cbm_counts_constraints_witness :
  (forall dc, In dc dcs_ex -> mis_family (fun _ => None) dir_ex dc = Ok (family_of_ex dc)) /\
  exists score,
    compute_cbm (fun _ => None) dir_ex dcs_ex = Ok score /\
    forall tk,
      (score_get score tk
       == inject_Z (Z.of_nat (length (List.filter (fun dc => occurs_in tk (family_of_ex dc))
                                                  dcs_ex))))%Q.
Proof.
  split; [exact mis_family_ex|].
  exact (cbm_counts_constraints (fun _ => None) dir_ex dcs_ex family_of_ex mis_family_ex).
Defined.

(** Witness of C6 (amended). *)
Lemma cim_weighted_occurrences_witness :
  (forall dc, In dc dcs_ex -> cim_known dc = true ->
              mis_family (fun _ => None) dir_ex dc = Ok (family_of_ex dc)) /\
  exists score,
    compute_cim (fun _ => None) dir_ex dcs_ex = Ok score /\
    (forall tk, (score_get score tk == cim_total family_of_ex dcs_ex tk)%Q) /\
    (forall dc rel, assoc_get dc CIM_WEIGHTS = None -> cim_weight dc rel = 0%Q) /\
    (forall dc rel_w rel, assoc_get dc CIM_WEIGHTS = Some rel_w ->
                          assoc_get rel rel_w = None -> cim_weight dc rel = 0%Q).
Proof.
  split; [intros dc Hdc _; now apply mis_family_ex|].
  exact (cim_weighted_occurrences (fun _ => None) dir_ex dcs_ex family_of_ex
           (fun dc Hdc _ => mis_family_ex dc Hdc)).
Defined.

(** Counterexample to C6 as stated: on a MIS file with a [null] primary
    key [compute_cim] fails with the [ValueError] of [normalize_pk]. *)
Lemma compute_cim_fails_on_null_pk :
  compute_cim (fun _ => None) null_pk_dir ["DC1"%string] = Err (ValueError "pk is None").
Proof.
  unfold compute_cim. cbn [for_each].
  change (default [] (assoc_get "DC1" CIM_WEIGHTS)) with [("lineitem"%string, 1%Q)].
  cbn [nonempty negb].
  change (dc_path "DC1") with "DC1.json"%string.
  unfold null_pk_dir. rewrite lookup_singleton_eq. reflexivity.
Qed.

(** ** Edges without elements *)

Lemma for_each_app {A S : Type} (body : S -> A -> result S) l1 l2 acc :
  for_each body (l1 ++ l2) acc
  = let* acc' := for_each body l1 acc in for_each body l2 acc'.
Proof.
  revert acc. induction l1 as [|x l1 IH]; intros acc; simpl; [reflexivity|].
  destruct (body acc x); simpl; [apply IH | reflexivity].
Qed.

(** C2 (amended): a witness set with zero elements is not rejected.  A MIS
    that yields no tuple is skipped by [build_hypergraph_from_mis] without
    any error of its own: the result is the one for the list without it.
    An edge with zero elements is dropped by [greedy_hitting_set_size],
    whose bound is the one of the list without it, and gets no constraint
    in [solve_min_hitting_set_size_cpsat]: the model handed to the solver
    is the one built without it, and whenever another edge is left the
    returned size, status and solver state are those of the list without
    it.  Only when no edge is left do the two differ: the list without
    the empty edge returns [(0, TRIVIAL)] without a solver call, while the
    list holding it is not empty, so the solver is run on the model
    without constraints and the status is never [TRIVIAL]. *)
Theorem empty_edge_is_skipped (int_of_str : string -> option Z)
  (solver_state : Type)
  (CpSolver_Solve : solver_state -> Q -> CpModel -> cp_status * Z * solver_state)
  (mis : json) (pre post : list json)
  (edges_pre edges_post : list (list nat))
  (st : solver_state) (time_limit_s : Q) (upper_bound : option Z) :
  iter_mis_tuples int_of_str mis = Ok [] ->
  build_hypergraph_from_mis int_of_str (pre ++ mis :: post)
  = build_hypergraph_from_mis int_of_str (pre ++ post) /\
  greedy_hitting_set_size (edges_pre ++ [] :: edges_post)
  = greedy_hitting_set_size (edges_pre ++ edges_post) /\
  cp_model_of (edges_pre ++ [] :: edges_post) upper_bound
  = cp_model_of (edges_pre ++ edges_post) upper_bound /\
  (edges_pre ++ edges_post <> [] ->
   solve_min_hitting_set_size_cpsat solver_state CpSolver_Solve st
     (edges_pre ++ [] :: edges_post) time_limit_s upper_bound
   = solve_min_hitting_set_size_cpsat solver_state CpSolver_Solve st
       (edges_pre ++ edges_post) time_limit_s upper_bound) /\
  (edges_pre ++ edges_post = [] ->
   solve_min_hitting_set_size_cpsat solver_state CpSolver_Solve st
     (edges_pre ++ edges_post) time_limit_s upper_bound
   = (0%Z, TRIVIAL, st) /\
   cp_model_of (edges_pre ++ [] :: edges_post) upper_bound
   = {| cp_vars := []; cp_hit := []; cp_bound := upper_bound |} /\
   snd (fst (solve_min_hitting_set_size_cpsat solver_state CpSolver_Solve st
               (edges_pre ++ [] :: edges_post) time_limit_s upper_bound))
   <> TRIVIAL).
Proof.
  intros Hmis.
  assert (Hmodel : cp_model_of (edges_pre ++ [] :: edges_post) upper_bound
                   = cp_model_of (edges_pre ++ edges_post) upper_bound).
  { unfold cp_model_of. rewrite !filter_app, !concat_app. reflexivity. }
  assert (Hne : nonempty (edges_pre ++ [] :: edges_post) = true)
    by (destruct edges_pre; reflexivity).
  split; [|split; [|split; [exact Hmodel|split]]].
  - unfold build_hypergraph_from_mis. rewrite !for_each_app.
    destruct (for_each _ pre ([], ∅)) as [acc|e]; cbn [bind for_each]; [|reflexivity].
    rewrite Hmis. cbn [bind].
    destruct (decide (list_to_set [] = (∅ : gset (string * list Z)))) as [_|Hne'].
    + reflexivity.
    + exfalso. apply Hne'. reflexivity.
  - unfold greedy_hitting_set_size. rewrite !filter_app. reflexivity.
  - intros Hrest. unfold solve_min_hitting_set_size_cpsat.
    rewrite Hne, Hmodel.
    destruct (edges_pre ++ edges_post) as [|e rest]; [congruence | reflexivity].
  - intros Hrest. split; [|split].
    + rewrite Hrest. reflexivity.
    + rewrite Hmodel, Hrest. reflexivity.
    + unfold solve_min_hitting_set_size_cpsat. rewrite Hne. cbn [negb].
      destruct (CpSolver_Solve st time_limit_s _) as [[status objective] st'].
      destruct status; cbn [fst snd]; discriminate.
Qed.

(** Witness of C2 (amended): a MIS without a [tuples] entry. *)
Lemma empty_edge_is_skipped_witness :
  iter_mis_tuples (fun _ => None) (JDict []) = Ok [] /\
  (build_hypergraph_from_mis (fun _ => None) ([mis_of_part [1]%Z] ++ JDict [] :: [])
   = build_hypergraph_from_mis (fun _ => None) ([mis_of_part [1]%Z] ++ []) /\
   greedy_hitting_set_size ([[0; 1]] ++ [] :: [[1; 2]])
   = greedy_hitting_set_size ([[0; 1]] ++ [[1; 2]]) /\
   cp_model_of ([[0; 1]] ++ [] :: [[1; 2]]) None
   = cp_model_of ([[0; 1]] ++ [[1; 2]]) None /\
   ([[0; 1]] ++ [[1; 2]] <> [] ->
    solve_min_hitting_set_size_cpsat unit cp_search tt
      ([[0; 1]] ++ [] :: [[1; 2]]) 1%Q None
    = solve_min_hitting_set_size_cpsat unit cp_search tt
        ([[0; 1]] ++ [[1; 2]]) 1%Q None) /\
   ([[0; 1]] ++ [[1; 2]] = [] ->
    solve_min_hitting_set_size_cpsat unit cp_search tt
      ([[0; 1]] ++ [[1; 2]]) 1%Q None
    = (0%Z, TRIVIAL, tt) /\
    cp_model_of ([[0; 1]] ++ [] :: [[1; 2]]) None
    = {| cp_vars := []; cp_hit := []; cp_bound := None |} /\
    snd (fst (solve_min_hitting_set_size_cpsat unit cp_search tt
                ([[0; 1]] ++ [] :: [[1; 2]]) 1%Q None))
    <> TRIVIAL)).
Proof.
  split; [reflexivity|].
  exact (empty_edge_is_skipped (fun _ => None) unit cp_search (JDict [])
           [mis_of_part [1]%Z] [] [[0; 1]] [[1; 2]] tt 1%Q None eq_refl).
Defined.

(** Counterexample to C2 as stated: a witness set with zero elements is
    not rejected; the builder returns normally without it, the greedy
    bound of the edge list holding only the empty edge is 0, and the exact
    solver is run on a model without constraints, where the empty edge
    list returns [TRIVIAL] without a solver call. *)
Lemma empty_edge_not_rejected :
  build_hypergraph_from_mis (fun _ => None) [JDict []] = Ok ([], ∅) /\
  greedy_hitting_set_size [[]] = 0 /\
  solve_min_hitting_set_size_cpsat unit cp_search tt [[]] 1%Q None = (0%Z, OPTIMAL, tt) /\
  solve_min_hitting_set_size_cpsat unit cp_search tt [] 1%Q None = (0%Z, TRIVIAL, tt).
Proof.
  split; [|split; [|split]].
  - unfold build_hypergraph_from_mis. cbn [for_each].
    change (iter_mis_tuples (fun _ => None) (JDict [])) with (Ok (A:=list TupleKey) []).
    cbn [bind].
    destruct (decide (list_to_set [] = (∅ : gset (string * list Z)))) as [_|Hne].
    + reflexivity.
    + exfalso. apply Hne. reflexivity.
  - reflexivity.
  - reflexivity.
  - reflexivity.
Qed.

(** ** The answer-level aggregators without matching measures *)

(** C7 at the failing input: when no tuple of the answer has a measure
    row, the responsibility and Shapley aggregators report 0 for the four
    measures, but the provenance aggregator appends a row without any
    score column (its loop [for m in MEASURES: icqa_val = 0.0] stores
    nothing); and an answer without a match is left out of the provenance
    output altogether when another answer of the query has one. *)
Theorem prov_reports_no_score_without_match :
  icqa_prov_for_query support_no_match measures_other_tuple
  = [ {| r_answer_id := 1; r_answervalue := "x"; r_scores := [] |} ] /\
  map r_answer_id (icqa_prov_for_query support_two_answers measures_other_tuple) = [1%Z] /\
  compute_resp_for_query sat_atmost_search support_no_match measures_other_tuple
  = [ {| r_answer_id := 1; r_answervalue := "x";
         r_scores := [("icqa_resp_cbm", Fin 0); ("icqa_resp_cim", Fin 0);
                      ("icqa_resp_pim", Fin 0); ("icqa_resp_rim", Fin 0)]%string |} ] /\
  compute_icqa_shap_for_answer unit (fun _ => tt) rev_rng 1
    support_no_match measures_other_tuple tt
  = Ok ({| r_answer_id := 1; r_answervalue := "x";
           r_scores := [("icqa_shap_cbm", Fin 0); ("icqa_shap_cim", Fin 0);
                        ("icqa_shap_pim", Fin 0); ("icqa_shap_rim", Fin 0)]%string |}, tt).
Proof. repeat split; reflexivity. Qed.

(** The two sibling aggregators report zeros in general whenever the
    answer has no support set or no matching measure row. *)
Lemma resp_row_zero_without_match sat_atmost df tm_db answer :
  support_sets_of
    (drop_duplicates (map tuple_id (List.filter (fun r => (s_answer_id r =? fst answer)%Z) df)))
    (List.filter (fun r => (s_answer_id r =? fst answer)%Z) df) = [] \/
  merge_tuple_meta tm_db (List.filter (fun r => (s_answer_id r =? fst answer)%Z) df) = [] ->
  r_scores (resp_row_for_answer sat_atmost df tm_db answer) = score_columns "resp" icqa_zero.
Proof.
  intros H. unfold resp_row_for_answer. cbn [r_scores]. f_equal.
  destruct (Nat.eqb _ 0); [reflexivity|]. cbn [orb].
  destruct H as [-> | ->]; cbn [nonempty negb]; [reflexivity|].
  destruct (negb (nonempty _)); reflexivity.
Qed.

Lemma shap_row_zero_without_match (rng_state : Type) default_rng rng_permutation
  answer_id (support_ans : list support_row) tm_db (rng : rng_state) :
  support_ans <> [] ->
  support_sets_of (drop_duplicates (map tuple_id support_ans)) support_ans = [] \/
  merge_tuple_meta tm_db support_ans = [] ->
  exists row rng',
    compute_icqa_shap_for_answer rng_state default_rng rng_permutation
      answer_id support_ans tm_db rng = Ok (row, rng') /\
    r_scores row = score_columns "shap" icqa_zero.
Proof.
  intros Hne H. unfold compute_icqa_shap_for_answer.
  destruct support_ans as [|r0 rest]; [congruence|]. cbn [bind].
  set (sup := r0 :: rest) in *.
  destruct (Nat.eqb (length (drop_duplicates (map tuple_id sup))) 0
            || negb (nonempty (support_sets_of (drop_duplicates (map tuple_id sup)) sup)))
    eqn:Hdeg.
  - do 2 eexists. split; reflexivity.
  - destruct H as [H|H].
    + rewrite H in Hdeg. cbn [nonempty negb] in Hdeg. rewrite orb_true_r in Hdeg. discriminate.
    + rewrite H. cbn [nonempty negb].
      destruct (if length (drop_duplicates (map tuple_id sup)) <=? N_EXACT
                then _ else _) as [phi_list rng'].
      do 2 eexists. split; reflexivity.
Qed.

(** ** The provenance sum *)

Lemma drop_duplicates_from_In {A : Type} `{EqDecision A} (seen l : list A) x :
  In x (drop_duplicates_from seen l) <-> In x l /\ ~ In x seen.
Proof.
  revert seen. induction l as [|y l IH]; intros seen; simpl.
  - tauto.
  - destruct (bool_decide (y ∈ seen)) eqn:Hy.
    + apply bool_decide_eq_true in Hy. apply list_elem_of_In in Hy.
      rewrite IH. intuition congruence.
    + apply bool_decide_eq_false in Hy. rewrite list_elem_of_In in Hy.
      simpl. rewrite IH. simpl. destruct (decide (y = x)) as [->|Hne].
      * tauto.
      * intuition congruence.
Qed.

Lemma drop_duplicates_In {A : Type} `{EqDecision A} (l : list A) x :
  In x (drop_duplicates l) <-> In x l.
Proof. unfold drop_duplicates. rewrite drop_duplicates_from_In. simpl. tauto. Qed.

Lemma drop_duplicates_from_NoDup {A : Type} `{EqDecision A} (seen l : list A) :
  List.NoDup (drop_duplicates_from seen l).
Proof.
  revert seen. induction l as [|y l IH]; intros seen; simpl; [constructor|].
  destruct (bool_decide (y ∈ seen)); [apply IH|].
  constructor; [|apply IH].
  rewrite drop_duplicates_from_In. simpl. tauto.
Qed.

Lemma drop_duplicates_NoDup {A : Type} `{EqDecision A} (l : list A) :
  List.NoDup (drop_duplicates l).
Proof. apply drop_duplicates_from_NoDup. Qed.

(** Selecting one key from a table with one row per key. *)
Lemma filter_unique_key {K V : Type} `{EqDecision K} (F : K -> V) (keys : list K) k :
  List.NoDup keys -> In k keys ->
  List.filter (fun row : K * V => bool_decide (fst row = k)) (map (fun key => (key, F key)) keys)
  = [(k, F k)].
Proof.
  induction keys as [|key keys IH]; intros Hnd Hin; [contradiction|].
  apply List.NoDup_cons_iff in Hnd. destruct Hnd as [Hkey Hnd].
  cbn [map List.filter fst].
  destruct (decide (key = k)) as [->|Hne].
  - rewrite bool_decide_eq_true_2 by reflexivity. f_equal.
    apply filter_nil_iff. intros row Hrow. apply in_map_iff in Hrow.
    destruct Hrow as (k' & <- & Hk'). cbn [fst].
    apply bool_decide_eq_false_2. intros ->. contradiction.
  - rewrite bool_decide_eq_false_2 by exact Hne.
    destruct Hin as [Hin|Hin]; [contradiction|]. now apply IH.
Qed.

Lemma find_by_key {K R : Type} `{EqDecision K} (key : R -> K) (mk : K -> R) (index : list K) k :
  (forall k', key (mk k') = k') -> In k index ->
  find (fun r => bool_decide (key r = k)) (map mk index) = Some (mk k).
Proof.
  intros Hkey. induction index as [|k' index IH]; intros Hin; [contradiction|].
  cbn [map find]. rewrite Hkey.
  destruct (decide (k' = k)) as [->|Hne].
  - now rewrite bool_decide_eq_true_2.
  - rewrite bool_decide_eq_false_2 by exact Hne.
    destruct Hin as [Hin|Hin]; [contradiction|]. now apply IH.
Qed.

Lemma measured_rows_app l1 l2 :
  measured_rows (l1 ++ l2) = measured_rows l1 ++ measured_rows l2.
Proof. unfold measured_rows. apply omap_app. Qed.

Lemma measured_rows_joined (s : support_row) (ms : list measure_row) :
  measured_rows (map (fun tm => (s, Some tm)) ms) = map (fun tm => (s, tm)) ms.
Proof. induction ms as [|r ms IH]; [reflexivity|]. cbn. f_equal. exact IH. Qed.

(** The measured rows are the pairs of a support row and a measure row of
    the same tuple. *)
Lemma measured_rows_merge support_df tm_db :
  measured_rows (merge_left support_df tm_db)
  = flat_map (fun s => map (fun tm => (s, tm)) (List.filter (joins s) tm_db)) support_df.
Proof.
  unfold merge_left. induction support_df as [|s rest IH]; [reflexivity|].
  cbn [flat_map]. rewrite measured_rows_app, IH. f_equal.
  fold (joins s). destruct (List.filter (joins s) tm_db) as [|r ms]; [reflexivity|].
  apply (measured_rows_joined s (r :: ms)).
Qed.

Lemma agg_key_eq (s : support_row) (r : measure_row) (a : Z * string) (m : string) :
  bool_decide (agg_key (s, upper_measure r) = (a, m))
  = same_answer a s && bool_decide (upper (m_measure r) = m).
Proof.
  unfold agg_key, same_answer. cbn [fst snd upper_measure m_measure].
  destruct a as [id val].
  apply Bool.eq_iff_eq_true. rewrite andb_true_iff, !bool_decide_eq_true.
  split.
  - intros [= -> -> ->]. auto.
  - intros [[= -> ->] ->]. reflexivity.
Qed.

(** The values of one group of [groupby_sum] are the values the
    provenance sum adds up. *)
Lemma group_values support_df tm a m :
  map (fun sm : support_row * measure_row => m_value (snd sm))
      (List.filter (fun sm => bool_decide (agg_key sm = (a, m)))
         (flat_map (fun s => map (fun r => (s, r))
                                 (List.filter (joins s) (map upper_measure tm)))
                   support_df))
  = flat_map (fun s => if same_answer a s
                       then map m_value (List.filter (tm_matches s m) tm)
                       else []) support_df.
Proof.
  induction support_df as [|s rest IH]; [reflexivity|].
  cbn [flat_map]. rewrite filter_app, map_app, IH. f_equal. clear IH.
  induction tm as [|r tm IHtm]; cbn [map List.filter].
  - destruct (same_answer a s); reflexivity.
  - unfold tm_matches at 1. fold (joins s r).
    change (joins s (upper_measure r)) with (joins s r).
    destruct (joins s r); cbn [andb map List.filter].
    + rewrite agg_key_eq.
      destruct (same_answer a s) eqn:Ha; cbn [andb].
      * destruct (bool_decide (upper (m_measure r) = m)); cbn [map snd m_value upper_measure];
          rewrite IHtm; reflexivity.
      * exact IHtm.
    + exact IHtm.
Qed.

Lemma prov_score_column (cell : string -> pyfloat) m :
  In m MEASURES ->
  assoc_get ("icqa_prov_" ++ lower m)%string
            (map (fun m' => (("icqa_prov_" ++ lower m')%string, cell m')) MEASURES)
  = Some (cell m).
Proof. intros [<-|[<-|[<-|[<-|[]]]]]; reflexivity. Qed.

(** Whenever some tuple of the answer has a value of kind [m], the
    provenance aggregator reports a number for the answer, and it is the
    provenance sum. *)
Lemma prov_reports_provenance_sum support_df tm a m :
  In m MEASURES -> has_measure support_df tm a m ->
  exists q,
    reported_score (icqa_prov_for_query support_df tm) a ("icqa_prov_" ++ lower m)%string
    = Some (Fin q) /\
    (q == provenance_sum support_df tm a m)%Q.
Proof.
  intros Hm (s & r & Hs & Hr & Ha & Hmatch).
  unfold icqa_prov_for_query.
  change (map (fun r0 => {| m_relation := m_relation r0; m_pk := m_pk r0;
                            m_measure := upper (m_measure r0);
                            m_value := m_value r0 |}) tm)
    with (map upper_measure tm).
  rewrite measured_rows_merge.
  set (measured := flat_map (fun s0 => map (fun r0 => (s0, r0))
                                           (List.filter (joins s0) (map upper_measure tm)))
                            support_df).
  unfold tm_matches in Hmatch. apply andb_true_iff in Hmatch. destruct Hmatch as [Hj Hu].
  assert (Hin : In (s, upper_measure r) measured).
  { unfold measured. apply in_flat_map. exists s. split; [exact Hs|].
    apply in_map. apply filter_In. split; [now apply in_map | exact Hj]. }
  assert (Hkey : agg_key (s, upper_measure r) = (a, m)).
  { apply (proj1 (bool_decide_eq_true _)). rewrite agg_key_eq, Ha, Hu. reflexivity. }
  destruct measured as [|sm0 measured'] eqn:Hmeasured; [contradiction|].
  cbn [nonempty negb]. rewrite <- Hmeasured in *. clear Hmeasured sm0 measured'.
  unfold groupby_sum.
  set (keys := drop_duplicates (map agg_key measured)).
  set (F := fun key => Qsum (map (fun sm : support_row * measure_row => m_value (snd sm))
                                 (List.filter (fun sm => bool_decide (agg_key sm = key)) measured))).
  assert (Hk : In (a, m) keys).
  { unfold keys. apply drop_duplicates_In. rewrite <- Hkey. now apply in_map. }
  set (agg := map (fun key => (key, F key)) keys).
  unfold reported_score.
  rewrite (find_by_key (fun r0 => (r_answer_id r0, r_answervalue r0))).
  - unfold row_score. cbn [r_scores].
    rewrite (prov_score_column _ m Hm).
    rewrite bool_decide_eq_true_2.
    + unfold pivot_cell.
      rewrite (filter_unique_key F keys (a, m) (drop_duplicates_NoDup _) Hk).
      eexists. split; [reflexivity|].
      cbn [map snd Qsum fold_right]. rewrite Qplus_0_r.
      unfold F, measured. rewrite group_values. reflexivity.
    + apply list_elem_of_In. apply drop_duplicates_In. apply in_map_iff.
      exists ((a, m), F (a, m)). split; [reflexivity|].
      unfold agg. apply in_map_iff. exists (a, m). auto.
  - intros [id val]. reflexivity.
  - apply drop_duplicates_In. apply in_map_iff.
    exists ((a, m), F (a, m)). split; [reflexivity|].
    unfold agg. apply in_map_iff. exists (a, m). auto.
Qed.

Lemma provenance_sum_app l1 l2 tm a m :
  (provenance_sum (l1 ++ l2) tm a m
   == provenance_sum l1 tm a m + provenance_sum l2 tm a m)%Q.
Proof. unfold provenance_sum. rewrite flat_map_app. apply Qsum_app. Qed.

Lemma provenance_sum_duplicate W W' tm a m :
  Forall2 same_tuple W W' -> provenance_sum W' tm a m = provenance_sum W tm a m.
Proof.
  unfold provenance_sum. intros H. f_equal.
  induction H as [|s s' W W' (Hid & Hval & Hrel & Hpk) _ IH]; [reflexivity|].
  cbn [flat_map]. rewrite IH. f_equal.
  unfold same_answer, tm_matches. rewrite Hid, Hval, Hrel, Hpk. reflexivity.
Qed.

Lemma has_measure_incl rows rows' tm a m :
  incl rows rows' -> has_measure rows tm a m -> has_measure rows' tm a m.
Proof.
  intros Hincl (s & r & Hs & H). exists s, r. split; [now apply Hincl | exact H].
Qed.

(** C8: the provenance aggregator reports, for an answer and a measure
    kind some tuple of the answer has a value of, the sum of the values
    over all occurrences of tuples in the answer's witness sets; adding a
    copy [W'] of a witness set [W] adds the contribution of [W] once more,
    so the two copies together contribute twice as much as [W] alone. *)
Theorem provenance_sum_linear (pre W W' post : list support_row)
  (tm : list measure_row) (a : Z * string) (m : string) :
  In m MEASURES ->
  Forall2 same_tuple W W' ->
  has_measure (pre ++ W ++ post) tm a m ->
  exists q q',
    reported_score (icqa_prov_for_query (pre ++ W ++ post) tm) a
                   ("icqa_prov_" ++ lower m)%string = Some (Fin q) /\
    reported_score (icqa_prov_for_query (pre ++ W ++ W' ++ post) tm) a
                   ("icqa_prov_" ++ lower m)%string = Some (Fin q') /\
    (q == provenance_sum (pre ++ W ++ post) tm a m)%Q /\
    (q' == q + provenance_sum W tm a m)%Q /\
    (provenance_sum (W ++ W') tm a m == 2 * provenance_sum W tm a m)%Q.
Proof.
  intros Hm Hdup Hhas.
  destruct (prov_reports_provenance_sum _ tm a m Hm Hhas) as (q & Hq & Hqs).
  destruct (prov_reports_provenance_sum (pre ++ W ++ W' ++ post) tm a m Hm)
    as (q' & Hq' & Hqs').
  { apply (has_measure_incl (pre ++ W ++ post)); [|exact Hhas].
    intros x Hx. rewrite !in_app_iff in *. tauto. }
  exists q, q'. split; [exact Hq|]. split; [exact Hq'|]. split; [exact Hqs|].
  pose proof (provenance_sum_duplicate W W' tm a m Hdup) as HW.
  split.
  - rewrite Hqs', Hqs. rewrite !provenance_sum_app, HW. ring.
  - rewrite provenance_sum_app, HW. ring.
Qed.

Lemma has_measure_A : has_measure ([] ++ [witness_A 1] ++ [witness_A 3]) measures_A answer_x "CBM".
Proof.
  exists (witness_A 1), {| m_relation := "part"; m_pk := "7"; m_measure := "cbm"; m_value := 2 |}.
  repeat split; simpl; auto.
Qed.

Lemma same_tuple_A : Forall2 same_tuple [witness_A 1] [witness_A 2].
Proof. repeat constructor. Qed.

Lemma CBM_in_MEASURES : In "CBM"%string MEASURES.
Proof. simpl. auto. Qed.

(** Witness of C8: duplicating the first of two witness sets {A}. *)
Lemma provenance_sum_linear_witness :
  (In "CBM"%string MEASURES /\ Forall2 same_tuple [witness_A 1] [witness_A 2] /\
   has_measure ([] ++ [witness_A 1] ++ [witness_A 3]) measures_A answer_x "CBM") /\
  exists q q',
    reported_score (icqa_prov_for_query ([] ++ [witness_A 1] ++ [witness_A 3]) measures_A)
                   answer_x ("icqa_prov_" ++ lower "CBM")%string = Some (Fin q) /\
    reported_score (icqa_prov_for_query ([] ++ [witness_A 1] ++ [witness_A 2] ++ [witness_A 3])
                                        measures_A)
                   answer_x ("icqa_prov_" ++ lower "CBM")%string = Some (Fin q') /\
    (q == provenance_sum ([] ++ [witness_A 1] ++ [witness_A 3]) measures_A answer_x "CBM")%Q /\
    (q' == q + provenance_sum [witness_A 1] measures_A answer_x "CBM")%Q /\
    (provenance_sum ([witness_A 1] ++ [witness_A 2]) measures_A answer_x "CBM"
     == 2 * provenance_sum [witness_A 1] measures_A answer_x "CBM")%Q.
Proof.
  split; [split; [exact CBM_in_MEASURES | split; [exact same_tuple_A | exact has_measure_A]]|].
  exact (provenance_sum_linear [] [witness_A 1] [witness_A 2] [witness_A 3]
           measures_A answer_x "CBM" CBM_in_MEASURES same_tuple_A has_measure_A).
Defined.

(** The scenario of the specification: three identical witness sets {A}
    with measure(A) = 2 give a provenance sum of 6. *)
Example provenance_three_copies :
  reported_score (icqa_prov_for_query [witness_A 1; witness_A 2; witness_A 3] measures_A)
                 answer_x "icqa_prov_cbm" = Some (Fin 6).
Proof. reflexivity. Qed.

(** ** Scenarios *)

(** Universe {A, B} with the single witness set {A, B}: both elements have
    Shapley value 1/2. *)
Example shapley_one_pair : exact_shapley one_pair_ex 2 = [1 # 2; 1 # 2]%Q.
Proof. reflexivity. Qed.

(** Universe {A, B, C} with the witness sets {A, B}, {A, C}: the
    responsibility of A is 1, that of B and of C is 1/2. *)
Example responsibility_two_sets :
  (resp_rho sat_atmost_search family_ex 3 0 == 1)%Q /\
  (resp_rho sat_atmost_search family_ex 3 1 == 1 # 2)%Q /\
  (resp_rho sat_atmost_search family_ex 3 2 == 1 # 2)%Q.
Proof. repeat split; reflexivity. Qed.

(** The greedy bound on the edges {0,1}, {0,2}, {3}. *)
Example greedy_three_edges : greedy_hitting_set_size [[0; 1]; [0; 2]; [3]] = 2.
Proof. reflexivity. Qed.

(** * Further properties of the code *)

(** ** The Shapley engine: range, null players, degenerate families *)

Lemma hits_all_lor masks m b :
  hits_all masks m = true -> hits_all masks (N.lor m b) = true.
Proof.
  rewrite !hits_all_true. intros H sm Hsm Hz.
  rewrite N.land_lor_distr_l in Hz. apply N.lor_eq_0_iff in Hz.
  exact (H sm Hsm (proj1 Hz)).
Qed.

Lemma v_of_mono masks m b : (v_of masks m <= v_of masks (N.lor m b))%Z.
Proof.
  unfold v_of. destruct (hits_all masks m) eqn:H.
  - now rewrite hits_all_lor.
  - destruct (hits_all masks (N.lor m b)); lia.
Qed.

Lemma marginal_nonneg n masks t m : (0 <= marginal n masks t m)%Z.
Proof.
  unfold marginal. destruct (N.testbit m (N.of_nat t)); [lia|].
  pose proof (v_of_mono masks m (bit t)).
  apply Z.mul_nonneg_nonneg; unfold weight_num; lia.
Qed.

Lemma Zsum_nonneg l : Forall (fun z => (0 <= z)%Z) l -> (0 <= Zsum l)%Z.
Proof. induction 1; simpl; lia. Qed.

(** The value [exact_shapley] computes for element [t]. *)
Lemma exact_shapley_nth support_sets n t :
  t < n ->
  (nth t (exact_shapley support_sets n) 0
   == inject_Z (sum_masks (marginal n (_support_sets_to_masks support_sets n) t) (2 ^ n))
      / inject_Z (Z.of_nat (fact n)))%Q.
Proof.
  intros Ht. unfold exact_shapley. destruct (Nat.eqb_spec n 0) as [->|_]; [lia|].
  rewrite (nth_map_seq (fun t => fold_left _ _ _)) by exact Ht.
  rewrite exact_fold_marginal; [|exact Ht|intros m Hm; now apply In_range_N].
  unfold sum_masks. ring.
Qed.

Lemma exact_shapley_nonneg support_sets n :
  Forall (fun q : Q => (0 <= q)%Q) (exact_shapley support_sets n).
Proof.
  apply Forall_forall. intros q Hq.
  apply (In_nth _ _ 0%Q) in Hq. destruct Hq as (t & Ht & <-).
  rewrite exact_shapley_length in Ht.
  rewrite exact_shapley_nth by exact Ht.
  apply Qle_shift_div_l.
  - pose proof (fact_pos_Z n) as Hp. now rewrite (Zlt_Qlt 0) in Hp.
  - rewrite Qmult_0_l. rewrite <- (Zle_Qle 0). apply Zsum_nonneg.
    apply Forall_forall. intros z Hz. apply in_map_iff in Hz.
    destruct Hz as (m & <- & _). apply marginal_nonneg.
Qed.

Lemma Qsum_nonneg (l : list Q) :
  Forall (fun q : Q => (0 <= q)%Q) l -> (0 <= Qsum l)%Q.
Proof.
  induction 1 as [|x l Hx _ IH]; simpl; [apply Qle_refl|].
  replace 0%Q with (0 + 0)%Q by reflexivity. now apply Qplus_le_compat.
Qed.

Lemma Qsum_member_le (l : list Q) x :
  Forall (fun q : Q => (0 <= q)%Q) l -> In x l -> (x <= Qsum l)%Q.
Proof.
  induction 1 as [|y l Hy Hl IH]; intros Hin; [destruct Hin|].
  simpl. destruct Hin as [->|Hin].
  - rewrite <- (Qplus_0_r x) at 1. apply Qplus_le_compat; [apply Qle_refl|].
    now apply Qsum_nonneg.
  - rewrite <- (Qplus_0_l x). apply Qplus_le_compat; auto.
Qed.


Lemma absent_element_mask (S : list nat) t :
  ~ In t S -> N.land (bit t) (fold_left (fun m i => N.lor m (bit i)) S 0%N) = 0%N.
Proof.
  intros Hni. apply N.bits_inj_0. intros j.
  rewrite N.land_spec, <- (N2Nat.id j), bit_testbit, mask_fold_testbit.
  destruct (Nat.eqb_spec t (N.to_nat j)) as [<-|_]; [|reflexivity].
  simpl. destruct (mem t S) eqn:Hm; [|reflexivity].
  apply mem_In in Hm. contradiction.
Qed.

Lemma absent_element_null support_sets n t :
  (forall S, In S support_sets -> ~ In t S) ->
  null_for (_support_sets_to_masks support_sets n) t.
Proof.
  intros Hni m. unfold hits_all, _support_sets_to_masks.
  induction support_sets as [|S rest IH]; [reflexivity|].
  cbn [map forallb]. rewrite IH by (intros; apply Hni; simpl; auto).
  f_equal. rewrite N.land_lor_distr_l, absent_element_mask by (apply Hni; simpl; auto).
  now rewrite N.lor_0_r.
Qed.

Lemma exact_shapley_null support_sets n t :
  t < n -> null_for (_support_sets_to_masks support_sets n) t ->
  nth t (exact_shapley support_sets n) 0%Q = 0%Q.
Proof.
  intros Ht Hnull. unfold exact_shapley.
  destruct (Nat.eqb_spec n 0) as [->|_]; [lia|].
  rewrite (nth_map_seq (fun t => fold_left _ _ _)) by exact Ht.
  assert (Hgen : forall l s, (forall m, In m l -> (m < N.of_nat (2 ^ n))%N) ->
            fold_left (exact_step n (fst (_compute_v_masks support_sets n)) (fact_table n)
                         (nth n (fact_table n) 0%Z) (bit t)) l s = s).
  { induction l as [|m l IH]; intros s Hl; [reflexivity|].
    cbn [fold_left]. rewrite IH by (intros; apply Hl; simpl; auto).
    unfold exact_step. destruct (N.eqb (N.land m (bit t)) 0) eqn:Hb; [|reflexivity].
    cbn [negb]. rewrite land_bit_zero in Hb. apply negb_true_iff in Hb.
    assert (Hm : (m < N.of_nat (2 ^ n))%N) by (apply Hl; simpl; auto).
    rewrite !v_mask_nth by (auto using lor_bit_lt_pow).
    unfold v_of. rewrite Hnull, Z.eqb_refl. reflexivity. }
  apply Hgen. intros m Hm. now apply In_range_N.
Qed.

Lemma shap_walk_length masks perm c vC counts :
  length (shap_walk masks perm c vC counts) = length counts.
Proof.
  revert c vC counts. induction perm as [|idx rest IH]; intros c vC counts; [reflexivity|].
  cbn [shap_walk]. destruct vC; [reflexivity|]. cbn [negb andb].
  destruct (hits_all masks (N.lor c (bit idx))); [apply counts_incr_length | apply IH].
Qed.

Lemma counts_incr_other idx t counts :
  idx <> t -> nth t (counts_incr idx counts) 0%Q = nth t counts 0%Q.
Proof.
  intros Hne. unfold counts_incr. rewrite !nth_lookup.
  now rewrite list_lookup_insert_ne.
Qed.

(** A walk never credits a null element. *)
Lemma shap_walk_null masks t perm c counts :
  null_for masks t -> hits_all masks c = false ->
  nth t (shap_walk masks perm c false counts) 0%Q = nth t counts 0%Q.
Proof.
  intros Hnull. revert c. induction perm as [|idx rest IH]; intros c Hc; [reflexivity|].
  cbn [shap_walk negb andb].
  destruct (hits_all masks (N.lor c (bit idx))) eqn:Hh.
  - apply counts_incr_other. intros ->. rewrite Hnull in Hh. congruence.
  - now apply IH.
Qed.

(** A walk over a family that no coalition hits credits nobody. *)
Lemma shap_walk_never masks perm c counts :
  (forall m, hits_all masks m = false) ->
  shap_walk masks perm c false counts = counts.
Proof.
  intros Hno. revert c. induction perm as [|idx rest IH]; intros c; [reflexivity|].
  cbn [shap_walk negb andb]. rewrite Hno. apply IH.
Qed.

Lemma hits_all_empty_set support_sets n m :
  In [] support_sets -> hits_all (_support_sets_to_masks support_sets n) m = false.
Proof.
  intros Hin. unfold hits_all, _support_sets_to_masks.
  induction support_sets as [|S rest IH]; [destruct Hin|].
  cbn [map forallb]. destruct Hin as [->|Hin].
  - cbn [fold_left]. now rewrite N.land_0_r.
  - rewrite IH by exact Hin. apply andb_false_r.
Qed.

Section ShapleyEdges.

Variable rng_state : Type.
Variable default_rng : Z -> rng_state.
Variable rng_permutation : rng_state -> nat -> list nat * rng_state.

Lemma approx_samples_length k masks n g counts :
  length (fst (approx_samples rng_state rng_permutation k masks n g counts)) = length counts.
Proof.
  revert g counts. induction k as [|k IH]; intros g counts; [reflexivity|].
  cbn [approx_samples]. destruct (rng_permutation g n) as [perm g'].
  rewrite IH. apply shap_walk_length.
Qed.

Lemma approx_samples_null k masks n t g counts :
  null_for masks t -> hits_all masks 0%N = false ->
  nth t (fst (approx_samples rng_state rng_permutation k masks n g counts)) 0%Q
  = nth t counts 0%Q.
Proof.
  intros Hnull H0. revert g counts. induction k as [|k IH]; intros g counts; [reflexivity|].
  cbn [approx_samples]. destruct (rng_permutation g n) as [perm g'].
  rewrite IH. now apply shap_walk_null.
Qed.

Lemma approx_samples_never k masks n g counts :
  (forall m, hits_all masks m = false) ->
  fst (approx_samples rng_state rng_permutation k masks n g counts) = counts.
Proof.
  intros Hno. revert g counts. induction k as [|k IH]; intros g counts; [reflexivity|].
  cbn [approx_samples]. destruct (rng_permutation g n) as [perm g'].
  rewrite IH. now apply shap_walk_never.
Qed.

Lemma approx_shapley_counts support_sets n num_samples rng :
  n <> 0 ->
  exists g,
    fst (approx_shapley rng_state default_rng rng_permutation support_sets n num_samples rng)
    = map (fun c => np_div c num_samples)
          (fst (approx_samples rng_state rng_permutation (Z.to_nat num_samples)
                  (_support_sets_to_masks support_sets n) n g (repeat 0%Q n))).
Proof.
  intros Hn. unfold approx_shapley.
  destruct (Nat.eqb_spec n 0) as [->|_]; [contradiction|].
  set (g := match rng with Some g => g | None => default_rng RNG_SEED end).
  exists g. destruct (approx_samples _ _ _ _ _ g _) as [counts g']. reflexivity.
Qed.

(** X2: Null player.  An element that belongs to no support set gets the
    exact Shapley value 0; when the family is not empty it is never
    credited by the sampled walks either, whatever the generator returns:
    its estimate is [0 / num_samples]. *)
Theorem shapley_null_player (support_sets : list (list nat)) (n t : nat)
  (num_samples : Z) (rng : option rng_state) :
  t < n ->
  (forall S, In S support_sets -> ~ In t S) ->
  nth t (exact_shapley support_sets n) 0%Q = 0%Q /\
  (support_sets <> [] -> num_samples <> 0%Z ->
   nth t (fst (approx_shapley rng_state default_rng rng_permutation
                 support_sets n num_samples rng)) NaN
   = Fin (0 / inject_Z num_samples)%Q).
Proof.
  intros Ht Hni. pose proof (absent_element_null support_sets n t Hni) as Hnull. split.
  - now apply exact_shapley_null.
  - intros Hne Hnum.
    destruct (approx_shapley_counts support_sets n num_samples rng ltac:(lia)) as (g & ->).
    rewrite (nth_indep _ NaN (np_div 0 num_samples))
      by (rewrite length_map, approx_samples_length, repeat_length; exact Ht).
    rewrite (map_nth (fun c => np_div c num_samples)).
    rewrite approx_samples_null;
      [| exact Hnull | apply hits_all_empty_coalition; now apply support_masks_nonempty].
    rewrite nth_repeat. now apply np_div_finite.
Qed.

(** X3: Degenerate families.  On the empty family, and on a family that
    contains an empty support set, every exact value is 0 (the shares do
    not add up to 1); on a family with an empty support set no sampled
    walk credits anybody either. *)
Theorem shapley_degenerate_family (support_sets : list (list nat)) (n : nat)
  (num_samples : Z) (rng : option rng_state) :
  support_sets = [] \/ In [] support_sets ->
  exact_shapley support_sets n = repeat 0%Q n /\
  (In [] support_sets -> num_samples <> 0%Z ->
   fst (approx_shapley rng_state default_rng rng_permutation
          support_sets n num_samples rng)
   = repeat (Fin (0 / inject_Z num_samples)%Q) n).
Proof.
  intros Hdeg. split.
  - assert (Hnull : forall t, null_for (_support_sets_to_masks support_sets n) t).
    { intros t m. destruct Hdeg as [->|Hin]; [reflexivity|].
      now rewrite !hits_all_empty_set. }
    rewrite <- (exact_shapley_length support_sets n) at 2.
    apply Forall_eq_repeat, Forall_forall. intros q Hq.
    apply (In_nth _ _ 0%Q) in Hq. destruct Hq as (t & Ht & <-).
    rewrite exact_shapley_length in Ht. symmetry. now apply exact_shapley_null.
  - intros Hin Hnum. destruct (Nat.eq_dec n 0) as [->|Hn]; [reflexivity|].
    destruct (approx_shapley_counts support_sets n num_samples rng Hn) as (g & ->).
    rewrite approx_samples_never by (intros m; now apply hits_all_empty_set).
    rewrite map_repeat. now rewrite np_div_finite.
Qed.

End ShapleyEdges.

Lemma shapley_null_player_witness :
  (2 < 3 /\ forall S, In S [[0; 1]] -> ~ In 2 S) /\
  (nth 2 (exact_shapley [[0; 1]] 3) 0%Q = 0%Q /\
   ([[0; 1]] <> [] -> 4%Z <> 0%Z ->
    nth 2 (fst (approx_shapley unit (fun _ => tt) rev_rng [[0; 1]] 3 4 None)) NaN
    = Fin (0 / inject_Z 4)%Q)).
Proof.
  assert (H : forall S, In S [[0; 1]] -> ~ In 2 S).
  { intros S [<-|[]] [Hx|[Hx|[]]]; discriminate. }
  split; [split; [lia | exact H]|].
  apply (shapley_null_player unit (fun _ => tt) rev_rng [[0; 1]] 3 2 4 None); [lia | exact H].
Defined.

Lemma shapley_degenerate_family_witness :
  ([[]; [0]] = [] \/ In [] [[]; [0]]) /\
  (exact_shapley [[]; [0]] 1 = repeat 0%Q 1 /\
   (In [] [[]; [0]] -> 4%Z <> 0%Z ->
    fst (approx_shapley unit (fun _ => tt) rev_rng [[]; [0]] 1 4 None)
    = repeat (Fin (0 / inject_Z 4)%Q) 1)).
Proof.
  assert (H : [[]; [0]] = [] \/ In [] [[]; [0]]) by (right; simpl; auto).
  split; [exact H|].
  apply (shapley_degenerate_family unit (fun _ => tt) rev_rng [[]; [0]] 1 4 None H).
Defined.

(** ** The Shapley engine: masks and the value table *)

Lemma land_nonzero_bit a b :
  N.land a b <> 0%N <-> exists i, N.testbit a i = true /\ N.testbit b i = true.
Proof.
  split.
  - intros Hne. exists (N.log2 (N.land a b)).
    apply N.bit_log2 in Hne. rewrite N.land_spec in Hne.
    now apply andb_true_iff in Hne.
  - intros (i & Ha & Hb). now apply (land_common_bit a b i).
Qed.

Lemma support_mask_lt S n :
  (forall i, In i S -> i < n) ->
  (fold_left (fun m i => N.lor m (bit i)) S 0%N < N.of_nat (2 ^ n))%N.
Proof.
  intros HS.
  assert (Hgen : forall m, (m < N.of_nat (2 ^ n))%N ->
            (fold_left (fun m i => N.lor m (bit i)) S m < N.of_nat (2 ^ n))%N).
  { induction S as [|i S IH]; intros m Hm; [exact Hm|].
    cbn [fold_left]. apply IH; [intros; apply HS; simpl; auto|].
    apply lor_bit_lt_pow; [apply HS; simpl; auto | exact Hm]. }
  apply Hgen. pose proof (Nat.pow_nonzero 2 n ltac:(lia)). lia.
Qed.

Lemma hits_all_coalition support_sets n m :
  hits_all (_support_sets_to_masks support_sets n) m = true
  <-> forall S, In S support_sets -> coalition_hits m S.
Proof.
  rewrite hits_all_true. unfold _support_sets_to_masks, coalition_hits. split.
  - intros H S HS.
    destruct (proj1 (land_nonzero_bit _ _) (H _ (in_map _ _ _ HS))) as (i & Hm & Hs).
    rewrite <- (N2Nat.id i) in Hm, Hs. rewrite mask_fold_testbit in Hs.
    exists (N.to_nat i). split; [|exact Hm].
    apply mem_In. rewrite N.bits_0 in Hs. exact Hs.
  - intros H sm Hsm. apply in_map_iff in Hsm. destruct Hsm as (S & <- & HS).
    destruct (H S HS) as (i & Hi & Hm).
    apply land_nonzero_bit. exists (N.of_nat i). split; [exact Hm|].
    rewrite mask_fold_testbit. apply mem_In in Hi. rewrite Hi. apply orb_true_r.
Qed.

(** X4: The masks encode the support sets bit by bit and fit in [n] bits; the
    table [v_mask] has [2^n] entries, each 0 or 1, and holds 1 exactly at
    the coalitions that intersect every support set. *)
Theorem value_table_characterises_hitting (support_sets : list (list nat)) (n : nat) :
  Forall2 (fun S sm => forall i, N.testbit sm (N.of_nat i) = mem i S)
          support_sets (_support_sets_to_masks support_sets n) /\
  ((forall S i, In S support_sets -> In i S -> i < n) ->
   Forall (fun sm => (sm < N.of_nat (2 ^ n))%N) (_support_sets_to_masks support_sets n)) /\
  snd (_compute_v_masks support_sets n) = _support_sets_to_masks support_sets n /\
  length (fst (_compute_v_masks support_sets n)) = 2 ^ n /\
  forall m, (m < N.of_nat (2 ^ n))%N ->
    let v := nth (N.to_nat m) (fst (_compute_v_masks support_sets n)) 0%Z in
    (v = 0%Z \/ v = 1%Z) /\
    (v = 1%Z <-> forall S, In S support_sets -> coalition_hits m S).
Proof.
  split; [|split; [|split; [|split]]].
  - unfold _support_sets_to_masks. induction support_sets as [|S rest IH]; constructor.
    + intros i. now rewrite mask_fold_testbit, N.bits_0.
    + exact IH.
  - intros Hin. apply Forall_forall. intros sm Hsm.
    apply in_map_iff in Hsm. destruct Hsm as (S & <- & HS).
    apply support_mask_lt. intros i Hi. exact (Hin S i HS Hi).
  - reflexivity.
  - unfold _compute_v_masks, range_N. cbn [fst].
    now rewrite !length_map, length_seq.
  - intros m Hm. cbv zeta. rewrite v_mask_nth by exact Hm. unfold v_of.
    rewrite <- (hits_all_coalition support_sets n m).
    destruct (hits_all (_support_sets_to_masks support_sets n) m).
    + split; [now right | split; reflexivity].
    + split; [now left | split; intros H; discriminate H].
Qed.

(** ** The Shapley engine: pivotal elements *)

Lemma Zsum_pos_iff (l : list Z) :
  Forall (fun z => (0 <= z)%Z) l ->
  ((0 < Zsum l)%Z <-> exists z, In z l /\ (0 < z)%Z).
Proof.
  induction 1 as [|x l Hx Hl IH].
  - simpl. split; [lia | intros (z & [] & _)].
  - change (Zsum (x :: l)) with (x + Zsum l)%Z.
    pose proof (Zsum_nonneg l Hl) as Hs. split.
    + intros Hpos. destruct (Z.ltb_spec 0 x) as [Hp|Hp].
      * exists x. simpl. auto.
      * assert (H0 : (0 < Zsum l)%Z) by lia.
        apply IH in H0. destruct H0 as (z & Hz & Hzp). exists z. simpl. auto.
    + intros (z & [<-|Hz] & Hzp); [lia|].
      assert (0 < Zsum l)%Z by (apply IH; eauto). lia.
Qed.

Lemma marginal_pos n masks t m :
  (0 < marginal n masks t m)%Z <->
  N.testbit m (N.of_nat t) = false /\
  hits_all masks m = false /\ hits_all masks (N.lor m (bit t)) = true.
Proof.
  unfold marginal, v_of.
  assert (Hw : (0 < weight_num n (popcount m))%Z).
  { unfold weight_num. pose proof (lt_O_fact (popcount m)).
    pose proof (lt_O_fact (n - popcount m - 1)). nia. }
  destruct (N.testbit m (N.of_nat t)).
  - split; [lia | intros (H & _); discriminate].
  - destruct (hits_all masks m) eqn:Hm.
    + rewrite hits_all_lor by exact Hm. split; [lia | intros (_ & H & _); discriminate].
    + destruct (hits_all masks (N.lor m (bit t))).
      * split; [auto | intros _; lia].
      * split; [lia | intros (_ & _ & H); discriminate].
Qed.

(** X1: the exact Shapley value of an element is never negative, and it is
    positive exactly when the element is pivotal: some coalition of other
    elements does not intersect every support set, and does once the
    element has joined it. *)
Theorem exact_shapley_positive_iff_pivotal (support_sets : list (list nat)) (n t : nat) :
  t < n ->
  (0 <= nth t (exact_shapley support_sets n) 0)%Q /\
  ((0 < nth t (exact_shapley support_sets n) 0)%Q <->
   exists m : N,
     (m < N.of_nat (2 ^ n))%N /\ N.testbit m (N.of_nat t) = false /\
     ~ (forall S, In S support_sets -> coalition_hits m S) /\
     (forall S, In S support_sets -> coalition_hits (N.lor m (bit t)) S)).
Proof.
  intros Ht.
  pose proof (fact_pos_Z n) as Hf. rewrite (Zlt_Qlt 0) in Hf.
  set (masks := _support_sets_to_masks support_sets n).
  assert (Hnn : Forall (fun z => (0 <= z)%Z) (map (marginal n masks t) (range_N (2 ^ n)))).
  { apply Forall_forall. intros z Hz. apply in_map_iff in Hz.
    destruct Hz as (m & <- & _). apply marginal_nonneg. }
  rewrite (exact_shapley_nth support_sets n t Ht). fold masks. split.
  - apply Qle_shift_div_l; [exact Hf|]. rewrite Qmult_0_l.
    rewrite <- (Zle_Qle 0). now apply Zsum_nonneg.
  - transitivity (0 < sum_masks (marginal n masks t) (2 ^ n))%Z.
    + split; intros H.
      * apply (Qmult_lt_r _ _ _ Hf) in H. rewrite Qmult_0_l in H.
        unfold Qdiv in H. rewrite <- Qmult_assoc, (Qmult_comm (/ _)), Qmult_inv_r, Qmult_1_r in H.
        -- now rewrite <- (Zlt_Qlt 0) in H.
        -- intros E. rewrite E in Hf. discriminate.
      * apply Qlt_shift_div_l; [exact Hf|]. rewrite Qmult_0_l.
        now rewrite <- (Zlt_Qlt 0).
    + unfold sum_masks. rewrite (Zsum_pos_iff _ Hnn). split.
      * intros (z & Hz & Hpos). apply in_map_iff in Hz. destruct Hz as (m & <- & Hm).
        apply In_range_N in Hm. apply marginal_pos in Hpos.
        destruct Hpos as (Hb & H0 & H1).
        exists m. split; [exact Hm|]. split; [exact Hb|]. split.
        -- intros Hall. apply (hits_all_coalition support_sets n m) in Hall.
           fold masks in Hall. congruence.
        -- now apply (hits_all_coalition support_sets n).
      * intros (m & Hm & Hb & H0 & H1).
        exists (marginal n masks t m). split.
        -- apply in_map. now apply In_range_N.
        -- apply marginal_pos. split; [exact Hb|]. split.
           ++ destruct (hits_all masks m) eqn:E; [|reflexivity].
              exfalso. apply H0. now apply (hits_all_coalition support_sets n).
           ++ now apply (hits_all_coalition support_sets n).
Qed.

Lemma exact_shapley_positive_iff_pivotal_witness :
  0 < 3 /\
  ((0 <= nth 0 (exact_shapley family_ex 3) 0)%Q /\
   ((0 < nth 0 (exact_shapley family_ex 3) 0)%Q <->
    exists m : N,
      (m < N.of_nat (2 ^ 3))%N /\ N.testbit m (N.of_nat 0) = false /\
      ~ (forall S, In S family_ex -> coalition_hits m S) /\
      (forall S, In S family_ex -> coalition_hits (N.lor m (bit 0)) S))).
Proof.
  split; [lia|].
  apply (exact_shapley_positive_iff_pivotal family_ex 3 0). lia.
Defined.

(** ** Responsibility: the search returns the minimum hitting-set size *)

Lemma filter_in_sublists {A : Type} (f : A -> bool) (l : list A) :
  In (List.filter f l) (sublists l).
Proof.
  induction l as [|x l IH]; simpl; [auto|].
  apply in_or_app. destruct (f x); [right; now apply in_map | left; exact IH].
Qed.

Lemma sat_atmost_search_complete : sat_atmost_complete sat_atmost_search.
Proof.
  intros clauses lits k T Hvars Hhit Hk. unfold sat_atmost_search.
  apply existsb_exists. exists (List.filter (fun l => mem l T) lits).
  split; [apply filter_in_sublists|].
  assert (Hmem : forall l, In l lits ->
            mem l (List.filter (fun l0 => mem l0 T) lits) = mem l T).
  { intros l Hl. destruct (mem l T) eqn:Hm.
    - apply mem_In, filter_In. auto.
    - apply not_true_iff_false. intros H. apply mem_In, filter_In in H.
      destruct H as [_ H]. congruence. }
  apply andb_true_iff. split.
  - apply forallb_forall. intros c Hc. apply existsb_exists.
    destruct (Hhit c Hc) as (v & Hv & HvT). exists v. split; [exact Hv|].
    rewrite Hmem by (apply (Hvars c Hc); exact Hv). now apply mem_In.
  - apply Nat.leb_le.
    rewrite (List.filter_ext_in _ (fun l => mem l T)) by exact Hmem. exact Hk.
Defined.

Lemma var_inj i j : var i = var j -> i = j.
Proof. unfold var. lia. Qed.

Lemma filter_map_var (T : list nat) (l : list nat) :
  List.filter (fun v => mem v T) (map var l)
  = map var (List.filter (fun i => mem (var i) T) l).
Proof.
  induction l as [|i l IH]; simpl; [reflexivity|].
  destruct (mem (var i) T); simpl; now rewrite IH.
Qed.

Section RespExact.

Variable sat_atmost : list (list nat) -> list nat -> nat -> bool.
Hypothesis sat_sound : sat_atmost_sound sat_atmost.
Hypothesis sat_complete : sat_atmost_complete sat_atmost.

(** The first bound the loop accepts. *)
Lemma resp_search_first sets n a len :
  existsb (fun S => negb (nonempty S)) sets = false ->
  match resp_search sat_atmost sets n (seq a len) with
  | Some k =>
      a <= k < a + len /\
      sat_atmost (map (map var) sets) (map var (seq 0 n)) k = true /\
      forall k', a <= k' < k ->
                 sat_atmost (map (map var) sets) (map var (seq 0 n)) k' = false
  | None =>
      forall k', a <= k' < a + len ->
                 sat_atmost (map (map var) sets) (map var (seq 0 n)) k' = false
  end.
Proof.
  intros He. revert a. induction len as [|len IH]; intros a; cbn [seq resp_search].
  - intros k' Hk'. lia.
  - rewrite He.
    destruct (sat_atmost (map (map var) sets) (map var (seq 0 n)) a) eqn:Hs.
    + split; [lia|]. split; [exact Hs|]. intros k' Hk'. lia.
    + specialize (IH (S a)).
      destruct (resp_search sat_atmost sets n (seq (S a) len)) as [k|].
      * destruct IH as (Hr & Hk & Hmin). split; [lia|]. split; [exact Hk|].
        intros k' Hk'. destruct (Nat.eq_dec k' a) as [->|Hne]; [exact Hs|].
        apply Hmin. lia.
      * intros k' Hk'. destruct (Nat.eq_dec k' a) as [->|Hne]; [exact Hs|].
        apply IH. lia.
Qed.

(** A hitting set of at most [n] indices makes the SAT call succeed. *)
Lemma hitting_set_satisfies sets n (H : list nat) :
  (forall S, In S sets -> forall i, In i S -> i < n) ->
  hits_every_edge H sets ->
  sat_atmost (map (map var) sets) (map var (seq 0 n)) (length H) = true.
Proof.
  intros Hlt Hhit. apply (sat_complete _ _ _ (map var H)).
  - intros c Hc v Hv. apply in_map_iff in Hc. destruct Hc as (S & <- & HS).
    apply in_map_iff in Hv. destruct Hv as (i & <- & Hi).
    apply in_map, in_seq. specialize (Hlt S HS i Hi). lia.
  - intros c Hc. apply in_map_iff in Hc. destruct Hc as (S & <- & HS).
    destruct (Hhit S HS) as (u & HuH & HuS).
    exists (var u). split; now apply in_map.
  - rewrite <- (length_map var H). apply NoDup_incl_length.
    + apply List.NoDup_filter. apply Finite.Injective_map_NoDup; [|apply seq_NoDup].
      intros i j. apply var_inj.
    + intros v Hv. apply filter_In in Hv. destruct Hv as [_ Hv]. now apply mem_In.
Qed.

(** A successful SAT call yields a hitting set no larger than the bound. *)
Lemma satisfied_gives_hitting_set sets n k :
  (forall S, In S sets -> forall i, In i S -> i < n) ->
  sat_atmost (map (map var) sets) (map var (seq 0 n)) k = true ->
  exists H : list nat,
    List.NoDup H /\ (forall i, In i H -> i < n) /\ length H <= k /\ hits_every_edge H sets.
Proof.
  intros Hlt Hs. destruct (sat_sound _ _ _ Hs) as (T & Hhit & Hk).
  exists (List.filter (fun i => mem (var i) T) (seq 0 n)).
  split; [apply List.NoDup_filter, seq_NoDup|]. split; [|split].
  - intros i Hi. apply filter_In in Hi. destruct Hi as [Hi _]. apply in_seq in Hi. lia.
  - rewrite filter_map_var, length_map in Hk. exact Hk.
  - intros S HS. destruct (Hhit (map var S) (in_map _ _ _ HS)) as (v & Hv & HvT).
    apply in_map_iff in Hv. destruct Hv as (i & <- & Hi).
    exists i. split; [|exact Hi]. apply filter_In. split.
    + apply in_seq. specialize (Hlt S HS i Hi). lia.
    + now apply mem_In.
Qed.

(** X5: With a SAT oracle that is sound and complete,
    [min_hitting_set_size_for_t] returns the minimum size of a set of
    indices that intersects every support set not containing [t]: some
    hitting set has exactly that size and none is smaller. *)
Theorem min_hitting_set_size_is_minimum (support_sets : list (list nat)) (n t : nat) :
  (forall S, In S support_sets -> S <> [] /\ forall i, In i S -> i < n) ->
  let sets_minus_t := List.filter (fun S => negb (mem t S)) support_sets in
  let h := min_hitting_set_size_for_t sat_atmost support_sets n t in
  h <= n /\
  (exists H : list nat,
      List.NoDup H /\ (forall i, In i H -> i < n) /\ length H = h /\
      hits_every_edge H sets_minus_t) /\
  (forall H' : list nat, hits_every_edge H' sets_minus_t -> h <= length H').
Proof.
  intros Hv. cbv zeta. unfold min_hitting_set_size_for_t.
  set (sets := List.filter (fun S => negb (mem t S)) support_sets).
  assert (Hsub : forall S, In S sets -> S <> [] /\ forall i, In i S -> i < n).
  { intros S HS. apply filter_In in HS. apply Hv. tauto. }
  assert (Hlt : forall S, In S sets -> forall i, In i S -> i < n).
  { intros S HS. exact (proj2 (Hsub S HS)). }
  destruct sets as [|S0 rest] eqn:Hsets; cbn [nonempty negb].
  - split; [lia|]. split.
    + exists []. split; [constructor|]. split; [intros i []|].
      split; [reflexivity | intros e []].
    + intros H' _. lia.
  - assert (He : existsb (fun S => negb (nonempty S)) (S0 :: rest) = false).
    { apply not_true_iff_false. intros He. apply existsb_exists in He.
      destruct He as (S & HS & HSe). destruct (Hsub S HS) as [Hne _].
      destruct S; [congruence | discriminate]. }
    assert (Hfull : sat_atmost (map (map var) (S0 :: rest)) (map var (seq 0 n)) n = true).
    { generalize (hitting_set_satisfies (S0 :: rest) n (seq 0 n) Hlt).
      rewrite length_seq. intros Hf. apply Hf.
      intros S HS. destruct (Hsub S HS) as [Hne HltS].
      destruct S as [|i S']; [congruence|].
      exists i. split; [|simpl; auto]. apply in_seq.
      specialize (HltS i (or_introl eq_refl)). lia. }
    pose proof (resp_search_first (S0 :: rest) n 0 (n + 1) He) as Hfirst.
    destruct (resp_search sat_atmost (S0 :: rest) n (seq 0 (n + 1))) as [k|].
    + destruct Hfirst as (Hr & Hk & Hmin).
      assert (Hlow : forall H' : list nat, hits_every_edge H' (S0 :: rest) -> k <= length H').
      { intros H' Hhit. destruct (Nat.le_gt_cases k (length H')) as [Hle|Hgt]; [exact Hle|].
        pose proof (hitting_set_satisfies _ n H' Hlt Hhit) as Hs.
        rewrite Hmin in Hs by lia. discriminate. }
      split; [lia|]. split; [|exact Hlow].
      destruct (satisfied_gives_hitting_set _ n k Hlt Hk) as (H & Hnd & Hin & Hlen & Hhit).
      exists H. split; [exact Hnd|]. split; [exact Hin|]. split; [|exact Hhit].
      specialize (Hlow H Hhit). lia.
    + rewrite Hfirst in Hfull by lia. discriminate.
Qed.

End RespExact.

Lemma min_hitting_set_size_is_minimum_witness :
  (forall S, In S family_ex -> S <> [] /\ forall i, In i S -> i < 3) /\
  (let sets_minus_t := List.filter (fun S => negb (mem 1 S)) family_ex in
   let h := min_hitting_set_size_for_t sat_atmost_search family_ex 3 1 in
   h <= 3 /\
   (exists H : list nat,
       List.NoDup H /\ (forall i, In i H -> i < 3) /\ length H = h /\
       hits_every_edge H sets_minus_t) /\
   (forall H' : list nat, hits_every_edge H' sets_minus_t -> h <= length H')).
Proof.
  split; [exact family_ex_sets|].
  apply (min_hitting_set_size_is_minimum sat_atmost_search
           sat_atmost_search_sound sat_atmost_search_complete family_ex 3 1).
  exact family_ex_sets.
Defined.

(** ** RIM: what the reported gamma values mean *)

Lemma encode_hash_collision_free : hash_collision_free encode_hash.
Proof.
  intros e1 e2 H. unfold encode_hash in H. injection H as H.
  now apply (inj encode) in H.
Defined.

Lemma sorted_nat_Permutation e : Permutation (sorted_nat e) e.
Proof. apply merge_sort_Permutation. Qed.

Lemma sorted_Z_Permutation l : Permutation (sorted_Z l) l.
Proof. apply merge_sort_Permutation. Qed.

(** Two edge lists with the same signature have the same hitting sets. *)
Lemma same_signature_hits py_hash f1 f2 (H : list nat) :
  hash_collision_free py_hash ->
  edge_signature py_hash f1 = edge_signature py_hash f2 ->
  hits_every_edge H f1 -> hits_every_edge H f2.
Proof.
  intros Hfree Hsig Hhit e He. unfold edge_signature in Hsig.
  assert (Hp : Permutation (map (fun e => py_hash (sorted_nat e)) f2)
                           (map (fun e => py_hash (sorted_nat e)) f1)).
  { rewrite <- (sorted_Z_Permutation (map _ f2)), <- Hsig. apply sorted_Z_Permutation. }
  assert (Hin : In (py_hash (sorted_nat e)) (map (fun e => py_hash (sorted_nat e)) f1)).
  { apply (Permutation_in _ Hp). now apply (in_map (fun e => py_hash (sorted_nat e))). }
  apply in_map_iff in Hin. destruct Hin as (e1 & Heq & He1).
  apply Hfree in Heq.
  destruct (Hhit e1 He1) as (u & Hu & Hue). exists u. split; [exact Hu|].
  apply (Permutation_in _ (sorted_nat_Permutation e)). rewrite <- Heq.
  apply (Permutation_in _ (Permutation_sym (sorted_nat_Permutation e1))). exact Hue.
Qed.

Section RimGamma.

Variable int_of_str : string -> option Z.
Variable py_hash : list nat -> Z.
Variable solver_state : Type.
Variable CpSolver_Solve : solver_state -> Q -> CpModel -> cp_status * Z * solver_state.
Hypothesis solver_sound : cp_solver_sound CpSolver_Solve.

Lemma solve_gamma_sound st filtered time_limit_s g0 st0 solver' :
  (forall e, In e filtered -> e <> []) ->
  solve_min_hitting_set_size_cpsat solver_state CpSolver_Solve st filtered time_limit_s
    (Some (Z.of_nat (greedy_hitting_set_size filtered))) = (g0, st0, solver') ->
  let gs := if (g0 <? 0)%Z then (Z.of_nat (greedy_hitting_set_size filtered), TIMEOUT)
            else (g0, st0) in
  gamma_sound filtered (fst gs) (snd gs).
Proof.
  intros Hne Hsolve. cbv zeta. unfold solve_min_hitting_set_size_cpsat in Hsolve.
  destruct filtered as [|e rest]; cbn [nonempty negb] in Hsolve.
  - injection Hsolve as <- <- <-. simpl. split; [|tauto].
    exists []. split; [reflexivity | intros ? []].
  - destruct (greedy_size_hits (e :: rest) Hne) as (H & Hk & Hhit).
    assert (Hgreedy : forall st1, st1 <> TRIVIAL ->
              gamma_sound (e :: rest) (Z.of_nat (greedy_hitting_set_size (e :: rest))) st1).
    { intros st1 Hst. split; [exists H; split; [now rewrite Hk | exact Hhit]|].
      split; [contradiction | discriminate]. }
    destruct (CpSolver_Solve st time_limit_s _) as [[cpst objective] st'] eqn:Hcp.
    assert (Hobj : cpst = CP_OPTIMAL \/ cpst = CP_FEASIBLE ->
              forall st1, st1 <> TRIVIAL ->
              (objective <? 0)%Z = false /\ gamma_sound (e :: rest) objective st1).
    { intros Hst st1 Hst1. destruct (solver_sound _ _ _ _ _ _ Hcp Hst) as (T & HT & ->).
      cbn [cp_model_of cp_hit] in HT. rewrite (filter_nonempty_id _ Hne) in HT.
      split; [apply Z.ltb_ge; lia|]. split; [exists T; auto|].
      split; [contradiction | discriminate]. }
    destruct cpst; injection Hsolve as <- <- <-.
    + destruct (Z.ltb (Z.of_nat _) 0); cbn [fst snd]; apply Hgreedy; discriminate.
    + destruct (Z.ltb (Z.of_nat _) 0); cbn [fst snd]; apply Hgreedy; discriminate.
    + destruct (Hobj (or_intror eq_refl) FEASIBLE ltac:(discriminate)) as [-> Hs]. exact Hs.
    + destruct (Z.ltb (Z.of_nat _) 0); cbn [fst snd]; apply Hgreedy; discriminate.
    + destruct (Hobj (or_introl eq_refl) OPTIMAL ltac:(discriminate)) as [-> Hs]. exact Hs.
Qed.

Lemma gamma_sound_nonneg filtered g st : gamma_sound filtered g st -> (0 <= g)%Z.
Proof. intros [(H & -> & _) _]. lia. Qed.

(** One iteration of the loop over the universe. *)
Lemma rim_step_gamma all_nodes edges_ids time_limit_s enable_cache s t :
  enable_cache = false \/ hash_collision_free py_hash ->
  (forall e, In e edges_ids -> e <> []) ->
  cache_sound py_hash (rl_cache s) ->
  exists s' gr,
    rim_step py_hash solver_state CpSolver_Solve all_nodes edges_ids
             time_limit_s enable_cache s t = Ok s' /\
    cache_sound py_hash (rl_cache s') /\
    rl_gamma_details s' = alist_set t gr (rl_gamma_details s) /\
    n_edges gr = length (edges_without (node_id all_nodes t) edges_ids) /\
    n_nodes gr = length all_nodes /\
    gamma_sound (edges_without (node_id all_nodes t) edges_ids) (gamma gr) (status gr).
Proof.
  intros Hmode Hne Hcache. unfold rim_step.
  set (filtered := edges_without (node_id all_nodes t) edges_ids).
  assert (Hf : forall e, In e filtered -> e <> []).
  { intros e He. apply filter_In in He. apply Hne. tauto. }
  destruct (if enable_cache then rl_cache s !! edge_signature py_hash filtered else None)
    as [[g st]|] eqn:Hlook.
  - destruct enable_cache; [|discriminate].
    destruct Hmode as [Hmode|Hfree]; [discriminate|].
    destruct (Hcache _ _ _ Hlook) as (filtered0 & Hsig & [(H & Hg & Hhit) Htriv]).
    assert (Hsound : gamma_sound filtered g st).
    { split.
      - exists H. split; [exact Hg|]. exact (same_signature_hits _ _ _ _ Hfree (eq_sym Hsig) Hhit).
      - rewrite Htriv, <- (edge_signature_nil py_hash filtered0), <- Hsig.
        apply edge_signature_nil. }
    rewrite (rho_of_gamma_ok g (gamma_sound_nonneg _ _ _ Hsound)). cbn [bind].
    eexists. eexists. cbn [rl_cache rl_gamma_details].
    split; [reflexivity|]. split; [exact Hcache|]. split; [reflexivity|].
    cbn [n_edges n_nodes gamma status]. auto.
  - destruct (solve_min_hitting_set_size_cpsat solver_state CpSolver_Solve (rl_solver s)
                filtered time_limit_s (Some (Z.of_nat (greedy_hitting_set_size filtered))))
      as [[g0 st0] solver'] eqn:Hsolve.
    pose proof (solve_gamma_sound _ _ _ _ _ _ Hf Hsolve) as Hok. cbv zeta in Hok.
    destruct (if (g0 <? 0)%Z then (Z.of_nat (greedy_hitting_set_size filtered), TIMEOUT)
              else (g0, st0)) as [g st] eqn:Hg.
    cbn [fst snd] in Hok.
    rewrite (rho_of_gamma_ok g (gamma_sound_nonneg _ _ _ Hok)). cbn [bind].
    eexists. eexists. cbn [rl_cache rl_gamma_details].
    split; [reflexivity|]. split; [|split; [reflexivity|]].
    + destruct enable_cache; [|exact Hcache].
      intros sig g' st' Hl. cbn [rl_cache] in Hl. rewrite lookup_insert in Hl.
      destruct (decide (edge_signature py_hash filtered = sig)) as [<-|Hsig].
      * injection Hl as <- <-. exists filtered. auto.
      * eauto.
    + cbn [n_edges n_nodes gamma status]. auto.
Qed.

(** The loop adds one record per element, in order. *)
Lemma rim_loop_gamma all_nodes edges_ids time_limit_s enable_cache ts :
  enable_cache = false \/ hash_collision_free py_hash ->
  (forall e, In e edges_ids -> e <> []) ->
  List.NoDup ts ->
  forall s,
    cache_sound py_hash (rl_cache s) ->
    (forall t, In t ts -> ~ In t (map fst (rl_gamma_details s))) ->
    exists s' new,
      for_each (rim_step py_hash solver_state CpSolver_Solve all_nodes edges_ids
                         time_limit_s enable_cache) ts s = Ok s' /\
      rl_gamma_details s' = rl_gamma_details s ++ new /\
      map fst new = ts /\
      forall t gr, In (t, gr) new ->
        n_edges gr = length (edges_without (node_id all_nodes t) edges_ids) /\
        n_nodes gr = length all_nodes /\
        gamma_sound (edges_without (node_id all_nodes t) edges_ids) (gamma gr) (status gr).
Proof.
  intros Hmode Hne Hnd. induction Hnd as [|t ts Ht Hnd IH]; intros s Hcache Hfresh.
  - exists s, []. simpl. rewrite app_nil_r.
    split; [reflexivity|]. split; [reflexivity|]. split; [reflexivity|]. intros ? ? [].
  - destruct (rim_step_gamma all_nodes edges_ids time_limit_s enable_cache s t
                Hmode Hne Hcache)
      as (s1 & gr & Hstep & Hc1 & Hgd & Hspec).
    rewrite alist_set_fresh in Hgd by (apply Hfresh; simpl; auto).
    destruct (IH s1 Hc1) as (s' & new & Hloop & Hgd' & Hkeys & Hvals).
    { intros t' Ht'. rewrite Hgd, map_app, in_app_iff. simpl.
      intros [Hin|[<-|[]]]; [|contradiction].
      apply (Hfresh t'); simpl; auto. }
    exists s', ((t, gr) :: new).
    cbn [for_each]. rewrite Hstep. cbn [bind]. split; [exact Hloop|]. split; [|split].
    + rewrite Hgd', Hgd, <- app_assoc. reflexivity.
    + simpl. now rewrite Hkeys.
    + intros t' gr' [[= <- <-]|Hin]; [exact Hspec | eauto].
Qed.

End RimGamma.

Lemma node_id_nth (all_nodes : list TupleKey) x :
  In x all_nodes -> nth_error all_nodes (node_id all_nodes x) = Some x.
Proof.
  induction all_nodes as [|y rest IH]; simpl; intros Hin; [contradiction|].
  destruct (decide (y = x)) as [->|Hne]; [reflexivity|].
  destruct Hin as [Hin|Hin]; [congruence|]. simpl. auto.
Qed.

Lemma sorted_keys_length l : length (sorted_keys l) = length l.
Proof. apply Permutation_length, merge_sort_Permutation. Qed.

Lemma filter_map_length {A B : Type} (f : A -> B) (p : B -> bool) (q : A -> bool) l :
  (forall x, In x l -> p (f x) = q x) ->
  length (List.filter p (map f l)) = length (List.filter q l).
Proof.
  induction l as [|x l IH]; intros H; simpl; [reflexivity|].
  rewrite (H x) by (simpl; auto). specialize (IH (fun y Hy => H y (or_intror Hy))).
  destruct (q x); simpl; now rewrite IH.
Qed.

(** Membership of a node number in a numbered edge. *)
Lemma mem_node_id (all_nodes : list TupleKey) (e : gset (string * list Z)) t :
  In t all_nodes -> (forall x, x ∈ e -> In x all_nodes) ->
  mem (node_id all_nodes t) (map (node_id all_nodes) (elements e)) = bool_decide (t ∈ e).
Proof.
  intros Ht He. destruct (bool_decide (t ∈ e)) eqn:Hb.
  - apply bool_decide_eq_true in Hb. apply mem_In, in_map. now apply In_elements.
  - apply bool_decide_eq_false in Hb. apply not_true_iff_false. intros Hm.
    apply mem_In, in_map_iff in Hm. destruct Hm as (x & Hid & Hx).
    apply In_elements in Hx. apply node_id_inj in Hid; [|now apply He].
    subst x. contradiction.
Qed.

Lemma decode_nodes_length all_nodes H : length (decode_nodes all_nodes H) <= length H.
Proof.
  unfold decode_nodes. induction H as [|id H IH]; simpl; [lia|].
  rewrite length_app. destruct (nth_error all_nodes id); simpl; lia.
Qed.

Lemma decode_nodes_In all_nodes H u :
  In u (decode_nodes all_nodes H) <-> exists id, In id H /\ nth_error all_nodes id = Some u.
Proof.
  unfold decode_nodes. rewrite in_flat_map. split.
  - intros (id & Hid & Hu). exists id. split; [exact Hid|].
    destruct (nth_error all_nodes id) as [x|]; [|destruct Hu].
    destruct Hu as [->|[]]. reflexivity.
  - intros (id & Hid & Hu). exists id. split; [exact Hid|]. rewrite Hu. simpl. auto.
Qed.

Lemma Qeq_dec_strict (x y : Q) : {x = y} + {x <> y}.
Proof. decide equality; [apply Pos.eq_dec | apply Z.eq_dec]. Qed.

Lemma Qdiv_le_1 (r d : Q) : (0 < d)%Q -> (r <= d)%Q -> (r / d <= 1)%Q.
Proof.
  intros Hd Hr. apply Qle_shift_div_r; [exact Hd|]. now rewrite Qmult_1_l.
Qed.

Section RimRun.

Variable int_of_str : string -> option Z.
Variable py_hash : list nat -> Z.
Variable solver_state : Type.
Variable CpSolver_Solve : solver_state -> Q -> CpModel -> cp_status * Z * solver_state.
Hypothesis solver_sound : cp_solver_sound CpSolver_Solve.

(** [compute_rim_for_dc] returns on every hypergraph: one positive
    contribution of at most [m] per tuple of the universe, and the
    records and solver state the loop over the universe left. *)
Lemma compute_rim_for_dc_run st mis_list time_limit_s enable_cache edges_tk universe :
  build_hypergraph_from_mis int_of_str mis_list = Ok (edges_tk, universe) ->
  exists s rim_contrib,
    rim_rho_for_dc int_of_str py_hash solver_state CpSolver_Solve
                   st mis_list time_limit_s enable_cache = Ok (universe, s) /\
    compute_rim_for_dc int_of_str py_hash solver_state CpSolver_Solve
                       st mis_list time_limit_s enable_cache
    = Ok (rim_contrib, rl_gamma_details s, rl_solver s) /\
    map fst rim_contrib = elements universe /\
    (forall t c, In (t, c) rim_contrib ->
                 (0 < c)%Q /\ (c <= inject_Z (Z.of_nat (length mis_list)))%Q).
Proof.
  intros Hbuild.
  destruct (rim_rho_for_dc_spec int_of_str py_hash solver_state CpSolver_Solve solver_sound
              st mis_list time_limit_s enable_cache _ _ Hbuild)
    as (s & Hrun & Hkeys & Hvals).
  exists s. unfold compute_rim_for_dc.
  destruct (Nat.eqb_spec (length mis_list) 0) as [Hz|Hm].
  { destruct mis_list; [|discriminate].
    cbn in Hbuild. injection Hbuild as <- <-.
    unfold rim_rho_for_dc in Hrun. cbn in Hrun. rewrite elements_empty in Hrun.
    cbn in Hrun. injection Hrun as <-. cbn [rl_gamma_details rl_solver].
    exists []. split; [reflexivity|]. split; [reflexivity|].
    split; [now rewrite elements_empty | intros ? ? []]. }
  rewrite Hrun. cbn [bind fst snd].
  set (rho := rl_rho s) in *. set (denom := Qsum (map snd rho)).
  assert (Hpos : forall x, In x (map snd rho) -> (0 < x)%Q).
  { intros x Hx. apply in_map_iff in Hx. destruct Hx as ([t r] & <- & Hin).
    apply (Hvals t r Hin). }
  destruct (Qle_bool denom 0) eqn:Hle.
  - assert (Hnil : map snd rho = []).
    { apply Qle_bool_iff in Hle.
      destruct (list_eq_dec Qeq_dec_strict (map snd rho) []) as [E|E]; [exact E|].
      exfalso. apply (Qlt_not_le 0 denom); [|exact Hle].
      apply Qsum_pos; [exact E | exact Hpos]. }
    apply map_eq_nil in Hnil. exists []. split; [reflexivity|]. split; [reflexivity|].
    split; [|intros ? ? []]. rewrite <- Hkeys, Hnil. reflexivity.
  - assert (Hdenom : (0 < denom)%Q).
    { apply Qnot_le_lt. intros H. apply Qle_bool_iff in H. congruence. }
    rewrite <- Hkeys.
    rewrite (alist_items_all
               (fun r => (r / denom * inject_Z (Z.of_nat (length mis_list)))%Q) rho rho).
    + cbn [bind]. eexists. split; [reflexivity|]. split; [reflexivity|].
      split; [now rewrite map_map|].
      intros t c Hin. apply in_map_iff in Hin. destruct Hin as ([t' r] & [= <- <-] & Hin).
      cbn [fst snd]. destruct (Hvals t' r Hin) as (Hr & _).
      assert (Hm' : (0 < inject_Z (Z.of_nat (length mis_list)))%Q)
        by (rewrite <- (Zlt_Qlt 0); lia).
      assert (Hfrac : (0 < r / denom)%Q).
      { apply Qlt_shift_div_l; [exact Hdenom|]. now rewrite Qmult_0_l. }
      split.
      * rewrite <- (Qmult_0_l (inject_Z (Z.of_nat (length mis_list)))).
        apply Qmult_lt_compat_r; assumption.
      * rewrite <- (Qmult_1_l (inject_Z (Z.of_nat (length mis_list)))) at 2.
        apply Qmult_le_compat_r; [|now apply Qlt_le_weak].
        apply Qdiv_le_1; [exact Hdenom|]. unfold denom.
        apply Qsum_member_le.
        -- apply Forall_forall. intros x Hx. apply Qlt_le_weak. now apply Hpos.
        -- apply in_map_iff. exists (t', r). auto.
    + intros k v Hin. apply alist_get_nodup; [|exact Hin].
      fold rho in Hkeys. rewrite Hkeys. apply NoDup_elements_list.
Qed.

(** X6: The records of [gamma_details]: one per tuple of the universe, with
    the numbers of nodes and of edges not containing the tuple, the status
    TRIVIAL exactly when the tuple lies in every edge, and a [gamma] that
    is reached by a set of tuples of the universe intersecting every edge
    that does not contain the tuple.  With the cache enabled this needs
    the edge hashes to be free of collisions. *)
Theorem rim_gamma_details_sound (st : solver_state) (mis_list : list json)
  (time_limit_s : Q) (enable_cache : bool)
  (edges_tk : list (gset (string * list Z))) (universe : gset (string * list Z)) :
  enable_cache = false \/ hash_collision_free py_hash ->
  build_hypergraph_from_mis int_of_str mis_list = Ok (edges_tk, universe) ->
  exists rim_contrib gamma_details st',
    compute_rim_for_dc int_of_str py_hash solver_state CpSolver_Solve
                       st mis_list time_limit_s enable_cache
    = Ok (rim_contrib, gamma_details, st') /\
    map fst gamma_details = elements universe /\
    forall t gr, In (t, gr) gamma_details ->
      n_nodes gr = size universe /\
      n_edges gr = length (List.filter (fun e => negb (bool_decide (t ∈ e))) edges_tk) /\
      (status gr = TRIVIAL <-> forall e, In e edges_tk -> t ∈ e) /\
      exists Hs : list TupleKey,
        (Z.of_nat (length Hs) <= gamma gr)%Z /\
        (forall u, In u Hs -> u ∈ universe) /\
        forall e, In e edges_tk -> t ∉ e -> exists u, In u Hs /\ u ∈ e.
Proof.
  intros Hmode Hbuild.
  destruct (compute_rim_for_dc_run st mis_list time_limit_s enable_cache _ _ Hbuild)
    as (s & rim_contrib & Hrun & Hcompute & _).
  exists rim_contrib, (rl_gamma_details s), (rl_solver s). split; [exact Hcompute|].
  pose proof (build_hypergraph_ok _ _ _ Hbuild) as [Hedges Huni].
  cbn [fst snd] in Hedges, Huni.
  unfold rim_rho_for_dc in Hrun. rewrite Hbuild in Hrun. cbn [bind fst snd] in Hrun.
  set (all_nodes := sorted_keys (elements universe)) in *.
  set (edges_ids := map (fun e : gset (string * list Z) =>
                           map (node_id all_nodes) (elements e)) edges_tk) in *.
  assert (Hne : forall e, In e edges_ids -> e <> []).
  { intros e_ids He. apply in_map_iff in He. destruct He as (e & <- & He).
    destruct (Hedges e He) as [Hnonempty _].
    apply set_choose_L in Hnonempty. destruct Hnonempty as (x & Hx).
    apply In_elements in Hx. intros Hnil. apply map_eq_nil in Hnil.
    rewrite Hnil in Hx. exact Hx. }
  destruct (rim_loop_gamma py_hash solver_state CpSolver_Solve solver_sound
              all_nodes edges_ids time_limit_s enable_cache (elements universe)
              Hmode Hne (NoDup_elements_list universe)
              {| rl_cache := ∅; rl_gamma_details := []; rl_rho := []; rl_solver := st |})
    as (s' & new & Hloop & Hgd & Hkeys & Hvals).
  { intros sig g st0 Hl. cbn [rl_cache] in Hl. rewrite lookup_empty in Hl. discriminate. }
  { intros t _ []. }
  rewrite Hloop in Hrun. cbn [bind] in Hrun. injection Hrun as <-.
  cbn [rl_gamma_details] in Hgd. simpl in Hgd. rewrite Hgd.
  split; [exact Hkeys|].
  intros t gr Hin. destruct (Hvals t gr Hin) as (Hn_edges & Hn_nodes & [Hhit Htriv]).
  assert (Ht : In t all_nodes).
  { apply In_sorted_keys. rewrite <- Hkeys. apply in_map_iff. exists (t, gr). auto. }
  assert (Hsub : forall e, In e edges_tk -> forall x, x ∈ e -> In x all_nodes).
  { intros e He x Hx. apply In_sorted_keys, In_elements.
    destruct (Hedges e He) as [_ Hs]. now apply Hs. }
  split; [|split; [|split]].
  - rewrite Hn_nodes. unfold all_nodes. now rewrite sorted_keys_length.
  - rewrite Hn_edges. unfold edges_without, edges_ids. apply filter_map_length.
    intros e He. f_equal. apply mem_node_id; [exact Ht | now apply Hsub].
  - rewrite Htriv, edges_without_nil. unfold edges_ids. split.
    + intros H e He.
      specialize (H _ (in_map _ _ _ He)). apply mem_In in H.
      rewrite mem_node_id in H by (try exact Ht; exact (Hsub e He)). now apply bool_decide_eq_true in H.
    + intros H e_ids He. apply in_map_iff in He. destruct He as (e & <- & He).
      apply mem_In. rewrite mem_node_id by (try exact Ht; exact (Hsub e He)).
      apply bool_decide_eq_true. auto.
  - destruct Hhit as (H & Hg & Hhit). exists (decode_nodes all_nodes H).
    split; [rewrite Hg; pose proof (decode_nodes_length all_nodes H); lia|]. split.
    + intros u Hu. apply decode_nodes_In in Hu. destruct Hu as (id & _ & Hid).
      apply nth_error_In in Hid. apply In_sorted_keys, In_elements in Hid. exact Hid.
    + intros e He Hte.
      destruct (Hhit (map (node_id all_nodes) (elements e))) as (id & HidH & Hid).
      { apply filter_In. split.
        { unfold edges_ids. apply in_map_iff. exists e. auto. }
        rewrite mem_node_id by (try exact Ht; exact (Hsub e He)).
        apply negb_true_iff, bool_decide_eq_false. exact Hte. }
      apply in_map_iff in Hid. destruct Hid as (x & <- & Hx).
      apply In_elements in Hx. exists x. split; [|exact Hx].
      apply decode_nodes_In. exists (node_id all_nodes x). split; [exact HidH|].
      apply node_id_nth. now apply (Hsub e).
Qed.

End RimRun.

Lemma rim_gamma_details_sound_witness :
  ((true = false \/ hash_collision_free encode_hash) /\
   build_hypergraph_from_mis (fun _ => None) mis_list_ex = Ok (edges_ex, universe_ex)) /\
  exists rim_contrib gamma_details st',
    compute_rim_for_dc (fun _ => None) encode_hash unit cp_search
                       tt mis_list_ex 1%Q true
    = Ok (rim_contrib, gamma_details, st') /\
    map fst gamma_details = elements universe_ex /\
    forall t gr, In (t, gr) gamma_details ->
      n_nodes gr = size universe_ex /\
      n_edges gr = length (List.filter (fun e => negb (bool_decide (t ∈ e))) edges_ex) /\
      (status gr = TRIVIAL <-> forall e, In e edges_ex -> t ∈ e) /\
      exists Hs : list TupleKey,
        (Z.of_nat (length Hs) <= gamma gr)%Z /\
        (forall u, In u Hs -> u ∈ universe_ex) /\
        forall e, In e edges_ex -> t ∉ e -> exists u, In u Hs /\ u ∈ e.
Proof.
  split; [split; [right; exact encode_hash_collision_free | exact build_hypergraph_example]|].
  apply (rim_gamma_details_sound (fun _ => None) encode_hash unit cp_search cp_search_sound
           tt mis_list_ex 1%Q true edges_ex universe_ex).
  - right. exact encode_hash_collision_free.
  - exact build_hypergraph_example.
Defined.

(** ** RIM across constraints *)

Lemma build_hypergraph_total int_of_str mis_list ws :
  map_result (iter_mis_tuples int_of_str) mis_list = Ok ws ->
  exists edges_tk universe,
    build_hypergraph_from_mis int_of_str mis_list = Ok (edges_tk, universe) /\
    forall t, t ∈ universe <-> exists w, In w ws /\ In t w.
Proof.
  unfold build_hypergraph_from_mis.
  assert (Hgen : forall mis_list ws (acc : list (gset (string * list Z)) * gset (string * list Z)),
            map_result (iter_mis_tuples int_of_str) mis_list = Ok ws ->
            exists edges_tk universe,
              for_each (fun (acc : list (gset (string * list Z)) * gset (string * list Z)) mis =>
                          let* tks := iter_mis_tuples int_of_str mis in
                          let e : gset (string * list Z) := list_to_set tks in
                          if decide (e = ∅) then Ok acc
                          else Ok (fst acc ++ [e], snd acc ∪ e))
                       mis_list acc = Ok (edges_tk, universe) /\
              forall t, t ∈ universe <-> t ∈ snd acc \/ exists w, In w ws /\ In t w).
  { clear mis_list ws. induction mis_list as [|mis rest IH]; intros ws acc Hws.
    - cbn in Hws. injection Hws as <-. destruct acc as [edges universe].
      exists edges, universe. split; [reflexivity|]. cbn [snd].
      intros t. split; [auto | intros [H|(w & [] & _)]; exact H].
    - cbn [map_result] in Hws. cbn [for_each].
      destruct (iter_mis_tuples int_of_str mis) as [tks|err]; cbn [bind] in *; [|discriminate].
      destruct (map_result (iter_mis_tuples int_of_str) rest) as [ws'|err] eqn:Hrest;
        cbn [bind] in Hws; [|discriminate].
      injection Hws as <-.
      destruct (decide (list_to_set tks = (∅ : gset (string * list Z)))) as [He|He].
      + destruct (IH ws' acc eq_refl) as (edges & universe & Hrun & Hiff).
        exists edges, universe. split; [exact Hrun|]. intros t. rewrite Hiff.
        split; intros [H|(w & Hw & Ht)]; auto.
        * right. exists w. simpl. auto.
        * destruct Hw as [<-|Hw]; [|right; eauto].
          exfalso. apply list_elem_of_In in Ht.
          assert (Hx : t ∈ (list_to_set tks : gset (string * list Z)))
            by (now apply elem_of_list_to_set).
          rewrite He in Hx. now apply not_elem_of_empty in Hx.
      + destruct (IH ws' (fst acc ++ [list_to_set tks], snd acc ∪ list_to_set tks) eq_refl)
          as (edges & universe & Hrun & Hiff).
        exists edges, universe. split; [exact Hrun|]. intros t. rewrite Hiff. cbn [snd].
        rewrite elem_of_union, elem_of_list_to_set, list_elem_of_In.
        split.
        * intros [[H|H]|(w & Hw & Ht)]; auto.
          -- right. exists tks. simpl. auto.
          -- right. exists w. simpl. auto.
        * intros [H|(w & [<-|Hw] & Ht)]; auto. right. eauto. }
  intros Hws. destruct (Hgen mis_list ws ([], ∅) Hws) as (edges & universe & Hrun & Hiff).
  exists edges, universe. split; [exact Hrun|]. intros t. rewrite Hiff. cbn [snd].
  split; [intros [H|H]; [now apply not_elem_of_empty in H | exact H] | auto].
Qed.

(** Adding the contributions of one constraint to the running totals. *)
Lemma fold_add_contrib (contrib : list (TupleKey * Q)) total tk :
  List.NoDup (map fst contrib) ->
  score_get (fold_left (fun tot (tv : TupleKey * Q) => score_add (fst tv) (snd tv) tot)
                       contrib total) tk
  = match alist_get tk contrib with
    | Some c => (score_get total tk + c)%Q
    | None => score_get total tk
    end.
Proof.
  revert total. induction contrib as [|[k c] rest IH]; intros total Hnd; [reflexivity|].
  cbn [fold_left map fst snd alist_get] in *.
  apply List.NoDup_cons_iff in Hnd. destruct Hnd as [Hk Hnd].
  rewrite IH by exact Hnd. rewrite !score_get_add.
  destruct (decide (k = tk)) as [->|Hne]; [|reflexivity].
  destruct (alist_get tk rest) as [c'|] eqn:Hget; [|reflexivity].
  exfalso. apply Hk. clear -Hget. induction rest as [|[k' v] rest IH]; [discriminate|].
  simpl in *. destruct (decide (k' = tk)); [auto | right; auto].
Qed.

Lemma alist_get_In {V : Type} (d : list (TupleKey * V)) k v :
  alist_get k d = Some v -> In (k, v) d.
Proof.
  induction d as [|[k' v'] d IH]; simpl; [discriminate|].
  destruct (decide (k' = k)) as [->|Hne]; [intros [= ->]; auto | auto].
Qed.

Lemma alist_get_None {V : Type} (d : list (TupleKey * V)) k :
  alist_get k d = None <-> ~ In k (map fst d).
Proof.
  induction d as [|[k' v'] d IH]; simpl; [tauto|].
  destruct (decide (k' = k)) as [->|Hne]; [split; [discriminate | tauto]|].
  rewrite IH. tauto.
Qed.

Section ComputeRimFacts.

Variable int_of_str : string -> option Z.
Variable py_hash : list nat -> Z.
Variable solver_state : Type.
Variable CpSolver_Solve : solver_state -> Q -> CpModel -> cp_status * Z * solver_state.
Hypothesis solver_sound : cp_solver_sound CpSolver_Solve.

(** The contributions of one constraint, in terms of its MIS family. *)
Lemma compute_rim_for_dc_family st mis_list time_limit_s enable_cache ws :
  map_result (iter_mis_tuples int_of_str) mis_list = Ok ws ->
  exists rim_contrib gamma_details st',
    compute_rim_for_dc int_of_str py_hash solver_state CpSolver_Solve
                       st mis_list time_limit_s enable_cache
    = Ok (rim_contrib, gamma_details, st') /\
    List.NoDup (map fst rim_contrib) /\
    (forall t, In t (map fst rim_contrib) <-> occurs_in t ws = true) /\
    (forall t c, In (t, c) rim_contrib ->
                 (0 < c)%Q /\ (c <= inject_Z (Z.of_nat (length ws)))%Q).
Proof.
  intros Hws.
  destruct (build_hypergraph_total _ _ _ Hws) as (edges_tk & universe & Hbuild & Huni).
  destruct (compute_rim_for_dc_run int_of_str py_hash solver_state CpSolver_Solve solver_sound
              st mis_list time_limit_s enable_cache _ _ Hbuild)
    as (s & rim_contrib & _ & Hcompute & Hkeys & Hvals).
  exists rim_contrib, (rl_gamma_details s), (rl_solver s).
  split; [exact Hcompute|]. split; [|split].
  - rewrite Hkeys. apply NoDup_elements_list.
  - intros t. rewrite Hkeys, In_elements, Huni, occurs_in_spec. reflexivity.
  - assert (Hlen : length ws = length mis_list).
    { clear -Hws. revert ws Hws. induction mis_list as [|mis rest IH]; intros ws Hws.
      - cbn in Hws. now injection Hws as <-.
      - cbn [map_result] in Hws.
        destruct (iter_mis_tuples int_of_str mis); cbn [bind] in Hws; [|discriminate].
        destruct (map_result (iter_mis_tuples int_of_str) rest) eqn:Hr;
          cbn [bind] in Hws; [|discriminate].
        injection Hws as <-. simpl. f_equal. now apply IH. }
    rewrite Hlen. exact Hvals.
Qed.

Lemma compute_rim_loop (mis_dir : gmap string file) (family : string -> list (list TupleKey))
  time_limit_s enable_cache (dcs : list string) :
  (forall dc, In dc dcs -> mis_family int_of_str mis_dir dc = Ok (family dc)) ->
  forall total gamma_log st,
  exists total' gamma_log' st',
    for_each (fun (acc : gmap (string * list Z) Q
                         * gmap string (list (TupleKey * GammaResult))
                         * solver_state) dc =>
                let '(total, gamma_log, st) := acc in
                match mis_dir !! dc_path dc with
                | None => Ok (total, gamma_log, st)
                | Some f =>
                    let* data := load_mis_file f in
                    let* mis_list := py_iter data in
                    let* r := compute_rim_for_dc int_of_str py_hash solver_state
                                CpSolver_Solve st mis_list time_limit_s enable_cache in
                    let '(rim_dc, gamma_details, st') := r in
                    Ok (fold_left (fun tot (tv : TupleKey * Q) =>
                                     score_add (fst tv) (snd tv) tot) rim_dc total,
                        <[dc := gamma_details]> gamma_log,
                        st')
                end)
             dcs (total, gamma_log, st) = Ok (total', gamma_log', st') /\
    (forall tk,
        (score_get total tk <= score_get total' tk)%Q /\
        (score_get total' tk
         <= score_get total tk + inject_Z (Z.of_nat (length (flat_map family dcs))))%Q /\
        ((score_get total tk < score_get total' tk)%Q
         <-> exists dc, In dc dcs /\ occurs_in tk (family dc) = true)) /\
    (forall dc, is_Some (gamma_log' !! dc)
                <-> is_Some (gamma_log !! dc)
                    \/ (In dc dcs /\ is_Some (mis_dir !! dc_path dc))).
Proof.
  induction dcs as [|dc dcs IH]; intros Hfam total gamma_log st.
  - exists total, gamma_log, st. split; [reflexivity|]. split.
    + intros tk. cbn [flat_map length]. change (inject_Z (Z.of_nat 0)) with 0%Q.
      split; [lra|]. split; [lra|]. split; [lra | intros (dc & [] & _)].
    + intros dc. split; [auto | intros [H|[[] _]]; exact H].
  - assert (Hfam' : forall dc', In dc' dcs ->
                      mis_family int_of_str mis_dir dc' = Ok (family dc'))
      by (intros; apply Hfam; simpl; auto).
    pose proof (Hfam dc (or_introl eq_refl)) as Hdc. unfold mis_family in Hdc.
    cbn [for_each]. cbn [flat_map]. rewrite length_app, Nat2Z.inj_add, inject_Z_plus.
    destruct (mis_dir !! dc_path dc) as [f|] eqn:Hfile.
    + destruct (load_mis_file f) as [data|err]; cbn [bind] in Hdc |- *; [|discriminate].
      destruct (py_iter data) as [mis_list|err]; cbn [bind] in Hdc |- *; [|discriminate].
      destruct (compute_rim_for_dc_family st mis_list time_limit_s enable_cache _ Hdc)
        as (rim_dc & gd & st1 & Hrun & Hnd & Hkeys & Hvals).
      rewrite Hrun. cbn [bind].
      destruct (IH Hfam' (fold_left (fun tot (tv : TupleKey * Q) =>
                                       score_add (fst tv) (snd tv) tot) rim_dc total)
                  (<[dc := gd]> gamma_log) st1)
        as (total' & gl' & st' & Hloop & Hscore & Hlog).
      exists total', gl', st'. split; [exact Hloop|]. split.
      * intros tk. destruct (Hscore tk) as (Hle & Hub & Hiff).
        rewrite fold_add_contrib in Hle, Hub, Hiff by exact Hnd.
        destruct (alist_get tk rim_dc) as [c|] eqn:Hget.
        -- destruct (Hvals tk c (alist_get_In _ _ _ Hget)) as [Hc0 Hcm].
           assert (Hocc : occurs_in tk (family dc) = true).
           { apply Hkeys. apply in_map_iff. exists (tk, c).
             split; [reflexivity | now apply alist_get_In]. }
           split; [lra|]. split; [lra|]. split.
           ++ intros _. exists dc. simpl. auto.
           ++ intros _. lra.
        -- assert (Hocc : occurs_in tk (family dc) = false).
           { apply not_true_iff_false. intros H. apply Hkeys in H.
             now apply alist_get_None in Hget. }
           assert (0 <= inject_Z (Z.of_nat (length (family dc))))%Q
             by (rewrite <- (Zle_Qle 0); lia).
           split; [lra|]. split; [lra|]. rewrite Hiff. split.
           ++ intros (dc' & Hin & Ho). exists dc'. simpl. auto.
           ++ intros (dc' & [<-|Hin] & Ho); [congruence | eauto].
      * intros dc'. rewrite Hlog, lookup_insert_is_Some. split.
        -- intros [[<-|[_ H]]|[Hin H]]; simpl; auto.
        -- intros [H|[[<-|Hin] H]]; auto.
           destruct (decide (dc = dc')) as [->|Hne]; auto.
    + cbn [bind] in Hdc. injection Hdc as Hdc.
      destruct (IH Hfam' total gamma_log st) as (total' & gl' & st' & Hloop & Hscore & Hlog).
      exists total', gl', st'. split; [exact Hloop|]. split.
      * intros tk. destruct (Hscore tk) as (Hle & Hub & Hiff).
        rewrite <- Hdc. cbn [length]. change (inject_Z (Z.of_nat 0)) with 0%Q.
        split; [lra|]. split; [lra|]. rewrite Hiff. split.
        -- intros (dc' & Hin & Ho). exists dc'. simpl. auto.
        -- intros (dc' & [<-|Hin] & Ho); [|eauto].
           rewrite <- Hdc in Ho. discriminate.
      * intros dc'. rewrite Hlog. split.
        -- intros [H|[Hin H]]; simpl; auto.
        -- intros [H|[[<-|Hin] H]]; auto.
           rewrite Hfile in H. destruct H as [? H]. discriminate.
Qed.

(** X7: [compute_rim] returns for well-formed MIS files; a tuple has a
    positive RIM score exactly when it occurs in a MIS of a listed
    constraint, the score is at most the number of MIS read, and the
    gamma log has an entry exactly for the listed constraints with a file. *)
Theorem compute_rim_scores_tuples_in_mis (st : solver_state) (mis_dir : gmap string file)
  (dcs : list string) (time_limit_s : Q) (enable_cache : bool)
  (family : string -> list (list TupleKey)) :
  (forall dc, In dc dcs -> mis_family int_of_str mis_dir dc = Ok (family dc)) ->
  exists scores gamma_log st',
    compute_rim int_of_str py_hash solver_state CpSolver_Solve
                st mis_dir dcs time_limit_s enable_cache
    = Ok (scores, gamma_log, st') /\
    (forall tk,
        (0 <= score_get scores tk)%Q /\
        (score_get scores tk <= inject_Z (Z.of_nat (length (flat_map family dcs))))%Q /\
        ((0 < score_get scores tk)%Q
         <-> exists dc, In dc dcs /\ occurs_in tk (family dc) = true)) /\
    (forall dc, is_Some (gamma_log !! dc)
                <-> In dc dcs /\ is_Some (mis_dir !! dc_path dc)).
Proof.
  intros Hfam.
  destruct (compute_rim_loop mis_dir family time_limit_s enable_cache dcs Hfam ∅ ∅ st)
    as (scores & gl & st' & Hrun & Hscore & Hlog).
  exists scores, gl, st'. split; [exact Hrun|]. split.
  - intros tk. destruct (Hscore tk) as (Hle & Hub & Hiff).
    unfold score_get at 1 in Hle. unfold score_get at 2 in Hub. unfold score_get at 1 in Hiff.
    rewrite lookup_empty in Hle, Hub, Hiff. cbn [default] in Hle, Hub, Hiff.
    split; [exact Hle|]. split; [lra | exact Hiff].
  - intros dc. rewrite Hlog, lookup_empty. split.
    + intros [[? H]|H]; [discriminate | exact H].
    + auto.
Qed.

End ComputeRimFacts.

Lemma compute_rim_scores_tuples_in_mis_witness :
  (forall dc, In dc dcs_ex -> mis_family (fun _ => None) dir_ex dc = Ok (family_of_ex dc)) /\
  exists scores gamma_log st',
    compute_rim (fun _ => None) encode_hash unit cp_search tt dir_ex dcs_ex 1%Q true
    = Ok (scores, gamma_log, st') /\
    (forall tk,
        (0 <= score_get scores tk)%Q /\
        (score_get scores tk <= inject_Z (Z.of_nat (length (flat_map family_of_ex dcs_ex))))%Q /\
        ((0 < score_get scores tk)%Q
         <-> exists dc, In dc dcs_ex /\ occurs_in tk (family_of_ex dc) = true)) /\
    (forall dc, is_Some (gamma_log !! dc)
                <-> In dc dcs_ex /\ is_Some (dir_ex !! dc_path dc)).
Proof.
  split; [exact mis_family_ex|].
  apply (compute_rim_scores_tuples_in_mis (fun _ => None) encode_hash unit cp_search
           cp_search_sound tt dir_ex dcs_ex 1%Q true family_of_ex).
  exact mis_family_ex.
Defined.

(** ** The keys of the score dictionaries *)

Lemma score_add_dom tk w score tk' :
  is_Some (score_add tk w score !! tk') <-> tk = tk' \/ is_Some (score !! tk').
Proof.
  unfold score_add. rewrite lookup_insert_is_Some.
  destruct (decide (tk = tk')); tauto.
Qed.

Lemma score_get_nonneg score tk : positive_entries score -> (0 <= score_get score tk)%Q.
Proof.
  intros Hpos. unfold score_get. destruct (score !! tk) as [v|] eqn:Hv; simpl.
  - apply Qlt_le_weak. exact (Hpos tk v Hv).
  - apply Qle_refl.
Qed.

Lemma score_add_positive tk w score :
  (0 < w)%Q -> positive_entries score -> positive_entries (score_add tk w score).
Proof.
  intros Hw Hpos tk' v Hv. unfold score_add in Hv. rewrite lookup_insert in Hv.
  destruct (decide (tk = tk')) as [_|_].
  - injection Hv as <-. pose proof (score_get_nonneg score tk Hpos). lra.
  - exact (Hpos tk' v Hv).
Qed.

Lemma positive_entries_empty : positive_entries ∅.
Proof. intros tk v H. rewrite lookup_empty in H. discriminate. Qed.

(** A loop whose iterations add keys to a score dictionary. *)
Lemma for_each_keys {A : Type}
  (body : gmap (string * list Z) Q -> A -> result (gmap (string * list Z) Q))
  (adds : A -> TupleKey -> Prop) (l : list A) :
  (forall x score, In x l ->
     exists score', body score x = Ok score' /\
       (forall tk, is_Some (score' !! tk) <-> is_Some (score !! tk) \/ adds x tk) /\
       (positive_entries score -> positive_entries score')) ->
  forall score0,
  exists score, for_each body l score0 = Ok score /\
    (forall tk, is_Some (score !! tk)
                <-> is_Some (score0 !! tk) \/ exists x, In x l /\ adds x tk) /\
    (positive_entries score0 -> positive_entries score).
Proof.
  induction l as [|x l IH]; intros Hbody score0.
  - exists score0. split; [reflexivity|]. split; [|auto].
    intros tk. split; [auto | intros [H|(x & [] & _)]; exact H].
  - destruct (Hbody x score0 (or_introl eq_refl)) as (score1 & Hb & Hdom1 & Hpos1).
    destruct (IH (fun y sc Hy => Hbody y sc (or_intror Hy)) score1)
      as (score & Hrun & Hdom & Hpos).
    exists score. cbn [for_each]. rewrite Hb. cbn [bind]. split; [exact Hrun|].
    split; [|auto]. intros tk. rewrite Hdom, Hdom1. split.
    + intros [[H|H]|(y & Hy & H)]; auto.
      * right. exists x. simpl. auto.
      * right. exists y. simpl. auto.
    + intros [H|(y & [<-|Hy] & H)]; auto. right. eauto.
Qed.

Lemma fold_score_add_keys (w : TupleKey -> Q) (tks : list TupleKey) score :
  (forall tk, In tk tks -> (0 < w tk)%Q) ->
  (forall tk, is_Some (fold_left (fun s tk => score_add tk (w tk) s) tks score !! tk)
              <-> is_Some (score !! tk) \/ In tk tks) /\
  (positive_entries score ->
   positive_entries (fold_left (fun s tk => score_add tk (w tk) s) tks score)).
Proof.
  revert score. induction tks as [|x tks IH]; intros score Hw; cbn [fold_left].
  - split; [|auto]. intros tk. simpl. tauto.
  - destruct (IH (score_add x (w x) score) (fun tk Htk => Hw tk (or_intror Htk)))
      as [Hdom Hpos].
    split.
    + intros tk. rewrite Hdom, score_add_dom. simpl. tauto.
    + intros H. apply Hpos. apply score_add_positive; [|exact H]. apply Hw. simpl. auto.
Qed.

Lemma map_result_each {A B : Type} (f : A -> result B) l ys :
  map_result f l = Ok ys ->
  (forall x, In x l -> exists y, f x = Ok y /\ In y ys) /\
  (forall y, In y ys -> exists x, In x l /\ f x = Ok y).
Proof.
  revert ys. induction l as [|x l IH]; intros ys H; cbn [map_result] in H.
  - injection H as <-. split; [intros ? [] | intros ? []].
  - destruct (f x) as [y|e] eqn:Hx; cbn [bind] in H; [|discriminate].
    destruct (map_result f l) as [ys'|e]; cbn [bind] in H; [|discriminate].
    injection H as <-. destruct (IH ys' eq_refl) as [H1 H2]. split.
    + intros x' [<-|Hin]; [exists y; simpl; auto|].
      destruct (H1 x' Hin) as (y' & Hy' & Hin'). exists y'. simpl. auto.
    + intros y' [<-|Hin]; [exists x; simpl; auto|].
      destruct (H2 y' Hin) as (x' & Hx' & Hf). exists x'. simpl. auto.
Qed.

(** ** PIM *)

Lemma pim_weight_cases dc : pim_weight dc = 0%Q \/ (0 < pim_weight dc)%Q.
Proof.
  unfold pim_weight, PIM_WEIGHTS. cbn [assoc_get].
  repeat (match goal with
          | |- context [String.eqb ?a dc] => destruct (String.eqb a dc)
          end; cbn [default]; [right; reflexivity|]).
  left. reflexivity.
Qed.

Lemma pim_weight_nonzero dc : Qis_zero (pim_weight dc) = false -> (0 < pim_weight dc)%Q.
Proof.
  intros Hz. destruct (pim_weight_cases dc) as [E|H]; [|exact H].
  rewrite E in Hz. discriminate.
Qed.

Lemma fold_score_add_value (w : Q) (tks : list TupleKey) score tk :
  (score_get (fold_left (fun s x => score_add x w s) tks score) tk
   == score_get score tk
      + inject_Z (Z.of_nat (length (List.filter (fun x => bool_decide (x = tk)) tks))) * w)%Q.
Proof.
  revert score. induction tks as [|x tks IH]; intros score; cbn [fold_left List.filter].
  - simpl. ring.
  - rewrite IH, score_get_add. destruct (decide (x = tk)) as [->|Hne].
    + rewrite bool_decide_eq_true_2 by reflexivity. cbn [length].
      rewrite Nat2Z.inj_succ. unfold Z.succ. rewrite inject_Z_plus. ring.
    + rewrite bool_decide_eq_false_2 by exact Hne. reflexivity.
Qed.

Section PimFacts.

Variable int_of_str : string -> option Z.

(** The files of one constraint, added with weight [w]. *)
Lemma pim_add_family (w : Q) mis_list ws score0 :
  (0 < w)%Q ->
  map_result (iter_mis_tuples int_of_str) mis_list = Ok ws ->
  exists score,
    for_each (fun sc mis =>
                let* tks := iter_mis_tuples int_of_str mis in
                Ok (fold_left (fun s tk => score_add tk w s) tks sc)) mis_list score0
    = Ok score /\
    (forall tk, (score_get score tk
                 == score_get score0 tk + inject_Z (Z.of_nat (occurrences tk ws)) * w)%Q) /\
    (forall tk, is_Some (score !! tk)
                <-> is_Some (score0 !! tk) \/ occurs_in tk ws = true) /\
    (positive_entries score0 -> positive_entries score).
Proof.
  intros Hw. revert ws score0.
  induction mis_list as [|mis rest IH]; intros ws score0 H; cbn [map_result] in H.
  - injection H as <-. exists score0. split; [reflexivity|]. split; [|split; [|auto]].
    + intros tk. unfold occurrences. simpl. ring.
    + intros tk. simpl. split; [auto | intros [H|H]; [exact H | discriminate]].
  - destruct (iter_mis_tuples int_of_str mis) as [tks|e] eqn:Hmis; cbn [bind] in H; [|discriminate].
    destruct (map_result (iter_mis_tuples int_of_str) rest) as [ws'|e] eqn:Hrest;
      cbn [bind] in H; [|discriminate].
    injection H as <-.
    destruct (fold_score_add_keys (fun _ => w) tks score0 (fun _ _ => Hw)) as [Hdom1 Hpos1].
    destruct (IH ws' (fold_left (fun s tk => score_add tk w s) tks score0) eq_refl)
      as (score & Hs & Hv & Hdom & Hpos).
    exists score. cbn [for_each]. rewrite Hmis. cbn [bind]. split; [exact Hs|].
    split; [|split; [|auto]].
    + intros tk. rewrite Hv, fold_score_add_value. unfold occurrences. cbn [concat].
      rewrite filter_app_length, Nat2Z.inj_add, inject_Z_plus. ring.
    + intros tk. rewrite Hdom, Hdom1. cbn [occurs_in existsb].
      rewrite orb_true_iff, bool_decide_eq_true, list_elem_of_In. tauto.
Qed.

(** X8: With well-formed MIS files, [compute_pim] returns; the score of a
    tuple is the sum over the listed constraints of [k * w(constraint)],
    [k] counting every occurrence of the tuple in the constraint's MIS;
    the dictionary has an entry exactly for the tuples that occur in a MIS
    of a listed constraint with a weight, and no entry is zero. *)
Theorem pim_weighted_occurrences (mis_dir : gmap string file) (dcs : list string)
  (family : string -> list (list TupleKey)) :
  (forall dc, In dc dcs -> Qis_zero (pim_weight dc) = false ->
              mis_family int_of_str mis_dir dc = Ok (family dc)) ->
  exists score,
    compute_pim int_of_str mis_dir dcs = Ok score /\
    (forall tk, (score_get score tk == pim_total family dcs tk)%Q) /\
    (forall tk, is_Some (score !! tk)
                <-> exists dc, In dc dcs /\ Qis_zero (pim_weight dc) = false /\
                               occurs_in tk (family dc) = true) /\
    positive_entries score.
Proof.
  intros Hfam. unfold compute_pim.
  assert (Hgen : forall dcs', incl dcs' dcs -> forall score0,
    exists score,
      for_each (fun score dc =>
                  let w := default 0%Q (assoc_get dc PIM_WEIGHTS) in
                  if Qis_zero w then Ok score else
                  match mis_dir !! dc_path dc with
                  | None => Ok score
                  | Some f =>
                      let* data := load_mis_file f in
                      let* mis_list := py_iter data in
                      for_each (fun sc mis =>
                                  let* tks := iter_mis_tuples int_of_str mis in
                                  Ok (fold_left (fun s tk => score_add tk w s) tks sc))
                               mis_list score
                  end) dcs' score0 = Ok score /\
      (forall tk, (score_get score tk == score_get score0 tk + pim_total family dcs' tk)%Q) /\
      (forall tk, is_Some (score !! tk)
                  <-> is_Some (score0 !! tk)
                      \/ exists dc, In dc dcs' /\ Qis_zero (pim_weight dc) = false /\
                                    occurs_in tk (family dc) = true) /\
      (positive_entries score0 -> positive_entries score)).
  { induction dcs' as [|dc dcs' IH]; intros Hincl score0.
    - exists score0. split; [reflexivity|]. split; [|split; [|auto]].
      + intros tk. unfold pim_total. simpl. ring.
      + intros tk. split; [auto | intros [H|(dc & [] & _)]; exact H].
    - specialize (IH (fun d Hd => Hincl d (or_intror Hd))).
      pose proof (Hfam dc (Hincl dc (or_introl eq_refl))) as Hdc. unfold mis_family in Hdc.
      cbn [for_each].
      assert (Hstep : exists score1,
        (let w := default 0%Q (assoc_get dc PIM_WEIGHTS) in
         if Qis_zero w then Ok score0 else
         match mis_dir !! dc_path dc with
         | None => Ok score0
         | Some f =>
             let* data := load_mis_file f in
             let* mis_list := py_iter data in
             for_each (fun sc mis =>
                         let* tks := iter_mis_tuples int_of_str mis in
                         Ok (fold_left (fun s tk => score_add tk w s) tks sc))
                      mis_list score0
         end) = Ok score1 /\
        (forall tk, (score_get score1 tk
                     == score_get score0 tk
                        + inject_Z (Z.of_nat (occurrences tk (family dc))) * pim_weight dc)%Q) /\
        (forall tk, is_Some (score1 !! tk)
                    <-> is_Some (score0 !! tk)
                        \/ (Qis_zero (pim_weight dc) = false /\
                            occurs_in tk (family dc) = true)) /\
        (positive_entries score0 -> positive_entries score1)).
      { cbv zeta. fold (pim_weight dc).
        destruct (Qis_zero (pim_weight dc)) eqn:Hz.
        - exists score0. split; [reflexivity|]. split; [|split; [|auto]].
          + intros tk. apply Qeq_bool_iff in Hz. rewrite Hz. ring.
          + intros tk. split; [auto | intros [H|[H _]]; [exact H | discriminate]].
        - specialize (Hdc eq_refl). pose proof (pim_weight_nonzero dc Hz) as Hw.
          destruct (mis_dir !! dc_path dc) as [f|].
          + destruct (load_mis_file f) as [data|e]; cbn [bind] in *; [|discriminate].
            destruct (py_iter data) as [mis_list|e]; cbn [bind] in *; [|discriminate].
            destruct (pim_add_family (pim_weight dc) _ _ score0 Hw Hdc)
              as (score1 & Hs & Hv & Hdom & Hpos).
            exists score1. split; [exact Hs|]. split; [exact Hv|]. split; [|exact Hpos].
            intros tk. rewrite Hdom. tauto.
          + injection Hdc as Hdc. exists score0. split; [reflexivity|].
            split; [|split; [|auto]].
            * intros tk. rewrite <- Hdc. unfold occurrences. simpl. ring.
            * intros tk. rewrite <- Hdc. simpl.
              split; [auto | intros [H|[_ H]]; [exact H | discriminate]]. }
      destruct Hstep as (score1 & Hs1 & Hv1 & Hdom1 & Hpos1). cbv zeta in Hs1.
      rewrite Hs1. cbn [bind].
      destruct (IH score1) as (score & Hs & Hv & Hdom & Hpos).
      exists score. split; [exact Hs|]. split; [|split; [|auto]].
      + intros tk. rewrite Hv, Hv1. unfold pim_total, Qsum. cbn [map fold_right]. ring.
      + intros tk. rewrite Hdom, Hdom1. split.
        * intros [[H|[Hz Ho]]|(dc' & Hin & Hz & Ho)]; auto.
          -- right. exists dc. simpl. auto.
          -- right. exists dc'. simpl. auto.
        * intros [H|(dc' & [<-|Hin] & Hz & Ho)]; auto. right. eauto. }
  destruct (Hgen dcs (incl_refl dcs) ∅) as (score & Hs & Hv & Hdom & Hpos).
  exists score. split; [exact Hs|]. split; [|split].
  - intros tk. rewrite Hv. unfold score_get. rewrite lookup_empty. simpl. ring.
  - intros tk. rewrite Hdom, lookup_empty. split.
    + intros [[? H]|H]; [discriminate | exact H].
    + auto.
  - apply Hpos, positive_entries_empty.
Qed.

End PimFacts.

Lemma pim_weighted_occurrences_witness :
  (forall dc, In dc dcs_ex -> Qis_zero (pim_weight dc) = false ->
              mis_family (fun _ => None) dir_ex dc = Ok (family_of_ex dc)) /\
  exists score,
    compute_pim (fun _ => None) dir_ex dcs_ex = Ok score /\
    (forall tk, (score_get score tk == pim_total family_of_ex dcs_ex tk)%Q) /\
    (forall tk, is_Some (score !! tk)
                <-> exists dc, In dc dcs_ex /\ Qis_zero (pim_weight dc) = false /\
                               occurs_in tk (family_of_ex dc) = true) /\
    positive_entries score.
Proof.
  split; [intros dc Hdc _; now apply mis_family_ex|].
  apply (pim_weighted_occurrences (fun _ => None) dir_ex dcs_ex family_of_ex).
  intros dc Hdc _. now apply mis_family_ex.
Defined.

(** ** CBM and CIM: the keys of the dictionaries *)

Lemma set_fold_score_keys (X : gset (string * list Z)) score :
  (forall tk, is_Some (set_fold (fun t sc => score_add t 1%Q sc) score X !! tk)
              <-> is_Some (score !! tk) \/ tk ∈ X) /\
  (positive_entries score ->
   positive_entries (set_fold (fun t sc => score_add t 1%Q sc) score X)).
Proof.
  refine (set_fold_ind_L
           (fun acc (Y : gset (string * list Z)) =>
              (forall tk, is_Some (acc !! tk) <-> is_Some (score !! tk) \/ tk ∈ Y) /\
              (positive_entries score -> positive_entries acc))
           (fun t sc => score_add t 1%Q sc) score _ _ X).
  - split; [|auto]. intros tk. split; [auto | intros [H|H]; [exact H|]].
    now apply not_elem_of_empty in H.
  - intros x Y acc Hx [Hdom Hpos]. split.
    + intros tk. rewrite score_add_dom, Hdom, elem_of_union, elem_of_singleton.
      split; [intros [->|[H|H]]; auto | intros [H|[->|H]]; auto].
    + intros H. apply score_add_positive; [reflexivity | auto].
Qed.

Lemma cim_weight_cases dc rel : cim_weight dc rel = 0%Q \/ (0 < cim_weight dc rel)%Q.
Proof.
  unfold cim_weight, CIM_WEIGHTS. cbn [assoc_get].
  repeat (match goal with
          | |- context [String.eqb ?a dc] => destruct (String.eqb a dc)
          end; cbn [default from_option id assoc_get];
          [repeat (match goal with
                   | |- context [String.eqb ?a rel] => destruct (String.eqb a rel)
                   end; cbn [default from_option id assoc_get]; [right; reflexivity|]);
           left; reflexivity|]).
  left. reflexivity.
Qed.

Lemma cim_add_mis_keys dc tks score :
  (forall tk, is_Some (cim_add_mis (default [] (assoc_get dc CIM_WEIGHTS)) score tks !! tk)
              <-> is_Some (score !! tk)
                  \/ (In tk tks /\ Qis_zero (cim_weight dc (fst tk)) = false)) /\
  (positive_entries score ->
   positive_entries (cim_add_mis (default [] (assoc_get dc CIM_WEIGHTS)) score tks)).
Proof.
  unfold cim_add_mis. revert score.
  induction tks as [|x tks IH]; intros score; cbn [fold_left].
  - split; [|auto]. intros tk. split; [auto | intros [H|[[] _]]; exact H].
  - fold (cim_weight dc (fst x)).
    destruct (Qis_zero (cim_weight dc (fst x))) eqn:Hz.
    + destruct (IH score) as [Hdom Hpos]. split; [|exact Hpos].
      intros tk. rewrite Hdom. split.
      * intros [H|[Hin Hw]]; auto. right. simpl. auto.
      * intros [H|[[<-|Hin] Hw]]; auto. congruence.
    + destruct (IH (score_add x (cim_weight dc (fst x)) score)) as [Hdom Hpos]. split.
      * intros tk. rewrite Hdom, score_add_dom. split.
        -- intros [[<-|H]|[Hin Hw]]; auto; right; simpl; auto.
        -- intros [H|[[<-|Hin] Hw]]; auto.
      * intros H. apply Hpos, score_add_positive; [|exact H].
        destruct (cim_weight_cases dc (fst x)) as [E|Hw]; [|exact Hw].
        rewrite E in Hz. discriminate.
Qed.

Section DictionaryKeys.

Variable int_of_str : string -> option Z.

Lemma cim_family_keys dc mis_list ws score0 :
  map_result (iter_mis_tuples int_of_str) mis_list = Ok ws ->
  exists score,
    for_each (fun sc mis =>
                let* tks := iter_mis_tuples int_of_str mis in
                Ok (cim_add_mis (default [] (assoc_get dc CIM_WEIGHTS)) sc tks))
             mis_list score0 = Ok score /\
    (forall tk, is_Some (score !! tk)
                <-> is_Some (score0 !! tk)
                    \/ (occurs_in tk ws = true /\ Qis_zero (cim_weight dc (fst tk)) = false)) /\
    (positive_entries score0 -> positive_entries score).
Proof.
  intros Hws. destruct (map_result_each _ _ _ Hws) as [Hxy Hyx].
  destruct (for_each_keys
              (fun sc mis =>
                 let* tks := iter_mis_tuples int_of_str mis in
                 Ok (cim_add_mis (default [] (assoc_get dc CIM_WEIGHTS)) sc tks))
              (fun mis tk => exists tks, iter_mis_tuples int_of_str mis = Ok tks /\
                                         In tk tks /\ Qis_zero (cim_weight dc (fst tk)) = false)
              mis_list) with (score0 := score0) as (score & Hrun & Hdom & Hpos).
  { intros mis sc Hin. destruct (Hxy mis Hin) as (tks & Htks & _).
    rewrite Htks. cbn [bind]. eexists. split; [reflexivity|].
    destruct (cim_add_mis_keys dc tks sc) as [Hd Hp]. split; [|exact Hp].
    intros tk. rewrite Hd. split.
    - intros [H|[H1 H2]]; auto. right. exists tks. auto.
    - intros [H|(tks' & E & H1 & H2)]; auto. right. split; [congruence | exact H2]. }
  exists score. split; [exact Hrun|]. split; [|exact Hpos].
  intros tk. rewrite Hdom, occurs_in_spec. split.
  - intros [H|(mis & Hin & tks & Htks & H1 & H2)]; auto.
    right. split; [|exact H2]. exists tks. split; [|exact H1].
    destruct (Hxy mis Hin) as (tks' & E & Hin'). congruence.
  - intros [H|[(w & Hw & H1) H2]]; auto.
    right. destruct (Hyx w Hw) as (mis & Hin & E). exists mis. split; [exact Hin|].
    exists w. auto.
Qed.

(** X9: With well-formed MIS files, the CBM dictionary has an entry exactly
    for the tuples that occur in a MIS of a listed constraint, the CIM
    dictionary exactly for those that occur in a MIS of a listed
    constraint which has a weight for the tuple's relation, and no entry
    of either is zero: the number of entries is the number of tuples with
    a non-zero score. *)
Theorem score_dictionaries_hold_nonzero_entries (mis_dir : gmap string file)
  (dcs : list string) (family : string -> list (list TupleKey)) :
  (forall dc, In dc dcs -> mis_family int_of_str mis_dir dc = Ok (family dc)) ->
  (exists score,
      compute_cbm int_of_str mis_dir dcs = Ok score /\
      (forall tk, is_Some (score !! tk)
                  <-> exists dc, In dc dcs /\ occurs_in tk (family dc) = true) /\
      positive_entries score) /\
  (exists score,
      compute_cim int_of_str mis_dir dcs = Ok score /\
      (forall tk, is_Some (score !! tk)
                  <-> exists dc, In dc dcs /\ occurs_in tk (family dc) = true /\
                                 Qis_zero (cim_weight dc (fst tk)) = false) /\
      positive_entries score).
Proof.
  intros Hfam. split.
  - unfold compute_cbm.
    destruct (for_each_keys
                (fun score dc =>
                   match mis_dir !! dc_path dc with
                   | None => Ok score
                   | Some f =>
                       let* data := load_mis_file f in
                       let* mis_list := py_iter data in
                       let* tuples_for_dc := cbm_tuples_for_dc int_of_str mis_list in
                       Ok (set_fold (fun tk sc => score_add tk 1%Q sc) score tuples_for_dc)
                   end)
                (fun dc tk => occurs_in tk (family dc) = true) dcs)
      with (score0 := (∅ : gmap (string * list Z) Q)) as (score & Hrun & Hdom & Hpos).
    { intros dc sc Hin. pose proof (Hfam dc Hin) as Hdc. unfold mis_family in Hdc.
      destruct (mis_dir !! dc_path dc) as [f|].
      - destruct (load_mis_file f) as [data|e]; cbn [bind] in *; [|discriminate].
        destruct (py_iter data) as [mis_list|e]; cbn [bind] in *; [|discriminate].
        destruct (cbm_tuples_from int_of_str mis_list (family dc) ∅ Hdc) as (X & HX & Hmem).
        unfold cbm_tuples_for_dc. rewrite HX. cbn [bind].
        eexists. split; [reflexivity|].
        destruct (set_fold_score_keys X sc) as [Hd Hp]. split; [|exact Hp].
        intros tk. rewrite Hd, Hmem, occurs_in_spec. split.
        + intros [H|[H|H]]; auto. now apply not_elem_of_empty in H.
        + intros [H|H]; auto.
      - injection Hdc as Hdc. exists sc. split; [reflexivity|]. split; [|auto].
        intros tk. rewrite <- Hdc. simpl.
        split; [auto | intros [H|H]; [exact H | discriminate]]. }
    exists score. split; [exact Hrun|]. split; [|apply Hpos, positive_entries_empty].
    intros tk. rewrite Hdom, lookup_empty. split.
    + intros [[? H]|H]; [discriminate | exact H].
    + auto.
  - unfold compute_cim.
    destruct (for_each_keys
                (fun score dc =>
                   let rel_w := default [] (assoc_get dc CIM_WEIGHTS) in
                   if negb (nonempty rel_w) then Ok score else
                   match mis_dir !! dc_path dc with
                   | None => Ok score
                   | Some f =>
                       let* data := load_mis_file f in
                       let* mis_list := py_iter data in
                       for_each (fun sc mis =>
                                   let* tks := iter_mis_tuples int_of_str mis in
                                   Ok (cim_add_mis rel_w sc tks))
                                mis_list score
                   end)
                (fun dc tk => occurs_in tk (family dc) = true /\
                              Qis_zero (cim_weight dc (fst tk)) = false) dcs)
      with (score0 := (∅ : gmap (string * list Z) Q)) as (score & Hrun & Hdom & Hpos).
    { intros dc sc Hin. pose proof (Hfam dc Hin) as Hdc. unfold mis_family in Hdc.
      cbv zeta.
      destruct (nonempty (default [] (assoc_get dc CIM_WEIGHTS))) eqn:Hk; cbn [negb].
      - destruct (mis_dir !! dc_path dc) as [f|].
        + destruct (load_mis_file f) as [data|e]; cbn [bind] in *; [|discriminate].
          destruct (py_iter data) as [mis_list|e]; cbn [bind] in *; [|discriminate].
          apply (cim_family_keys dc _ _ sc Hdc).
        + injection Hdc as Hdc. exists sc. split; [reflexivity|]. split; [|auto].
          intros tk. rewrite <- Hdc. simpl.
          split; [auto | intros [H|[H _]]; [exact H | discriminate]].
      - exists sc. split; [reflexivity|]. split; [|auto].
        intros tk. split; [auto | intros [H|[_ H]]; [exact H|]].
        unfold cim_weight in H.
        destruct (default [] (assoc_get dc CIM_WEIGHTS)); [discriminate H | discriminate Hk]. }
    exists score. split; [exact Hrun|]. split; [|apply Hpos, positive_entries_empty].
    intros tk. rewrite Hdom, lookup_empty. split.
    + intros [[? H]|(dc & Hin & Ho & Hw)]; [discriminate | eauto].
    + intros (dc & Hin & Ho & Hw). right. eauto.
Qed.

End DictionaryKeys.

Lemma score_dictionaries_hold_nonzero_entries_witness :
  (forall dc, In dc dcs_ex -> mis_family (fun _ => None) dir_ex dc = Ok (family_of_ex dc)) /\
  ((exists score,
       compute_cbm (fun _ => None) dir_ex dcs_ex = Ok score /\
       (forall tk, is_Some (score !! tk)
                   <-> exists dc, In dc dcs_ex /\ occurs_in tk (family_of_ex dc) = true) /\
       positive_entries score) /\
   (exists score,
       compute_cim (fun _ => None) dir_ex dcs_ex = Ok score /\
       (forall tk, is_Some (score !! tk)
                   <-> exists dc, In dc dcs_ex /\ occurs_in tk (family_of_ex dc) = true /\
                                  Qis_zero (cim_weight dc (fst tk)) = false) /\
       positive_entries score)).
Proof.
  split; [exact mis_family_ex|].
  apply (score_dictionaries_hold_nonzero_entries (fun _ => None) dir_ex dcs_ex family_of_ex).
  exact mis_family_ex.
Defined.

(** ** From the extracted MIS files to the tuple keys *)

Lemma map_result_map {A B : Type} (f : A -> result B) (g : A -> B) l :
  (forall x, In x l -> f x = Ok (g x)) -> map_result f l = Ok (map g l).
Proof.
  induction l as [|x l IH]; intros H; [reflexivity|].
  cbn [map_result map]. rewrite (H x) by (simpl; auto). cbn [bind].
  rewrite IH by (intros; apply H; simpl; auto). reflexivity.
Qed.

Lemma list_of_length_2 {A : Type} (l : list A) :
  length l = 2 -> exists a b, l = [a; b].
Proof. destruct l as [|a [|b [|c l]]]; try discriminate. eauto. Qed.

Lemma list_of_length_3 {A : Type} (l : list A) :
  length l = 3 -> exists a b c, l = [a; b; c].
Proof. destruct l as [|a [|b [|c [|d l]]]]; try discriminate. eauto. Qed.

Lemma list_of_length_5 {A : Type} (l : list A) :
  length l = 5 -> exists a b c d e, l = [a; b; c; d; e].
Proof.
  destruct l as [|a [|b [|c [|d [|e [|f l]]]]]]; try discriminate. eauto 6.
Qed.

Section ExtractRead.

Variable int_of_str : string -> option Z.

(** What [extract_mis] writes for one constraint is read back by
    [load_mis_file] and [iter_mis_tuples] as the tuples of the rows. *)
Lemma extract_mis_read (dc : string) builder rows :
  assoc_get dc DC_QUERIES = Some builder ->
  (forall r, In r rows -> length r = dc_arity dc) ->
  exists mis_list,
    extract_mis rows dc builder = Ok (Some (JList mis_list)) /\
    map_result (iter_mis_tuples int_of_str) mis_list = Ok (map (row_tuples dc) rows).
Proof.
  intros Hb Harity. unfold extract_mis.
  assert (Hrow : forall r, In r rows ->
            exists tuples,
              builder r = Ok tuples /\
              iter_mis_tuples int_of_str
                (JDict [("dc"%string, JStr dc); ("tuples"%string, tuples)])
              = Ok (row_tuples dc r)).
  { intros r Hr. specialize (Harity r Hr). unfold DC_QUERIES in Hb. cbn [assoc_get] in Hb.
    unfold dc_arity in Harity. unfold row_tuples.
    rewrite !(String.eqb_sym dc) in *.
    destruct (String.eqb "DC1" dc).
    { injection Hb as <-. destruct (list_of_length_2 r Harity) as (a & b & ->).
      eexists. split; reflexivity. }
    destruct (String.eqb "DC2" dc).
    { injection Hb as <-. destruct (list_of_length_3 r Harity) as (a & b & c & ->).
      eexists. split; reflexivity. }
    destruct (String.eqb "DC3" dc).
    { injection Hb as <-. destruct (list_of_length_3 r Harity) as (a & b & c & ->).
      eexists. split; reflexivity. }
    destruct (String.eqb "DC4" dc); [|discriminate].
    injection Hb as <-. destruct (list_of_length_5 r Harity) as (a & b & c & d & e & ->).
    eexists. split; reflexivity. }
  clear Hb Harity. induction rows as [|r rows IH].
  - exists []. split; reflexivity.
  - destruct (Hrow r (or_introl eq_refl)) as (tuples & Hbuild & Hread).
    destruct (IH (fun r' Hr' => Hrow r' (or_intror Hr'))) as (mis_list & Hext & Hrest).
    cbn [map_result]. rewrite Hbuild. cbn [bind].
    destruct (map_result _ rows) as [l|e]; cbn [bind] in *; [|discriminate].
    injection Hext as <-.
    eexists. split; [reflexivity|].
    cbn [map_result map]. rewrite Hread. cbn [bind]. rewrite Hrest. reflexivity.
Qed.

(** X10: [extract_mis.py] and the measures agree on the file format: when the
    rows have the arity of their query, the directory [main] writes is
    read back by the measures, for each of the four constraints, as one
    MIS per row, holding the tuples the row identifies. *)
Theorem extracted_mis_read_back (db : string -> list (list Z)) :
  (forall dc r, In dc DEFAULT_DCS -> In r (db dc) -> length r = dc_arity dc) ->
  exists out_dir,
    extract_mis_main db = Ok out_dir /\
    forall dc, In dc DEFAULT_DCS ->
      mis_family int_of_str out_dir dc = Ok (map (row_tuples dc) (db dc)) /\
      Forall (fun w => w <> []) (map (row_tuples dc) (db dc)).
Proof.
  intros Harity. unfold extract_mis_main, DC_QUERIES. cbn [for_each fst snd].
  destruct (extract_mis_read "DC1" _ (db "DC1") eq_refl
              (fun r Hr => Harity "DC1"%string r ltac:(simpl; auto) Hr))
    as (l1 & -> & H1).
  destruct (extract_mis_read "DC2" _ (db "DC2") eq_refl
              (fun r Hr => Harity "DC2"%string r ltac:(simpl; auto) Hr))
    as (l2 & -> & H2).
  destruct (extract_mis_read "DC3" _ (db "DC3") eq_refl
              (fun r Hr => Harity "DC3"%string r ltac:(simpl; auto) Hr))
    as (l3 & -> & H3).
  destruct (extract_mis_read "DC4" _ (db "DC4") eq_refl
              (fun r Hr => Harity "DC4"%string r ltac:(simpl; auto) Hr))
    as (l4 & -> & H4).
  cbn [bind]. eexists. split; [reflexivity|].
  intros dc Hdc. split.
  - unfold mis_family.
    destruct Hdc as [<-|[<-|[<-|[<-|[]]]]];
      change (dc_path "DC1") with "DC1.json"%string;
      change (dc_path "DC2") with "DC2.json"%string;
      change (dc_path "DC3") with "DC3.json"%string;
      change (dc_path "DC4") with "DC4.json"%string;
      rewrite !lookup_insert;
      repeat (match goal with
              | |- context [decide (?a = ?b)] =>
                  destruct (decide (a = b)) as [?|?]; [try discriminate | try congruence]
              end);
      cbn [load_mis_file py_iter bind]; assumption.
  - apply Forall_forall. intros w Hw. apply in_map_iff in Hw. destruct Hw as (r & <- & _).
    unfold row_tuples.
    destruct Hdc as [<-|[<-|[<-|[<-|[]]]]]; cbn; discriminate.
Qed.

End ExtractRead.

Lemma extracted_mis_read_back_witness :
  (forall dc r, In dc DEFAULT_DCS -> In r (db_ex dc) -> length r = dc_arity dc) /\
  exists out_dir,
    extract_mis_main db_ex = Ok out_dir /\
    forall dc, In dc DEFAULT_DCS ->
      mis_family (fun _ => None) out_dir dc = Ok (map (row_tuples dc) (db_ex dc)) /\
      Forall (fun w => w <> []) (map (row_tuples dc) (db_ex dc)).
Proof.
  assert (H : forall dc r, In dc DEFAULT_DCS -> In r (db_ex dc) -> length r = dc_arity dc).
  { intros dc r [<-|[<-|[<-|[<-|[]]]]]; cbn; intros Hr;
      repeat (destruct Hr as [<-|Hr]; [reflexivity|]); destruct Hr. }
  split; [exact H|].
  apply (extracted_mis_read_back (fun _ => None) db_ex H).
Defined.

(** ** The keys [iter_mis_tuples] yields *)

Lemma map_result_length {A B : Type} (f : A -> result B) l ys :
  map_result f l = Ok ys -> length ys = length l.
Proof.
  revert ys. induction l as [|x l IH]; intros ys H; cbn [map_result] in H.
  - now injection H as <-.
  - destruct (f x); cbn [bind] in H; [|discriminate].
    destruct (map_result f l); cbn [bind] in H; [|discriminate].
    injection H as <-. simpl. f_equal. now apply IH.
Qed.

Section TupleKeys.

Variable int_of_str : string -> option Z.

Lemma normalize_pk_nonempty pk k : normalize_pk int_of_str pk = Ok k -> k <> [].
Proof.
  destruct pk as [| b | z | s | items | fields]; cbn [normalize_pk]; try discriminate.
  - intros [= <-]. discriminate.
  - intros [= <-]. discriminate.
  - destruct (py_int int_of_str (JStr s)); cbn [bind]; [|discriminate].
    intros [= <-]. discriminate.
  - destruct items as [|x items]; [discriminate|]. intros H Hk. subst k.
    apply map_result_length in H. discriminate.
Qed.

Lemma iter_rel_tuples_keys rel pks tks :
  iter_rel_tuples int_of_str rel pks = Ok tks ->
  Forall (fun tk : TupleKey => fst tk = rel /\ snd tk <> []) tks.
Proof.
  assert (Hone : forall pk, (let* k := normalize_pk int_of_str pk in Ok [(rel, k)]) = Ok tks ->
                            Forall (fun tk : TupleKey => fst tk = rel /\ snd tk <> []) tks).
  { intros pk H. destruct (normalize_pk int_of_str pk) as [k|e] eqn:Hk; cbn [bind] in H;
      [|discriminate].
    injection H as <-. constructor; [|constructor].
    split; [reflexivity | exact (normalize_pk_nonempty _ _ Hk)]. }
  destruct pks as [| b | z | s | items | fields]; cbn [iter_rel_tuples]; try apply Hone.
  - intros [= <-]. constructor.
  - intros H. apply Forall_forall. intros tk Htk.
    destruct (map_result_each _ _ _ H) as [_ Hyx].
    destruct (Hyx tk Htk) as (item & _ & Hitem).
    destruct (normalize_pk int_of_str item) as [k|e] eqn:Hk; cbn [bind] in Hitem;
      [|discriminate].
    injection Hitem as <-. split; [reflexivity | exact (normalize_pk_nonempty _ _ Hk)].
Qed.

(** X11: Every key [iter_mis_tuples] yields names a relation of the MIS's
    [tuples] object and carries a primary key of at least one component. *)
Theorem iter_mis_tuples_keys_wellformed (mis : json) (tks : list TupleKey) :
  iter_mis_tuples int_of_str mis = Ok tks ->
  exists fields rels,
    mis = JDict fields /\
    (tks <> [] -> dict_get "tuples" fields = Some (JDict rels)) /\
    Forall (fun tk : TupleKey => In (fst tk) (map fst rels) /\ snd tk <> []) tks.
Proof.
  destruct mis as [| b | z | s | items | fields]; cbn [iter_mis_tuples]; try discriminate.
  intros H. exists fields.
  destruct (dict_get "tuples" fields) as [tuples_obj|] eqn:Hget;
    cbn [default from_option id] in H.
  - destruct tuples_obj as [| b | z | s | items | rels];
      try (injection H as <-; exists []; split; [reflexivity|];
           split; [congruence | constructor]).
    exists rels. split; [reflexivity|]. split; [reflexivity|].
    destruct (map_result _ rels) as [chunks|e] eqn:Hchunks; cbn [bind] in H; [|discriminate].
    injection H as <-. apply Forall_forall. intros tk Htk.
    apply in_concat in Htk. destruct Htk as (chunk & Hchunk & Htk).
    destruct (map_result_each _ _ _ Hchunks) as [_ Hyx].
    destruct (Hyx chunk Hchunk) as ([rel pks] & Hin & Hrel). cbn [fst snd] in Hrel.
    pose proof (iter_rel_tuples_keys _ _ _ Hrel) as Hall.
    rewrite Forall_forall in Hall. destruct (Hall tk Htk) as [Hfst Hsnd].
    split; [|exact Hsnd]. rewrite Hfst. apply in_map_iff. exists (rel, pks). auto.
  - cbn [map_result bind concat] in H. injection H as <-.
    exists []. split; [reflexivity|]. split; [congruence | constructor].
Qed.

End TupleKeys.

Lemma iter_mis_tuples_keys_wellformed_witness :
  iter_mis_tuples (fun _ => None) (mis_of_part [1; 2]%Z) = Ok [part_key 1; part_key 2] /\
  exists fields rels,
    mis_of_part [1; 2]%Z = JDict fields /\
    ([part_key 1; part_key 2] <> [] -> dict_get "tuples" fields = Some (JDict rels)) /\
    Forall (fun tk : TupleKey => In (fst tk) (map fst rels) /\ snd tk <> [])
           [part_key 1; part_key 2].
Proof.
  split; [reflexivity|].
  apply (iter_mis_tuples_keys_wellformed (fun _ => None) (mis_of_part [1; 2]%Z)).
  reflexivity.
Defined.

(** ** The key columns written by [run_measures.py] *)

Lemma digits_no_comma d : string_has "," (DecimalString.NilEmpty.string_of_uint d) = false.
Proof. induction d; simpl; auto. Qed.

Lemma uint_string_no_comma d : string_has "," (DecimalString.NilZero.string_of_uint d) = false.
Proof. destruct d; try reflexivity; apply (digits_no_comma (_ d)). Qed.

Lemma py_str_int_no_comma z : string_has "," (py_str_int z) = false.
Proof.
  unfold py_str_int, DecimalString.NilZero.string_of_int.
  destruct (Z.to_int z) as [d|d]; [apply uint_string_no_comma|].
  cbn [string_has]. rewrite uint_string_no_comma. reflexivity.
Qed.

Lemma to_int_nonnil z : Z.to_int z <> Decimal.Pos Decimal.Nil /\ Z.to_int z <> Decimal.Neg Decimal.Nil.
Proof.
  destruct z as [|p|p]; cbn [Z.to_int]; split; try discriminate;
    intros [= H]; exact (DecimalPos.Unsigned.to_uint_nonnil p H).
Qed.

(** [str] is injective on integers. *)
Lemma py_str_int_inj a b : py_str_int a = py_str_int b -> a = b.
Proof.
  unfold py_str_int. intros H.
  apply (f_equal DecimalString.NilZero.int_of_string) in H.
  destruct (to_int_nonnil a) as [Ha1 Ha2]. destruct (to_int_nonnil b) as [Hb1 Hb2].
  rewrite !DecimalString.NilZero.isi in H by assumption.
  injection H as H. now apply DecimalZ.to_int_inj.
Qed.

Lemma py_str_int_nonempty z : py_str_int z <> EmptyString.
Proof.
  unfold py_str_int, DecimalString.NilZero.string_of_int.
  destruct (Z.to_int z) as [d|d]; [|discriminate].
  destruct d; discriminate.
Qed.

Lemma string_has_append c x y :
  string_has c (x ++ y)%string = string_has c x || string_has c y.
Proof. induction x as [|a x IH]; simpl; [reflexivity|]. now rewrite IH, orb_assoc. Qed.

(** Two strings without the separator that are followed by it. *)
Lemma append_sep_inj c x y r1 r2 :
  string_has c x = false -> string_has c y = false ->
  (x ++ String c r1)%string = (y ++ String c r2)%string -> x = y /\ r1 = r2.
Proof.
  revert y. induction x as [|a x IH]; intros [|b y] Hx Hy H; simpl in *.
  - injection H as H. auto.
  - injection H as Hc _. subst b. rewrite Ascii.eqb_refl in Hy. discriminate.
  - injection H as Hc _. subst a. rewrite Ascii.eqb_refl in Hx. discriminate.
  - injection H as Hab H. apply orb_false_iff in Hx, Hy.
    destruct (IH y (proj2 Hx) (proj2 Hy) H) as [-> ->]. subst b. auto.
Qed.

Lemma str_join_cons2 sep x y rest :
  str_join sep (x :: y :: rest) = (x ++ sep ++ str_join sep (y :: rest))%string.
Proof. reflexivity. Qed.

(** [",".join] is injective on lists of non-empty strings without commas. *)
Lemma str_join_inj (l1 l2 : list string) :
  (forall s, In s l1 -> string_has "," s = false /\ s <> EmptyString) ->
  (forall s, In s l2 -> string_has "," s = false /\ s <> EmptyString) ->
  str_join "," l1 = str_join "," l2 -> l1 = l2.
Proof.
  revert l2. induction l1 as [|x l1 IH]; intros l2 H1 H2 H.
  - destruct l2 as [|y l2]; [reflexivity|]. exfalso.
    destruct (H2 y (or_introl eq_refl)) as [_ Hy].
    destruct l2 as [|y' l2]; cbn in H; [congruence|].
    destruct y; [congruence | discriminate].
  - destruct l2 as [|y l2].
    + exfalso. destruct (H1 x (or_introl eq_refl)) as [_ Hx].
      destruct l1 as [|x' l1]; cbn in H; [congruence|].
      destruct x; [congruence | discriminate].
    + destruct (H1 x (or_introl eq_refl)) as [Hx _].
      destruct (H2 y (or_introl eq_refl)) as [Hy _].
      destruct l1 as [|x' l1]; destruct l2 as [|y' l2].
      * cbn in H. now subst.
      * exfalso. rewrite str_join_cons2 in H. cbn [str_join] in H. subst x.
        rewrite string_has_append in Hx. apply orb_false_iff in Hx.
        destruct Hx as [_ Hx]. discriminate.
      * exfalso. rewrite str_join_cons2 in H. cbn [str_join] in H. subst y.
        rewrite string_has_append in Hy. apply orb_false_iff in Hy.
        destruct Hy as [_ Hy]. discriminate.
      * rewrite !str_join_cons2 in H.
        change ("," ++ ?r)%string with (String "," r) in H.
        destruct (append_sep_inj _ _ _ _ _ Hx Hy H) as [-> Hrest].
        f_equal. apply IH; [| |exact Hrest]; intros s Hs; [apply H1 | apply H2]; simpl; auto.
Qed.

Lemma tuplekey_to_cols_inj (a b : TupleKey) :
  tuplekey_to_cols a = tuplekey_to_cols b -> a = b.
Proof.
  destruct a as [rel pk], b as [rel' pk']. unfold tuplekey_to_cols. cbn [fst snd].
  intros [= -> H]. f_equal.
  apply str_join_inj in H.
  - revert pk' H. induction pk as [|z pk IH]; intros [|z' pk'] H; try discriminate; auto.
    cbn [map] in H. injection H as Hz H. apply py_str_int_inj in Hz. subst z'.
    f_equal. now apply IH.
  - intros s Hs. apply in_map_iff in Hs. destruct Hs as (z & <- & _).
    split; [apply py_str_int_no_comma | apply py_str_int_nonempty].
  - intros s Hs. apply in_map_iff in Hs. destruct Hs as (z & <- & _).
    split; [apply py_str_int_no_comma | apply py_str_int_nonempty].
Qed.

(** X12: The [relation] and [pk] columns identify the tuple: two tuples never
    share them, so [scores_to_df] writes exactly one row per entry of the
    score dictionary, no two rows with the same key columns, each row
    carrying the measure name and the entry's score. *)
Theorem scores_to_df_one_row_per_tuple (measure_name : string)
  (scores : gmap (string * list Z) Q) :
  (forall a b : TupleKey, tuplekey_to_cols a = tuplekey_to_cols b -> a = b) /\
  length (scores_to_df measure_name scores) = size scores /\
  List.NoDup (map row_key (scores_to_df measure_name scores)) /\
  (forall r, In r (scores_to_df measure_name scores) ->
             m_measure r = measure_name /\
             exists tk, tuplekey_to_cols tk = row_key r /\ scores !! tk = Some (m_value r)) /\
  (forall tk v, scores !! tk = Some v ->
                exists r, In r (scores_to_df measure_name scores) /\
                          row_key r = tuplekey_to_cols tk /\ m_value r = v).
Proof.
  split; [exact tuplekey_to_cols_inj|]. unfold scores_to_df. split; [|split; [|split]].
  - rewrite length_map. apply length_map_to_list.
  - rewrite map_map. unfold row_key. cbn [m_relation m_pk].
    rewrite (map_ext _ (fun kv : TupleKey * Q => tuplekey_to_cols (fst kv)))
      by (intros kv; reflexivity).
    rewrite <- (map_map fst tuplekey_to_cols).
    apply Finite.Injective_map_NoDup; [exact tuplekey_to_cols_inj|].
    apply NoDup_ListNoDup, NoDup_fst_map_to_list.
  - intros r Hr. apply in_map_iff in Hr. destruct Hr as ([tk v] & <- & Hin).
    cbn [m_measure m_value fst snd]. split; [reflexivity|].
    exists tk. split; [reflexivity|].
    apply elem_of_map_to_list. now apply list_elem_of_In.
  - intros tk v Hv. apply elem_of_map_to_list, list_elem_of_In in Hv.
    eexists. split; [apply in_map_iff; exists (tk, v); split; [reflexivity | exact Hv]|].
    split; reflexivity.
Qed.

Example tuplekey_to_cols_lineitem :
  tuplekey_to_cols ("lineitem"%string, [692228; -3]%Z) = ("lineitem", "692228,-3")%string.
Proof. reflexivity. Qed.

(** ** Provenance: the cells of kinds an answer has no value for *)

(** The groups of [groupby_sum] are the (answer, kind) pairs with a value. *)
Lemma agg_keys_have_measure support_df tm a m :
  In (a, m) (map agg_key
               (flat_map (fun s => map (fun r => (s, r))
                                       (List.filter (joins s) (map upper_measure tm)))
                         support_df))
  <-> has_measure support_df tm a m.
Proof.
  rewrite in_map_iff. unfold has_measure. split.
  - intros ([s r'] & Hkey & Hin). apply in_flat_map in Hin. destruct Hin as (s0 & Hs & Hin).
    apply in_map_iff in Hin. destruct Hin as (r0 & [= <- <-] & Hr0).
    apply filter_In in Hr0. destruct Hr0 as [Hr0 Hj].
    apply in_map_iff in Hr0. destruct Hr0 as (r & <- & Hr).
    exists s0, r. split; [exact Hs|]. split; [exact Hr|].
    assert (Hb : bool_decide (agg_key (s0, upper_measure r) = (a, m)) = true)
      by now apply bool_decide_eq_true.
    rewrite agg_key_eq in Hb. apply andb_true_iff in Hb. destruct Hb as [Ha Hu].
    split; [exact Ha|]. unfold tm_matches. change (joins s0 (upper_measure r)) with (joins s0 r) in Hj.
    unfold joins in Hj. now rewrite Hj, Hu.
  - intros (s & r & Hs & Hr & Ha & Hmatch).
    unfold tm_matches in Hmatch. apply andb_true_iff in Hmatch. destruct Hmatch as [Hj Hu].
    exists (s, upper_measure r). split.
    + apply (proj1 (bool_decide_eq_true _)). now rewrite agg_key_eq, Ha, Hu.
    + apply in_flat_map. exists s. split; [exact Hs|].
      apply in_map. apply filter_In. split; [now apply in_map | exact Hj].
Qed.

(** X14: For a measure kind an answer has no value of, the provenance
    aggregator reports NaN when the answer has values of other kinds and
    another answer of the query has the kind, 0.0 when no answer of the
    query has the kind, and nothing at all (no such column, or no row)
    when the answer has no measured tuple. *)
Theorem prov_cells_without_measure (support_df : list support_row)
  (tm : list measure_row) (a : Z * string) (m : string) :
  In m MEASURES ->
  ~ has_measure support_df tm a m ->
  let cell := reported_score (icqa_prov_for_query support_df tm) a
                             ("icqa_prov_" ++ lower m)%string in
  (has_any_measure support_df tm a -> kind_present support_df tm m -> cell = Some NaN) /\
  (has_any_measure support_df tm a -> ~ kind_present support_df tm m ->
   cell = Some (Fin 0)) /\
  (~ has_any_measure support_df tm a -> cell = None).
Proof.
  intros Hm Hno. cbv zeta. unfold icqa_prov_for_query.
  change (map (fun r0 => {| m_relation := m_relation r0; m_pk := m_pk r0;
                            m_measure := upper (m_measure r0);
                            m_value := m_value r0 |}) tm)
    with (map upper_measure tm).
  rewrite measured_rows_merge.
  pose proof (agg_keys_have_measure support_df tm) as Hkeys.
  set (measured := flat_map (fun s0 => map (fun r0 => (s0, r0))
                                           (List.filter (joins s0) (map upper_measure tm)))
                            support_df) in *.
  destruct (nonempty measured) eqn:Hne; cbn [negb].
  - unfold groupby_sum.
    set (keys := drop_duplicates (map agg_key measured)).
    set (F := fun key => Qsum (map (fun sm : support_row * measure_row => m_value (snd sm))
                                   (List.filter (fun sm => bool_decide (agg_key sm = key))
                                                measured))).
    set (agg := map (fun key => (key, F key)) keys).
    assert (Hk : forall a' m', In (a', m') keys <-> has_measure support_df tm a' m').
    { intros a' m'. unfold keys. rewrite drop_duplicates_In. apply Hkeys. }
    assert (Hindex : In a (drop_duplicates
                             (map (fun row : Z * string * string * Q => fst (fst row)) agg))
                     <-> has_any_measure support_df tm a).
    { rewrite drop_duplicates_In, in_map_iff. unfold agg. split.
      - intros ([[a' m'] q] & Ha' & Hin). cbn [fst snd] in Ha'. subst a'.
        apply in_map_iff in Hin. destruct Hin as (key & Heq & Hin).
        injection Heq as Heq _. subst key. exists m'. now apply Hk.
      - intros (m' & H). exists ((a, m'), F (a, m')). split; [reflexivity|].
        apply in_map_iff. exists (a, m'). split; [reflexivity | now apply Hk]. }
    assert (Hcol : In m (drop_duplicates
                           (map (fun row : Z * string * string * Q => snd (fst row)) agg))
                   <-> kind_present support_df tm m).
    { rewrite drop_duplicates_In, in_map_iff. unfold agg. split.
      - intros ([[a' m'] q] & Hm' & Hin). cbn [fst snd] in Hm'. subst m'.
        apply in_map_iff in Hin. destruct Hin as (key & Heq & Hin).
        injection Heq as Heq _. subst key. exists a'. now apply Hk.
      - intros (a' & H). exists ((a', m), F (a', m)). split; [reflexivity|].
        apply in_map_iff. exists (a', m). split; [reflexivity | now apply Hk]. }
    assert (Hcell : pivot_cell agg a m = NaN).
    { unfold pivot_cell.
      replace (List.filter _ agg) with (@nil (Z * string * string * Q)); [reflexivity|].
      symmetry. apply filter_nil_iff. intros [key q] Hin. unfold agg in Hin.
      apply in_map_iff in Hin. destruct Hin as (key' & Heq & Hin).
      injection Heq as Heq _. subst key'. cbn [fst].
      apply bool_decide_eq_false_2. intros Hkey. subst key. apply Hno. now apply Hk. }
    unfold reported_score.
    split; [|split].
    + intros Hany Hkind.
      rewrite (find_by_key (fun r0 => (r_answer_id r0, r_answervalue r0)));
        [|intros [id val]; reflexivity | now apply Hindex].
      unfold row_score. cbn [r_scores].
      rewrite (prov_score_column _ m Hm).
      rewrite bool_decide_eq_true_2 by (apply list_elem_of_In; now apply Hcol).
      exact (f_equal Some Hcell).
    + intros Hany Hkind.
      rewrite (find_by_key (fun r0 => (r_answer_id r0, r_answervalue r0)));
        [|intros [id val]; reflexivity | now apply Hindex].
      unfold row_score. cbn [r_scores].
      rewrite (prov_score_column _ m Hm).
      rewrite bool_decide_eq_false_2; [reflexivity|].
      intros H. apply list_elem_of_In in H. now apply Hkind, Hcol.
    + intros Hany.
      destruct (find _ _) as [r|] eqn:Hfind; [|reflexivity]. exfalso.
      apply find_some in Hfind. destruct Hfind as [Hin Hkey].
      apply bool_decide_eq_true in Hkey. apply in_map_iff in Hin.
      destruct Hin as (a0 & <- & Hin). cbn [r_answer_id r_answervalue] in Hkey.
      apply Hany, Hindex. destruct a0. cbn [fst snd] in Hkey. now rewrite <- Hkey.
  - assert (Hempty : measured = []) by (destruct measured; [reflexivity | discriminate]).
    assert (Hnone : ~ has_any_measure support_df tm a).
    { intros (m' & H). apply Hkeys in H. rewrite Hempty in H. exact H. }
    split; [tauto|]. split; [tauto|]. intros _. unfold reported_score.
    destruct (find _ _) as [r|] eqn:Hfind; [|reflexivity].
    apply find_some in Hfind. destruct Hfind as [Hin _]. apply in_map_iff in Hin.
    destruct Hin as (a0 & <- & _). reflexivity.
Qed.

Lemma prov_cells_without_measure_witness :
  (In "CBM"%string MEASURES /\
   ~ has_measure support_two_answers measures_two_kinds answer_y "CBM") /\
  (let cell := reported_score (icqa_prov_for_query support_two_answers measures_two_kinds)
                              answer_y ("icqa_prov_" ++ lower "CBM")%string in
   (has_any_measure support_two_answers measures_two_kinds answer_y ->
    kind_present support_two_answers measures_two_kinds "CBM" -> cell = Some NaN) /\
   (has_any_measure support_two_answers measures_two_kinds answer_y ->
    ~ kind_present support_two_answers measures_two_kinds "CBM" -> cell = Some (Fin 0)) /\
   (~ has_any_measure support_two_answers measures_two_kinds answer_y -> cell = None)).
Proof.
  assert (Hno : ~ has_measure support_two_answers measures_two_kinds answer_y "CBM").
  { intros (s & r & Hs & Hr & Ha & Hmatch).
    destruct Hs as [<-|[<-|[]]]; [discriminate Ha|].
    destruct Hr as [<-|[<-|[]]]; discriminate Hmatch. }
  split; [split; [exact CBM_in_MEASURES | exact Hno]|].
  apply (prov_cells_without_measure support_two_answers measures_two_kinds answer_y "CBM"
           CBM_in_MEASURES Hno).
Defined.

(** The answer y has a CIM value only, the answer x a CBM value only:
    each gets NaN in the other's column, and 0.0 where neither has a value. *)
Example provenance_nan_cells :
  map r_scores (icqa_prov_for_query support_two_answers measures_two_kinds)
  = [ [("icqa_prov_cbm", Fin 2); ("icqa_prov_cim", NaN);
       ("icqa_prov_pim", Fin 0); ("icqa_prov_rim", Fin 0)];
      [("icqa_prov_cbm", NaN); ("icqa_prov_cim", Fin 3);
       ("icqa_prov_pim", Fin 0); ("icqa_prov_rim", Fin 0)] ]%string.
Proof. vm_compute. reflexivity. Qed.

(** ** Responsibility and Shapley aggregators: the score columns *)

Lemma merge_tuple_meta_values tm_db sup_ans r :
  In r (merge_tuple_meta tm_db sup_ans) -> exists tm, In tm tm_db /\ snd r = m_value tm.
Proof.
  unfold merge_tuple_meta. intros H. apply in_flat_map in H. destruct H as (tm & Htm & H).
  apply in_map_iff in H. destruct H as (meta & <- & _). exists tm. auto.
Qed.

(** The weighted accumulation keeps the four keys and finite values. *)
Lemma icqa_weighted_finite (weight : string -> pyfloat) (tm_ans : list (string * string * Q)) :
  (forall tid, exists w, weight tid = Fin w /\ (0 <= w)%Q) ->
  exists cbm cim pim rim : Q,
    icqa_weighted weight tm_ans
    = [("CBM"%string, Fin cbm); ("CIM"%string, Fin cim);
       ("PIM"%string, Fin pim); ("RIM"%string, Fin rim)] /\
    ((forall r, In r tm_ans -> (0 <= snd r)%Q) ->
     (0 <= cbm)%Q /\ (0 <= cim)%Q /\ (0 <= pim)%Q /\ (0 <= rim)%Q).
Proof.
  intros Hw. unfold icqa_weighted, icqa_zero, MEASURES. cbn [map].
  assert (Hgen : forall (a b c d : Q),
            exists cbm cim pim rim : Q,
              fold_left (fun icqa (r : string * string * Q) =>
                           let tid := fst (fst r) in
                           let m := upper (snd (fst r)) in
                           if bool_decide (m ∈ map fst icqa) then
                             icqa_add m (pf_mul (weight tid) (Fin (snd r))) icqa
                           else icqa)
                        tm_ans
                        [("CBM"%string, Fin a); ("CIM"%string, Fin b);
                         ("PIM"%string, Fin c); ("RIM"%string, Fin d)]
              = [("CBM"%string, Fin cbm); ("CIM"%string, Fin cim);
                 ("PIM"%string, Fin pim); ("RIM"%string, Fin rim)] /\
              ((forall r, In r tm_ans -> (0 <= snd r)%Q) ->
               (0 <= a)%Q /\ (0 <= b)%Q /\ (0 <= c)%Q /\ (0 <= d)%Q ->
               (0 <= cbm)%Q /\ (0 <= cim)%Q /\ (0 <= pim)%Q /\ (0 <= rim)%Q)).
  { induction tm_ans as [|r rest IH]; intros a b c d.
    - exists a, b, c, d. split; [reflexivity | auto].
    - cbn [fold_left]. cbv zeta.
      destruct (Hw (fst (fst r))) as (w & -> & Hw0). cbn [pf_mul].
      assert (Hprod : (0 <= snd r)%Q -> (0 <= w * snd r)%Q) by (intros; nra).
      destruct (bool_decide _).
      + cbn [icqa_add].
        destruct (String.eqb "CBM" (upper (snd (fst r)))).
        { destruct (IH (a + w * snd r)%Q b c d) as (a' & b' & c' & d' & E & Hpos).
          exists a', b', c', d'. split; [exact E|]. intros Hv (Ha & Hb & Hc & Hd).
          apply Hpos; [intros; apply Hv; simpl; auto|].
          pose proof (Hprod (Hv r (or_introl eq_refl))). repeat split; try assumption; lra. }
        destruct (String.eqb "CIM" (upper (snd (fst r)))).
        { destruct (IH a (b + w * snd r)%Q c d) as (a' & b' & c' & d' & E & Hpos).
          exists a', b', c', d'. split; [exact E|]. intros Hv (Ha & Hb & Hc & Hd).
          apply Hpos; [intros; apply Hv; simpl; auto|].
          pose proof (Hprod (Hv r (or_introl eq_refl))). repeat split; try assumption; lra. }
        destruct (String.eqb "PIM" (upper (snd (fst r)))).
        { destruct (IH a b (c + w * snd r)%Q d) as (a' & b' & c' & d' & E & Hpos).
          exists a', b', c', d'. split; [exact E|]. intros Hv (Ha & Hb & Hc & Hd).
          apply Hpos; [intros; apply Hv; simpl; auto|].
          pose proof (Hprod (Hv r (or_introl eq_refl))). repeat split; try assumption; lra. }
        destruct (String.eqb "RIM" (upper (snd (fst r)))).
        { destruct (IH a b c (d + w * snd r)%Q) as (a' & b' & c' & d' & E & Hpos).
          exists a', b', c', d'. split; [exact E|]. intros Hv (Ha & Hb & Hc & Hd).
          apply Hpos; [intros; apply Hv; simpl; auto|].
          pose proof (Hprod (Hv r (or_introl eq_refl))). repeat split; try assumption; lra. }
        destruct (IH a b c d) as (a' & b' & c' & d' & E & Hpos).
        exists a', b', c', d'. split; [exact E|]. intros Hv Habcd.
        apply Hpos; [intros; apply Hv; simpl; auto | exact Habcd].
      + destruct (IH a b c d) as (a' & b' & c' & d' & E & Hpos).
        exists a', b', c', d'. split; [exact E|]. intros Hv Habcd.
        apply Hpos; [intros; apply Hv; simpl; auto | exact Habcd]. }
  destruct (Hgen 0%Q 0%Q 0%Q 0%Q) as (a & b & c & d & E & Hpos).
  exists a, b, c, d. split; [exact E|]. intros Hv. apply Hpos; [exact Hv|].
  repeat split; apply Qle_refl.
Qed.

Lemma four_scores_resp (P : Q -> Prop) id val a b c d :
  P a -> P b -> P c -> P d ->
  four_scores "resp" P
    {| r_answer_id := id; r_answervalue := val;
       r_scores := score_columns "resp"
                     [("CBM"%string, Fin a); ("CIM"%string, Fin b);
                      ("PIM"%string, Fin c); ("RIM"%string, Fin d)] |}.
Proof. intros. exists a, b, c, d. split; [reflexivity | auto]. Qed.

Lemma four_scores_shap (P : Q -> Prop) id val a b c d :
  P a -> P b -> P c -> P d ->
  four_scores "shap" P
    {| r_answer_id := id; r_answervalue := val;
       r_scores := score_columns "shap"
                     [("CBM"%string, Fin a); ("CIM"%string, Fin b);
                      ("PIM"%string, Fin c); ("RIM"%string, Fin d)] |}.
Proof. intros. exists a, b, c, d. split; [reflexivity | auto]. Qed.

(** X15: [compute_resp_for_query] writes one row per distinct
    [(answer_id, answervalue)] pair of the support rows, in order of first
    occurrence; every row holds the four score columns with finite values,
    non-negative when no tuple measure is negative. *)
Theorem resp_rows_hold_four_finite_scores
  (sat_atmost : list (list nat) -> list nat -> nat -> bool)
  (support_q : list support_row) (tm_db : list measure_row) :
  map row_answer (compute_resp_for_query sat_atmost support_q tm_db)
  = drop_duplicates (map (fun r => (s_answer_id r, s_answervalue r)) support_q) /\
  List.NoDup (map row_answer (compute_resp_for_query sat_atmost support_q tm_db)) /\
  Forall (four_scores "resp" (fun q => nonneg_measures tm_db -> (0 <= q)%Q))
         (compute_resp_for_query sat_atmost support_q tm_db).
Proof.
  unfold compute_resp_for_query.
  assert (Hans : map row_answer
                   (map (resp_row_for_answer sat_atmost support_q tm_db)
                        (drop_duplicates
                           (map (fun r => (s_answer_id r, s_answervalue r)) support_q)))
                 = drop_duplicates (map (fun r => (s_answer_id r, s_answervalue r)) support_q)).
  { rewrite map_map. rewrite <- (map_id (drop_duplicates _)) at 2.
    apply map_ext. intros [id val]. reflexivity. }
  split; [exact Hans|]. split; [rewrite Hans; apply drop_duplicates_NoDup|].
  apply Forall_forall. intros row Hrow. apply in_map_iff in Hrow.
  destruct Hrow as (answer & <- & _). unfold resp_row_for_answer.
  set (sup_ans := List.filter (fun r => (s_answer_id r =? fst answer)%Z) support_q).
  assert (Hzero : four_scores "resp" (fun q => nonneg_measures tm_db -> (0 <= q)%Q)
                    {| r_answer_id := fst answer; r_answervalue := snd answer;
                       r_scores := score_columns "resp" icqa_zero |}).
  { apply four_scores_resp; intros _; apply Qle_refl. }
  destruct (Nat.eqb _ 0 || negb (nonempty _)); [exact Hzero|].
  destruct (negb (nonempty (merge_tuple_meta tm_db sup_ans))); [exact Hzero|].
  match goal with
  | |- context [icqa_weighted ?w ?t] =>
      destruct (icqa_weighted_finite w t) as (a & b & c & d & -> & Hpos)
  end.
  { intros tid. destruct (tid2idx _ tid) as [idx|].
    - eexists. split; [reflexivity|]. unfold resp_rho.
      apply Qlt_le_weak. apply (Q_unit_fraction _).
    - exists 0%Q. split; [reflexivity | apply Qle_refl]. }
  assert (Hall : nonneg_measures tm_db ->
                 (0 <= a)%Q /\ (0 <= b)%Q /\ (0 <= c)%Q /\ (0 <= d)%Q).
  { intros Hnn. apply Hpos. intros r Hr.
    destruct (merge_tuple_meta_values _ _ _ Hr) as (tm & Htm & ->). now apply Hnn. }
  apply four_scores_resp; intros Hnn; apply (Hall Hnn).
Qed.

Lemma shap_walk_nonneg masks perm c vC counts :
  Forall (fun q : Q => (0 <= q)%Q) counts ->
  Forall (fun q : Q => (0 <= q)%Q) (shap_walk masks perm c vC counts).
Proof.
  intros Hc. revert c vC. induction perm as [|idx rest IH]; intros c vC; [exact Hc|].
  cbn [shap_walk]. destruct vC; [exact Hc|]. cbn [negb andb].
  destruct (hits_all masks (N.lor c (bit idx))); [now apply counts_incr_nonneg | apply IH].
Qed.

Section ShapRow.

Variable rng_state : Type.
Variable default_rng : Z -> rng_state.
Variable rng_permutation : rng_state -> nat -> list nat * rng_state.

Lemma approx_samples_nonneg k masks n g counts :
  Forall (fun q : Q => (0 <= q)%Q) counts ->
  Forall (fun q : Q => (0 <= q)%Q)
         (fst (approx_samples rng_state rng_permutation k masks n g counts)).
Proof.
  revert g counts. induction k as [|k IH]; intros g counts Hc; [exact Hc|].
  cbn [approx_samples]. destruct (rng_permutation g n) as [perm g'].
  apply IH. now apply shap_walk_nonneg.
Qed.

(** Every Shapley weight the aggregator uses is a finite, non-negative
    number, in the exact and in the sampled mode. *)
Lemma shapley_weights_finite support_sets n (rng : rng_state) idx :
  exists w,
    nth idx (fst (if n <=? N_EXACT then (map Fin (exact_shapley support_sets n), rng)
                  else approx_shapley rng_state default_rng rng_permutation
                                      support_sets n N_SAMPLES (Some rng)))
        (Fin 0) = Fin w /\ (0 <= w)%Q.
Proof.
  destruct (n <=? N_EXACT); cbn [fst].
  - destruct (Nat.lt_ge_cases idx (length (exact_shapley support_sets n))) as [Hlt|Hge].
    + exists (nth idx (exact_shapley support_sets n) 0%Q). split.
      * apply (map_nth Fin).
      * pose proof (exact_shapley_nonneg support_sets n) as H.
        rewrite Forall_forall in H. apply H. now apply nth_In.
    + exists 0%Q. split; [|apply Qle_refl]. apply nth_overflow. now rewrite length_map.
  - destruct (Nat.eq_dec n 0) as [->|Hn].
    { exists 0%Q. split; [|apply Qle_refl]. cbn. now destruct idx. }
    destruct (approx_shapley_counts rng_state default_rng rng_permutation
                support_sets n N_SAMPLES (Some rng) Hn) as (g & ->).
    set (counts := fst (approx_samples _ _ _ _ _ g _)).
    assert (Hnn : Forall (fun q : Q => (0 <= q)%Q) counts).
    { apply approx_samples_nonneg. apply Forall_forall. intros q Hq.
      apply repeat_spec in Hq. subst q. apply Qle_refl. }
    destruct (Nat.lt_ge_cases idx (length counts)) as [Hlt|Hge].
    + exists (nth idx counts 0 / inject_Z N_SAMPLES)%Q. split.
      * rewrite (nth_indep _ (Fin 0) (np_div 0 N_SAMPLES)) by (now rewrite length_map).
        rewrite (map_nth (fun c => np_div c N_SAMPLES)). reflexivity.
      * rewrite Forall_forall in Hnn. pose proof (Hnn _ (nth_In counts 0%Q Hlt)) as Hc.
        apply Qle_shift_div_l; [reflexivity|]. now rewrite Qmult_0_l.
    + exists 0%Q. split; [|apply Qle_refl]. apply nth_overflow. now rewrite length_map.
Qed.

(** X16: [compute_icqa_shap_for_answer] fails with IndexError on an answer
    without support rows; otherwise it returns the row of the answer, with
    the answer value of the first support row and the four score columns
    holding finite values, non-negative when no tuple measure is negative. *)
Theorem shap_row_holds_four_finite_scores (answer_id : Z)
  (support_ans : list support_row) (tm_db : list measure_row) (rng : rng_state) :
  match support_ans with
  | [] =>
      compute_icqa_shap_for_answer rng_state default_rng rng_permutation
        answer_id support_ans tm_db rng = Err IndexError
  | first :: _ =>
      exists row rng',
        compute_icqa_shap_for_answer rng_state default_rng rng_permutation
          answer_id support_ans tm_db rng = Ok (row, rng') /\
        row_answer row = (answer_id, s_answervalue first) /\
        four_scores "shap" (fun q => nonneg_measures tm_db -> (0 <= q)%Q) row
  end.
Proof.
  destruct support_ans as [|first rest]; [reflexivity|].
  unfold compute_icqa_shap_for_answer. cbn [bind].
  set (support_ans := first :: rest).
  set (uniq_tuples := drop_duplicates (map tuple_id support_ans)).
  set (n := length uniq_tuples).
  set (support_sets := support_sets_of uniq_tuples support_ans).
  assert (Hzero : forall g : rng_state,
            exists row rng',
              Ok ({| r_answer_id := answer_id; r_answervalue := s_answervalue first;
                     r_scores := score_columns "shap" icqa_zero |}, g) = Ok (row, rng') /\
              row_answer row = (answer_id, s_answervalue first) /\
              four_scores "shap" (fun q => nonneg_measures tm_db -> (0 <= q)%Q) row).
  { intros g. eexists. eexists. split; [reflexivity|]. split; [reflexivity|].
    apply four_scores_shap; intros _; apply Qle_refl. }
  destruct (Nat.eqb n 0 || negb (nonempty support_sets)); [apply Hzero|].
  pose proof (shapley_weights_finite support_sets n rng) as Hw.
  destruct (if n <=? N_EXACT then (map Fin (exact_shapley support_sets n), rng)
            else approx_shapley rng_state default_rng rng_permutation
                                support_sets n N_SAMPLES (Some rng))
    as [phi_list rng'] eqn:Hphi.
  cbn [fst] in Hw.
  destruct (negb (nonempty (merge_tuple_meta tm_db support_ans))); [apply Hzero|].
  match goal with
  | |- context [icqa_weighted ?w ?t] =>
      destruct (icqa_weighted_finite w t) as (a & b & c & d & -> & Hpos)
  end.
  { intros tid. destruct (tid2idx uniq_tuples tid) as [idx|]; [apply Hw|].
    exists 0%Q. split; [reflexivity | apply Qle_refl]. }
  assert (Hall : nonneg_measures tm_db ->
                 (0 <= a)%Q /\ (0 <= b)%Q /\ (0 <= c)%Q /\ (0 <= d)%Q).
  { intros Hnn. apply Hpos. intros r Hr.
    destruct (merge_tuple_meta_values _ _ _ Hr) as (tm & Htm & ->). now apply Hnn. }
  eexists. eexists. split; [reflexivity|]. split; [reflexivity|].
  apply four_scores_shap; intros Hnn; apply (Hall Hnn).
Qed.

End ShapRow.

(** ** The greedy bound on edges with a common node *)

Lemma freq_get_incr k u freq :
  freq_get k (freq_incr u freq) = (freq_get k freq + (if Nat.eqb k u then 1 else 0))%Z.
Proof.
  unfold freq_get. induction freq as [|[k' c] rest IH]; cbn [freq_incr find fst snd].
  - rewrite (Nat.eqb_sym u k). destruct (Nat.eqb k u); reflexivity.
  - destruct (Nat.eqb_spec k' u) as [->|Hne]; cbn [find fst snd].
    + rewrite (Nat.eqb_sym u k). destruct (Nat.eqb k u); [reflexivity | lia].
    + destruct (Nat.eqb_spec k' k) as [->|Hne'].
      * destruct (Nat.eqb_spec k u); [congruence | lia].
      * exact IH.
Qed.

Lemma freq_incr_NoDup u freq :
  List.NoDup (map fst freq) -> List.NoDup (map fst (freq_incr u freq)).
Proof.
  induction freq as [|[k c] rest IH]; cbn [freq_incr map fst]; intros Hnd.
  - repeat constructor. intros [].
  - apply List.NoDup_cons_iff in Hnd. destruct Hnd as [Hk Hnd].
    destruct (Nat.eqb_spec k u) as [->|Hne]; cbn [map fst].
    + constructor; assumption.
    + constructor; [|auto]. rewrite freq_incr_keys. intros [->|H]; [congruence | contradiction].
Qed.

Lemma count_freq_spec uncovered :
  List.NoDup (map fst (count_freq uncovered)) /\
  forall k, freq_get k (count_freq uncovered) = occurrences_in_edges k uncovered.
Proof.
  unfold count_freq.
  assert (Hgen : forall unc freq,
            List.NoDup (map fst freq) ->
            List.NoDup (map fst (fold_left (fun fq e => fold_left (fun fr u => freq_incr u fr) e fq)
                                           unc freq)) /\
            forall k, freq_get k (fold_left (fun fq e => fold_left (fun fr u => freq_incr u fr) e fq)
                                            unc freq)
                      = (freq_get k freq + occurrences_in_edges k unc)%Z).
  { induction unc as [|e rest IH]; intros freq Hnd; cbn [fold_left].
    - split; [exact Hnd|]. intros k. unfold occurrences_in_edges. simpl. lia.
    - assert (Hedge : forall e freq,
                List.NoDup (map fst freq) ->
                List.NoDup (map fst (fold_left (fun fr u => freq_incr u fr) e freq)) /\
                forall k, freq_get k (fold_left (fun fr u => freq_incr u fr) e freq)
                          = (freq_get k freq + Z.of_nat (count_occ Nat.eq_dec e k))%Z).
      { clear. induction e as [|u e IHe]; intros freq Hnd; cbn [fold_left].
        - split; [exact Hnd|]. intros k. simpl. lia.
        - destruct (IHe (freq_incr u freq) (freq_incr_NoDup u freq Hnd)) as [H1 H2].
          split; [exact H1|]. intros k. rewrite H2, freq_get_incr. cbn [count_occ].
          destruct (Nat.eq_dec u k) as [->|Hne].
          + rewrite Nat.eqb_refl. lia.
          + destruct (Nat.eqb_spec k u); [congruence | lia]. }
      destruct (Hedge e freq Hnd) as [H1 H2].
      destruct (IH _ H1) as [H3 H4]. split; [exact H3|].
      intros k. rewrite H4, H2. unfold occurrences_in_edges, Zsum. cbn [map fold_right]. lia. }
  destruct (Hgen uncovered [] ltac:(constructor)) as [H1 H2].
  split; [exact H1|]. intros k. rewrite H2. reflexivity.
Qed.

Lemma freq_get_In freq k c :
  List.NoDup (map fst freq) -> In (k, c) freq -> freq_get k freq = c.
Proof.
  unfold freq_get. induction freq as [|[k' c'] rest IH]; intros Hnd Hin; [destruct Hin|].
  cbn [map fst] in Hnd. apply List.NoDup_cons_iff in Hnd. destruct Hnd as [Hk Hnd].
  cbn [find fst snd]. destruct Hin as [[= -> ->]|Hin].
  - now rewrite Nat.eqb_refl.
  - destruct (Nat.eqb_spec k' k) as [->|Hne]; [|auto].
    exfalso. apply Hk. apply in_map_iff. exists (k, c). auto.
Qed.

(** The pick has the greatest count. *)
Lemma pick_best_max freq u :
  fst (pick_best freq) = Some u ->
  In (u, snd (pick_best freq)) freq /\
  forall k c, In (k, c) freq -> (c <= snd (pick_best freq))%Z.
Proof.
  unfold pick_best.
  assert (Hgen : forall freq (best : option nat * Z),
            let r := fold_left (fun (b : option nat * Z) (uf : nat * Z) =>
                                  if (snd b <? snd uf)%Z then (Some (fst uf), snd uf) else b)
                               freq best in
            (snd best <= snd r)%Z /\
            (forall k c, In (k, c) freq -> (c <= snd r)%Z) /\
            (r = best \/ exists u, fst r = Some u /\ In (u, snd r) freq)).
  { clear. induction freq as [|[k c] rest IH]; intros best; cbv zeta; cbn [fold_left].
    - split; [lia|]. split; [intros ? ? []|]. now left.
    - cbn [fst snd].
      destruct (Z.ltb_spec (snd best) c) as [Hlt|Hge].
      + destruct (IH (Some k, c)) as (H1 & H2 & H3). cbn [snd] in H1.
        split; [lia|]. split.
        * intros k' c' [[= <- <-]|Hin]; [exact H1 | eauto].
        * right. destruct H3 as [->|(u & Hu & Hin)].
          -- exists k. cbn. auto.
          -- exists u. cbn. auto.
      + destruct (IH best) as (H1 & H2 & H3).
        split; [exact H1|]. split.
        * intros k' c' [[= <- <-]|Hin]; [lia | eauto].
        * destruct H3 as [->|(u & Hu & Hin)]; [now left|].
          right. exists u. cbn. auto. }
  intros Hu. destruct (Hgen freq (None, (-1)%Z)) as (_ & Hmax & Hsrc). cbv zeta in *.
  split; [|exact Hmax].
  destruct Hsrc as [E|(u' & Hu' & Hin)]; [rewrite E in Hu; discriminate|].
  rewrite Hu in Hu'. injection Hu' as <-. exact Hin.
Qed.

Lemma count_occ_NoDup_le (e : list nat) u : List.NoDup e -> count_occ Nat.eq_dec e u <= 1.
Proof. intros Hnd. now apply (proj1 (NoDup_count_occ Nat.eq_dec e)). Qed.

Lemma occurrences_le_edges u edges :
  (forall e, In e edges -> List.NoDup e) ->
  (occurrences_in_edges u edges <= Z.of_nat (length edges))%Z /\
  (occurrences_in_edges u edges = Z.of_nat (length edges) -> forall e, In e edges -> In u e).
Proof.
  unfold occurrences_in_edges, Zsum. induction edges as [|e rest IH]; intros Hnd.
  - split; [simpl; lia | intros _ ? []].
  - destruct (IH (fun e' He' => Hnd e' (or_intror He'))) as [Hle Heq].
    pose proof (count_occ_NoDup_le e u (Hnd e (or_introl eq_refl))) as H1.
    cbn [map fold_right length]. split; [lia|].
    intros E e' [<-|He'].
    + apply (count_occ_In Nat.eq_dec). lia.
    + apply Heq; [lia | exact He'].
Qed.

Lemma occurrences_common u edges :
  (forall e, In e edges -> List.NoDup e) -> (forall e, In e edges -> In u e) ->
  occurrences_in_edges u edges = Z.of_nat (length edges).
Proof.
  unfold occurrences_in_edges, Zsum. induction edges as [|e rest IH]; intros Hnd Hin; [reflexivity|].
  cbn [map fold_right length].
  rewrite IH; [| intros; apply Hnd; simpl; auto | intros; apply Hin; simpl; auto].
  pose proof (count_occ_NoDup_le e u (Hnd e (or_introl eq_refl))) as H1.
  pose proof (proj1 (count_occ_In Nat.eq_dec e u) (Hin e (or_introl eq_refl))) as H2. lia.
Qed.

(** With a node common to all uncovered edges, the first pick covers
    everything. *)
Lemma greedy_loop_common_node uncovered size :
  uncovered <> [] ->
  (forall e, In e uncovered -> List.NoDup e) ->
  (exists u0, forall e, In e uncovered -> In u0 e) ->
  greedy_loop uncovered size = S size.
Proof.
  funelim (greedy_loop uncovered size); intros Hne Hnd (u0 & Hu0).
  - congruence.
  - clear Heqcall H.
    destruct (count_freq_spec (e :: rest)) as [Hkeys Hcount].
    destruct (pick_best_max _ _ Hpick) as [Hin Hmax].
    pose proof (freq_get_In _ _ _ Hkeys Hin) as Hbest. rewrite Hcount in Hbest.
    assert (Hu0in : In (u0, occurrences_in_edges u0 (e :: rest)) (count_freq (e :: rest))).
    { assert (Hk : In u0 (map fst (count_freq (e :: rest)))).
      { apply count_freq_keys. exists e. split; [simpl; auto | apply Hu0; simpl; auto]. }
      apply in_map_iff in Hk. destruct Hk as ([k c] & Hk & Hkc). cbn in Hk. subst k.
      now rewrite <- (Hcount u0), (freq_get_In _ _ _ Hkeys Hkc). }
    pose proof (Hmax _ _ Hu0in) as Hge.
    rewrite (occurrences_common u0 (e :: rest) Hnd Hu0) in Hge.
    destruct (occurrences_le_edges best_u (e :: rest) Hnd) as [Hle Hall].
    assert (Hrem : remove_hit best_u (e :: rest) = []).
    { apply filter_nil_iff. intros e0 He0. apply negb_false_iff, mem_In.
      apply Hall; [lia | exact He0]. }
    rewrite Hrem. apply greedy_loop_equation_1.
  - exfalso. clear Heqcall.
    apply (pick_best_nonempty_edge e rest); [|assumption].
    intros ->. exact (Hu0 [] (or_introl eq_refl)).
Qed.

Lemma greedy_loop_le uncovered size :
  greedy_loop uncovered size <= size + length uncovered.
Proof.
  funelim (greedy_loop uncovered size).
  - lia.
  - clear Heqcall.
    pose proof (remove_hit_shorter best_u (e :: rest) (pick_best_in_edge _ _ Hpick)). lia.
  - simpl. lia.
Qed.

(** X17: The greedy bound is at most the number of non-empty edges, it is 0
    exactly when there is none, and it is 1 (the optimum) when the
    non-empty edges, as sets, share a node. *)
Theorem greedy_bound_on_edges (edges : list (list nat)) :
  greedy_hitting_set_size edges <= length (List.filter nonempty edges) /\
  (greedy_hitting_set_size edges = 0 <-> List.filter nonempty edges = []) /\
  (List.filter nonempty edges <> [] ->
   (forall e, In e edges -> List.NoDup e) ->
   (exists u0, forall e, In e edges -> e <> [] -> In u0 e) ->
   greedy_hitting_set_size edges = 1).
Proof.
  unfold greedy_hitting_set_size.
  set (uncovered := List.filter nonempty edges).
  assert (Hne : forall e, In e uncovered -> e <> []).
  { intros e He. apply filter_In in He. destruct He as [_ He]. now destruct e. }
  destruct uncovered as [|e rest] eqn:Hunc; cbn [nonempty].
  - split; [simpl; lia|]. split; [tauto | congruence].
  - split; [apply (greedy_loop_le (e :: rest) 0)|]. split.
    + split; [|discriminate]. intros Hz. exfalso.
      destruct (greedy_loop_picks (e :: rest) 0 Hne) as (H & Hsize & _ & _ & Hhit).
      pose proof (hitting_set_nonempty H (e :: rest) ltac:(discriminate) Hhit). lia.
    + intros _ Hnd (u0 & Hu0). apply greedy_loop_common_node; [discriminate| |].
      * intros e0 He0. apply Hnd. rewrite <- Hunc in He0. apply filter_In in He0. tauto.
      * exists u0. intros e0 He0. pose proof (Hne e0 He0) as Hn.
        rewrite <- Hunc in He0. apply filter_In in He0. apply Hu0; tauto.
Qed.

(** ** Responsibility and Shapley aggregators: the weighted sums *)

Lemma filter_single {A : Type} (f : A -> bool) (l : list A) (x : A) :
  List.NoDup l -> (forall y, In y l -> f y = true -> y = x) ->
  List.filter f l = if existsb f l then [x] else [].
Proof.
  induction l as [|y l IH]; intros Hnd Hx; [reflexivity|].
  apply List.NoDup_cons_iff in Hnd. destruct Hnd as [Hy Hnd].
  cbn [List.filter existsb].
  specialize (IH Hnd (fun z Hz => Hx z (or_intror Hz))).
  destruct (f y) eqn:Hfy; cbn [orb].
  - pose proof (Hx y (or_introl eq_refl) Hfy) as ->. f_equal.
    apply filter_nil_iff. intros z Hz. apply not_true_iff_false. intros Hfz.
    pose proof (Hx z (or_intror Hz) Hfz) as ->. contradiction.
  - exact IH.
Qed.

Lemma string_eqb_true a b : String.eqb a b = true <-> a = b.
Proof. apply String.eqb_eq. Qed.

(** The inner join with the deduplicated tuples of the answer keeps each
    measure row about a tuple of the answer exactly once. *)
Lemma merge_tuple_meta_once tm_db sup_ans :
  merge_tuple_meta tm_db sup_ans
  = flat_map (fun tm => if touches sup_ans tm
                        then [(measure_tuple_id tm, m_measure tm, m_value tm)]
                        else []) tm_db.
Proof.
  unfold merge_tuple_meta. apply flat_map_ext. intros tm.
  set (metas := drop_duplicates (map (fun r => (s_rel r, s_pk r, tuple_id r)) sup_ans)).
  set (f := fun meta : string * string * string =>
              String.eqb (fst (fst meta)) (m_relation tm)
              && String.eqb (snd (fst meta)) (m_pk tm)).
  rewrite (filter_single f metas (m_relation tm, m_pk tm, measure_tuple_id tm)).
  - assert (E : existsb f metas = touches sup_ans tm).
    { apply Bool.eq_iff_eq_true. unfold touches. rewrite !existsb_exists. split.
      - intros (meta & Hin & Hf). unfold metas in Hin. apply (proj1 (drop_duplicates_In _ _)) in Hin.
        apply in_map_iff in Hin. destruct Hin as (s & <- & Hs).
        exists s. split; [exact Hs|]. unfold f in Hf. cbn [fst snd] in Hf.
        unfold joins. apply andb_true_iff in Hf. destruct Hf as [H1 H2].
        apply string_eqb_true in H1, H2. rewrite H1, H2, !String.eqb_refl. reflexivity.
      - intros (s & Hs & Hj). exists (s_rel s, s_pk s, tuple_id s). split.
        + unfold metas. apply drop_duplicates_In. apply in_map_iff. exists s. auto.
        + unfold f. cbn [fst snd]. unfold joins in Hj.
          apply andb_true_iff in Hj. destruct Hj as [H1 H2].
          apply string_eqb_true in H1, H2. rewrite H1, H2, !String.eqb_refl. reflexivity. }
    rewrite E. destruct (touches sup_ans tm); reflexivity.
  - apply drop_duplicates_NoDup.
  - intros meta Hin Hf. unfold metas in Hin. apply (proj1 (drop_duplicates_In _ _)) in Hin.
    apply in_map_iff in Hin. destruct Hin as (s & <- & Hs).
    unfold f in Hf. cbn [fst snd] in Hf. apply andb_true_iff in Hf. destruct Hf as [H1 H2].
    apply string_eqb_true in H1, H2. unfold tuple_id, measure_tuple_id.
    rewrite H1, H2. reflexivity.
Qed.

(** The sum over the joined rows is the weighted sum of the specification. *)
Lemma joined_rows_sum (w : string -> Q) tm_db sup_ans m :
  Qsum (map (fun r : string * string * Q => (w (fst (fst r)) * snd r)%Q)
            (List.filter (fun r : string * string * Q =>
                            bool_decide (upper (snd (fst r)) = m))
                         (merge_tuple_meta tm_db sup_ans)))
  = weighted_sum w sup_ans tm_db m.
Proof.
  rewrite merge_tuple_meta_once. unfold weighted_sum.
  induction tm_db as [|tm rest IH]; [reflexivity|].
  cbn [flat_map List.filter]. destruct (touches sup_ans tm); cbn [app andb].
  - cbn [List.filter fst snd].
    destruct (bool_decide (upper (m_measure tm) = m)); cbn [map Qsum fold_right fst snd].
    + unfold Qsum in IH. now rewrite IH.
    + exact IH.
  - exact IH.
Qed.

(** The values the accumulation leaves under the four keys. *)
Lemma icqa_weighted_sums (w : string -> Q) (tm_ans : list (string * string * Q)) :
  let S := fun K => Qsum (map (fun r : string * string * Q => (w (fst (fst r)) * snd r)%Q)
                              (List.filter (fun r : string * string * Q =>
                                              bool_decide (upper (snd (fst r)) = K)) tm_ans)) in
  exists cbm cim pim rim : Q,
    icqa_weighted (fun tid => Fin (w tid)) tm_ans
    = [("CBM"%string, Fin cbm); ("CIM"%string, Fin cim);
       ("PIM"%string, Fin pim); ("RIM"%string, Fin rim)] /\
    (cbm == S "CBM"%string)%Q /\ (cim == S "CIM"%string)%Q /\
    (pim == S "PIM"%string)%Q /\ (rim == S "RIM"%string)%Q.
Proof.
  cbv zeta. unfold icqa_weighted, icqa_zero, MEASURES. cbn [map].
  assert (Hgen : forall (a b c d : Q),
            exists cbm cim pim rim : Q,
              fold_left (fun icqa (r : string * string * Q) =>
                           let tid := fst (fst r) in
                           let m := upper (snd (fst r)) in
                           if bool_decide (m ∈ map fst icqa) then
                             icqa_add m (pf_mul (Fin (w tid)) (Fin (snd r))) icqa
                           else icqa)
                        tm_ans
                        [("CBM"%string, Fin a); ("CIM"%string, Fin b);
                         ("PIM"%string, Fin c); ("RIM"%string, Fin d)]
              = [("CBM"%string, Fin cbm); ("CIM"%string, Fin cim);
                 ("PIM"%string, Fin pim); ("RIM"%string, Fin rim)] /\
              (cbm == a + Qsum (map (fun r : string * string * Q => (w (fst (fst r)) * snd r)%Q)
                                    (List.filter (fun r : string * string * Q =>
                                       bool_decide (upper (snd (fst r)) = "CBM"%string)) tm_ans)))%Q /\
              (cim == b + Qsum (map (fun r : string * string * Q => (w (fst (fst r)) * snd r)%Q)
                                    (List.filter (fun r : string * string * Q =>
                                       bool_decide (upper (snd (fst r)) = "CIM"%string)) tm_ans)))%Q /\
              (pim == c + Qsum (map (fun r : string * string * Q => (w (fst (fst r)) * snd r)%Q)
                                    (List.filter (fun r : string * string * Q =>
                                       bool_decide (upper (snd (fst r)) = "PIM"%string)) tm_ans)))%Q /\
              (rim == d + Qsum (map (fun r : string * string * Q => (w (fst (fst r)) * snd r)%Q)
                                    (List.filter (fun r : string * string * Q =>
                                       bool_decide (upper (snd (fst r)) = "RIM"%string)) tm_ans)))%Q).
  { induction tm_ans as [|r rest IH]; intros a b c d.
    - exists a, b, c, d. split; [reflexivity|]. cbn. repeat split; ring.
    - cbn [fold_left List.filter]. cbv zeta. cbn [pf_mul].
      set (m := upper (snd (fst r))).
      set (x := (w (fst (fst r)) * snd r)%Q).
      destruct (decide (m = "CBM"%string)) as [E|N1].
      { rewrite E. cbn [map fst]. rewrite bool_decide_eq_true_2 by (apply list_elem_of_In; simpl; auto).
        cbn [icqa_add String.eqb Ascii.eqb Bool.eqb andb pf_add].
        rewrite !(bool_decide_eq_true_2 ("CBM"%string = "CBM"%string)) by reflexivity.
        rewrite !bool_decide_eq_false_2 by discriminate.
        destruct (IH (a + x)%Q b c d) as (a' & b' & c' & d' & H & Ha & Hb & Hc & Hd).
        exists a', b', c', d'. split; [exact H|]. cbn [map Qsum fold_right].
        fold x. unfold Qsum in *. repeat split; [rewrite Ha; ring | assumption..]. }
      destruct (decide (m = "CIM"%string)) as [E|N2].
      { rewrite E. cbn [map fst]. rewrite bool_decide_eq_true_2 by (apply list_elem_of_In; simpl; auto).
        cbn [icqa_add String.eqb Ascii.eqb Bool.eqb andb pf_add].
        rewrite !(bool_decide_eq_true_2 ("CIM"%string = "CIM"%string)) by reflexivity.
        rewrite !bool_decide_eq_false_2 by discriminate.
        destruct (IH a (b + x)%Q c d) as (a' & b' & c' & d' & H & Ha & Hb & Hc & Hd).
        exists a', b', c', d'. split; [exact H|]. cbn [map Qsum fold_right].
        fold x. unfold Qsum in *. repeat split; [assumption | rewrite Hb; ring | assumption..]. }
      destruct (decide (m = "PIM"%string)) as [E|N3].
      { rewrite E. cbn [map fst]. rewrite bool_decide_eq_true_2 by (apply list_elem_of_In; simpl; auto).
        cbn [icqa_add String.eqb Ascii.eqb Bool.eqb andb pf_add].
        rewrite !(bool_decide_eq_true_2 ("PIM"%string = "PIM"%string)) by reflexivity.
        rewrite !bool_decide_eq_false_2 by discriminate.
        destruct (IH a b (c + x)%Q d) as (a' & b' & c' & d' & H & Ha & Hb & Hc & Hd).
        exists a', b', c', d'. split; [exact H|]. cbn [map Qsum fold_right].
        fold x. unfold Qsum in *. repeat split; [assumption | assumption | rewrite Hc; ring | assumption]. }
      destruct (decide (m = "RIM"%string)) as [E|N4].
      { rewrite E. cbn [map fst]. rewrite bool_decide_eq_true_2 by (apply list_elem_of_In; simpl; auto).
        cbn [icqa_add String.eqb Ascii.eqb Bool.eqb andb pf_add].
        rewrite !(bool_decide_eq_true_2 ("RIM"%string = "RIM"%string)) by reflexivity.
        rewrite !bool_decide_eq_false_2 by discriminate.
        destruct (IH a b c (d + x)%Q) as (a' & b' & c' & d' & H & Ha & Hb & Hc & Hd).
        exists a', b', c', d'. split; [exact H|]. cbn [map Qsum fold_right].
        fold x. unfold Qsum in *. repeat split; [assumption | assumption | assumption | rewrite Hd; ring]. }
      cbn [map fst]. rewrite (bool_decide_eq_false_2 (m ∈ _)).
      2:{ intros H. apply list_elem_of_In in H. simpl in H. intuition congruence. }
      rewrite !bool_decide_eq_false_2 by assumption.
      apply IH. }
  destruct (Hgen 0%Q 0%Q 0%Q 0%Q) as (a & b & c & d & H & Ha & Hb & Hc & Hd).
  exists a, b, c, d. split; [exact H|].
  rewrite Ha, Hb, Hc, Hd. repeat split; ring.
Qed.

Lemma icqa_weighted_ext (f g : string -> pyfloat) tm_ans :
  (forall tid, f tid = g tid) -> icqa_weighted f tm_ans = icqa_weighted g tm_ans.
Proof.
  intros Hfg. unfold icqa_weighted. generalize icqa_zero.
  induction tm_ans as [|r rest IH]; intros acc; [reflexivity|].
  cbn [fold_left]. cbv zeta. rewrite Hfg. apply IH.
Qed.

Lemma resp_weighted_score (w : string -> Q) tm_db sup_ans m id val :
  In m MEASURES ->
  exists q,
    row_score ("icqa_resp_" ++ lower m)%string
      {| r_answer_id := id; r_answervalue := val;
         r_scores := score_columns "resp"
                       (icqa_weighted (fun tid => Fin (w tid))
                                      (merge_tuple_meta tm_db sup_ans)) |}
    = Some (Fin q) /\
    (q == weighted_sum w sup_ans tm_db m)%Q.
Proof.
  intros Hm.
  destruct (icqa_weighted_sums w (merge_tuple_meta tm_db sup_ans))
    as (a & b & c & d & -> & Ha & Hb & Hc & Hd).
  rewrite !joined_rows_sum in Ha, Hb, Hc, Hd.
  destruct Hm as [<-|[<-|[<-|[<-|[]]]]]; eexists; (split; [reflexivity | assumption]).
Qed.

Lemma shap_weighted_score (w : string -> Q) tm_db sup_ans m id val :
  In m MEASURES ->
  exists q,
    row_score ("icqa_shap_" ++ lower m)%string
      {| r_answer_id := id; r_answervalue := val;
         r_scores := score_columns "shap"
                       (icqa_weighted (fun tid => Fin (w tid))
                                      (merge_tuple_meta tm_db sup_ans)) |}
    = Some (Fin q) /\
    (q == weighted_sum w sup_ans tm_db m)%Q.
Proof.
  intros Hm.
  destruct (icqa_weighted_sums w (merge_tuple_meta tm_db sup_ans))
    as (a & b & c & d & -> & Ha & Hb & Hc & Hd).
  rewrite !joined_rows_sum in Ha, Hb, Hc, Hd.
  destruct Hm as [<-|[<-|[<-|[<-|[]]]]]; eexists; (split; [reflexivity | assumption]).
Qed.

Lemma weighted_sum_null (w : string -> Q) sup_ans tm_db m :
  (forall tid, w tid = 0%Q) -> (weighted_sum w sup_ans tm_db m == 0)%Q.
Proof.
  intros Hw. unfold weighted_sum.
  induction (List.filter _ tm_db) as [|tm l IH]; [reflexivity|].
  cbn [map Qsum fold_right]. unfold Qsum in IH. rewrite IH, Hw. ring.
Qed.

Lemma weighted_sum_no_rows (w : string -> Q) sup_ans tm_db m :
  merge_tuple_meta tm_db sup_ans = [] -> weighted_sum w sup_ans tm_db m = 0%Q.
Proof. intros H. rewrite <- joined_rows_sum, H. reflexivity. Qed.

Lemma zero_score_resp m id val :
  In m MEASURES ->
  row_score ("icqa_resp_" ++ lower m)%string
    {| r_answer_id := id; r_answervalue := val;
       r_scores := score_columns "resp" icqa_zero |} = Some (Fin 0).
Proof. intros [<-|[<-|[<-|[<-|[]]]]]; reflexivity. Qed.

Lemma zero_score_shap m id val :
  In m MEASURES ->
  row_score ("icqa_shap_" ++ lower m)%string
    {| r_answer_id := id; r_answervalue := val;
       r_scores := score_columns "shap" icqa_zero |} = Some (Fin 0).
Proof. intros [<-|[<-|[<-|[<-|[]]]]]; reflexivity. Qed.

Lemma length_zero_nil {A : Type} (l : list A) : Nat.eqb (length l) 0 = true -> l = [].
Proof. destruct l; [reflexivity | discriminate]. Qed.

(** X18: The responsibility aggregator computes a weighted sum: for every
    answer of the query and every measure kind,
    the reported score is the sum, over the measure rows of that kind
    about a tuple of the answer (each row once, however many support sets
    the tuple is in), of the tuple's responsibility times the value. *)
Theorem resp_score_is_weighted_sum
  (sat_atmost : list (list nat) -> list nat -> nat -> bool)
  (support_q : list support_row) (tm_db : list measure_row)
  (answer : Z * string) (m : string) :
  In m MEASURES ->
  In answer (map (fun r => (s_answer_id r, s_answervalue r)) support_q) ->
  let sup_ans := List.filter (fun r => (s_answer_id r =? fst answer)%Z) support_q in
  exists q,
    reported_score (compute_resp_for_query sat_atmost support_q tm_db) answer
                   ("icqa_resp_" ++ lower m)%string = Some (Fin q) /\
    (q == weighted_sum (resp_weight sat_atmost sup_ans) sup_ans tm_db m)%Q.
Proof.
  intros Hm Hans. cbv zeta. unfold compute_resp_for_query, reported_score.
  rewrite (find_by_key (fun r0 => (r_answer_id r0, r_answervalue r0)));
    [|intros [id val]; reflexivity | now apply drop_duplicates_In].
  unfold resp_row_for_answer.
  set (sup_ans := List.filter (fun r => (s_answer_id r =? fst answer)%Z) support_q).
  set (uniq_tuples := drop_duplicates (map tuple_id sup_ans)).
  set (support_sets := support_sets_of uniq_tuples sup_ans).
  destruct (Nat.eqb (length uniq_tuples) 0 || negb (nonempty support_sets)) eqn:Hdeg.
  - exists 0%Q. split; [now apply zero_score_resp|].
    symmetry. apply weighted_sum_null. intros tid. unfold resp_weight.
    fold sup_ans. fold uniq_tuples. fold support_sets.
    apply orb_true_iff in Hdeg. destruct Hdeg as [Hn|Hs].
    + apply length_zero_nil in Hn. rewrite Hn. cbn [tid2idx].
      now destruct (nonempty support_sets).
    + apply negb_true_iff in Hs. now rewrite Hs.
  - apply orb_false_iff in Hdeg. destruct Hdeg as [_ Hs]. apply negb_false_iff in Hs.
    destruct (negb (nonempty (merge_tuple_meta tm_db sup_ans))) eqn:Hrows.
    + exists 0%Q. split; [now apply zero_score_resp|].
      rewrite weighted_sum_no_rows; [reflexivity|].
      destruct (merge_tuple_meta tm_db sup_ans); [reflexivity | discriminate].
    + rewrite (icqa_weighted_ext _ (fun tid => Fin (resp_weight sat_atmost sup_ans tid))).
      * now apply resp_weighted_score.
      * intros tid. unfold resp_weight. fold uniq_tuples. fold support_sets. rewrite Hs.
        now destruct (tid2idx uniq_tuples tid).
Qed.

Section ShapSum.

Variable rng_state : Type.
Variable default_rng : Z -> rng_state.
Variable rng_permutation : rng_state -> nat -> list nat * rng_state.

(** X19: The Shapley aggregator computes the same weighted sum with the
    exact Shapley values as weights, when the
    answer has at most [N_EXACT] distinct tuples; it then leaves the
    random generator untouched. *)
Theorem shap_score_is_weighted_sum (answer_id : Z)
  (support_ans : list support_row) (tm_db : list measure_row) (rng : rng_state)
  (m : string) :
  In m MEASURES ->
  support_ans <> [] ->
  length (drop_duplicates (map tuple_id support_ans)) <= N_EXACT ->
  exists row q,
    compute_icqa_shap_for_answer rng_state default_rng rng_permutation
      answer_id support_ans tm_db rng = Ok (row, rng) /\
    row_score ("icqa_shap_" ++ lower m)%string row = Some (Fin q) /\
    (q == weighted_sum (shap_weight support_ans) support_ans tm_db m)%Q.
Proof.
  intros Hm Hne Hsmall. unfold compute_icqa_shap_for_answer.
  destruct support_ans as [|first rest] eqn:Hsup; [congruence|]. cbn [bind].
  rewrite <- Hsup in *. clear Hne.
  set (uniq_tuples := drop_duplicates (map tuple_id support_ans)) in *.
  set (support_sets := support_sets_of uniq_tuples support_ans).
  apply Nat.leb_le in Hsmall. rewrite Hsmall.
  destruct (Nat.eqb (length uniq_tuples) 0 || negb (nonempty support_sets)) eqn:Hdeg.
  - eexists. exists 0%Q. split; [reflexivity|]. split; [now apply zero_score_shap|].
    symmetry. apply weighted_sum_null. intros tid. unfold shap_weight.
    fold uniq_tuples. fold support_sets.
    apply orb_true_iff in Hdeg. destruct Hdeg as [Hn|Hs].
    + apply length_zero_nil in Hn. rewrite Hn. cbn [tid2idx].
      now destruct (nonempty support_sets).
    + apply negb_true_iff in Hs. now rewrite Hs.
  - apply orb_false_iff in Hdeg. destruct Hdeg as [_ Hs]. apply negb_false_iff in Hs.
    destruct (negb (nonempty (merge_tuple_meta tm_db support_ans))) eqn:Hrows.
    + eexists. exists 0%Q. split; [reflexivity|]. split; [now apply zero_score_shap|].
      rewrite weighted_sum_no_rows; [reflexivity|].
      destruct (merge_tuple_meta tm_db support_ans); [reflexivity | discriminate].
    + rewrite (icqa_weighted_ext _ (fun tid => Fin (shap_weight support_ans tid))).
      * destruct (shap_weighted_score (shap_weight support_ans) tm_db support_ans m
                    answer_id (s_answervalue first) Hm) as (q & Hq & Hsum).
        eexists. exists q. split; [reflexivity|]. split; [exact Hq | exact Hsum].
      * intros tid. unfold shap_weight. fold uniq_tuples. fold support_sets. rewrite Hs.
        destruct (tid2idx uniq_tuples tid) as [idx|]; [|reflexivity].
        apply (map_nth Fin).
Qed.

End ShapSum.

Lemma answer_x_in_support_abc :
  In answer_x (map (fun r => (s_answer_id r, s_answervalue r)) support_abc).
Proof. simpl. auto. Qed.

Lemma resp_score_is_weighted_sum_witness :
  (In "CBM"%string MEASURES /\
   In answer_x (map (fun r => (s_answer_id r, s_answervalue r)) support_abc)) /\
  (let sup_ans := List.filter (fun r => (s_answer_id r =? fst answer_x)%Z) support_abc in
   exists q,
     reported_score (compute_resp_for_query sat_atmost_search support_abc measures_ab)
                    answer_x ("icqa_resp_" ++ lower "CBM")%string = Some (Fin q) /\
     (q == weighted_sum (resp_weight sat_atmost_search sup_ans) sup_ans measures_ab "CBM")%Q).
Proof.
  split; [split; [exact CBM_in_MEASURES | exact answer_x_in_support_abc]|].
  apply (resp_score_is_weighted_sum sat_atmost_search support_abc measures_ab answer_x "CBM"
           CBM_in_MEASURES answer_x_in_support_abc).
Defined.

Lemma support_abc_nonempty : support_abc <> [].
Proof. discriminate. Qed.

Lemma support_abc_small : length (drop_duplicates (map tuple_id support_abc)) <= N_EXACT.
Proof. vm_compute. lia. Qed.

Lemma shap_score_is_weighted_sum_witness :
  (In "CBM"%string MEASURES /\ support_abc <> [] /\
   length (drop_duplicates (map tuple_id support_abc)) <= N_EXACT) /\
  exists row q,
    compute_icqa_shap_for_answer unit (fun _ => tt) rev_rng 1 support_abc measures_ab tt
    = Ok (row, tt) /\
    row_score ("icqa_shap_" ++ lower "CBM")%string row = Some (Fin q) /\
    (q == weighted_sum (shap_weight support_abc) support_abc measures_ab "CBM")%Q.
Proof.
  split; [split; [exact CBM_in_MEASURES | split; [exact support_abc_nonempty |
                                                   exact support_abc_small]]|].
  apply (shap_score_is_weighted_sum unit (fun _ => tt) rev_rng 1 support_abc measures_ab tt
           "CBM" CBM_in_MEASURES support_abc_nonempty support_abc_small).
Defined.

(** Tuple A lies in both support sets {A,B}, {A,C}: its responsibility is
    1 and its Shapley value 2/3; B has 1/2 and 1/6.  With CBM(A) = 2 and
    CBM(B) = 4 the responsibility score is 4 and the Shapley score 2. *)
Example weighted_scores_two_sets :
  (weighted_sum (resp_weight sat_atmost_search support_abc) support_abc measures_ab "CBM"
   == 4)%Q /\
  (weighted_sum (shap_weight support_abc) support_abc measures_ab "CBM" == 2)%Q.
Proof. split; vm_compute; reflexivity. Qed.

(** ** RIM: the hypergraph and the ranking of the contributions *)

(** X20: [build_hypergraph_from_mis] keeps one edge per MIS that yields a
    tuple, in order and without merging equal MIS; the tuples of an edge
    are those the MIS yields, and the universe is the union of the edges. *)
Theorem build_hypergraph_edges (int_of_str : string -> option Z)
  (mis_list : list json) (ws : list (list TupleKey)) :
  map_result (iter_mis_tuples int_of_str) mis_list = Ok ws ->
  exists universe,
    build_hypergraph_from_mis int_of_str mis_list
    = Ok (map (fun w => list_to_set w) (List.filter nonempty ws), universe) /\
    (forall t, t ∈ universe <-> exists w, In w ws /\ In t w) /\
    length (List.filter nonempty ws) <= length mis_list.
Proof.
  intros Hws. unfold build_hypergraph_from_mis.
  assert (Hgen : forall mis_list ws (acc : list (gset (string * list Z)) * gset (string * list Z)),
            map_result (iter_mis_tuples int_of_str) mis_list = Ok ws ->
            exists universe,
              for_each (fun (acc : list (gset (string * list Z)) * gset (string * list Z)) mis =>
                          let* tks := iter_mis_tuples int_of_str mis in
                          let e : gset (string * list Z) := list_to_set tks in
                          if decide (e = ∅) then Ok acc
                          else Ok (fst acc ++ [e], snd acc ∪ e))
                       mis_list acc
              = Ok (fst acc ++ map (fun w => list_to_set w) (List.filter nonempty ws), universe) /\
              forall t, t ∈ universe <-> t ∈ snd acc \/ exists w, In w ws /\ In t w).
  { clear. induction mis_list as [|mis rest IH]; intros ws acc Hws.
    - cbn in Hws. injection Hws as <-. destruct acc as [edges universe].
      exists universe. cbn [for_each List.filter map fst snd]. rewrite app_nil_r.
      split; [reflexivity|]. intros t. split; [auto | intros [H|(w & [] & _)]; exact H].
    - cbn [map_result] in Hws. cbn [for_each].
      destruct (iter_mis_tuples int_of_str mis) as [tks|err]; cbn [bind] in *; [|discriminate].
      destruct (map_result (iter_mis_tuples int_of_str) rest) as [ws'|err] eqn:Hrest;
        cbn [bind] in Hws; [|discriminate].
      injection Hws as <-. cbn [List.filter].
      destruct tks as [|tk tks].
      + cbn [nonempty list_to_set].
        destruct (decide ((∅ : gset (string * list Z)) = ∅)) as [_|Hne]; [|congruence].
        destruct (IH ws' acc eq_refl) as (universe & Hrun & Hiff).
        exists universe. split; [exact Hrun|]. intros t. rewrite Hiff.
        split; intros [H|(w & Hw & Ht)]; auto.
        * right. exists w. simpl. auto.
        * destruct Hw as [<-|Hw]; [destruct Ht | right; eauto].
      + cbn [nonempty].
        destruct (decide (list_to_set (tk :: tks) = (∅ : gset (string * list Z)))) as [He|He].
        { exfalso. exact (list_to_set_cons_nonempty tk tks He). }
        destruct (IH ws' (fst acc ++ [list_to_set (tk :: tks)],
                          snd acc ∪ list_to_set (tk :: tks)) eq_refl)
          as (universe & Hrun & Hiff).
        exists universe. cbn [fst snd] in Hrun. rewrite <- app_assoc in Hrun.
        split; [exact Hrun|]. intros t. rewrite Hiff. cbn [snd].
        rewrite elem_of_union, elem_of_list_to_set, list_elem_of_In. split.
        * intros [[H|H]|(w & Hw & Ht)]; auto.
          -- right. exists (tk :: tks). simpl. auto.
          -- right. exists w. simpl. auto.
        * intros [H|(w & [<-|Hw] & Ht)]; auto. right. eauto. }
  destruct (Hgen mis_list ws ([], ∅) Hws) as (universe & Hrun & Hiff).
  exists universe. split; [exact Hrun|]. split.
  - intros t. rewrite Hiff. cbn [snd].
    split; [intros [H|H]; [now apply not_elem_of_empty in H | exact H] | auto].
  - rewrite <- (map_result_length _ _ _ Hws). apply List.filter_length_le.
Qed.

Lemma build_hypergraph_edges_witness :
  map_result (iter_mis_tuples (fun _ => None)) mis_list_ex
  = Ok [[part_key 1; part_key 2]; [part_key 1; part_key 3]] /\
  exists universe,
    build_hypergraph_from_mis (fun _ => None) mis_list_ex
    = Ok (map (fun w => list_to_set w)
              (List.filter nonempty [[part_key 1; part_key 2]; [part_key 1; part_key 3]]),
          universe) /\
    (forall t, t ∈ universe
               <-> exists w, In w [[part_key 1; part_key 2]; [part_key 1; part_key 3]] /\
                             In t w) /\
    length (List.filter nonempty [[part_key 1; part_key 2]; [part_key 1; part_key 3]])
    <= length mis_list_ex.
Proof.
  split; [reflexivity|].
  apply (build_hypergraph_edges (fun _ => None) mis_list_ex). reflexivity.
Defined.

Section RimRanking.

Variable int_of_str : string -> option Z.
Variable py_hash : list nat -> Z.
Variable solver_state : Type.
Variable CpSolver_Solve : solver_state -> Q -> CpModel -> cp_status * Z * solver_state.
Hypothesis solver_sound : cp_solver_sound CpSolver_Solve.

(** The contributions are the responsibilities, scaled by one positive
    factor. *)
Lemma compute_rim_for_dc_proportional st mis_list time_limit_s enable_cache edges_tk universe :
  build_hypergraph_from_mis int_of_str mis_list = Ok (edges_tk, universe) ->
  exists rim_contrib gamma_details st' (scale : Q),
    compute_rim_for_dc int_of_str py_hash solver_state CpSolver_Solve
                       st mis_list time_limit_s enable_cache
    = Ok (rim_contrib, gamma_details, st') /\
    (0 < scale)%Q /\
    forall t c, In (t, c) rim_contrib ->
      exists r, (c == r * scale)%Q /\
                (0 < r)%Q /\ (r <= 1)%Q /\
                ((r == 1)%Q <-> forall e, In e edges_tk -> t ∈ e).
Proof.
  intros Hbuild.
  destruct (rim_rho_for_dc_spec int_of_str py_hash solver_state CpSolver_Solve solver_sound
              st mis_list time_limit_s enable_cache _ _ Hbuild)
    as (s & Hrun & Hkeys & Hvals).
  unfold compute_rim_for_dc.
  destruct (Nat.eqb_spec (length mis_list) 0) as [Hz|Hm].
  { exists [], [], st, 1%Q. split; [reflexivity|]. split; [reflexivity | intros ? ? []]. }
  rewrite Hrun. cbn [bind fst snd].
  set (rho := rl_rho s) in *. set (denom := Qsum (map snd rho)).
  destruct (Qle_bool denom 0) eqn:Hle.
  { exists [], (rl_gamma_details s), (rl_solver s), 1%Q.
    split; [reflexivity|]. split; [reflexivity | intros ? ? []]. }
  assert (Hdenom : (0 < denom)%Q).
  { apply Qnot_le_lt. intros H. apply Qle_bool_iff in H. congruence. }
  rewrite <- Hkeys.
  rewrite (alist_items_all
             (fun r => (r / denom * inject_Z (Z.of_nat (length mis_list)))%Q) rho rho).
  - cbn [bind]. eexists. eexists. eexists.
    exists (inject_Z (Z.of_nat (length mis_list)) / denom)%Q.
    split; [reflexivity|].
    assert (Hm' : (0 < inject_Z (Z.of_nat (length mis_list)))%Q)
      by (rewrite <- (Zlt_Qlt 0); lia).
    split.
    + apply Qlt_shift_div_l; [exact Hdenom|]. now rewrite Qmult_0_l.
    + intros t c Hin. apply in_map_iff in Hin. destruct Hin as ([t' r] & [= <- <-] & Hin).
      cbn [fst snd]. exists r. split; [|exact (Hvals t' r Hin)].
      field. intros Hd. rewrite Hd in Hdenom. discriminate.
  - intros k v Hin. apply alist_get_nodup; [|exact Hin].
    fold rho in Hkeys. rewrite Hkeys. apply NoDup_elements_list.
Qed.

(** X21: The RIM contribution follows the responsibility: a tuple that lies in
    every MIS of the constraint gets a contribution at least as large as
    any other tuple, and exactly the tuples in every MIS reach it. *)
Theorem rim_ranks_common_tuples_first (st : solver_state) (mis_list : list json)
  (time_limit_s : Q) (enable_cache : bool)
  (edges_tk : list (gset (string * list Z))) (universe : gset (string * list Z)) :
  build_hypergraph_from_mis int_of_str mis_list = Ok (edges_tk, universe) ->
  exists rim_contrib gamma_details st',
    compute_rim_for_dc int_of_str py_hash solver_state CpSolver_Solve
                       st mis_list time_limit_s enable_cache
    = Ok (rim_contrib, gamma_details, st') /\
    forall t ct u cu,
      In (t, ct) rim_contrib -> In (u, cu) rim_contrib ->
      (forall e, In e edges_tk -> t ∈ e) ->
      (cu <= ct)%Q /\ ((cu == ct)%Q <-> forall e, In e edges_tk -> u ∈ e).
Proof.
  intros Hbuild.
  destruct (compute_rim_for_dc_proportional st mis_list time_limit_s enable_cache _ _ Hbuild)
    as (rim_contrib & gd & st' & scale & Hrun & Hscale & Hprop).
  exists rim_contrib, gd, st'. split; [exact Hrun|].
  intros t ct u cu Ht Hu Hall.
  destruct (Hprop t ct Ht) as (rt & Hct & _ & _ & Hrt).
  destruct (Hprop u cu Hu) as (ru & Hcu & _ & Hru1 & Hru).
  apply Hrt in Hall. rewrite Hct, Hcu, Hall. split.
  - nra.
  - rewrite <- Hru. split; intros H.
    + assert (Hs : ~ (scale == 0)%Q) by (intros E; rewrite E in Hscale; discriminate).
      apply (Qmult_inj_r _ _ _ Hs). exact H.
    + now rewrite H.
Qed.

End RimRanking.

Lemma rim_ranks_common_tuples_first_witness :
  build_hypergraph_from_mis (fun _ => None) mis_list_ex = Ok (edges_ex, universe_ex) /\
  exists rim_contrib gamma_details st',
    compute_rim_for_dc (fun _ => None) encode_hash unit cp_search tt mis_list_ex 1%Q true
    = Ok (rim_contrib, gamma_details, st') /\
    forall t ct u cu,
      In (t, ct) rim_contrib -> In (u, cu) rim_contrib ->
      (forall e, In e edges_ex -> t ∈ e) ->
      (cu <= ct)%Q /\ ((cu == ct)%Q <-> forall e, In e edges_ex -> u ∈ e).
Proof.
  split; [exact build_hypergraph_example|].
  apply (rim_ranks_common_tuples_first (fun _ => None) encode_hash unit cp_search
           cp_search_sound tt mis_list_ex 1%Q true edges_ex universe_ex).
  exact build_hypergraph_example.
Defined.
